(** * chartdb-server: the versioned diagram store and its client-side coordinator

    Two components are embedded here.

    - [Backend] follows [backend/main.go]: the SQLite tables become finite
      maps and a list of rows, every store function becomes a function from
      a database to either an error (the transaction rolled back, the
      database unchanged) or the committed database.
    - [Coordinator] follows [src/context/storage-context/storage-provider.tsx]:
      JavaScript objects live in an explicit heap of cells, the cache and the
      owner indices are maps of references into it, and every operation is a
      computation in a state-and-exception monad that also records the
      outcome of each call to the store. *)

From Stdlib Require Import ZArith Ascii String.
From stdpp Require Import gmap strings list sorting pretty.

#[local] Set Warnings "-register-all".

Open Scope Z_scope.
Open Scope string_scope.

(** ** Decoded JSON

    A JSON text as both [encoding/json] and [JSON.parse] see it.  Numbers are
    IEEE-754 binary64 values, kept as their 64-bit pattern; the members of an
    object are kept in order. *)

Inductive json : Type :=
  | JNull
  | JBool (b : bool)
  | JNumber (bits : Z)
  | JString (s : string)
  | JArray (items : list json)
  | JObject (members : list (string * json)).

(** A Go [map[string]interface{}] holding a decoded object: keys are unique
    and unordered. *)
Abbreviation object := (gmap string json).

(** Decoding an object keeps the last of several members with one name. *)
Definition object_of_members (kvs : list (string * json)) : object :=
  list_to_map (reverse kvs).

(** Outcomes of fallible code. *)
Inductive result (E A : Type) : Type :=
  | Ok (a : A)
  | Err (e : E).
Arguments Ok {E A} a.
Arguments Err {E A} e.

Definition rbind {E A B} (r : result E A) (f : A → result E B) : result E B :=
  match r with
  | Ok a => f a
  | Err e => Err e
  end.

#[global] Instance result_bind {E} : MBind (result E) := λ A B f r, rbind r f.
#[global] Instance result_ret {E} : MRet (result E) := λ A a, Ok a.

Definition is_ok {E A} (r : result E A) : bool :=
  match r with Ok _ => true | Err _ => false end.

Module Backend.

(** *** Go's [strings.TrimSpace]

    A Go string is a byte sequence; the strings compared here come out of the
    JSON decoder, so they are valid UTF-8.  White space is what
    [unicode.IsSpace] accepts: the six ASCII characters, U+0085, U+00A0,
    U+1680, U+2000..U+200A, U+2028, U+2029, U+202F, U+205F and U+3000, here
    in their UTF-8 encodings. *)

Definition is_byte (n : nat) (c : ascii) : bool := Nat.eqb (nat_of_ascii c) n.

Definition asciiSpace (c : ascii) : bool :=
  is_byte 9 c || is_byte 10 c || is_byte 11 c || is_byte 12 c
  || is_byte 13 c || is_byte 32 c.

Definition space2 (c1 c2 : ascii) : bool :=
  is_byte 0xC2 c1 && (is_byte 0x85 c2 || is_byte 0xA0 c2).

Definition space3 (c1 c2 c3 : ascii) : bool :=
  let n3 := nat_of_ascii c3 in
  (is_byte 0xE1 c1 && is_byte 0x9A c2 && is_byte 0x80 c3)
  || (is_byte 0xE2 c1 && is_byte 0x80 c2
      && (Nat.leb 0x80 n3 && Nat.leb n3 0x8A
          || is_byte 0xA8 c3 || is_byte 0xA9 c3 || is_byte 0xAF c3))
  || (is_byte 0xE2 c1 && is_byte 0x81 c2 && is_byte 0x9F c3)
  || (is_byte 0xE3 c1 && is_byte 0x80 c2 && is_byte 0x80 c3).

(** Drops leading white-space runes; [sp2] and [sp3] recognise the two- and
    three-byte ones in the order the bytes are met. *)
Fixpoint trim_runes (sp2 : ascii → ascii → bool)
    (sp3 : ascii → ascii → ascii → bool) (s : string) : string :=
  match s with
  | EmptyString => EmptyString
  | String c1 r1 =>
      if asciiSpace c1 then trim_runes sp2 sp3 r1 else
      match r1 with
      | EmptyString => s
      | String c2 r2 =>
          if sp2 c1 c2 then trim_runes sp2 sp3 r2 else
          match r2 with
          | EmptyString => s
          | String c3 r3 =>
              if sp3 c1 c2 c3 then trim_runes sp2 sp3 r3 else s
          end
      end
  end.

Definition TrimLeftSpace (s : string) : string := trim_runes space2 space3 s.

Definition TrimRightSpace (s : string) : string :=
  String.rev
    (trim_runes (λ c2 c1, space2 c1 c2) (λ c3 c2 c1, space3 c1 c2 c3)
       (String.rev s)).

Definition TrimSpace (s : string) : string := TrimRightSpace (TrimLeftSpace s).

(** *** Errors

    The Go errors that the store functions return: [sql.ErrNoRows], the
    engine's unique-constraint failure, and the four messages built with
    [errors.New]. *)
Inductive error : Type :=
  | ErrNoRows
  | ErrUniqueConstraint
  | ErrInvalidJSON            (* "invalid json payload" *)
  | ErrIDRequired             (* "diagram.id is required" *)
  | ErrNameRequired           (* "diagram.name is required" *)
  | ErrDatabaseTypeRequired.  (* "diagram.databaseType is required" *)

#[global] Instance error_eq_dec : EqDecision error.
Proof. solve_decision. Defined.

(** [strings.Contains(strings.ToLower(err.Error()), "unique")] *)
Definition isUniqueConstraintError (e : error) : bool :=
  match e with ErrUniqueConstraint => true | _ => false end.

Definition isErrNoRows (e : error) : bool :=
  match e with ErrNoRows => true | _ => false end.

Record diagramMeta : Type := {
  ID : string;
  Name : string;
  DatabaseType : string;
  DatabaseEdition : option string;
  CreatedAt : string;
  UpdatedAt : string;
}.

Record diagramVersion : Type := {
  VersionID : Z;
  VersionDiagramID : string;
  VersionName : string;
  Action : string;
  VersionCreatedAt : string;
}.

(** [asString(data[k])]: a missing key reads as nil, which is no string. *)
Definition asString (v : option json) : option string :=
  match v with
  | Some (JString s) => Some s
  | _ => None
  end.

Definition required (v : option json) : option string :=
  match asString v with
  | Some s => if decide (TrimSpace s = "") then None else Some s
  | None => None
  end.

(** What [json.Unmarshal(raw, &data)] leaves in a map that was empty: the
    members of an object, nothing for [null], an error for anything else. *)
Definition unmarshal_object (raw : json) : option object :=
  match raw with
  | JObject kvs => Some (object_of_members kvs)
  | JNull => Some ∅
  | _ => None
  end.

(** [json.Marshal] of a map writes an object with one member per key.  A
    payload that is stored, returned or compared is the output of
    [json.Marshal] on a map; it is kept as that map, and [Marshal] gives its
    text back where the code decodes it again. *)
Definition Marshal (m : object) : json := JObject (map_to_list m).

(** A nil map is written as [null]. *)
Definition marshalPayload (m : option object) : json :=
  match m with
  | Some m => Marshal m
  | None => JNull
  end.

(** [normalizeMap] is the body of [normalizeDiagramPayload] after the
    decoding step; [nowISO] is the value of
    [time.Now().UTC().Format(time.RFC3339Nano)] at the call. *)
Definition normalizeMap (nowISO : string) (data : object)
    : result error (object * diagramMeta) :=
  match required (data !! "id") with
  | None => Err ErrIDRequired
  | Some id =>
  match required (data !! "name") with
  | None => Err ErrNameRequired
  | Some name =>
  match required (data !! "databaseType") with
  | None => Err ErrDatabaseTypeRequired
  | Some databaseType =>
      let '(createdAt, data) :=
        match asString (data !! "createdAt") with
        | Some c =>
            if decide (c = "") then (nowISO, <["createdAt" := JString nowISO]> data)
            else (c, data)
        | None => (nowISO, <["createdAt" := JString nowISO]> data)
        end in
      let '(updatedAt, data) :=
        match asString (data !! "updatedAt") with
        | Some u =>
            if decide (u = "") then (nowISO, <["updatedAt" := JString nowISO]> data)
            else (u, data)
        | None => (nowISO, <["updatedAt" := JString nowISO]> data)
        end in
      let databaseEdition := asString (data !! "databaseEdition") in
      Ok (data,
          {| ID := id; Name := name; DatabaseType := databaseType;
             DatabaseEdition := databaseEdition;
             CreatedAt := createdAt; UpdatedAt := updatedAt |})
  end end end.

Definition normalizeDiagramPayload (nowISO : string) (raw : json)
    : result error (object * diagramMeta) :=
  match unmarshal_object raw with
  | None => Err ErrInvalidJSON
  | Some data => normalizeMap nowISO data
  end.

(** A request body: bytes that are no JSON text at all, or a JSON value. *)
Inductive body : Type :=
  | Malformed
  | Text (j : json).

(** [json.NewDecoder(r.Body).Decode(&payload)] into a nil map, followed by
    [json.Marshal(payload)]: a [null] body leaves the map nil, which is
    written back as [null]. *)
Definition decodeBody (b : body) : option (option object) :=
  match b with
  | Text (JObject kvs) => Some (Some (object_of_members kvs))
  | Text JNull => Some None
  | _ => None
  end.

Definition decodeAndNormalizeDiagramPayload (nowISO : string) (b : body)
    : result error (object * diagramMeta) :=
  match decodeBody b with
  | None => Err ErrInvalidJSON
  | Some payload => normalizeDiagramPayload nowISO (marshalPayload payload)
  end.

(** The member [k] of a request body, if the body is an object that has
    one. *)
Definition body_field (b : body) (k : string) : option json :=
  match decodeBody b with
  | Some (Some m) => m !! k
  | _ => None
  end.

(** A required field that is missing, is no string, or is blank once
    trimmed. *)
Definition invalid_field (v : option json) : Prop :=
  v = None ∨ (∃ j, v = Some j ∧ ∀ s, j ≠ JString s)
  ∨ (∃ s, v = Some (JString s) ∧ TrimSpace s = "").

(** The timestamp a normalized payload carries for a field that came in as
    [v]: the string itself unless it is absent, no string or empty. *)
Definition stamp (nowISO : string) (v : option json) : string :=
  match v with
  | Some (JString c) => if decide (c = "") then nowISO else c
  | _ => nowISO
  end.

(** *** The database

    [diagrams] has primary key [id]; [diagram_versions] has an
    [INTEGER PRIMARY KEY AUTOINCREMENT], for which the engine keeps the
    largest id it ever handed out ([diagram_versions_seq]);
    [diagram_filters] has primary key [diagram_id].  A filter payload is the
    marshalled form of a map that may be nil. *)

Record diagramRow : Type := {
  d_name : string;
  d_database_type : string;
  d_database_edition : option string;
  d_payload : object;
  d_created_at : string;
  d_updated_at : string;
}.

Record versionRow : Type := {
  v_id : Z;
  v_diagram_id : string;
  v_name : string;
  v_payload : object;
  v_action : string;
  v_created_at : string;
}.

Record db : Type := {
  diagrams : gmap string diagramRow;
  diagram_versions : list versionRow;
  diagram_versions_seq : Z;
  diagram_filters : gmap string (option object);
}.

(** The tables that [initSchema] creates. *)
Definition initSchema : db :=
  {| diagrams := ∅; diagram_versions := []; diagram_versions_seq := 0;
     diagram_filters := ∅ |}.

Definition set_diagrams (f : gmap string diagramRow → gmap string diagramRow)
    (s : db) : db :=
  {| diagrams := f (diagrams s); diagram_versions := diagram_versions s;
     diagram_versions_seq := diagram_versions_seq s;
     diagram_filters := diagram_filters s |}.

Definition set_versions (f : list versionRow → list versionRow) (s : db) : db :=
  {| diagrams := diagrams s; diagram_versions := f (diagram_versions s);
     diagram_versions_seq := diagram_versions_seq s;
     diagram_filters := diagram_filters s |}.

Definition set_filters
    (f : gmap string (option object) → gmap string (option object))
    (s : db) : db :=
  {| diagrams := diagrams s; diagram_versions := diagram_versions s;
     diagram_versions_seq := diagram_versions_seq s;
     diagram_filters := f (diagram_filters s) |}.

(** [UPDATE diagrams SET name=?, database_type=?, database_edition=?,
    payload=?, updated_at=? WHERE id=?], with [sql.ErrNoRows] when no row was
    affected. *)
Definition updateDiagramRow (diagramID : string) (payload : object)
    (meta : diagramMeta) (s : db) : result error db :=
  match diagrams s !! diagramID with
  | None => Err ErrNoRows
  | Some old =>
      Ok (set_diagrams
            (insert diagramID
               {| d_name := Name meta; d_database_type := DatabaseType meta;
                  d_database_edition := DatabaseEdition meta;
                  d_payload := payload; d_created_at := d_created_at old;
                  d_updated_at := UpdatedAt meta |}) s)
  end.

Definition getDiagramPayload (diagramID : string) (s : db) : result error object :=
  match diagrams s !! diagramID with
  | Some r => Ok (d_payload r)
  | None => Err ErrNoRows
  end.

Definition insertDiagram (payload : object) (meta : diagramMeta) (s : db)
    : result error db :=
  match diagrams s !! ID meta with
  | Some _ => Err ErrUniqueConstraint
  | None =>
      Ok (set_diagrams
            (insert (ID meta)
               {| d_name := Name meta; d_database_type := DatabaseType meta;
                  d_database_edition := DatabaseEdition meta;
                  d_payload := payload; d_created_at := CreatedAt meta;
                  d_updated_at := UpdatedAt meta |}) s)
  end.

(** [now] is the time read for the [created_at] column. *)
Definition insertVersion (now : string) (diagramID diagramName : string)
    (payload : object) (action : string) (s : db) : db :=
  let fresh := (diagram_versions_seq s + 1)%Z in
  {| diagrams := diagrams s;
     diagram_versions :=
       diagram_versions s ++
       [ {| v_id := fresh; v_diagram_id := diagramID; v_name := diagramName;
            v_payload := payload; v_action := action; v_created_at := now |} ];
     diagram_versions_seq := fresh;
     diagram_filters := diagram_filters s |}.

(** The row that [insertVersion] writes. *)
Definition appended (now d n : string) (p : object) (a : string) (s : db)
    : versionRow :=
  {| v_id := diagram_versions_seq s + 1; v_diagram_id := d; v_name := n;
     v_payload := p; v_action := a; v_created_at := now |}.

Definition of_diagram (d : string) (vs : list versionRow) : list versionRow :=
  filter (λ v, v_diagram_id v = d) vs.

(** The order of [ORDER BY id DESC], on ids and on rows. *)
Definition desc (a b : Z) : Prop := (b ≤ a)%Z.
Definition row_desc (a b : versionRow) : Prop := desc (v_id a) (v_id b).

#[global] Instance desc_dec : RelDecision desc.
Proof. intros a b. unfold desc. apply _. Defined.
#[global] Instance row_desc_dec : RelDecision row_desc.
Proof. intros a b. unfold row_desc. apply _. Defined.

(** [SELECT id FROM diagram_versions WHERE diagram_id = ? ORDER BY id DESC] *)
Definition ids_desc (d : string) (vs : list versionRow) : list Z :=
  merge_sort desc (v_id <$> of_diagram d vs).

(** [DELETE FROM diagram_versions WHERE id IN (... LIMIT -1 OFFSET keep)] *)
Definition pruneVersions (diagramID : string) (keep : Z) (s : db) : db :=
  if decide ((keep ≤ 0)%Z) then s
  else
    let doomed := drop (Z.to_nat keep) (ids_desc diagramID (diagram_versions s)) in
    set_versions (filter (λ v, v_id v ∉ doomed)) s.

(** Facts about a database that every request keeps true: version ids are
    distinct and never exceed the engine's counter, and every version row
    belongs to a stored diagram. *)
Record store_inv (s : db) : Prop := {
  inv_nodup : NoDup (v_id <$> diagram_versions s);
  inv_seq :
    Forall (λ v, (v_id v ≤ diagram_versions_seq s)%Z) (diagram_versions s);
  inv_owner :
    Forall (λ v, is_Some (diagrams s !! v_diagram_id v)) (diagram_versions s);
}.

(** The number of version rows kept for a document. *)
Definition version_count (d : string) (s : db) : nat :=
  length (of_diagram d (diagram_versions s)).

(** A payload as normalization leaves it (with a clock that reads a
    non-empty time): the three required fields are valid and [createdAt] is a
    non-empty string.  Every version row holds such a payload and is filed
    under a non-blank id. *)
Definition normal_payload (p : object) : Prop :=
  ¬ invalid_field (p !! "id") ∧ ¬ invalid_field (p !! "name")
  ∧ ¬ invalid_field (p !! "databaseType")
  ∧ ∃ c, p !! "createdAt" = Some (JString c) ∧ c ≠ "".

Definition history_inv (s : db) : Prop :=
  Forall (λ v, normal_payload (v_payload v) ∧ TrimSpace (v_diagram_id v) ≠ "")
    (diagram_versions s).

(** What is never rewritten in a version row: everything but the
    document it is filed under. *)
Definition snapshot (v : versionRow) : Z * string * object * string * string :=
  (v_id v, v_name v, v_payload v, v_action v, v_created_at v).

(** No document keeps more than [N] versions. *)
Definition bounded (N : Z) (s : db) : Prop :=
  ∀ d, (version_count d s ≤ Z.to_nat N)%nat.

Section Store.

(** [a.maxVersionsPerDiagram] *)
Variable maxVersionsPerDiagram : Z.

Definition insertDiagramWithVersion (now : string) (payload : object)
    (meta : diagramMeta) (action : string) (s : db) : result error db :=
  s ← insertDiagram payload meta s;
  Ok (pruneVersions (ID meta) maxVersionsPerDiagram
        (insertVersion now (ID meta) (Name meta) payload action s)).

Definition replaceDiagramWithVersion (now : string) (diagramID : string)
    (payload : object) (meta : diagramMeta) (action : string) (s : db)
    : result error db :=
  s ← updateDiagramRow diagramID payload meta s;
  Ok (pruneVersions diagramID maxVersionsPerDiagram
        (insertVersion now diagramID (Name meta) payload action s)).

Definition isOnlyUpdatedAtPatch (patch : object) : bool :=
  if decide (size patch = 1%nat) then bool_decide (is_Some (patch !! "updatedAt"))
  else false.

(** [for k, v := range patch { current[k] = v }] *)
Definition mergePatch (patch current : object) : object := patch ∪ current.

(** [UPDATE diagrams SET id=?, ... WHERE id=?] for a new primary key. *)
Definition renameDiagramRow (targetID diagramID : string) (payload : object)
    (meta : diagramMeta) (s : db) : result error db :=
  match diagrams s !! diagramID with
  | None => Err ErrNoRows
  | Some old =>
      match diagrams s !! targetID with
      | Some _ => Err ErrUniqueConstraint
      | None =>
          Ok (set_diagrams
                (λ m, <[targetID :=
                         {| d_name := Name meta;
                            d_database_type := DatabaseType meta;
                            d_database_edition := DatabaseEdition meta;
                            d_payload := payload;
                            d_created_at := d_created_at old;
                            d_updated_at := UpdatedAt meta |}]>
                        (delete diagramID m)) s)
      end
  end.

(** [UPDATE diagram_versions SET diagram_id=? WHERE diagram_id=?], row by
    row and on the table. *)
Definition refiled (targetID diagramID : string) (v : versionRow) : versionRow :=
  if decide (v_diagram_id v = diagramID)
  then {| v_id := v_id v; v_diagram_id := targetID; v_name := v_name v;
          v_payload := v_payload v; v_action := v_action v;
          v_created_at := v_created_at v |}
  else v.

Definition renameVersions (targetID diagramID : string) (s : db) : db :=
  set_versions (fmap (refiled targetID diagramID)) s.

(** [UPDATE diagram_filters SET diagram_id=? WHERE diagram_id=?] *)
Definition renameFilter (targetID diagramID : string) (s : db) : result error db :=
  match diagram_filters s !! diagramID with
  | None => Ok s
  | Some f =>
      match diagram_filters s !! targetID with
      | Some _ => Err ErrUniqueConstraint
      | None => Ok (set_filters (λ m, <[targetID := f]> (delete diagramID m)) s)
      end
  end.

(** [clk 0] is the time read when the merged payload has no [updatedAt],
    [clk 1] the one read by the normalization, [clk 2] the one read by
    [insertVersion]. *)
Definition patchDiagramWithVersion (clk : nat → string) (diagramID : string)
    (patch : object) (s : db) : result error (object * db) :=
  payload ← getDiagramPayload diagramID s;
  let current := mergePatch patch payload in
  let current :=
    match current !! "updatedAt" with
    | Some _ => current
    | None => <["updatedAt" := JString (clk 0%nat)]> current
    end in
  '(normalizedPayload, meta) ←
    normalizeDiagramPayload (clk 1%nat) (Marshal current);
  let targetID := if decide (ID meta = "") then diagramID else ID meta in
  s ← (if decide (targetID = diagramID)
       then updateDiagramRow diagramID normalizedPayload meta s
       else
         s ← renameDiagramRow targetID diagramID normalizedPayload meta s;
         renameFilter targetID diagramID (renameVersions targetID diagramID s));
  let s :=
    if isOnlyUpdatedAtPatch patch then s
    else pruneVersions targetID maxVersionsPerDiagram
           (insertVersion (clk 2%nat) targetID (Name meta) normalizedPayload
              "patch" s) in
  Ok (normalizedPayload, s).

Definition deleteDiagram (diagramID : string) (s : db) : result error db :=
  let s := set_filters (delete diagramID) s in
  let s := set_versions (filter (λ v, v_diagram_id v ≠ diagramID)) s in
  Ok (set_diagrams (delete diagramID) s).

Definition getDiagramFilter (diagramID : string) (s : db)
    : result error (option object) :=
  match diagram_filters s !! diagramID with
  | Some f => Ok f
  | None => Err ErrNoRows
  end.

Definition setDiagramFilter (diagramID : string) (payload : option object)
    (s : db) : result error db :=
  Ok (set_filters (insert diagramID payload) s).

Definition deleteDiagramFilter (diagramID : string) (s : db) : result error db :=
  Ok (set_filters (delete diagramID) s).

(** The rows of [SELECT ... WHERE diagram_id = ? ORDER BY id DESC] and the
    columns that [listVersions] scans from them. *)
Definition versionRows (diagramID : string) (s : db) : list versionRow :=
  merge_sort row_desc (of_diagram diagramID (diagram_versions s)).

Definition scanVersion (v : versionRow) : diagramVersion :=
  {| VersionID := v_id v; VersionDiagramID := v_diagram_id v;
     VersionName := v_name v; Action := v_action v;
     VersionCreatedAt := v_created_at v |}.

Definition listVersions (diagramID : string) (s : db) : list diagramVersion :=
  scanVersion <$> versionRows diagramID s.

Definition getVersionPayload (diagramID : string) (versionID : Z) (s : db)
    : result error object :=
  match
    list_find (λ v, v_diagram_id v = diagramID ∧ v_id v = versionID)
      (diagram_versions s)
  with
  | Some (_, v) => Ok (v_payload v)
  | None => Err ErrNoRows
  end.

(** [clk 0] and [clk 2] are read by the two normalizations, [clk 1] for the
    forced [updatedAt], [clk 3] by [insertVersion]. *)
Definition restoreVersion (clk : nat → string) (diagramID : string)
    (versionID : Z) (s : db) : result error (object * db) :=
  versionPayload ← getVersionPayload diagramID versionID s;
  '(normalizedPayload, _) ←
    normalizeDiagramPayload (clk 0%nat) (Marshal versionPayload);
  let restoredMap :=
    <["updatedAt" := JString (clk 1%nat)]>
      (<["id" := JString diagramID]> normalizedPayload) in
  '(restoredPayload, meta) ←
    normalizeDiagramPayload (clk 2%nat) (Marshal restoredMap);
  s ← updateDiagramRow diagramID restoredPayload meta s;
  Ok (restoredPayload,
      pruneVersions diagramID maxVersionsPerDiagram
        (insertVersion (clk 3%nat) diagramID (Name meta) restoredPayload
           "restore" s)).

(** *** The HTTP surface of [handleDiagrams]

    A request carries the route's diagram id already unescaped, its body, and
    the clock readings of the store function it reaches. *)

Inductive request : Type :=
  | PostDiagram (clk : nat → string) (b : body)
  | GetDiagram (diagramID : string)
  | PutDiagram (clk : nat → string) (diagramID : string) (b : body)
  | PatchDiagram (clk : nat → string) (diagramID : string) (b : body)
  | DeleteDiagram (diagramID : string)
  | GetFilter (diagramID : string)
  | PutFilter (diagramID : string) (b : body)
  | DeleteFilter (diagramID : string)
  | GetVersions (diagramID : string)
  | GetVersion (diagramID : string) (versionID : Z)
  | PostRestore (clk : nat → string) (diagramID : string) (versionID : Z).

Inductive content : Type :=
  | ErrorMessage
  | NoContent
  | Document (payload : object)
  | Filter (payload : option object)
  | Versions (vs : list diagramVersion).

Definition StatusOK : nat := 200.
Definition StatusCreated : nat := 201.
Definition StatusNoContent : nat := 204.
Definition StatusBadRequest : nat := 400.
Definition StatusNotFound : nat := 404.
Definition StatusConflict : nat := 409.
Definition StatusInternalServerError : nat := 500.

Definition response : Type := nat * content.

Definition writeError (status : nat) : response := (status, ErrorMessage).

Definition handleDiagrams (r : request) (s : db) : response * db :=
  match r with
  | PostDiagram clk b =>
      match decodeAndNormalizeDiagramPayload (clk 0%nat) b with
      | Err _ => (writeError StatusBadRequest, s)
      | Ok (payload, meta) =>
          match insertDiagramWithVersion (clk 1%nat) payload meta "create" s with
          | Err e =>
              if isUniqueConstraintError e then (writeError StatusConflict, s)
              else (writeError StatusInternalServerError, s)
          | Ok s' => ((StatusCreated, Document payload), s')
          end
      end
  | GetDiagram diagramID =>
      match getDiagramPayload diagramID s with
      | Err e =>
          if isErrNoRows e then (writeError StatusNotFound, s)
          else (writeError StatusInternalServerError, s)
      | Ok payload => ((StatusOK, Document payload), s)
      end
  | PutDiagram clk diagramID b =>
      match decodeAndNormalizeDiagramPayload (clk 0%nat) b with
      | Err _ => (writeError StatusBadRequest, s)
      | Ok (payload, meta) =>
          if decide (ID meta ≠ diagramID) then (writeError StatusBadRequest, s)
          else
            match
              replaceDiagramWithVersion (clk 1%nat) diagramID payload meta "save" s
            with
            | Err e =>
                if isErrNoRows e then (writeError StatusNotFound, s)
                else (writeError StatusInternalServerError, s)
            | Ok s' => ((StatusOK, Document payload), s')
            end
      end
  | PatchDiagram clk diagramID b =>
      match decodeBody b with
      | None => (writeError StatusBadRequest, s)
      | Some patchData =>
          match patchDiagramWithVersion clk diagramID (default ∅ patchData) s with
          | Err e =>
              if isErrNoRows e then (writeError StatusNotFound, s)
              else if isUniqueConstraintError e then (writeError StatusConflict, s)
              else (writeError StatusInternalServerError, s)
          | Ok (updatedPayload, s') => ((StatusOK, Document updatedPayload), s')
          end
      end
  | DeleteDiagram diagramID =>
      match deleteDiagram diagramID s with
      | Err _ => (writeError StatusInternalServerError, s)
      | Ok s' => ((StatusNoContent, NoContent), s')
      end
  | GetFilter diagramID =>
      match getDiagramFilter diagramID s with
      | Err e =>
          if isErrNoRows e then (writeError StatusNotFound, s)
          else (writeError StatusInternalServerError, s)
      | Ok f => ((StatusOK, Filter f), s)
      end
  | PutFilter diagramID b =>
      match decodeBody b with
      | None => (writeError StatusBadRequest, s)
      | Some raw =>
          match setDiagramFilter diagramID raw s with
          | Err _ => (writeError StatusInternalServerError, s)
          | Ok s' => ((StatusOK, Filter raw), s')
          end
      end
  | DeleteFilter diagramID =>
      match deleteDiagramFilter diagramID s with
      | Err _ => (writeError StatusInternalServerError, s)
      | Ok s' => ((StatusNoContent, NoContent), s')
      end
  | GetVersions diagramID => ((StatusOK, Versions (listVersions diagramID s)), s)
  | GetVersion diagramID versionID =>
      match getVersionPayload diagramID versionID s with
      | Err e =>
          if isErrNoRows e then (writeError StatusNotFound, s)
          else (writeError StatusInternalServerError, s)
      | Ok payload => ((StatusOK, Document payload), s)
      end
  | PostRestore clk diagramID versionID =>
      match restoreVersion clk diagramID versionID s with
      | Err e =>
          if isErrNoRows e then (writeError StatusNotFound, s)
          else (writeError StatusInternalServerError, s)
      | Ok (payload, s') => ((StatusOK, Document payload), s')
      end
  end.

(** The requests that append to the history: create, replace, patch and
    restore. *)
Definition is_write (r : request) : bool :=
  match r with
  | PostDiagram _ _ | PutDiagram _ _ _ | PatchDiagram _ _ _
  | PostRestore _ _ _ => true
  | _ => false
  end.

(** The clock of a request never reads an empty time. *)
Definition clock_ok (r : request) : Prop :=
  match r with
  | PostDiagram clk _ | PutDiagram clk _ _ | PatchDiagram clk _ _
  | PostRestore clk _ _ => ∀ i, clk i ≠ ""
  | _ => True
  end.

(** The database after a sequence of requests, oldest first. *)
Definition serve (rs : list request) (s : db) : db :=
  foldl (λ s r, (handleDiagrams r s).2) s rs.

End Store.

(** Sample data for the examples: a clock that always reads the same
    instant, and a minimal document body. *)
Definition t0 (n : nat) : string := "2024-01-01T00:00:00Z".
Definition doc (id name : string) : body :=
  Text (JObject [("id", JString id); ("name", JString name);
                 ("databaseType", JString "generic")]).

Definition docWithEdition : body :=
  Text (JObject [("id", JString "d1"); ("name", JString "N");
                 ("databaseType", JString "generic");
                 ("databaseEdition", JString "pg")]).

(** The database after [docWithEdition] was created under a cap of 100. *)
Definition created : db :=
  (handleDiagrams 100 (PostDiagram t0 docWithEdition) initSchema).2.

(** The database after [doc "d1" "N"] was created under a cap of one
    version. *)
Definition created_cap1 : db :=
  (handleDiagrams 1 (PostDiagram t0 (doc "d1" "N")) initSchema).2.

(** A filter saved for an id that has no document. *)
Definition orphan_filter : db :=
  (handleDiagrams 100 (PutFilter "ghost" (Text (JObject []))) initSchema).2.

(** The member [k] of the payload that a patch returns, and the member [k]
    of the payload stored for [d]. *)
Definition patched_field (N : Z) (clk : nat → string) (d : string)
    (patch : object) (k : string) (s : db) : option json :=
  match patchDiagramWithVersion N clk d patch s with
  | Ok (p, _) => p !! k
  | Err _ => None
  end.

Definition stored_field (d k : string) (s : db) : option json :=
  match diagrams s !! d with
  | Some row => d_payload row !! k
  | None => None
  end.

(** *** Listing the documents

    [ORDER BY updated_at DESC] compares the column as text, byte by byte;
    the order of rows with equal [updated_at] is the engine's choice, here
    the one of the sort. *)
Definition updated_desc (a b : string * diagramRow) : Prop :=
  String.leb (d_updated_at b.2) (d_updated_at a.2) = true.

#[global] Instance updated_desc_dec : RelDecision updated_desc.
Proof. intros a b. unfold updated_desc. apply _. Defined.

(** The rows of [SELECT ... FROM diagrams ORDER BY updated_at DESC], each
    with its primary key. *)
Definition diagramRows (s : db) : list (string * diagramRow) :=
  merge_sort updated_desc (map_to_list (diagrams s)).

Definition scanMeta (r : string * diagramRow) : diagramMeta :=
  {| ID := r.1; Name := d_name r.2; DatabaseType := d_database_type r.2;
     DatabaseEdition := d_database_edition r.2;
     CreatedAt := d_created_at r.2; UpdatedAt := d_updated_at r.2 |}.

Definition listDiagramMetas (s : db) : list diagramMeta :=
  scanMeta <$> diagramRows s.

Definition listDiagramPayloads (s : db) : list object :=
  (λ r, d_payload r.2) <$> diagramRows s.

(** The columns of a document row repeat what its payload says: the key is
    the payload's [id], and [name], [database_type], [database_edition] and
    [updated_at] are the payload's members of these names.  ([created_at] is
    written once, by the insert.) *)
Definition row_agrees (d : string) (r : diagramRow) : Prop :=
  d_payload r !! "id" = Some (JString d) ∧
  d_payload r !! "name" = Some (JString (d_name r)) ∧
  d_payload r !! "databaseType" = Some (JString (d_database_type r)) ∧
  asString (d_payload r !! "databaseEdition") = d_database_edition r ∧
  d_payload r !! "updatedAt" = Some (JString (d_updated_at r)) ∧
  TrimSpace d ≠ "" ∧ TrimSpace (d_name r) ≠ ""
  ∧ TrimSpace (d_database_type r) ≠ "".

Definition doc_inv (s : db) : Prop := map_Forall row_agrees (diagrams s).

(** *** The settings table and [handleConfig]

    [settings] has primary key [key]; a value is the text that
    [json.Marshal] wrote, kept as the JSON value it encodes. *)
Abbreviation settings := (gmap string json).

(** [None] is the error of [json.Unmarshal]. *)
Definition getConfig (t : settings) : option object :=
  match t !! "config" with
  | None => Some {["defaultDiagramId" := JString ""]}
  | Some raw =>
      match unmarshal_object raw with
      | None => None
      | Some config =>
          Some match config !! "defaultDiagramId" with
               | Some _ => config
               | None => <["defaultDiagramId" := JString ""]> config
               end
      end
  end.

(** [INSERT INTO settings ... ON CONFLICT(key) DO UPDATE SET value=excluded.value] *)
Definition setConfig (config : object) (t : settings) : result error settings :=
  Ok (<["config" := Marshal config]> t).

Inductive configRequest : Type :=
  | GetConfig
  | PutConfig (b : body)
  | OtherConfig.   (* any other method *)

Definition StatusMethodNotAllowed : nat := 405.

Definition handleConfig (r : configRequest) (t : settings)
    : (nat * option object) * settings :=
  match r with
  | GetConfig =>
      match getConfig t with
      | None => ((StatusInternalServerError, None), t)
      | Some config => ((StatusOK, Some config), t)
      end
  | PutConfig b =>
      match decodeBody b with
      | None => ((StatusBadRequest, None), t)
      | Some payload =>
          match getConfig t with
          | None => ((StatusInternalServerError, None), t)
          | Some current =>
              let current := mergePatch (default ∅ payload) current in
              match setConfig current t with
              | Err _ => ((StatusInternalServerError, None), t)
              | Ok t' => ((StatusOK, Some current), t')
              end
          end
      end
  | OtherConfig => ((StatusMethodNotAllowed, None), t)
  end.

(** The settings after a sequence of requests, oldest first. *)
Definition serveConfig (rs : list configRequest) (t : settings) : settings :=
  foldl (λ t r, (handleConfig r t).2) t rs.

(** What [s'] holds of the history of [s]: the counter has not gone back,
    and a version row of [s'] either was numbered after [s] or is a row of
    [s] with nothing but its document id rewritten. *)
Definition extends_history (s s' : db) : Prop :=
  (diagram_versions_seq s ≤ diagram_versions_seq s')%Z ∧
  ∀ v, v ∈ diagram_versions s' →
    (diagram_versions_seq s < v_id v)%Z
    ∨ snapshot v ∈ snapshot <$> diagram_versions s.

End Backend.

Module Coordinator.

(** *** JavaScript values and the heap

    Objects, arrays and dates are cells of a heap and are named by their
    location; every other value is immediate.  A number is the bit pattern
    of its IEEE-754 double.  New cells are added at the end of the heap, so
    a location is never reused. *)

Abbreviation loc := nat.

Inductive val : Type :=
  | VUndefined
  | VNull
  | VBool (b : bool)
  | VNumber (bits : Z)
  | VString (s : string)
  | VRef (l : loc).

#[global] Instance val_eq_dec : EqDecision val.
Proof. solve_decision. Defined.

(** An object holds its own enumerable properties in the order in which
    they were defined (the first entry for a name is the property; that
    JavaScript enumerates names that are array indices first plays no role
    for the names used here), an array its elements, a date its time value
    in milliseconds, or nothing when it is an Invalid Date. *)
Inductive cell : Type :=
  | CObject (props : list (string * val))
  | CArray (items : list val)
  | CDate (t : option Z).

Abbreviation heap := (list cell).

(** Insertion-ordered association lists: the properties of an object, and
    the entries of a [Map]. *)
Section Assoc.
Context {K V : Type} `{EqDecision K}.

Fixpoint assoc_get (k : K) (m : list (K * V)) : option V :=
  match m with
  | [] => None
  | (k', v) :: rest => if decide (k = k') then Some v else assoc_get k rest
  end.

(** A new value for an old key keeps its place; a new key goes last. *)
Fixpoint assoc_set (k : K) (v : V) (m : list (K * V)) : list (K * V) :=
  match m with
  | [] => [(k, v)]
  | (k', v') :: rest =>
      if decide (k = k') then (k, v) :: rest else (k', v') :: assoc_set k v rest
  end.

Definition assoc_delete (k : K) (m : list (K * V)) : list (K * V) :=
  filter (λ p, p.1 ≠ k) m.

End Assoc.

Definition get_prop (k : string) (props : list (string * val)) : option val :=
  assoc_get k props.

Definition set_prop (k : string) (v : val) (props : list (string * val))
    : list (string * val) :=
  assoc_set k v props.

(** The properties that an enumeration visits. *)
Fixpoint own_props (props : list (string * val)) : list (string * val) :=
  match props with
  | [] => []
  | p :: rest => p :: filter (λ q, q.1 ≠ p.1) (own_props rest)
  end.

(** Defining properties one after the other: a later definition of a name
    replaces the value and keeps the place. *)
Definition define_props (target defs : list (string * val))
    : list (string * val) :=
  foldl (λ acc p, set_prop p.1 p.2 acc) target defs.

(** [{...a, ...b}]: the own properties of [b] defined over those of [a]. *)
Definition assign (target source : list (string * val)) : list (string * val) :=
  define_props target (own_props source).

Definition cell_vals (c : cell) : list val :=
  match c with
  | CObject props => props.*2
  | CArray items => items
  | CDate _ => []
  end.

(** *** [JSON.parse] and [JSON.stringify] *)

Definition is_finite (bits : Z) : bool :=
  negb (Z.land (Z.shiftr bits 52) 0x7FF =? 0x7FF)%Z.

Definition negative_zero : Z := 0x8000000000000000.

(** A number is written as itself, [-0] as [0], [NaN] and the infinities as
    [null]. *)
Definition json_of_number (bits : Z) : json :=
  if is_finite bits
  then JNumber (if decide (bits = negative_zero) then 0 else bits)
  else JNull.

(** [JSON.parse] builds a fresh value for a JSON text: the parts of an
    array or object first, then its own cell. *)
Fixpoint alloc_json (j : json) (h : heap) : heap * val :=
  match j with
  | JNull => (h, VNull)
  | JBool b => (h, VBool b)
  | JNumber n => (h, VNumber n)
  | JString s => (h, VString s)
  | JArray items =>
      let '(h, vs) :=
        (fix go (js : list json) (h : heap) : heap * list val :=
           match js with
           | [] => (h, [])
           | j :: js =>
               let '(h, v) := alloc_json j h in
               let '(h, vs) := go js h in
               (h, v :: vs)
           end) items h in
      ((h ++ [CArray vs])%list, VRef (length h))
  | JObject members =>
      let '(h, props) :=
        (fix go (kvs : list (string * json)) (h : heap)
             : heap * list (string * val) :=
           match kvs with
           | [] => (h, [])
           | (k, j) :: kvs =>
               let '(h, v) := alloc_json j h in
               let '(h, ps) := go kvs h in
               (h, (k, v) :: ps)
           end) members h in
      ((h ++ [CObject (define_props [] props)])%list, VRef (length h))
  end.

Fixpoint alloc_list (js : list json) (h : heap) : heap * list val :=
  match js with
  | [] => (h, [])
  | j :: js =>
      let '(h, v) := alloc_json j h in
      let '(h, vs) := alloc_list js h in
      (h, v :: vs)
  end.

Fixpoint alloc_members (kvs : list (string * json)) (h : heap)
    : heap * list (string * val) :=
  match kvs with
  | [] => (h, [])
  | (k, j) :: kvs =>
      let '(h, v) := alloc_json j h in
      let '(h, ps) := alloc_members kvs h in
      (h, (k, v) :: ps)
  end.

(** The JSON texts that [JSON.stringify] writes: no repeated member names,
    finite numbers, no negative zero. *)
Fixpoint json_ok (j : json) : Prop :=
  match j with
  | JNumber n => is_finite n = true ∧ n ≠ negative_zero
  | JArray items =>
      (fix all (js : list json) : Prop :=
         match js with
         | [] => True
         | j :: js => json_ok j ∧ all js
         end) items
  | JObject members =>
      NoDup members.*1 ∧
      (fix all (kvs : list (string * json)) : Prop :=
         match kvs with
         | [] => True
         | kv :: kvs => json_ok kv.2 ∧ all kvs
         end) members
  | _ => True
  end.

Fixpoint depth (j : json) : nat :=
  match j with
  | JArray items =>
      S ((fix go (js : list json) : nat :=
            match js with
            | [] => O
            | j :: js => Nat.max (depth j) (go js)
            end) items)
  | JObject members =>
      S ((fix go (kvs : list (string * json)) : nat :=
            match kvs with
            | [] => O
            | kv :: kvs => Nat.max (depth kv.2) (go kvs)
            end) members)
  | _ => O
  end.

(** A value that is immediate or names a cell in [lo, hi). *)
Definition val_within (lo hi : nat) (v : val) : Prop :=
  match v with
  | VRef l => (lo ≤ l < hi)%nat
  | _ => True
  end.

Definition cell_within (lo hi : nat) (c : cell) : Prop :=
  Forall (val_within lo hi) (cell_vals c).


(** *** Exceptions and settled promises *)

(** What the code throws: [new Error(message)], and the built-in errors.
    The message of an [Error] is kept as the JSON value it was made from. *)
Inductive exn : Type :=
  | Error (message : json)
  | TypeError
  | RangeError
  | SyntaxError.

(** How a promise settles, which is also how an [async] function ends. *)
Inductive outcome (A : Type) : Type :=
  | Fulfilled (a : A)
  | Rejected (e : exn).
Arguments Fulfilled {A} a.
Arguments Rejected {A} e.

(** [DiagramCollectionKey] *)
Inductive kind : Type :=
  | tables | relationships | dependencies | areas | customTypes | notes.

#[global] Instance kind_eq_dec : EqDecision kind.
Proof. solve_decision. Defined.

Definition kind_key (c : kind) : string :=
  match c with
  | tables => "tables"
  | relationships => "relationships"
  | dependencies => "dependencies"
  | areas => "areas"
  | customTypes => "customTypes"
  | notes => "notes"
  end.

Definition kinds : list kind :=
  [tables; relationships; dependencies; areas; customTypes; notes].

(** *** Plain operations on values *)

Definition is_nan (bits : Z) : bool :=
  (Z.land (Z.shiftr bits 52) 0x7FF =? 0x7FF)%Z
  && negb (Z.land bits 0xFFFFFFFFFFFFF =? 0)%Z.

(** Both tests are decided by evaluation, never by unfolding. *)
#[global] Opaque is_finite is_nan.

(** The key under which a [Map] files a value (SameValueZero): all NaNs are
    one key, and so are the two zeros. *)
Definition map_key (v : val) : val :=
  match v with
  | VNumber n =>
      if is_nan n then VNumber 0x7FF8000000000000
      else if decide (n = negative_zero) then VNumber 0 else v
  | _ => v
  end.

Definition map_get {V} (k : val) (m : list (val * V)) : option V :=
  assoc_get (map_key k) m.
Definition map_set {V} (k : val) (v : V) (m : list (val * V)) : list (val * V) :=
  assoc_set (map_key k) v m.
Definition map_delete {V} (k : val) (m : list (val * V)) : list (val * V) :=
  assoc_delete (map_key k) m.

(** [a === b] *)
Definition strict_eq (a b : val) : bool :=
  match a, b with
  | VNumber x, VNumber y =>
      negb (is_nan x) && negb (is_nan y)
      && bool_decide (map_key a = map_key b)
  | _, _ => bool_decide (a = b)
  end.

(** [!!v] *)
Definition truthy (v : val) : bool :=
  match v with
  | VUndefined | VNull => false
  | VBool b => b
  | VNumber n => negb (is_nan n) && negb (bool_decide (map_key v = VNumber 0))
  | VString s => negb (bool_decide (s = ""))
  | VRef _ => true
  end.

(** [v ?? d] *)
Definition nullish (v d : val) : val :=
  match v with
  | VUndefined | VNull => d
  | _ => v
  end.

(** [v.k] for a [v] that is neither [null] nor [undefined]; none of the
    names read here is defined on a prototype. *)
Definition read_prop (h : heap) (v : val) (k : string) : val :=
  match v with
  | VRef l =>
      match h !! l with
      | Some (CObject props) => default VUndefined (get_prop k props)
      | _ => VUndefined
      end
  | _ => VUndefined
  end.

(** [v.k], which throws on [null] and [undefined]. *)
Definition member (h : heap) (v : val) (k : string) : outcome val :=
  match v with
  | VUndefined | VNull => Rejected TypeError
  | _ => Fulfilled (read_prop h v k)
  end.

Definition is_string (v : val) : bool :=
  match v with VString _ => true | _ => false end.

(** The elements of [v] when [Array.isArray(v)]. *)
Definition array_items (h : heap) (v : val) : option (list val) :=
  match v with
  | VRef l =>
      match h !! l with
      | Some (CArray items) => Some items
      | _ => None
      end
  | _ => None
  end.

(** The own enumerable properties that a spread [...v] or
    [Object.entries(v)] visits: those of an object, the elements of an array
    under their indices, none of a date, [null], [undefined], a boolean or a
    number.  (A string would give its code units; no value spread here is
    typed as a string.) *)
Definition spread_props (h : heap) (v : val) : list (string * val) :=
  match v with
  | VRef l =>
      match h !! l with
      | Some (CObject props) => own_props props
      | Some (CArray items) => imap (λ i x, (pretty i, x)) items
      | _ => []
      end
  | _ => []
  end.

(** The time value of [v] when [v instanceof Date]. *)
Definition date_time (h : heap) (v : val) : option (option Z) :=
  match v with
  | VRef l =>
      match h !! l with
      | Some (CDate t) => Some t
      | _ => None
      end
  | _ => None
  end.

(** [JSON.parse] of a JSON value's truth value, for [if (payload.error)]. *)
Definition json_truthy (j : json) : bool :=
  match j with
  | JNull => false
  | JBool b => b
  | JNumber n => negb (is_nan n) && negb (bool_decide (n = 0))
                 && negb (bool_decide (n = negative_zero))
  | JString s => negb (bool_decide (s = ""))
  | _ => true
  end.

Definition json_member (j : json) (k : string) : option json :=
  match j with
  | JObject members => assoc_get k (reverse members)
  | _ => None
  end.

(** *** The collaborator behind [fetch] *)

Inductive method : Type := GET | POST | PUT | PATCH | DELETE.

(** The paths that the provider builds under [API_BASE_URL]. *)
Inductive endpoint : Type :=
  | Config
  | Diagrams (full : bool)
  | Diagram (diagramId : string)
  | DiagramFilter (diagramId : string).

(** What [fetch] resolves with: no response at all, or a status and a body
    that may or may not be a JSON text. *)
Inductive http_result : Type :=
  | NetworkFailure
  | Response (status : nat) (body : option json).

(** The built-ins and the server are taken as given: ISO formatting and
    parsing of dates, the time value of [new Date(number)], the clock,
    [String] of a number and of an object, sorting by [localeCompare] of the
    [name] members (which throws when a compared member is no string), and
    what [fetch] resolves with, which depends on, and changes, the state of
    the server. *)
Class Builtins : Type := {
  toISOString : Z → string;
  Date_parse : string → option Z;
  Date_of_number : Z → option Z;
  Date_now : nat → Z;
  Number_toString : Z → string;
  Object_toString : heap → loc → string;
  sort_by_name : heap → list val → option (list val);
  remote : Type;
  fetch : method → endpoint → option json → remote → http_result * remote;
}.

Section Provider.
Context `{Builtins}.

(** [JSON.stringify] of the value [v]: [None] when it throws, which it does
    on a cyclic structure.  A walk that meets more objects in a row than the
    heap has cells has met one of them twice. *)
Fixpoint to_json (fuel : nat) (h : heap) (v : val) : option json :=
  match v with
  | VUndefined | VNull => Some JNull
  | VBool b => Some (JBool b)
  | VNumber n => Some (json_of_number n)
  | VString s => Some (JString s)
  | VRef l =>
      match fuel with
      | O => None
      | S fuel =>
          match h !! l with
          | Some (CDate (Some t)) => Some (JString (toISOString t))
          | Some (CDate None) => Some JNull
          | Some (CArray items) => JArray <$> mapM (to_json fuel h) items
          | Some (CObject props) =>
              JObject <$>
                mapM (λ p, pair p.1 <$> to_json fuel h p.2)
                  (filter (λ p, p.2 ≠ VUndefined) (own_props props))
          | None => None
          end
      end
  end.

Definition JSON_stringify (h : heap) (v : val) : option json :=
  to_json (length h) h v.

(** *** The state of the provider

    The heap, the seven [Map]s held in refs, the store, the record of how
    every [request] ended, and the number of times the clock was read. *)
Record state : Type := {
  st_heap : heap;
  diagramsCache : list (val * loc);
  owners : kind → list (val * val);
  mutationQueue : list (val * outcome unit);
  server : remote;
  calls : list (option exn);
  ticks : nat;
}.

Definition set_heap (f : heap → heap) (s : state) : state :=
  {| st_heap := f (st_heap s); diagramsCache := diagramsCache s;
     owners := owners s; mutationQueue := mutationQueue s;
     server := server s; calls := calls s; ticks := ticks s |}.

Definition set_cache (f : list (val * loc) → list (val * loc)) (s : state)
    : state :=
  {| st_heap := st_heap s; diagramsCache := f (diagramsCache s);
     owners := owners s; mutationQueue := mutationQueue s;
     server := server s; calls := calls s; ticks := ticks s |}.

Definition set_owners (c : kind) (f : list (val * val) → list (val * val))
    (s : state) : state :=
  {| st_heap := st_heap s; diagramsCache := diagramsCache s;
     owners := λ c', if decide (c' = c) then f (owners s c) else owners s c';
     mutationQueue := mutationQueue s;
     server := server s; calls := calls s; ticks := ticks s |}.

Definition set_queue
    (f : list (val * outcome unit) → list (val * outcome unit)) (s : state)
    : state :=
  {| st_heap := st_heap s; diagramsCache := diagramsCache s;
     owners := owners s; mutationQueue := f (mutationQueue s);
     server := server s; calls := calls s; ticks := ticks s |}.

(** *** Computations

    An operation is a function from the state in which it is called to how
    its promise settles and the state it leaves.  Operations are taken one
    at a time: each runs to its end before the next one starts, so what
    another operation may do while one waits for the store is not part of
    this development. *)

Definition M (A : Type) : Type := state → outcome A * state.

Definition ret {A} (a : A) : M A := λ s, (Fulfilled a, s).
Definition throw {A} (e : exn) : M A := λ s, (Rejected e, s).
Definition bind {A B} (m : M A) (f : A → M B) : M B :=
  λ s, match m s with
       | (Fulfilled a, s') => f a s'
       | (Rejected e, s') => (Rejected e, s')
       end.
Definition try_catch {A} (m : M A) (handler : exn → M A) : M A :=
  λ s, match m s with
       | (Fulfilled a, s') => (Fulfilled a, s')
       | (Rejected e, s') => handler e s'
       end.

#[global] Instance M_ret : MRet M := @ret.
#[global] Instance M_bind : MBind M := λ A B f m, bind m f.

Definition gets {A} (f : state → A) : M A := λ s, (Fulfilled (f s), s).
Definition modify (f : state → state) : M unit := λ s, (Fulfilled tt, f s).

(** Awaiting a settled promise, and lifting a partial built-in. *)
Definition await {A} (p : outcome A) : M A :=
  match p with
  | Fulfilled a => ret a
  | Rejected e => throw e
  end.
Definition or_throw {A} (e : exn) (o : option A) : M A :=
  match o with
  | Some a => ret a
  | None => throw e
  end.

(** A new cell; its location is the reference to it. *)
Definition alloc (c : cell) : M val :=
  λ s, (Fulfilled (VRef (length (st_heap s))),
        set_heap (λ h, (h ++ [c])%list) s).

Definition get_heap : M heap := gets st_heap.

(** [for (const x of xs) body(x)] and [xs.forEach(body)] *)
Fixpoint for_each {A} (body : A → M unit) (xs : list A) : M unit :=
  match xs with
  | [] => ret tt
  | x :: xs => bind (body x) (λ _, for_each body xs)
  end.

(** [xs.map(f)] for an [f] that may throw. *)
Fixpoint map_each {A B} (f : A → M B) (xs : list A) : M (list B) :=
  match xs with
  | [] => ret []
  | x :: xs => bind (f x) (λ y, bind (map_each f xs) (λ ys, ret (y :: ys)))
  end.

(** [xs.find(p)], [xs.some(p)]: the first element that [p] accepts. *)
Fixpoint find_first {A} (p : A → M bool) (xs : list A) : M (option A) :=
  match xs with
  | [] => ret None
  | x :: xs => bind (p x) (λ b, if b then ret (Some x) else find_first p xs)
  end.

(** *** Dates and diagrams *)

(** [new Date()] *)
Definition new_Date_now : M val :=
  λ s, (Fulfilled (VRef (length (st_heap s))),
        {| st_heap := (st_heap s ++ [CDate (Some (Date_now (ticks s)))])%list;
           diagramsCache := diagramsCache s; owners := owners s;
           mutationQueue := mutationQueue s; server := server s;
           calls := calls s; ticks := S (ticks s) |}).

Definition toDate (value : val) : M val :=
  h ← get_heap;
  match date_time h value with
  | Some _ => ret value
  | None =>
      let parsed :=
        match value with
        | VString s => Date_parse s
        | VNumber n => Date_of_number n
        | _ => None
        end in
      match parsed with
      | Some t => alloc (CDate (Some t))
      | None => new_Date_now
      end
  end.

(** [String(v)] *)
Definition String_ (h : heap) (v : val) : string :=
  match v with
  | VUndefined => "undefined"
  | VNull => "null"
  | VBool true => "true"
  | VBool false => "false"
  | VNumber n => Number_toString n
  | VString s => s
  | VRef l => Object_toString h l
  end.

Definition toDiagram (value : val) : M val :=
  h ← get_heap;
  let raw := λ k, match value with
                  | VUndefined | VNull => VUndefined
                  | _ => read_prop h value k
                  end in
  let collection := λ c : kind,
    (kind_key c,
     match array_items h (raw (kind_key c)) with
     | Some _ => raw (kind_key c)
     | None => VUndefined
     end) in
  createdAt ← toDate (raw "createdAt");
  updatedAt ← toDate (raw "updatedAt");
  alloc (CObject
    ([("id", VString (String_ h (nullish (raw "id") (VString ""))));
      ("name", VString (String_ h (nullish (raw "name") (VString ""))));
      ("databaseType",
       VString (String_ h (nullish (raw "databaseType") (VString "generic"))));
      ("databaseEdition",
       if is_string (raw "databaseEdition") then raw "databaseEdition"
       else VUndefined)]
     ++ (collection <$> kinds)
     ++ [("createdAt", createdAt); ("updatedAt", updatedAt)])%list).

(** [date.toISOString()] *)
Definition Date_toISOString (h : heap) (v : val) : outcome string :=
  match v with
  | VUndefined | VNull => Rejected TypeError
  | _ =>
      match date_time h v with
      | Some (Some t) => Fulfilled (toISOString t)
      | Some None => Rejected RangeError
      | None => Rejected TypeError
      end
  end.

Definition serializeDiagram (diagram : val) : M val :=
  h ← get_heap;
  createdAt ← await (Date_toISOString h (read_prop h diagram "createdAt"));
  updatedAt ← await (Date_toISOString h (read_prop h diagram "updatedAt"));
  alloc (CObject
    (define_props (spread_props h diagram)
       [("createdAt", VString createdAt); ("updatedAt", VString updatedAt)])).

(** [JSON.stringify(v)] for an object [v]; a cycle is a [TypeError]. *)
Definition stringify (v : val) : M json :=
  h ← get_heap;
  or_throw TypeError (JSON_stringify h v).

(** [JSON.parse(text)] *)
Definition parse (j : json) : M val :=
  λ s, let '(h, v) := alloc_json j (st_heap s) in
       (Fulfilled v, set_heap (λ _, h) s).

Definition cloneDiagram (diagram : val) : M val :=
  serialized ← serializeDiagram diagram;
  text ← stringify serialized;
  raw ← parse text;
  toDiagram raw.

Definition serializeAttributes (attributes : val) : M val :=
  h ← get_heap;
  entries ←
    map_each
      (λ p : string * val,
         match date_time h p.2 with
         | Some _ =>
             iso ← await (Date_toISOString h p.2);
             ret (p.1, VString iso)
         | None => ret p
         end)
      (spread_props h attributes);
  alloc (CObject (define_props [] entries)).


(** *** [request] *)

Definition ok_status (status : nat) : bool :=
  Nat.leb 200 status && Nat.leb status 299.

(** The message of the [Error] thrown for a response that is not ok: the
    [error] member of a JSON body when it is truthy, a text with the status
    otherwise. *)
Definition errorMessage (status : nat) (body : option json) : json :=
  match body with
  | Some (JObject members) =>
      match json_member (JObject members) "error" with
      | Some e =>
          if json_truthy e then e
          else JString ("Request failed with status " +:+ pretty status)
      | None => JString ("Request failed with status " +:+ pretty status)
      end
  | _ => JString ("Request failed with status " +:+ pretty status)
  end.

(** How [request] ends for what [fetch] resolved with: [inl] the exception,
    [inr] the JSON to be parsed, if any. *)
Definition request_result (r : http_result) : exn + option json :=
  match r with
  | NetworkFailure => inl TypeError
  | Response status body =>
      if negb (ok_status status) then inl (Error (errorMessage status body))
      else if Nat.eqb status 204 then inr None
      else match body with
           | Some j => inr (Some j)
           | None => inl SyntaxError
           end
  end.

(** [request(path, init)].  How the call ended is added to [calls]. *)
Definition request (m : method) (path : endpoint) (body : option json) : M val :=
  λ s,
    let '(r, srv) := fetch m path body (server s) in
    let result := request_result r in
    let '(h, out) :=
      match result with
      | inl e => (st_heap s, Rejected e)
      | inr None => (st_heap s, Fulfilled VUndefined)
      | inr (Some j) =>
          let '(h, v) := alloc_json j (st_heap s) in (h, Fulfilled v)
      end in
    (out,
     {| st_heap := h; diagramsCache := diagramsCache s; owners := owners s;
        mutationQueue := mutationQueue s; server := srv;
        calls := (calls s ++
                  [match result with inl e => Some e | inr _ => None end])%list;
        ticks := ticks s |}).

(** *** The cache and the owner index *)

(** [diagram[key]?.forEach(item => body(item.id))] *)
Definition for_each_id (diagram : val) (c : kind) (body : val → M unit) : M unit :=
  h ← get_heap;
  match read_prop h diagram (kind_key c) with
  | VUndefined | VNull => ret tt
  | items =>
      xs ← or_throw TypeError (array_items h items);
      for_each (λ item, id ← await (member h item "id"); body id) xs
  end.

Definition clearOwnersForDiagram (diagram : val) : M unit :=
  for_each
    (λ c, for_each_id diagram c (λ id, modify (set_owners c (map_delete id))))
    kinds.

Definition indexDiagramOwners (diagram : val) : M unit :=
  for_each
    (λ c,
       for_each_id diagram c
         (λ id,
            h ← get_heap;
            modify (set_owners c (map_set id (read_prop h diagram "id")))))
    kinds.

(** A [Map<string, Diagram>] holds references to objects. *)
Definition cache_get (k : val) : M (option loc) :=
  gets (λ s, map_get k (diagramsCache s)).

Definition as_loc (v : val) : M loc :=
  match v with
  | VRef l => ret l
  | _ => throw TypeError
  end.

Definition setCachedDiagram (diagram : val) : M unit :=
  h ← get_heap;
  let id := read_prop h diagram "id" in
  previous ← cache_get id;
  (match previous with
   | Some p => clearOwnersForDiagram (VRef p)
   | None => ret tt
   end);;
  l ← as_loc diagram;
  modify (set_cache (map_set id l));;
  indexDiagramOwners diagram.

Definition removeCachedDiagram (diagramId : string) : M unit :=
  existing ← cache_get (VString diagramId);
  (match existing with
   | Some p => clearOwnersForDiagram (VRef p)
   | None => ret tt
   end);;
  modify (set_cache (map_delete (VString diagramId)));;
  modify (set_queue (map_delete (VString diagramId))).

(** *** The queue

    [previous.catch(() => undefined)] and [next.then(() => undefined,
    () => undefined)] on settled promises. *)
Definition promise_catch {A} (p : outcome A) (handler : exn → A) : outcome A :=
  match p with
  | Fulfilled a => Fulfilled a
  | Rejected e => Fulfilled (handler e)
  end.

Definition promise_then2 {A B} (p : outcome A) (onFulfilled : A → B)
    (onRejected : exn → B) : outcome B :=
  match p with
  | Fulfilled a => Fulfilled (onFulfilled a)
  | Rejected e => Fulfilled (onRejected e)
  end.

(** [p.then(operation)]: the operation runs once [p] is fulfilled and is
    skipped when [p] is rejected. *)
Definition promise_then {A B} (p : outcome A) (operation : A → M B) : M B :=
  match p with
  | Fulfilled a => operation a
  | Rejected e => throw e
  end.

(** [enqueueMutation].  The chain is built, and its tail is stored, before
    the operation starts; the tail is fulfilled however [next] settles, so
    it is stored as such. *)
Definition enqueueMutation {T} (diagramId : string) (operation : M T) : M T :=
  previous ← gets (λ s, default (Fulfilled tt)
                          (map_get (VString diagramId) (mutationQueue s)));
  modify (set_queue
            (map_set (VString diagramId)
               (promise_then2 (Fulfilled tt : outcome unit)
                  (λ _, tt) (λ _, tt))));;
  promise_then (promise_catch previous (λ _, tt)) (λ _, operation).

(** *** Fetching, saving and mutating *)

Definition fetchDiagram (diagramId : string) : M val :=
  cached ← cache_get (VString diagramId);
  match cached with
  | Some l => cloneDiagram (VRef l)
  | None =>
      raw ← request GET (Diagram diagramId) None;
      diagram ← toDiagram raw;
      setCachedDiagram diagram;;
      cloneDiagram diagram
  end.

(** [diagram.id] of a [Diagram] is a string. *)
Definition id_of (h : heap) (diagram : val) : string :=
  match read_prop h diagram "id" with
  | VString s => s
  | v => String_ h v
  end.

Definition saveDiagram (diagram : val) : M val :=
  h ← get_heap;
  let id := id_of h diagram in
  serialized ← serializeDiagram diagram;
  text ← stringify serialized;
  raw ← request PUT (Diagram id) (Some text);
  saved ← toDiagram raw;
  setCachedDiagram saved;;
  cloneDiagram saved.

Definition mutateDiagram (diagramId : string) (mutator : val → M unit) : M val :=
  enqueueMutation diagramId
    (diagram ← fetchDiagram diagramId;
     mutator diagram;;
     saveDiagram diagram).

(** [items?.some((item) => item.id === entityId)] *)
Definition has_entity (h : heap) (diagram : val) (c : kind) (entityId : string)
    : M bool :=
  match read_prop h diagram (kind_key c) with
  | VUndefined | VNull => ret false
  | items =>
      xs ← or_throw TypeError (array_items h items);
      found ← find_first
        (λ item, id ← await (member h item "id");
                 ret (strict_eq id (VString entityId))) xs;
      ret (bool_decide (is_Some found))
  end.

(** The first element of [xs] for which [body] returns an owner; the
    elements after it are not visited. *)
Fixpoint first_owner {A} (body : A → M (option val)) (xs : list A)
    : M (option val) :=
  match xs with
  | [] => ret None
  | x :: xs =>
      bind (body x)
        (λ r, match r with
              | Some o => ret (Some o)
              | None => first_owner body xs
              end)
  end.

(** One step of the two loops of [resolveDiagramIdByEntity]. *)
Definition scan_diagram (c : kind) (entityId : string) (diagram : val)
    : M (option val) :=
  h ← get_heap;
  found ← has_entity h diagram c entityId;
  if found : bool then
    modify (set_owners c
              (map_set (VString entityId) (read_prop h diagram "id")));;
    ret (Some (read_prop h diagram "id"))
  else ret None.

(** The listing is iterated as the array that its type says it is. *)
Definition resolveDiagramIdByEntity (entityId : string) (c : kind) : M val :=
  cachedOwner ← gets (λ s, map_get (VString entityId) (owners s c));
  if truthy (default VUndefined cachedOwner)
  then ret (default VUndefined cachedOwner)
  else
    cached ← gets (λ s, (diagramsCache s).*2);
    hit ← first_owner (λ l, scan_diagram c entityId (VRef l)) cached;
    match hit with
    | Some o => ret o
    | None =>
        rawList ← request GET (Diagrams true) None;
        h ← get_heap;
        raws ← or_throw TypeError (array_items h rawList);
        hit ← first_owner
                (λ raw, diagram ← toDiagram raw;
                        setCachedDiagram diagram;;
                        scan_diagram c entityId diagram) raws;
        match hit with
        | Some o => ret o
        | None =>
            throw (Error (JString ("Entity " +:+ entityId +:+ " was not found")))
        end
    end.

(** *** The operations of the storage context *)

Record DiagramListOptions : Type := {
  includeTables : bool;
  includeRelationships : bool;
  includeDependencies : bool;
  includeAreas : bool;
  includeCustomTypes : bool;
  includeNotes : bool;
}.

Definition hasIncludeOptions (options : option DiagramListOptions) : bool :=
  match options with
  | None => false
  | Some o =>
      includeTables o || includeRelationships o || includeDependencies o
      || includeAreas o || includeCustomTypes o || includeNotes o
  end.

(** [JSON.stringify(v)] as a request body: nothing for [undefined]. *)
Definition body_of (v : val) : M (option json) :=
  match v with
  | VUndefined => ret None
  | _ => text ← stringify v; ret (Some text)
  end.

(** The six summary members of [diagram]. *)
Definition summary (h : heap) (diagram : val) : list (string * val) :=
  (λ k, (k, read_prop h diagram k)) <$>
    ["id"; "name"; "databaseType"; "databaseEdition"; "createdAt"; "updatedAt"].

Definition getConfig : M val :=
  config ← request GET Config None;
  h ← get_heap;
  alloc (CObject
    (define_props [("defaultDiagramId", VString "")] (spread_props h config))).

Definition updateConfig (config : val) : M val :=
  body ← body_of config;
  request PUT Config body;;
  ret VUndefined.

Definition getDiagramFilter (diagramId : string) : M val :=
  try_catch (request GET (DiagramFilter diagramId) None)
    (λ _, ret VUndefined).

Definition updateDiagramFilter (diagramId : string) (filter : val) : M val :=
  body ← body_of filter;
  request PUT (DiagramFilter diagramId) body;;
  ret VUndefined.

Definition deleteDiagramFilter (diagramId : string) : M val :=
  request DELETE (DiagramFilter diagramId) None;;
  ret VUndefined.

Definition addDiagram (diagram : val) : M val :=
  serialized ← serializeDiagram diagram;
  text ← stringify serialized;
  raw ← request POST (Diagrams false) (Some text);
  created ← toDiagram raw;
  setCachedDiagram created;;
  ret VUndefined.

Definition listDiagrams (options : option DiagramListOptions) : M val :=
  if hasIncludeOptions options then
    raw ← request GET (Diagrams true) None;
    h ← get_heap;
    raws ← or_throw TypeError (array_items h raw);
    diagrams ← map_each toDiagram raws;
    result ← alloc (CArray diagrams);
    for_each setCachedDiagram diagrams;;
    ret result
  else
    raw ← request GET (Diagrams false) None;
    h ← get_heap;
    raws ← or_throw TypeError (array_items h raw);
    diagrams ← map_each toDiagram raws;
    result ← alloc (CArray diagrams);
    for_each
      (λ diagram,
         h ← get_heap;
         existing ← cache_get (read_prop h diagram "id");
         match existing with
         | Some e =>
             merged ← alloc (CObject
               (define_props (spread_props h (VRef e)) (summary h diagram)));
             setCachedDiagram merged
         | None => setCachedDiagram diagram
         end)
      diagrams;;
    ret result.

Definition getDiagram (id : string) (options : option DiagramListOptions)
    : M val :=
  diagram ← fetchDiagram id;
  if hasIncludeOptions options then ret diagram
  else
    h ← get_heap;
    alloc (CObject (define_props [] (summary h diagram))).

Definition updateDiagram (id : string) (attributes : val) : M val :=
  enqueueMutation id
    (serialized ← serializeAttributes attributes;
     text ← stringify serialized;
     raw ← request PATCH (Diagram id) (Some text);
     updated ← toDiagram raw;
     h ← get_heap;
     (if strict_eq (read_prop h updated "id") (VString id) then ret tt
      else removeCachedDiagram id);;
     setCachedDiagram updated);;
  ret VUndefined.

Definition deleteDiagram (id : string) : M val :=
  enqueueMutation id
    (request DELETE (Diagram id) None;;
     removeCachedDiagram id);;
  ret VUndefined.

(** [diagram[key] = v] *)
Definition write_prop (diagram : val) (k : string) (v : val) : M unit :=
  λ s,
    match diagram with
    | VRef l =>
        match st_heap s !! l with
        | Some (CObject props) =>
            (Fulfilled tt,
             set_heap (λ h, <[l := CObject (set_prop k v props)]> h) s)
        | _ => (Rejected TypeError, s)
        end
    | _ => (Rejected TypeError, s)
    end.

(** The elements of [diagram[key] ?? []], as a spread or an array method
    reads them. *)
Definition collection_items (diagram : val) (c : kind) : M (list val) :=
  h ← get_heap;
  match read_prop h diagram (kind_key c) with
  | VUndefined | VNull => alloc (CArray []);; ret []
  | items => or_throw TypeError (array_items h items)
  end.

Definition store_collection (diagram : val) (c : kind) (items : list val)
    : M unit :=
  array ← alloc (CArray items);
  write_prop diagram (kind_key c) array.

(** [item.id === id] *)
Definition id_is (id : val) (item : val) : M bool :=
  h ← get_heap;
  itemId ← await (member h item "id");
  ret (strict_eq itemId id).

Definition addEntity (c : kind) (diagramId : string) (entity : val) : M val :=
  mutateDiagram diagramId
    (λ diagram,
       items ← collection_items diagram c;
       store_collection diagram c (items ++ [entity])%list);;
  ret VUndefined.

Definition getEntity (c : kind) (diagramId id : string) : M val :=
  diagram ← fetchDiagram diagramId;
  h ← get_heap;
  match read_prop h diagram (kind_key c) with
  | VUndefined | VNull => ret VUndefined
  | items =>
      xs ← or_throw TypeError (array_items h items);
      found ← find_first (id_is (VString id)) xs;
      ret (default VUndefined found)
  end.

Definition updateEntity (c : kind) (id : string) (attributes : val) : M val :=
  owner ← resolveDiagramIdByEntity id c;
  h ← get_heap;
  mutateDiagram (String_ h owner)
    (λ diagram,
       items ← collection_items diagram c;
       updated ←
         map_each
           (λ item,
              same ← id_is (VString id) item;
              if same : bool then
                h ← get_heap;
                alloc (CObject
                  (define_props (spread_props h item) (spread_props h attributes)))
              else ret item)
           items;
       store_collection diagram c updated);;
  ret VUndefined.

Definition putTable (diagramId : string) (table : val) : M val :=
  mutateDiagram diagramId
    (λ diagram,
       items ← collection_items diagram tables;
       let same := λ item,
         h ← get_heap;
         tableId ← await (member h table "id");
         id_is tableId item in
       hasTable ← find_first same items;
       match hasTable with
       | Some _ =>
           replaced ←
             map_each (λ item, b ← same item;
                               ret (if b : bool then table else item)) items;
           store_collection diagram tables replaced
       | None => store_collection diagram tables (items ++ [table])%list
       end);;
  ret VUndefined.

Definition deleteEntity (c : kind) (diagramId id : string) : M val :=
  mutateDiagram diagramId
    (λ diagram,
       items ← collection_items diagram c;
       kept ←
         map_each (λ item, b ← id_is (VString id) item;
                           ret (if b : bool then [] else [item])) items;
       store_collection diagram c (concat kept));;
  ret VUndefined.

(** [listRelationships] and [listCustomTypes] sort a copy by name. *)
Definition sorted_kind (c : kind) : bool :=
  match c with
  | relationships | customTypes => true
  | _ => false
  end.

Definition listEntities (c : kind) (diagramId : string) : M val :=
  diagram ← fetchDiagram diagramId;
  h ← get_heap;
  if sorted_kind c then
    items ← collection_items diagram c;
    h ← get_heap;
    sorted ← or_throw TypeError (sort_by_name h items);
    alloc (CArray sorted)
  else
    match read_prop h diagram (kind_key c) with
    | VUndefined | VNull => alloc (CArray [])
    | items => ret items
    end.

Definition deleteDiagramEntities (c : kind) (diagramId : string) : M val :=
  mutateDiagram diagramId (λ diagram, store_collection diagram c []);;
  ret VUndefined.

(** Every member of the [StorageContext] value, with its arguments. *)
Inductive operation : Type :=
  | OpGetConfig
  | OpUpdateConfig (config : val)
  | OpGetDiagramFilter (diagramId : string)
  | OpUpdateDiagramFilter (diagramId : string) (filter : val)
  | OpDeleteDiagramFilter (diagramId : string)
  | OpAddDiagram (diagram : val)
  | OpListDiagrams (options : option DiagramListOptions)
  | OpGetDiagram (id : string) (options : option DiagramListOptions)
  | OpUpdateDiagram (id : string) (attributes : val)
  | OpDeleteDiagram (id : string)
  | OpAdd (c : kind) (diagramId : string) (entity : val)
  | OpGet (c : kind) (diagramId id : string)
  | OpUpdate (c : kind) (id : string) (attributes : val)
  | OpPutTable (diagramId : string) (table : val)
  | OpDelete (c : kind) (diagramId id : string)
  | OpList (c : kind) (diagramId : string)
  | OpDeleteAll (c : kind) (diagramId : string).

Definition run (op : operation) : M val :=
  match op with
  | OpGetConfig => getConfig
  | OpUpdateConfig config => updateConfig config
  | OpGetDiagramFilter diagramId => getDiagramFilter diagramId
  | OpUpdateDiagramFilter diagramId filter => updateDiagramFilter diagramId filter
  | OpDeleteDiagramFilter diagramId => deleteDiagramFilter diagramId
  | OpAddDiagram diagram => addDiagram diagram
  | OpListDiagrams options => listDiagrams options
  | OpGetDiagram id options => getDiagram id options
  | OpUpdateDiagram id attributes => updateDiagram id attributes
  | OpDeleteDiagram id => deleteDiagram id
  | OpAdd c diagramId entity => addEntity c diagramId entity
  | OpGet c diagramId id => getEntity c diagramId id
  | OpUpdate c id attributes => updateEntity c id attributes
  | OpPutTable diagramId table => putTable diagramId table
  | OpDelete c diagramId id => deleteEntity c diagramId id
  | OpList c diagramId => listEntities c diagramId
  | OpDeleteAll c diagramId => deleteDiagramEntities c diagramId
  end.

(** The provider as it is mounted: nothing cached, nothing queued. *)
Definition mounted (srv : remote) : state :=
  {| st_heap := []; diagramsCache := []; owners := λ _, [];
     mutationQueue := []; server := srv; calls := []; ticks := 0 |}.

End Provider.

(** Built-ins for the examples: a server that answers from a script, one
    response per request, and a clock that counts. *)
Definition scripted : Builtins :=
  {| toISOString := λ t, pretty t;
     Date_parse := λ _, None;
     Date_of_number := λ n, Some n;
     Date_now := λ n, Z.of_nat n;
     Number_toString := λ n, pretty n;
     Object_toString := λ _ _, "[object Object]";
     sort_by_name := λ _ xs, Some xs;
     remote := list http_result;
     fetch := λ _ _ _ rs,
       match rs with
       | [] => (NetworkFailure, [])
       | r :: rs => (r, rs)
       end |}.

(** *** Reachability and well-formedness

    The cells that a value leads to: the cell it names, and the cells that
    the values held there lead to. *)
Inductive reachable (h : heap) : val → loc → Prop :=
  | reachable_here l : reachable h (VRef l) l
  | reachable_step l c v l' :
      h !! l = Some c → v ∈ cell_vals c → reachable h v l' →
      reachable h (VRef l) l'.

(** Every reference held in a cell names a cell of the heap. *)
Definition heap_wf (h : heap) : Prop :=
  Forall (cell_within 0 (length h)) h.

(** The heap is well formed and the cache holds cells of it. *)
Definition state_wf `{Builtins} (s : state) : Prop :=
  heap_wf (st_heap s) ∧
  Forall (λ e, (e.2 < length (st_heap s))%nat) (diagramsCache s).

(** [r] holds what the diagram [d] holds: the same strings as [id],
    [name], [databaseType] and [databaseEdition] wherever [d] has strings
    there, collections that [JSON.stringify] writes as it writes those
    of [d] wherever [d] has arrays, and dates of the same time as
    [createdAt] and [updatedAt] wherever [d] has dates there whose ISO text
    [new Date] reads back as that time. *)
Definition copy_of `{Builtins} (h : heap) (d r : val) : Prop :=
  (∀ k x, k ∈ ["id"; "name"; "databaseType"; "databaseEdition"] →
     read_prop h d k = VString x → read_prop h r k = VString x) ∧
  (∀ c, is_Some (array_items h (read_prop h d (kind_key c))) →
     is_Some (array_items h (read_prop h r (kind_key c))) ∧
     ∃ j, JSON_stringify h (read_prop h d (kind_key c)) = Some j
          ∧ JSON_stringify h (read_prop h r (kind_key c)) = Some j) ∧
  (∀ k t, k ∈ ["createdAt"; "updatedAt"] →
     date_time h (read_prop h d k) = Some (Some t) →
     Date_parse (toISOString t) = Some t →
     date_time h (read_prop h r k) = Some (Some t)).

(** The owner indices know every element of the collections of [d]: each
    has an [id], under which the index of its collection holds the [id] of
    [d]. *)
Definition indexed (h : heap) (owner : kind → list (val * val)) (d : val)
    : Prop :=
  ∀ c items item,
    array_items h (read_prop h d (kind_key c)) = Some items → item ∈ items →
    ∃ x, member h item "id" = Fulfilled x
         ∧ map_get x (owner c) = Some (read_prop h d "id").

(** *** The cache of a running provider *)

(** The members that a listing without collections brings. *)
Definition summary_keys : list string :=
  ["id"; "name"; "databaseType"; "databaseEdition"; "createdAt"; "updatedAt"].

(** Every cached diagram is an object of the heap. *)
Definition cached_objects `{Builtins} (s : state) : Prop :=
  Forall (λ e, ∃ props, st_heap s !! e.2 = Some (CObject props))
         (diagramsCache s).

(** The state after the operations [ops], run one after the other from [s],
    however each of them ends. *)
Definition run_all `{Builtins} (ops : list operation) (s : state) : state :=
  foldl (λ s op, (run op s).2) s ops.

(** [d] is a diagram in which an element of the collection [c] has the id
    [entityId]. *)
Definition holds_entity (h : heap) (d : val) (c : kind) (entityId : string)
    : Prop :=
  ∃ items item,
    array_items h (read_prop h d (kind_key c)) = Some items ∧
    item ∈ items ∧ member h item "id" = Fulfilled (VString entityId).

End Coordinator.

Module BackendFacts.
Import Backend.

#[global] Instance desc_total : Total desc.
Proof. intros a b. unfold desc. lia. Qed.
#[global] Instance desc_trans : Transitive desc.
Proof. intros a b c. unfold desc. lia. Qed.
#[global] Instance desc_antisymm : AntiSymm (=) desc.
Proof. intros a b. unfold desc. lia. Qed.
#[global] Instance row_desc_total : Total row_desc.
Proof. intros a b. unfold row_desc, desc. lia. Qed.
#[global] Instance row_desc_trans : Transitive row_desc.
Proof. intros a b c. unfold row_desc, desc. lia. Qed.

(** ** Sorting by id *)

Lemma elem_of_ids_desc d vs x :
  x ∈ ids_desc d vs ↔ ∃ v, v ∈ vs ∧ v_diagram_id v = d ∧ v_id v = x.
Proof.
  unfold ids_desc, of_diagram. rewrite merge_sort_Permutation, list_elem_of_fmap.
  split.
  - intros (v & -> & Hv). apply list_elem_of_filter in Hv as [Hd Hv]. eauto.
  - intros (v & Hv & Hd & <-). exists v. split; [done|].
    apply list_elem_of_filter. done.
Qed.

Lemma NoDup_fmap_filter {A B} (f : A → B) (P : A → Prop)
    `{∀ x, Decision (P x)} (l : list A) :
  NoDup (f <$> l) → NoDup (f <$> filter P l).
Proof.
  induction l as [|a l IH]; simpl; [done|].
  rewrite NoDup_cons. intros [Hni Hnd]. rewrite filter_cons.
  destruct (decide (P a)); [|by apply IH].
  simpl. apply NoDup_cons. split; [|by apply IH].
  intros Hin. apply Hni. apply list_elem_of_fmap in Hin as (y & -> & Hy).
  apply list_elem_of_fmap. exists y. split; [done|].
  apply list_elem_of_filter in Hy. tauto.
Qed.

Lemma NoDup_ids_desc d vs :
  NoDup (v_id <$> vs) → NoDup (ids_desc d vs).
Proof.
  intros Hnd. unfold ids_desc. rewrite merge_sort_Permutation.
  by apply NoDup_fmap_filter.
Qed.

Lemma length_ids_desc d vs : length (ids_desc d vs) = length (of_diagram d vs).
Proof.
  unfold ids_desc. rewrite merge_sort_Permutation. apply length_fmap.
Qed.

Lemma fmap_inj_on {A B} (f : A → B) (l : list A) x y :
  NoDup (f <$> l) → x ∈ l → y ∈ l → f x = f y → x = y.
Proof.
  induction l as [|a l IH]; simpl; [by intros _ ?%elem_of_nil|].
  rewrite NoDup_cons. intros [Hni Hnd] Hx Hy Hf.
  apply elem_of_cons in Hx as [->|Hx]; apply elem_of_cons in Hy as [->|Hy];
    [done| | |by apply IH].
  - exfalso. apply Hni. rewrite Hf. by apply list_elem_of_fmap_2.
  - exfalso. apply Hni. rewrite <- Hf. by apply list_elem_of_fmap_2.
Qed.

Lemma NoDup_take_drop {A} (l : list A) n x :
  NoDup l → x ∈ l → (x ∉ drop n l ↔ x ∈ take n l).
Proof.
  intros Hnd Hx. rewrite <- (take_drop n l) in Hnd, Hx.
  apply NoDup_app in Hnd as (_ & Hdisj & _).
  apply elem_of_app in Hx as [Hx|Hx]; split; intros; try done.
  - by apply Hdisj.
  - exfalso. eapply Hdisj; eauto.
Qed.

Lemma filter_comm {A} (P Q : A → Prop) `{∀ x, Decision (P x)}
    `{∀ x, Decision (Q x)} (l : list A) :
  filter P (filter Q l) = filter Q (filter P l).
Proof.
  rewrite !list_filter_filter. apply list_filter_iff. tauto.
Qed.

(** ** Retention pruning *)

(** Which rows survive [pruneVersions]: those of other documents, and those
    of [d] whose id is among the [keep] largest of [d]. *)
Lemma elem_of_pruneVersions d keep s v :
  (0 < keep)%Z → NoDup (v_id <$> diagram_versions s) →
  v ∈ diagram_versions (pruneVersions d keep s) ↔
  v ∈ diagram_versions s ∧
  (v_diagram_id v = d →
   v_id v ∈ take (Z.to_nat keep) (ids_desc d (diagram_versions s))).
Proof.
  intros Hk Hnd. unfold pruneVersions.
  destruct (decide (keep ≤ 0)%Z); [lia|]. simpl.
  rewrite list_elem_of_filter.
  split.
  - intros [Hni Hv]. split; [done|]. intros Hd.
    apply NoDup_take_drop; [by apply NoDup_ids_desc| |done].
    apply elem_of_ids_desc. eauto.
  - intros [Hv Hd]. split; [|done]. intros Hin.
    assert (v_id v ∈ ids_desc d (diagram_versions s)) as Hs.
    { rewrite <- (take_drop (Z.to_nat keep)). apply elem_of_app. by right. }
    apply elem_of_ids_desc in Hs as (v' & Hv' & Hd' & Hid).
    assert (v' = v) as -> by (eapply fmap_inj_on; eauto).
    revert Hin. apply NoDup_take_drop; [by apply NoDup_ids_desc| |by apply Hd].
    apply elem_of_ids_desc. eauto.
Qed.

Lemma ids_desc_sorted d vs : StronglySorted desc (ids_desc d vs).
Proof. apply StronglySorted_merge_sort; apply _. Qed.

Lemma StronglySorted_take {A} (R : relation A) (l : list A) n :
  StronglySorted R l → StronglySorted R (take n l).
Proof.
  intros Hs. rewrite <- (take_drop n l) in Hs.
  by apply StronglySorted_app_1_l in Hs.
Qed.

Lemma ids_desc_pruneVersions d keep s :
  (0 < keep)%Z → NoDup (v_id <$> diagram_versions s) →
  ids_desc d (diagram_versions (pruneVersions d keep s)) =
  take (Z.to_nat keep) (ids_desc d (diagram_versions s)).
Proof.
  intros Hk Hnd.
  assert (NoDup (v_id <$> diagram_versions (pruneVersions d keep s))) as Hnd'.
  { unfold pruneVersions. destruct (decide _); [done|]. simpl.
    by apply NoDup_fmap_filter. }
  apply (StronglySorted_unique desc).
  - apply ids_desc_sorted.
  - apply StronglySorted_take, ids_desc_sorted.
  - apply NoDup_Permutation.
    + by apply NoDup_ids_desc.
    + eapply sublist_NoDup; [|apply sublist_take]. by apply NoDup_ids_desc.
    + intros x. rewrite elem_of_ids_desc. split.
      * intros (v & Hv & Hd & <-).
        apply elem_of_pruneVersions in Hv as [_ Hv]; auto.
      * intros Hx.
        assert (x ∈ ids_desc d (diagram_versions s)) as Hs.
        { rewrite <- (take_drop (Z.to_nat keep)). apply elem_of_app. by left. }
        apply elem_of_ids_desc in Hs as (v & Hv & Hd & <-).
        exists v. split; [|done]. apply elem_of_pruneVersions; auto.
Qed.

Lemma count_pruneVersions d keep s :
  (0 < keep)%Z → NoDup (v_id <$> diagram_versions s) →
  (length (of_diagram d (diagram_versions (pruneVersions d keep s)))
   ≤ Z.to_nat keep)%nat.
Proof.
  intros Hk Hnd. rewrite <- length_ids_desc, ids_desc_pruneVersions by done.
  rewrite length_take. lia.
Qed.

Lemma count_pruneVersions_le d d' keep s :
  (length (of_diagram d' (diagram_versions (pruneVersions d keep s)))
   ≤ length (of_diagram d' (diagram_versions s)))%nat.
Proof.
  unfold pruneVersions. destruct (decide _); [done|]. simpl.
  unfold of_diagram. rewrite filter_comm. apply length_filter.
Qed.

Lemma pruneVersions_unlimited d keep s : (keep ≤ 0)%Z → pruneVersions d keep s = s.
Proof. intros Hk. unfold pruneVersions. by destruct (decide _). Qed.

(** ** The invariant *)

Lemma Forall_filter_2 {A} (P Q : A → Prop) `{∀ x, Decision (Q x)} (l : list A) :
  Forall P l → Forall P (filter Q l).
Proof.
  rewrite !Forall_forall. intros HP x Hx.
  apply list_elem_of_filter in Hx as [_ Hx]. auto.
Qed.

Lemma store_inv_init : store_inv initSchema.
Proof. split; simpl; constructor. Qed.

Lemma store_inv_set_diagrams f s :
  (∀ d, is_Some (diagrams s !! d) → is_Some (f (diagrams s) !! d)) →
  store_inv s → store_inv (set_diagrams f s).
Proof.
  intros Hf [H1 H2 H3]. split; simpl; [done..|].
  eapply Forall_impl; [exact H3|]. intros v. apply Hf.
Qed.

Lemma store_inv_set_filters f s : store_inv s → store_inv (set_filters f s).
Proof. intros [H1 H2 H3]. split; simpl; done. Qed.

Lemma store_inv_insertVersion now d n p a s :
  is_Some (diagrams s !! d) → store_inv s →
  store_inv (insertVersion now d n p a s).
Proof.
  intros Hd [H1 H2 H3]. split; simpl.
  - rewrite fmap_app. simpl. apply NoDup_app. split; [done|]. split.
    + intros x Hx ->%list_elem_of_singleton.
      apply list_elem_of_fmap in Hx as (v & Hv & Hin).
      rewrite Forall_forall in H2. apply H2 in Hin. lia.
    + apply NoDup_singleton.
  - apply Forall_app. split.
    + eapply Forall_impl; [exact H2|]. simpl. intros; lia.
    + constructor; [simpl; lia|constructor].
  - apply Forall_app. split; [done|]. constructor; [done|constructor].
Qed.

Lemma store_inv_filter_versions (P : versionRow → Prop)
    `{∀ v, Decision (P v)} s :
  store_inv s → store_inv (set_versions (filter P) s).
Proof.
  intros [H1 H2 H3]. split; simpl.
  - by apply NoDup_fmap_filter.
  - by apply Forall_filter_2.
  - by apply Forall_filter_2.
Qed.

Lemma store_inv_pruneVersions d keep s :
  store_inv s → store_inv (pruneVersions d keep s).
Proof.
  intros Hs. unfold pruneVersions. destruct (decide _); [done|].
  by apply store_inv_filter_versions.
Qed.

Lemma updateDiagramRow_Some d p m s s' :
  updateDiagramRow d p m s = Ok s' →
  is_Some (diagrams s !! d) ∧ is_Some (diagrams s' !! d) ∧
  diagram_versions s' = diagram_versions s ∧
  diagram_versions_seq s' = diagram_versions_seq s ∧
  diagram_filters s' = diagram_filters s ∧
  ∀ d', d' ≠ d → diagrams s' !! d' = diagrams s !! d'.
Proof.
  unfold updateDiagramRow. destruct (diagrams s !! d) eqn:E; [|done].
  intros [= <-]. simpl. rewrite lookup_insert_eq.
  repeat split; eauto. intros d' Hd'. by rewrite lookup_insert_ne.
Qed.

Lemma store_inv_updateDiagramRow d p m s s' :
  updateDiagramRow d p m s = Ok s' → store_inv s → store_inv s'.
Proof.
  unfold updateDiagramRow. destruct (diagrams s !! d) eqn:E; [|done].
  intros [= <-]. apply store_inv_set_diagrams. intros d' Hd'.
  destruct (decide (d = d')) as [->|]; [by rewrite lookup_insert_eq|].
  by rewrite lookup_insert_ne.
Qed.

Lemma store_inv_insertDiagram p m s s' :
  insertDiagram p m s = Ok s' → store_inv s → store_inv s'.
Proof.
  unfold insertDiagram. destruct (diagrams s !! ID m) eqn:E; [done|].
  intros [= <-]. apply store_inv_set_diagrams. intros d' Hd'.
  destruct (decide (ID m = d')) as [<-|]; [by rewrite lookup_insert_eq|].
  by rewrite lookup_insert_ne.
Qed.

Lemma insertDiagram_Some p m s s' :
  insertDiagram p m s = Ok s' →
  diagrams s !! ID m = None ∧ is_Some (diagrams s' !! ID m) ∧
  diagram_versions s' = diagram_versions s.
Proof.
  unfold insertDiagram. destruct (diagrams s !! ID m) eqn:E; [done|].
  intros [= <-]. simpl. by rewrite lookup_insert_eq.
Qed.

Lemma refiled_diagram t d v :
  v_diagram_id (refiled t d v) =
  if decide (v_diagram_id v = d) then t else v_diagram_id v.
Proof. unfold refiled. by destruct (decide _). Qed.

Lemma count_rename t d s d' :
  t ≠ d →
  version_count d' (renameVersions t d s) =
  if decide (d' = d) then 0%nat
  else if decide (d' = t) then (version_count t s + version_count d s)%nat
       else version_count d' s.
Proof.
  intros Hne. unfold version_count, renameVersions, of_diagram. simpl.
  induction (diagram_versions s) as [|v vs IH]; csimpl.
  - by repeat case_decide.
  - rewrite !filter_cons, refiled_diagram.
    repeat (case_decide; csimpl in *; subst; try done);
      try congruence; try lia.
Qed.

Lemma store_inv_renameVersions t d s :
  is_Some (diagrams s !! t) →
  (∀ v, v ∈ diagram_versions s → v_diagram_id v ≠ d →
        is_Some (diagrams s !! v_diagram_id v)) →
  NoDup (v_id <$> diagram_versions s) →
  Forall (λ v, (v_id v ≤ diagram_versions_seq s)%Z) (diagram_versions s) →
  store_inv (renameVersions t d s).
Proof.
  intros Ht Ho H1 H2. split; simpl.
  - rewrite <- list_fmap_compose.
    erewrite list_fmap_ext; [exact H1|]. intros ? v ?. simpl.
    unfold refiled. by destruct (decide _).
  - apply Forall_fmap. eapply Forall_impl; [exact H2|].
    intros v Hv. simpl. unfold refiled. by destruct (decide _).
  - apply Forall_fmap, Forall_forall. intros v Hv. simpl. unfold refiled.
    destruct (decide (v_diagram_id v = d)) as [Hd|Hd]; simpl; auto.
Qed.

Lemma renameDiagramRow_Ok t d p m s s1 :
  renameDiagramRow t d p m s = Ok s1 →
  is_Some (diagrams s !! d) ∧ diagrams s !! t = None ∧
  is_Some (diagrams s1 !! t) ∧
  (t ≠ d → diagrams s1 !! d = None) ∧
  (∀ d', d' ≠ d → d' ≠ t → diagrams s1 !! d' = diagrams s !! d') ∧
  diagram_versions s1 = diagram_versions s ∧
  diagram_versions_seq s1 = diagram_versions_seq s ∧
  diagram_filters s1 = diagram_filters s.
Proof.
  unfold renameDiagramRow.
  destruct (diagrams s !! d) eqn:Ed; [|done].
  destruct (diagrams s !! t) eqn:Et; [done|].
  intros [= <-]. simpl. rewrite lookup_insert_eq. repeat split; eauto.
  - intros Hne. by rewrite lookup_insert_ne, lookup_delete_eq.
  - intros d' H1 H2. by rewrite lookup_insert_ne, lookup_delete_ne.
Qed.

Lemma renameFilter_Ok t d s s2 :
  renameFilter t d s = Ok s2 →
  diagrams s2 = diagrams s ∧ diagram_versions s2 = diagram_versions s ∧
  diagram_versions_seq s2 = diagram_versions_seq s.
Proof.
  unfold renameFilter. destruct (diagram_filters s !! d); [|by intros [= <-]].
  destruct (diagram_filters s !! t); [done|]. by intros [= <-].
Qed.

Lemma store_inv_eq s s' :
  diagrams s' = diagrams s → diagram_versions s' = diagram_versions s →
  diagram_versions_seq s' = diagram_versions_seq s →
  store_inv s → store_inv s'.
Proof. intros E1 E2 E3 [H1 H2 H3]. split; rewrite ?E1, ?E2, ?E3; done. Qed.

Lemma store_inv_rename t d p m s s1 s2 :
  t ≠ d →
  renameDiagramRow t d p m s = Ok s1 →
  renameFilter t d (renameVersions t d s1) = Ok s2 →
  store_inv s → store_inv s2.
Proof.
  intros Hne Hr Hf [H1 H2 H3].
  apply renameDiagramRow_Ok in Hr as (Hd & Ht & Ht' & Hd' & Ho & Ev & Es & Ef).
  apply renameFilter_Ok in Hf as (E1 & E2 & E3).
  eapply store_inv_eq; [done..|].
  apply store_inv_renameVersions; rewrite ?Ev, ?Es; auto.
  intros v Hv Hvd. rewrite Forall_forall in H3. specialize (H3 v Hv).
  rewrite Ho; [done|done|]. intros Heq. rewrite Heq, Ht in H3.
  by destruct H3.
Qed.

Lemma unmarshal_Marshal m : unmarshal_object (Marshal m) = Some m.
Proof.
  unfold Marshal, unmarshal_object, object_of_members. f_equal.
  rewrite <- (list_to_map_to_list m) at 2.
  apply list_to_map_proper.
  - rewrite fmap_reverse, reverse_Permutation. apply NoDup_fst_map_to_list.
  - apply reverse_Permutation.
Qed.

Lemma normalize_Marshal now m :
  normalizeDiagramPayload now (Marshal m) = normalizeMap now m.
Proof. unfold normalizeDiagramPayload. by rewrite unmarshal_Marshal. Qed.

(** A patch that commits, step by step. *)
Lemma patch_Ok N clk d patch s p s' :
  patchDiagramWithVersion N clk d patch s = Ok (p, s') →
  ∃ row meta s1,
    diagrams s !! d = Some row ∧
    normalizeMap (clk 1%nat)
      (match mergePatch patch (d_payload row) !! "updatedAt" with
       | Some _ => mergePatch patch (d_payload row)
       | None => <["updatedAt" := JString (clk 0%nat)]>
                   (mergePatch patch (d_payload row))
       end) = Ok (p, meta) ∧
    let t := if decide (ID meta = "") then d else ID meta in
    ((t = d ∧ updateDiagramRow d p meta s = Ok s1) ∨
     (t ≠ d ∧ ∃ s0, renameDiagramRow t d p meta s = Ok s0 ∧
                    renameFilter t d (renameVersions t d s0) = Ok s1)) ∧
    s' = if isOnlyUpdatedAtPatch patch then s1
         else pruneVersions t N
                (insertVersion (clk 2%nat) t (Name meta) p "patch" s1).
Proof.
  unfold patchDiagramWithVersion, getDiagramPayload.
  destruct (diagrams s !! d) as [row|] eqn:Ed; [|done]. simpl.
  rewrite normalize_Marshal.
  destruct (normalizeMap _ _) as [[p0 meta]|] eqn:En; [|done]. simpl.
  set (t := if decide (ID meta = "") then d else ID meta).
  destruct (decide (t = d)) as [Ht|Ht].
  - destruct (updateDiagramRow d p0 meta s) as [s1|] eqn:Eu; [|done]. simpl.
    intros [= <- <-]. exists row, meta, s1. repeat split; eauto.
  - destruct (renameDiagramRow t d p0 meta s) as [s0|] eqn:Er; [|done]. simpl.
    destruct (renameFilter t d (renameVersions t d s0)) as [s1|] eqn:Ef;
      [|done]. simpl.
    intros [= <- <-]. exists row, meta, s1. repeat split; eauto.
Qed.

Lemma version_count_insertVersion now d n p a s d' :
  version_count d' (insertVersion now d n p a s) =
  (version_count d' s + if decide (d = d') then 1 else 0)%nat.
Proof.
  unfold version_count, of_diagram. simpl. rewrite filter_app, length_app.
  f_equal. rewrite filter_cons. simpl. by destruct (decide _).
Qed.

Lemma bounded_append N now d n p a s :
  (0 < N)%Z → is_Some (diagrams s !! d) → store_inv s → bounded N s →
  bounded N (pruneVersions d N (insertVersion now d n p a s)).
Proof.
  intros HN Hd Hinv Hb d'.
  destruct (decide (d' = d)) as [->|Hne].
  - apply count_pruneVersions; [done|].
    by apply store_inv_insertVersion.
  - etrans; [apply count_pruneVersions_le|].
    fold (version_count d' (insertVersion now d n p a s)).
    rewrite version_count_insertVersion.
    destruct (decide (d = d')); [done|]. specialize (Hb d'). lia.
Qed.

Lemma filter_none {A} (P : A → Prop) `{∀ x, Decision (P x)} (l : list A) :
  (∀ x, x ∈ l → ¬ P x) → filter P l = [].
Proof.
  induction l as [|a l IH]; [done|]. intros Hl. rewrite filter_cons.
  destruct (decide (P a)) as [Ha|Ha].
  - exfalso. apply (Hl a); [left|done].
  - apply IH. intros x Hx. apply Hl. by right.
Qed.

Lemma no_rows_without_diagram d s :
  store_inv s → diagrams s !! d = None → version_count d s = 0%nat.
Proof.
  intros [_ _ Ho] Hd. unfold version_count, of_diagram.
  rewrite filter_none; [done|]. intros v Hv Heq.
  rewrite Forall_forall in Ho. apply Ho in Hv. rewrite Heq, Hd in Hv.
  by destruct Hv.
Qed.

Lemma bounded_eq N s s' :
  diagram_versions s' = diagram_versions s → bounded N s → bounded N s'.
Proof. intros E Hb d. unfold version_count. rewrite E. apply Hb. Qed.

Lemma store_inv_patch N clk d patch s p s' :
  patchDiagramWithVersion N clk d patch s = Ok (p, s') →
  store_inv s → store_inv s'.
Proof.
  intros Hp Hinv.
  apply patch_Ok in Hp as (row & meta & s1 & Hrow & Hn & Hs1 & ->).
  simpl in Hs1. set (t := if decide (ID meta = "") then d else ID meta) in *.
  assert (store_inv s1 ∧ is_Some (diagrams s1 !! t)) as [Hinv1 Ht].
  { destruct Hs1 as [[Ht Hu]|(Ht & s0 & Hr & Hf)].
    - split; [by eapply store_inv_updateDiagramRow|].
      rewrite Ht. by apply updateDiagramRow_Some in Hu as (_ & ? & _).
    - split; [by eapply store_inv_rename|].
      apply renameFilter_Ok in Hf as (-> & _). simpl.
      by apply renameDiagramRow_Ok in Hr as (_ & _ & ? & _). }
  destruct (isOnlyUpdatedAtPatch patch); [done|].
  by apply store_inv_pruneVersions, store_inv_insertVersion.
Qed.

Lemma bounded_patch N clk d patch s p s' :
  (0 < N)%Z →
  patchDiagramWithVersion N clk d patch s = Ok (p, s') →
  store_inv s → bounded N s → bounded N s'.
Proof.
  intros HN Hp Hinv Hb.
  apply patch_Ok in Hp as (row & meta & s1 & Hrow & Hn & Hs1 & ->).
  simpl in Hs1. set (t := if decide (ID meta = "") then d else ID meta) in *.
  assert (store_inv s1 ∧ is_Some (diagrams s1 !! t) ∧ bounded N s1)
    as (Hinv1 & Ht & Hb1).
  { destruct Hs1 as [[Ht Hu]|(Ht & s0 & Hr & Hf)].
    - split; [by eapply store_inv_updateDiagramRow|].
      apply updateDiagramRow_Some in Hu as (_ & ? & Ev & _).
      rewrite Ht. split; [done|]. by eapply bounded_eq.
    - split; [by eapply store_inv_rename|].
      apply renameFilter_Ok in Hf as (Ed & Ev & _). rewrite Ed.
      apply renameDiagramRow_Ok in Hr as (_ & Hnone & ? & _ & _ & Ev0 & _).
      split; [done|]. eapply bounded_eq; [exact Ev|].
      intros d'. rewrite count_rename by done.
      assert (version_count t s0 = 0%nat) as E0.
      { unfold version_count. rewrite Ev0.
        by apply no_rows_without_diagram. }
      repeat case_decide; try lia.
      + rewrite E0. unfold version_count. rewrite Ev0. apply (Hb d).
      + unfold version_count. rewrite Ev0. apply (Hb d'). }
  destruct (isOnlyUpdatedAtPatch patch); [done|].
  by apply bounded_append.
Qed.

Lemma restore_Ok N clk d v s p s' :
  restoreVersion N clk d v s = Ok (p, s') →
  ∃ vp np m0 meta s1,
    getVersionPayload d v s = Ok vp ∧
    normalizeMap (clk 0%nat) vp = Ok (np, m0) ∧
    normalizeMap (clk 2%nat)
      (<["updatedAt" := JString (clk 1%nat)]> (<["id" := JString d]> np))
      = Ok (p, meta) ∧
    updateDiagramRow d p meta s = Ok s1 ∧
    s' = pruneVersions d N
           (insertVersion (clk 3%nat) d (Name meta) p "restore" s1).
Proof.
  unfold restoreVersion.
  destruct (getVersionPayload d v s) as [vp|] eqn:Ev; [|done]. simpl.
  rewrite normalize_Marshal.
  destruct (normalizeMap (clk 0%nat) vp) as [[np m0]|] eqn:E0; [|done]. simpl.
  rewrite normalize_Marshal.
  destruct (normalizeMap (clk 2%nat) _) as [[rp meta]|] eqn:E2; [|done]. simpl.
  destruct (updateDiagramRow d rp meta s) as [s1|] eqn:Eu; [|done]. simpl.
  intros [= <- <-]. eauto 10.
Qed.

Lemma handle_inv N r s :
  store_inv s → store_inv (handleDiagrams N r s).2.
Proof.
  intros Hinv. destruct r; simpl.
  - destruct (decodeAndNormalizeDiagramPayload _ _) as [[p m]|]; [|done].
    unfold insertDiagramWithVersion.
    destruct (insertDiagram p m s) as [s1|e] eqn:Ei; simpl;
      [|by destruct (isUniqueConstraintError e)].
    apply store_inv_pruneVersions, store_inv_insertVersion.
    + by apply insertDiagram_Some in Ei as (_ & ? & _).
    + by eapply store_inv_insertDiagram.
  - destruct (getDiagramPayload _ _) as [|e]; [done|]. by destruct (isErrNoRows e).
  - destruct (decodeAndNormalizeDiagramPayload _ _) as [[p m]|]; [|done].
    destruct (decide _); [done|]. unfold replaceDiagramWithVersion.
    destruct (updateDiagramRow diagramID p m s) as [s1|e] eqn:Eu; simpl;
      [|by destruct (isErrNoRows e)].
    apply store_inv_pruneVersions, store_inv_insertVersion.
    + by apply updateDiagramRow_Some in Eu as (_ & ? & _).
    + by eapply store_inv_updateDiagramRow.
  - destruct (decodeBody b) as [pd|]; [|done].
    destruct (patchDiagramWithVersion _ _ _ _ _) as [[p s']|e] eqn:Ep; simpl.
    + by eapply store_inv_patch.
    + destruct (isErrNoRows e); [done|]. by destruct (isUniqueConstraintError e).
  - unfold deleteDiagram. simpl. destruct Hinv as [H1 H2 H3]. split; simpl.
    + by apply NoDup_fmap_filter.
    + by apply Forall_filter_2.
    + apply Forall_forall. intros v Hv.
      apply list_elem_of_filter in Hv as [Hne Hv].
      rewrite lookup_delete_ne by done.
      rewrite Forall_forall in H3. by apply H3.
  - destruct (getDiagramFilter _ _) as [|e]; [done|]. by destruct (isErrNoRows e).
  - destruct (decodeBody b); [|done]. simpl. by apply store_inv_set_filters.
  - simpl. by apply store_inv_set_filters.
  - done.
  - destruct (getVersionPayload _ _ _) as [|e]; [done|]. by destruct (isErrNoRows e).
  - destruct (restoreVersion _ _ _ _ _) as [[p s']|e] eqn:Er; simpl;
      [|by destruct (isErrNoRows e)].
    apply restore_Ok in Er as (vp & np & m0 & meta & s1 & _ & _ & _ & Hu & ->).
    apply store_inv_pruneVersions, store_inv_insertVersion.
    + by apply updateDiagramRow_Some in Hu as (_ & ? & _).
    + by eapply store_inv_updateDiagramRow.
Qed.

Lemma handle_bounded N r s :
  (0 < N)%Z → store_inv s → bounded N s → bounded N (handleDiagrams N r s).2.
Proof.
  intros HN Hinv Hb. destruct r; simpl.
  - destruct (decodeAndNormalizeDiagramPayload _ _) as [[p m]|]; [|done].
    unfold insertDiagramWithVersion.
    destruct (insertDiagram p m s) as [s1|e] eqn:Ei; simpl;
      [|by destruct (isUniqueConstraintError e)].
    pose proof (insertDiagram_Some _ _ _ _ Ei) as (_ & ? & Ev).
    apply bounded_append; auto.
    + by eapply store_inv_insertDiagram.
    + by eapply bounded_eq.
  - destruct (getDiagramPayload _ _) as [|e]; [done|]. by destruct (isErrNoRows e).
  - destruct (decodeAndNormalizeDiagramPayload _ _) as [[p m]|]; [|done].
    destruct (decide _); [done|]. unfold replaceDiagramWithVersion.
    destruct (updateDiagramRow diagramID p m s) as [s1|e] eqn:Eu; simpl;
      [|by destruct (isErrNoRows e)].
    pose proof (updateDiagramRow_Some _ _ _ _ _ Eu) as (_ & ? & Ev & _).
    apply bounded_append; auto.
    + by eapply store_inv_updateDiagramRow.
    + by eapply bounded_eq.
  - destruct (decodeBody b) as [pd|]; [|done].
    destruct (patchDiagramWithVersion _ _ _ _ _) as [[p s']|e] eqn:Ep; simpl.
    + by eapply bounded_patch.
    + destruct (isErrNoRows e); [done|]. by destruct (isUniqueConstraintError e).
  - intros d. unfold version_count, of_diagram. simpl.
    rewrite filter_comm. etrans; [apply length_filter|]. apply Hb.
  - destruct (getDiagramFilter _ _) as [|e]; [done|]. by destruct (isErrNoRows e).
  - destruct (decodeBody b); done.
  - done.
  - done.
  - destruct (getVersionPayload _ _ _) as [|e]; [done|]. by destruct (isErrNoRows e).
  - destruct (restoreVersion _ _ _ _ _) as [[p s']|e] eqn:Er; simpl;
      [|by destruct (isErrNoRows e)].
    apply restore_Ok in Er as (vp & np & m0 & meta & s1 & _ & _ & _ & Hu & ->).
    pose proof (updateDiagramRow_Some _ _ _ _ _ Hu) as (_ & ? & Ev & _).
    apply bounded_append; auto.
    + by eapply store_inv_updateDiagramRow.
    + by eapply bounded_eq.
Qed.

Lemma serve_snoc N rs r s :
  serve N (rs ++ [r]) s = (handleDiagrams N r (serve N rs s)).2.
Proof. unfold serve. by rewrite foldl_app. Qed.

Lemma serve_inv N rs s : store_inv s → store_inv (serve N rs s).
Proof.
  intros Hs. induction rs as [|r rs IH] using rev_ind; [done|].
  rewrite serve_snoc. by apply handle_inv.
Qed.

Lemma serve_bounded N rs s :
  (0 < N)%Z → store_inv s → bounded N s → bounded N (serve N rs s).
Proof.
  intros HN Hs Hb. induction rs as [|r rs IH] using rev_ind; [done|].
  rewrite serve_snoc. apply handle_bounded; auto using serve_inv.
Qed.

Lemma snapshot_renameVersions t d s :
  snapshot <$> diagram_versions (renameVersions t d s) =
  snapshot <$> diagram_versions s.
Proof.
  simpl. rewrite <- list_fmap_compose. apply list_fmap_ext.
  intros ? v ?. simpl. unfold refiled. by destruct (decide _).
Qed.

Lemma snapshot_append N now d n p a s :
  (N ≤ 0)%Z →
  snapshot <$> diagram_versions s `prefix_of`
  snapshot <$> diagram_versions (pruneVersions d N (insertVersion now d n p a s)).
Proof.
  intros HN. rewrite pruneVersions_unlimited by done. simpl.
  rewrite fmap_app. by apply prefix_app_r.
Qed.

Lemma handle_unlimited N r s :
  (N ≤ 0)%Z → is_write r = true →
  snapshot <$> diagram_versions s `prefix_of`
  snapshot <$> diagram_versions (handleDiagrams N r s).2.
Proof.
  intros HN Hw. destruct r; try done; simpl.
  - destruct (decodeAndNormalizeDiagramPayload _ _) as [[p m]|]; [|done].
    unfold insertDiagramWithVersion.
    destruct (insertDiagram p m s) as [s1|e] eqn:Ei; simpl;
      [|by destruct (isUniqueConstraintError e)].
    apply insertDiagram_Some in Ei as (_ & _ & <-). by apply snapshot_append.
  - destruct (decodeAndNormalizeDiagramPayload _ _) as [[p m]|]; [|done].
    destruct (decide _); [done|]. unfold replaceDiagramWithVersion.
    destruct (updateDiagramRow diagramID p m s) as [s1|e] eqn:Eu; simpl;
      [|by destruct (isErrNoRows e)].
    apply updateDiagramRow_Some in Eu as (_ & _ & <- & _).
    by apply snapshot_append.
  - destruct (decodeBody b) as [pd|]; [|done].
    destruct (patchDiagramWithVersion _ _ _ _ _) as [[p s']|e] eqn:Ep; simpl;
      [|destruct (isErrNoRows e); [done|];
        by destruct (isUniqueConstraintError e)].
    apply patch_Ok in Ep as (row & meta & s1 & Hrow & Hn & Hs1 & ->).
    simpl in Hs1.
    assert (snapshot <$> diagram_versions s1 = snapshot <$> diagram_versions s)
      as <-.
    { destruct Hs1 as [[Ht Hu]|(Ht & s0 & Hr & Hf)].
      - by apply updateDiagramRow_Some in Hu as (_ & _ & -> & _).
      - apply renameFilter_Ok in Hf as (_ & -> & _).
        rewrite snapshot_renameVersions.
        by apply renameDiagramRow_Ok in Hr as (_ & _ & _ & _ & _ & -> & _). }
    destruct (isOnlyUpdatedAtPatch _); [done|]. by apply snapshot_append.
  - destruct (restoreVersion _ _ _ _ _) as [[p s']|e] eqn:Er; simpl;
      [|by destruct (isErrNoRows e)].
    apply restore_Ok in Er as (vp & np & m0 & meta & s1 & _ & _ & _ & Hu & ->).
    apply updateDiagramRow_Some in Hu as (_ & _ & <- & _).
    by apply snapshot_append.
Qed.

Lemma serve_unlimited N rs s :
  (N ≤ 0)%Z → Forall (λ r, is_write r = true) rs →
  snapshot <$> diagram_versions s `prefix_of`
  snapshot <$> diagram_versions (serve N rs s).
Proof.
  intros HN. induction rs as [|r rs IH] using rev_ind; [by intros _|].
  rewrite Forall_app. intros [Hrs Hr]. rewrite serve_snoc.
  etrans; [by apply IH|]. apply handle_unlimited; [done|].
  by rewrite Forall_singleton in Hr.
Qed.

(** C1. Under a cap [N > 0] no document ever keeps more than [N] version
    rows, whatever requests were served since the schema was created;
    pruning a document keeps exactly its [N] rows with the largest ids and
    every row of the other documents; under a cap [N ≤ 0] pruning is the
    identity and the writes only ever extend the history. *)
Theorem retention_cap (N : Z) (rs : list request) (d : string) (s : db) :
  ((0 < N)%Z → (version_count d (serve N rs initSchema) ≤ Z.to_nat N)%nat) ∧
  ((0 < N)%Z → store_inv s →
     ids_desc d (diagram_versions (pruneVersions d N s)) =
       take (Z.to_nat N) (ids_desc d (diagram_versions s)) ∧
     ∀ v, v ∈ diagram_versions (pruneVersions d N s) ↔
          v ∈ diagram_versions s ∧
          (v_diagram_id v = d →
           v_id v ∈ take (Z.to_nat N) (ids_desc d (diagram_versions s)))) ∧
  ((N ≤ 0)%Z →
     pruneVersions d N s = s ∧
     (Forall (λ r, is_write r = true) rs →
      snapshot <$> diagram_versions s `prefix_of`
      snapshot <$> diagram_versions (serve N rs s))).
Proof.
  split; [|split].
  - intros HN. apply serve_bounded; [done|apply store_inv_init|].
    intros d'. unfold version_count. simpl. lia.
  - intros HN [Hnd _ _]. split.
    + by apply ids_desc_pruneVersions.
    + intros v. by apply elem_of_pruneVersions.
  - intros HN. split; [by apply pruneVersions_unlimited|].
    by apply serve_unlimited.
Qed.

Lemma is_ok_Ok {E A} (r : result E A) : is_ok r = true → ∃ a, r = Ok a.
Proof. destruct r; [eauto|discriminate]. Qed.

Lemma retention_cap_witness :
  (version_count "d1"
     (serve 1 [PostDiagram t0 (doc "d1" "N"); PutDiagram t0 "d1" (doc "d1" "M")]
        initSchema) ≤ 1)%nat.
Proof.
  apply (proj1 (retention_cap 1
    [PostDiagram t0 (doc "d1" "N"); PutDiagram t0 "d1" (doc "d1" "M")]
    "d1" initSchema)). lia.
Defined.

Lemma required_None v : required v = None ↔ invalid_field v.
Proof.
  unfold required, invalid_field, asString.
  destruct v as [[| | |s| |]|]; simpl; try (split; [intros _|done]).
  all: try (right; left; eexists; split; [done|]; intros s; discriminate).
  - destruct (decide (TrimSpace s = "")) as [Hs|Hs].
    + split; [intros _|done]. right. right. eauto.
    + split; [done|]. intros [?|[(j & [= <-] & Hj)|(s' & [= <-] & Hs')]];
        try done. by destruct (Hj s).
  - by left.
Qed.

Lemma required_Some v s :
  required v = Some s ↔ v = Some (JString s) ∧ TrimSpace s ≠ "".
Proof.
  unfold required, asString.
  destruct v as [[| | |s'| |]|]; simpl; try (split; [done|by intros [? _]]).
  destruct (decide (TrimSpace s' = "")); split.
  - done.
  - intros [[= ->] ?]. done.
  - intros [= ->]. done.
  - intros [[= ->] ?]. done.
Qed.

Lemma normalizeMap_fails now m :
  is_ok (normalizeMap now m) = false ↔
  invalid_field (m !! "id") ∨ invalid_field (m !! "name")
  ∨ invalid_field (m !! "databaseType").
Proof.
  rewrite <- !required_None. unfold normalizeMap.
  destruct (required (m !! "id")); [|by split; auto].
  destruct (required (m !! "name")); [|by split; auto].
  destruct (required (m !! "databaseType")); [|by split; auto].
  repeat (destruct (asString _) as [?|]; try destruct (decide _)); simpl;
    split; try done; intros [?|[?|?]]; done.
Qed.

Lemma asString_stamp now v :
  match asString v with
  | Some c => if decide (c = "") then now else c
  | None => now
  end = stamp now v.
Proof. by destruct v as [[| | |s| |]|]. Qed.

Lemma normalizeMap_Ok now m p meta :
  normalizeMap now m = Ok (p, meta) →
  m !! "id" = Some (JString (ID meta)) ∧ TrimSpace (ID meta) ≠ "" ∧
  m !! "name" = Some (JString (Name meta)) ∧ TrimSpace (Name meta) ≠ "" ∧
  m !! "databaseType" = Some (JString (DatabaseType meta)) ∧
  TrimSpace (DatabaseType meta) ≠ "" ∧
  CreatedAt meta = stamp now (m !! "createdAt") ∧
  UpdatedAt meta = stamp now (m !! "updatedAt") ∧
  DatabaseEdition meta = asString (m !! "databaseEdition") ∧
  p = <["updatedAt" := JString (UpdatedAt meta)]>
        (<["createdAt" := JString (CreatedAt meta)]> m).
Proof.
  unfold normalizeMap.
  destruct (required (m !! "id")) as [i|] eqn:Ei; [|done].
  destruct (required (m !! "name")) as [n|] eqn:En; [|done].
  destruct (required (m !! "databaseType")) as [t|] eqn:Et; [|done].
  apply required_Some in Ei as [Ei ?], En as [En ?], Et as [Et ?].
  rewrite <- !asString_stamp.
  destruct (m !! "createdAt") as [[| | |c| |]|] eqn:Ec; simpl;
    try destruct (decide (c = "")); simpl;
    try rewrite lookup_insert_ne by done;
    destruct (m !! "updatedAt") as [[| | |u| |]|] eqn:Eu; simpl;
    try destruct (decide (u = "")); simpl;
    rewrite ?lookup_insert_ne by done;
    intros [= <- <-]; simpl; repeat split; try done.
  all: try (rewrite (insert_id m "createdAt") by done).
  all: try done.
  all: try (rewrite insert_id; [done|]; by rewrite ?lookup_insert_ne).
  all: symmetry; apply insert_id; by rewrite lookup_insert_ne.
Qed.

Lemma decodeAndNormalize_map now b :
  decodeAndNormalizeDiagramPayload now b =
  match decodeBody b with
  | None => Err ErrInvalidJSON
  | Some payload => normalizeMap now (default ∅ payload)
  end.
Proof.
  unfold decodeAndNormalizeDiagramPayload.
  destruct (decodeBody b) as [[m|]|]; simpl; [|done..].
  apply normalize_Marshal.
Qed.

Lemma invalid_field_None : invalid_field None.
Proof. by left. Qed.

(** C5. Normalization rejects a body exactly when one of [id], [name] and
    [databaseType] is missing, no string or blank after trimming, and the
    create handler then answers 400.  When it succeeds the payload keeps
    every member of the body except that [createdAt] and [updatedAt] are
    set to the clock reading when they were absent, no string or empty; a
    create that answers 201 is followed by a get that returns this
    payload. *)
Theorem normalization_validates (N : Z) (clk : nat → string) (b : body) (s : db) :
  let now := clk 0%nat in
  (is_ok (decodeAndNormalizeDiagramPayload now b) = false ↔
     invalid_field (body_field b "id") ∨ invalid_field (body_field b "name")
     ∨ invalid_field (body_field b "databaseType")) ∧
  (is_ok (decodeAndNormalizeDiagramPayload now b) = false →
     handleDiagrams N (PostDiagram clk b) s = (writeError StatusBadRequest, s)) ∧
  (∀ p meta, decodeAndNormalizeDiagramPayload now b = Ok (p, meta) →
     p !! "id" = Some (JString (ID meta)) ∧
     p !! "name" = Some (JString (Name meta)) ∧
     p !! "databaseType" = Some (JString (DatabaseType meta)) ∧
     p !! "createdAt" = Some (JString (stamp now (body_field b "createdAt"))) ∧
     p !! "updatedAt" = Some (JString (stamp now (body_field b "updatedAt"))) ∧
     (∀ k, k ≠ "createdAt" → k ≠ "updatedAt" → p !! k = body_field b k) ∧
     (now ≠ "" → stamp now (body_field b "createdAt") ≠ ""
                 ∧ stamp now (body_field b "updatedAt") ≠ "")) ∧
  (∀ c s', handleDiagrams N (PostDiagram clk b) s = ((StatusCreated, c), s') →
     ∃ p meta,
       decodeAndNormalizeDiagramPayload now b = Ok (p, meta) ∧
       c = Document p ∧
       handleDiagrams N (GetDiagram (ID meta)) s' = ((StatusOK, Document p), s')).
Proof.
  intros now. rewrite decodeAndNormalize_map. unfold body_field.
  split; [|split; [|split]].
  - destruct (decodeBody b) as [[m|]|]; simpl.
    + apply normalizeMap_fails.
    + rewrite normalizeMap_fails, !lookup_empty. done.
    + split; [intros _|done]. left. apply invalid_field_None.
  - intros Hf. simpl. rewrite decodeAndNormalize_map. fold now.
    by destruct (decodeBody b) as [o|]; [destruct (normalizeMap _ _)|].
  - intros p meta Hn.
    assert (∃ m, normalizeMap now m = Ok (p, meta) ∧
                 ∀ k, m !! k = match decodeBody b with
                               | Some (Some m) => m !! k | _ => None end)
      as (m & Hm & Hk).
    { destruct (decodeBody b) as [[m|]|]; [by exists m| |done].
      exists ∅. split; [done|]. intros k. apply lookup_empty. }
    rewrite <- !Hk.
    apply normalizeMap_Ok in Hm
      as (Hi & _ & Hna & _ & Ht & _ & Hc & Hu & _ & ->).
    rewrite Hc, Hu.
    rewrite lookup_insert_eq, !lookup_insert_ne, lookup_insert_eq by done.
    repeat split; try done.
    + intros k H1 H2. by rewrite !lookup_insert_ne.
    + unfold stamp. destruct (m !! "createdAt") as [[| | |c| |]|]; try done.
      by destruct (decide _).
    + unfold stamp. destruct (m !! "updatedAt") as [[| | |c| |]|]; try done.
      by destruct (decide _).
  - intros c s'. simpl. rewrite decodeAndNormalize_map. fold now.
    destruct (decodeBody b) as [o|]; [|done].
    destruct (normalizeMap now (default ∅ o)) as [[p meta]|]; [|done].
    unfold insertDiagramWithVersion.
    destruct (insertDiagram p meta s) as [s1|e] eqn:Ei; simpl;
      [|by destruct (isUniqueConstraintError e)].
    intros [= <- <-]. exists p, meta. repeat split.
    unfold getDiagramPayload.
    assert (diagrams (pruneVersions (ID meta) N
              (insertVersion (clk 1%nat) (ID meta) (Name meta) p "create" s1))
            = diagrams s1) as ->.
    { unfold pruneVersions. by destruct (decide _). }
    revert Ei. unfold insertDiagram. destruct (diagrams s !! ID meta); [done|].
    intros [= <-]. simpl. by rewrite lookup_insert_eq.
Qed.

Lemma normalization_validates_witness :
  stamp (t0 0%nat) (body_field (doc "d1" "N") "createdAt") ≠ "".
Proof.
  destruct (normalization_validates 1 t0 (doc "d1" "N") initSchema)
    as (_ & _ & H & _).
  specialize (H _ _ eq_refl). apply H. unfold t0. done.
Defined.


Lemma lookup_mergePatch patch current k :
  mergePatch patch current !! k =
  match patch !! k with Some v => Some v | None => current !! k end.
Proof.
  unfold mergePatch. rewrite lookup_union.
  destruct (patch !! k), (current !! k); done.
Qed.




Lemma elem_of_versionRows d s v :
  v ∈ versionRows d s ↔ v ∈ diagram_versions s ∧ v_diagram_id v = d.
Proof.
  unfold versionRows, of_diagram.
  rewrite merge_sort_Permutation, list_elem_of_filter. tauto.
Qed.

Lemma versionRows_sorted d s : StronglySorted row_desc (versionRows d s).
Proof. apply StronglySorted_merge_sort; apply _. Qed.

Lemma sorted_head_max (l : list Z) x :
  StronglySorted desc l → x ∈ l → (∀ y, y ∈ l → (y ≤ x)%Z) → head l = Some x.
Proof.
  destruct l as [|h l]; [by intros _ ?%elem_of_nil|].
  intros Hs Hx Hmax. simpl. f_equal.
  apply StronglySorted_inv in Hs as [_ Hh].
  pose proof (Hmax h ltac:(left)) as H1.
  apply elem_of_cons in Hx as [->|Hx]; [done|].
  rewrite Forall_forall in Hh. apply Hh in Hx. unfold desc in Hx. lia.
Qed.

Lemma appended_survives N now d n p a s :
  store_inv s →
  appended now d n p a s
    ∈ diagram_versions (pruneVersions d N (insertVersion now d n p a s)).
Proof.
  intros [H1 H2 H3].
  assert (appended now d n p a s ∈ diagram_versions (insertVersion now d n p a s))
    as Hin.
  { simpl. apply elem_of_app. right. by left. }
  destruct (decide (N ≤ 0)%Z) as [HN|HN];
    [by rewrite pruneVersions_unlimited|].
  assert (NoDup (v_id <$> diagram_versions (insertVersion now d n p a s)))
    as Hnd.
  { simpl. rewrite fmap_app. simpl. apply NoDup_app. split; [done|]. split.
    - intros x Hx ->%list_elem_of_singleton.
      apply list_elem_of_fmap in Hx as (v & Hv & Hvin).
      rewrite Forall_forall in H2. apply H2 in Hvin. lia.
    - apply NoDup_singleton. }
  apply elem_of_pruneVersions; [lia|done|]. split; [done|]. intros _.
  set (ids := ids_desc d (diagram_versions (insertVersion now d n p a s))).
  assert (head ids = Some (diagram_versions_seq s + 1)%Z) as Hh.
  { apply sorted_head_max; [apply ids_desc_sorted| |].
    - apply elem_of_ids_desc. exists (appended now d n p a s). done.
    - intros y Hy. apply elem_of_ids_desc in Hy as (v & Hv & _ & <-).
      simpl in Hv. apply elem_of_app in Hv as [Hv|Hv].
      + rewrite Forall_forall in H2. apply H2 in Hv. lia.
      + apply list_elem_of_singleton in Hv as ->. simpl. lia. }
  destruct ids as [|h tl]; [done|]. injection Hh as ->.
  destruct (Z.to_nat N) eqn:E; [lia|]. simpl. by left.
Qed.

Lemma appended_newest N now d n p a s :
  store_inv s → is_Some (diagrams s !! d) →
  head (versionRows d (pruneVersions d N (insertVersion now d n p a s)))
  = Some (appended now d n p a s).
Proof.
  intros Hinv Hd.
  pose proof (appended_survives N now d n p a s Hinv) as Hin.
  set (s' := pruneVersions d N (insertVersion now d n p a s)) in *.
  assert (store_inv s') as [H1 H2 _].
  { by apply store_inv_pruneVersions, store_inv_insertVersion. }
  assert (diagram_versions_seq s' = diagram_versions_seq s + 1)%Z as Hseq.
  { unfold s', pruneVersions. by destruct (decide _). }
  assert (appended now d n p a s ∈ versionRows d s') as Hin'.
  { by apply elem_of_versionRows. }
  pose proof (versionRows_sorted d s') as Hs.
  destruct (versionRows d s') as [|h tl] eqn:E; [by apply elem_of_nil in Hin'|].
  simpl. f_equal.
  assert (h ∈ diagram_versions s') as Hh.
  { apply (elem_of_versionRows d). rewrite E. by left. }
  eapply fmap_inj_on; [exact H1|done|done|].
  apply elem_of_cons in Hin' as [->|Hin']; [done|].
  apply StronglySorted_inv in Hs as [_ Hall].
  rewrite Forall_forall in Hall. apply Hall in Hin'.
  unfold row_desc, desc in Hin'. simpl in Hin'.
  rewrite Forall_forall in H2. apply H2 in Hh. simpl. lia.
Qed.

Lemma isOnlyUpdatedAtPatch_spec patch :
  isOnlyUpdatedAtPatch patch = true ↔ ∃ v, patch = {["updatedAt" := v]}.
Proof.
  unfold isOnlyUpdatedAtPatch. destruct (decide (size patch = 1%nat)) as [Hs|Hs].
  - rewrite bool_decide_eq_true. split.
    + intros [v Hv]. exists v.
      assert (delete "updatedAt" patch = ∅) as He.
      { apply map_size_empty_inv. rewrite map_size_delete, Hv, Hs. done. }
      rewrite <- insert_empty, <- He, insert_delete_eq. symmetry.
      by apply insert_id.
    + intros [v ->]. exists v. apply lookup_singleton_eq.
  - split; [done|]. intros [v ->]. by rewrite map_size_singleton in Hs.
Qed.

Lemma patch_state N clk d patch s p s' :
  store_inv s →
  patchDiagramWithVersion N clk d patch s = Ok (p, s') →
  ∃ meta s1,
    p !! "id" = Some (JString (ID meta)) ∧
    ID meta = (if decide (ID meta = "") then d else ID meta) ∧
    store_inv s1 ∧ is_Some (diagrams s1 !! ID meta) ∧
    diagram_versions_seq s1 = diagram_versions_seq s ∧
    snapshot <$> diagram_versions s1 = snapshot <$> diagram_versions s ∧
    s' = if isOnlyUpdatedAtPatch patch then s1
         else pruneVersions (ID meta) N
                (insertVersion (clk 2%nat) (ID meta) (Name meta) p "patch" s1).
Proof.
  intros Hinv Hp.
  apply patch_Ok in Hp as (row & meta & s1 & Hrow & Hn & Hs1 & ->).
  simpl in Hs1. exists meta, s1.
  apply normalizeMap_Ok in Hn as (Hid & Hne & _ & _ & _ & _ & _ & _ & _ & ->).
  assert (ID meta ≠ "") as Hne' by (intros E; by rewrite E in Hne).
  destruct (decide (ID meta = "")) as [|_]; [done|].
  split.
  { rewrite !lookup_insert_ne by done. exact Hid. }
  split; [done|].
  destruct Hs1 as [[Ht Hu]|(Ht & s0 & Hr & Hf)].
  - pose proof (updateDiagramRow_Some _ _ _ _ _ Hu) as (_ & Hd & Ev & Es & _).
    split; [by eapply store_inv_updateDiagramRow|].
    rewrite Ht. by rewrite Ev, Es.
  - split; [exact (store_inv_rename _ _ _ _ _ _ _ Ht Hr Hf Hinv)|].
    pose proof (renameFilter_Ok _ _ _ _ Hf) as (Ed & Ev & Es).
    pose proof (renameDiagramRow_Ok _ _ _ _ _ _ Hr)
      as (_ & _ & Hsome & _ & _ & Ev0 & Es0 & _).
    rewrite Ed, Ev, Es, snapshot_renameVersions, Ev0. simpl. by rewrite Es0.
Qed.

(** C4. A patch that commits leaves the history as it was exactly when the
    partial has the single key [updatedAt]; any other partial, the empty
    one too, appends a row with action "patch" under the id of the returned
    payload, and that row is the newest of the document. *)
Theorem patch_appends_unless_touch (N : Z) (clk : nat → string) (d : string)
    (patch : object) (s : db) (p : object) (s' : db) :
  store_inv s →
  patchDiagramWithVersion N clk d patch s = Ok (p, s') →
  ∃ newId name,
    p !! "id" = Some (JString newId) ∧
    ((∃ v, patch = {["updatedAt" := v]}) ↔
       snapshot <$> diagram_versions s' = snapshot <$> diagram_versions s) ∧
    ((¬ ∃ v, patch = {["updatedAt" := v]}) →
       head (versionRows newId s')
         = Some (appended (clk 2%nat) newId name p "patch" s) ∧
       head (listVersions newId s')
         = Some {| VersionID := diagram_versions_seq s + 1;
                   VersionDiagramID := newId; VersionName := name;
                   Action := "patch"; VersionCreatedAt := clk 2%nat |} ∧
       (diagram_versions_seq s + 1)%Z ∉ v_id <$> diagram_versions s).
Proof.
  intros Hinv Hp.
  destruct (patch_state _ _ _ _ _ _ _ Hinv Hp)
    as (meta & s1 & Hid & _ & Hinv1 & Hsome & Hseq & Hsnap & ->).
  exists (ID meta), (Name meta). split; [done|].
  assert ((diagram_versions_seq s + 1)%Z ∉ v_id <$> diagram_versions s) as Hfresh.
  { intros Hin. apply list_elem_of_fmap in Hin as (v & Hv & Hin).
    destruct Hinv as [_ H2 _]. rewrite Forall_forall in H2.
    apply H2 in Hin. lia. }
  rewrite <- isOnlyUpdatedAtPatch_spec.
  destruct (isOnlyUpdatedAtPatch patch) eqn:Eo.
  - split; [done|]. intros Hno. by destruct Hno.
  - pose proof (appended_newest N (clk 2%nat) (ID meta) (Name meta) p "patch"
                  s1 Hinv1 Hsome) as Hnew.
    pose proof (appended_survives N (clk 2%nat) (ID meta) (Name meta) p "patch"
                  s1 Hinv1) as Hin.
    unfold appended in *. rewrite Hseq in *.
    split.
    + split; [done|]. intros Heq. exfalso. apply Hfresh.
      assert (v_id <$> diagram_versions s =
              (λ x, x.1.1.1.1) <$> (snapshot <$> diagram_versions s)) as ->.
      { rewrite <- list_fmap_compose. done. }
      rewrite <- Heq, <- list_fmap_compose.
      apply list_elem_of_fmap. eexists. split; [|exact Hin]. done.
    + intros _. split; [done|]. split; [|done].
      unfold listVersions. apply head_Some in Hnew as [tl ->]. done.
Qed.

Lemma store_inv_created : store_inv created.
Proof. apply handle_inv, store_inv_init. Qed.

Lemma patch_appends_unless_touch_witness :
  ∃ p s',
    patchDiagramWithVersion 100 t0 "d1" {["name" := JString "N2"]} created
      = Ok (p, s') ∧
    ∃ newId name,
      p !! "id" = Some (JString newId) ∧
      ((∃ v, ({["name" := JString "N2"]} : object) = {["updatedAt" := v]}) ↔
         snapshot <$> diagram_versions s' = snapshot <$> diagram_versions created) ∧
      ((¬ ∃ v, ({["name" := JString "N2"]} : object) = {["updatedAt" := v]}) →
         head (versionRows newId s')
           = Some (appended (t0 2%nat) newId name p "patch" created) ∧
         head (listVersions newId s')
           = Some {| VersionID := diagram_versions_seq created + 1;
                     VersionDiagramID := newId; VersionName := name;
                     Action := "patch"; VersionCreatedAt := t0 2%nat |} ∧
         (diagram_versions_seq created + 1)%Z ∉ v_id <$> diagram_versions created).
Proof.
  destruct (is_ok_Ok (patchDiagramWithVersion 100 t0 "d1"
              {["name" := JString "N2"]} created)) as [[p s'] E].
  { vm_compute. reflexivity. }
  exists p, s'. split; [exact E|].
  exact (patch_appends_unless_touch _ _ _ _ _ _ _ store_inv_created E).
Defined.

Lemma getVersionPayload_elem r s :
  NoDup (v_id <$> diagram_versions s) → r ∈ diagram_versions s →
  getVersionPayload (v_diagram_id r) (v_id r) s = Ok (v_payload r).
Proof.
  intros Hnd Hr. unfold getVersionPayload.
  destruct (list_find _ _) as [[i r']|] eqn:E.
  - apply list_find_Some in E as (Hi & [_ Hid] & _).
    apply list_elem_of_lookup_2 in Hi.
    by rewrite (fmap_inj_on v_id _ r' r Hnd Hi Hr Hid).
  - apply list_find_None in E. rewrite Forall_forall in E.
    destruct (E r Hr). done.
Qed.

Lemma getVersionPayload_none d v s :
  (∀ r, r ∈ diagram_versions s → v_diagram_id r = d → v_id r ≠ v) →
  getVersionPayload d v s = Err ErrNoRows.
Proof.
  intros Hno. unfold getVersionPayload.
  destruct (list_find _ _) as [[i r']|] eqn:E; [|done].
  apply list_find_Some in E as (Hi & [Hd Hid] & _).
  apply list_elem_of_lookup_2 in Hi. by destruct (Hno r' Hi Hd).
Qed.

Lemma getVersionPayload_Ok d v s p :
  getVersionPayload d v s = Ok p →
  ∃ r, r ∈ diagram_versions s ∧ v_diagram_id r = d ∧ v_id r = v ∧ v_payload r = p.
Proof.
  unfold getVersionPayload.
  destruct (list_find _ _) as [[i r']|] eqn:E; [|done].
  apply list_find_Some in E as (Hi & [Hd Hid] & _).
  apply list_elem_of_lookup_2 in Hi. intros [= <-]. eauto.
Qed.

Lemma versionRows_none d s :
  (∀ r, r ∈ diagram_versions s → v_diagram_id r ≠ d) → listVersions d s = [].
Proof.
  intros Hno. unfold listVersions, versionRows, of_diagram.
  rewrite filter_none; [done|]. intros r Hr Hd. by destruct (Hno r Hr).
Qed.

Lemma versions_renameVersions t d s :
  diagram_versions (renameVersions t d s) = refiled t d <$> diagram_versions s.
Proof. done. Qed.

Lemma refiled_not_old t d v : t ≠ d → v_diagram_id (refiled t d v) ≠ d.
Proof. intros Hne. unfold refiled. by destruct (decide _). Qed.

Lemma pruneVersions_other_tables d N s :
  diagrams (pruneVersions d N s) = diagrams s ∧
  diagram_filters (pruneVersions d N s) = diagram_filters s ∧
  diagram_versions_seq (pruneVersions d N s) = diagram_versions_seq s.
Proof. unfold pruneVersions. by destruct (decide _). Qed.

Lemma pruneVersions_subset d N s v :
  v ∈ diagram_versions (pruneVersions d N s) → v ∈ diagram_versions s.
Proof.
  unfold pruneVersions. destruct (decide _); [done|]. simpl.
  intros Hv. apply list_elem_of_filter in Hv. tauto.
Qed.

Lemma filter_all {A} (P : A → Prop) `{∀ x, Decision (P x)} (l : list A) :
  (∀ x, x ∈ l → P x) → filter P l = l.
Proof.
  induction l as [|a l IH]; [done|]. intros Hl. rewrite filter_cons.
  destruct (decide (P a)) as [Ha|Ha].
  - f_equal. apply IH. intros x Hx. apply Hl. by right.
  - destruct Ha. apply Hl. by left.
Qed.

Lemma pruneVersions_under_cap d N s :
  ((N ≤ 0)%Z ∨ (version_count d s ≤ Z.to_nat N)%nat) →
  diagram_versions (pruneVersions d N s) = diagram_versions s.
Proof.
  intros [HN|Hc]; [by rewrite pruneVersions_unlimited|].
  unfold pruneVersions. destruct (decide _); [done|]. simpl.
  rewrite drop_ge; [|by rewrite length_ids_desc].
  apply filter_all. intros v _. apply not_elem_of_nil.
Qed.

Lemma renameFilter_lookup t d s s2 :
  t ≠ d → renameFilter t d s = Ok s2 →
  diagram_filters s2 !! d = None ∧
  ∀ f, diagram_filters s !! d = Some f → diagram_filters s2 !! t = Some f.
Proof.
  intros Hne. unfold renameFilter.
  destruct (diagram_filters s !! d) as [f|] eqn:Ef.
  - destruct (diagram_filters s !! t); [done|]. intros [= <-]. simpl.
    rewrite lookup_insert_ne, lookup_delete_eq, lookup_insert_eq by done.
    split; [done|]. by intros f' [= <-].
  - intros [= <-]. done.
Qed.

(** C2 (as amended). A committed patch whose normalized id [newId] differs
    from the addressed id [d] moves the document row to [newId], re-files
    every version row and the filter row of [d] under [newId], and leaves
    nothing retrievable under [d].  A prior version is afterwards
    retrievable under [newId] with its payload unless the pruning that
    follows the appended row removed it; none is removed when the cap is
    unlimited or was not yet reached. *)
Theorem rename_cascades (N : Z) (clk : nat → string) (d : string)
    (patch : object) (s : db) (p : object) (s' : db) (newId : string) :
  store_inv s →
  patchDiagramWithVersion N clk d patch s = Ok (p, s') →
  p !! "id" = Some (JString newId) → newId ≠ d →
  getDiagramPayload d s' = Err ErrNoRows ∧
  getDiagramPayload newId s' = Ok p ∧
  (∀ v, getVersionPayload d v s' = Err ErrNoRows) ∧
  listVersions d s' = [] ∧
  getDiagramFilter d s' = Err ErrNoRows ∧
  (∀ f, getDiagramFilter d s = Ok f → getDiagramFilter newId s' = Ok f) ∧
  (∀ v, v ∈ diagram_versions s → v_diagram_id v = d →
     (getVersionPayload newId (v_id v) s' = Ok (v_payload v)
      ∨ v_id v ∉ v_id <$> diagram_versions s') ∧
     ((N ≤ 0)%Z ∨ (version_count d s < Z.to_nat N)%nat →
      getVersionPayload newId (v_id v) s' = Ok (v_payload v))).
Proof.
  intros Hinv Hp Hid Hne.
  pose proof (store_inv_patch _ _ _ _ _ _ _ Hp Hinv) as Hinv'.
  apply patch_Ok in Hp as (row & meta & s1 & Hrow & Hn & Hs1 & Hs').
  simpl in Hs1.
  pose proof (normalizeMap_Ok _ _ _ _ Hn)
    as (Hmid & Hblank & _ & _ & _ & _ & _ & _ & _ & Hpeq).
  assert (ID meta ≠ "") as Hne' by (intros E; by rewrite E in Hblank).
  assert (newId = ID meta) as ->.
  { rewrite Hpeq, !lookup_insert_ne, Hmid in Hid by done. congruence. }
  destruct (decide (ID meta = "")) as [|_]; [done|].
  destruct Hs1 as [[Ht _]|(_ & s0 & Hr & Hf)]; [done|].
  pose proof (renameFilter_Ok _ _ _ _ Hf) as (Ed & Ev & Es).
  pose proof (renameFilter_lookup _ _ _ _ Hne Hf) as (Hfd & Hft).
  unfold renameDiagramRow in Hr. rewrite Hrow in Hr.
  destruct (diagrams s !! ID meta) eqn:Et; [done|]. injection Hr as <-.
  simpl in *.
  assert (diagrams s' = diagrams s1 ∧ diagram_filters s' = diagram_filters s1)
    as [Ed' Ef'].
  { rewrite Hs'. destruct (isOnlyUpdatedAtPatch patch); [done|].
    by destruct (pruneVersions_other_tables (ID meta) N
      (insertVersion (clk 2%nat) (ID meta) (Name meta) p "patch" s1))
      as (-> & -> & _). }
  assert (∀ r, r ∈ diagram_versions s' → v_diagram_id r ≠ d) as Hnone.
  { intros r Hr. rewrite Hs' in Hr.
    assert (r ∈ diagram_versions s1 ∨ v_diagram_id r = ID meta) as [Hr1 | ->];
      [| |done].
    - destruct (isOnlyUpdatedAtPatch patch); [by left|].
      apply pruneVersions_subset in Hr. simpl in Hr.
      apply elem_of_app in Hr as [Hr|Hr]; [by left|].
      apply list_elem_of_singleton in Hr as ->. by right.
    - rewrite Ev in Hr1. apply list_elem_of_fmap in Hr1 as (v & -> & _).
      by apply refiled_not_old. }
  unfold getDiagramPayload, getDiagramFilter.
  rewrite Ed', Ef', Ed, Hfd. simpl.
  rewrite lookup_insert_ne, lookup_delete_eq, lookup_insert_eq by done. simpl.
  split; [done|]. split; [done|].
  split. { intros v. apply getVersionPayload_none. intros r Hr Hd.
           by destruct (Hnone r Hr). }
  split. { by apply versionRows_none. }
  split; [done|].
  split. { intros f. destruct (diagram_filters s !! d) as [f'|] eqn:E; [|done].
           intros [= <-]. by rewrite (Hft f'). }
  intros v Hv Hvd.
  set (v' := refiled (ID meta) d v).
  assert (v_id v' = v_id v ∧ v_payload v' = v_payload v ∧
          v_diagram_id v' = ID meta) as (Hi' & Hp' & Hd').
  { unfold v', refiled. by destruct (decide _). }
  assert (v' ∈ diagram_versions s1) as Hv1.
  { rewrite Ev. apply list_elem_of_fmap. by exists v. }
  assert (v' ∈ diagram_versions s' →
          getVersionPayload (ID meta) (v_id v) s' = Ok (v_payload v)) as Hget.
  { intros Hin. rewrite <- Hi', <- Hp', <- Hd'.
    apply getVersionPayload_elem; [apply Hinv'|done]. }
  assert (store_inv s1) as Hinv1.
  { destruct Hinv as [H1 H2 H3]. split; rewrite ?Ev, ?Es, ?Ed; simpl.
    - rewrite <- list_fmap_compose. erewrite list_fmap_ext; [exact H1|].
      intros ? x ?. simpl. unfold refiled. by destruct (decide _).
    - apply Forall_fmap. eapply Forall_impl; [exact H2|].
      intros x Hx. simpl. unfold refiled. by destruct (decide _).
    - apply Forall_fmap, Forall_forall. intros x Hx. simpl. unfold refiled.
      destruct (decide (v_diagram_id x = d)); simpl;
        [by rewrite lookup_insert_eq|].
      destruct (decide (ID meta = v_diagram_id x)) as [->|];
        [by rewrite lookup_insert_eq|].
      rewrite lookup_insert_ne, lookup_delete_ne by done.
      rewrite Forall_forall in H3. by apply H3. }
  split.
  - destruct (decide (v_id v ∈ v_id <$> diagram_versions s')) as [Hin|Hout];
      [left|by right].
    apply Hget.
    apply list_elem_of_fmap in Hin as (r & Hr & Hrin).
    assert (r ∈ diagram_versions (insertVersion (clk 2%nat) (ID meta)
              (Name meta) p "patch" s1)) as Hr1.
    { rewrite Hs' in Hrin. destruct (isOnlyUpdatedAtPatch patch).
      - simpl. apply elem_of_app. by left.
      - by apply pruneVersions_subset in Hrin. }
    assert (r = v') as ->; [|done].
    pose proof (store_inv_insertVersion (clk 2%nat) (ID meta) (Name meta) p
      "patch" s1 ltac:(rewrite Ed; simpl; by rewrite lookup_insert_eq) Hinv1)
      as [Hnd _ _].
    eapply fmap_inj_on; [exact Hnd|done| |congruence].
    simpl. apply elem_of_app. by left.
  - intros Hcap. apply Hget. rewrite Hs'.
    destruct (isOnlyUpdatedAtPatch patch); [done|].
    rewrite pruneVersions_under_cap.
    + simpl. apply elem_of_app. by left.
    + destruct Hcap as [?|Hc]; [by left|right].
      rewrite version_count_insertVersion.
      destruct (decide (ID meta = ID meta)) as [_|]; [|done].
      assert (version_count (ID meta) s1 = version_count d s) as ->; [|lia].
      unfold version_count at 1. rewrite Ev.
      change (version_count (ID meta) (renameVersions (ID meta) d s)
              = version_count d s).
      rewrite count_rename by done.
      destruct (decide (ID meta = d)); [done|].
      destruct (decide (ID meta = ID meta)); [|done].
      change (version_count (ID meta) s + version_count d s
              = version_count d s)%nat.
      by rewrite (no_rows_without_diagram (ID meta) s Hinv Et).
Qed.

Lemma rename_cascades_witness :
  ∃ p s',
    patchDiagramWithVersion 100 t0 "d1" {["id" := JString "d2"]} created
      = Ok (p, s') ∧
    getDiagramPayload "d1" s' = Err ErrNoRows ∧
    getDiagramPayload "d2" s' = Ok p ∧
    (∀ v, v ∈ diagram_versions created → v_diagram_id v = "d1" →
          getVersionPayload "d2" (v_id v) s' = Ok (v_payload v)).
Proof.
  assert (patched_field 100 t0 "d1" {["id" := JString "d2"]} "id" created
          = Some (JString "d2")) as Hid.
  { vm_compute. reflexivity. }
  unfold patched_field in Hid.
  destruct (is_ok_Ok (patchDiagramWithVersion 100 t0 "d1"
              {["id" := JString "d2"]} created)) as [[p s'] E].
  { vm_compute. reflexivity. }
  rewrite E in Hid.
  exists p, s'. split; [exact E|].
  destruct (rename_cascades 100 t0 "d1" _ created p s' "d2"
              store_inv_created E Hid ltac:(discriminate))
    as (H1 & H2 & _ & _ & _ & _ & H3).
  split; [exact H1|]. split; [exact H2|]. intros v Hv Hd.
  apply H3; [exact Hv|exact Hd|]. right. vm_compute. lia.
Defined.

(** C2, as stated, fails: under a cap of one version, renaming [d1] to [d2]
    prunes the only prior version in the same transaction, so that it is
    retrievable under neither id afterwards. *)
Lemma rename_loses_pruned_version :
  is_ok (getVersionPayload "d1" 1 created_cap1) = true ∧
  match
    patchDiagramWithVersion 1 t0 "d1" {["id" := JString "d2"]} created_cap1
  with
  | Ok (p, s') =>
      p !! "id" = Some (JString "d2") ∧
      getVersionPayload "d2" 1 s' = Err ErrNoRows
  | Err _ => False
  end.
Proof. vm_compute. done. Qed.

Lemma valid_not_invalid s : TrimSpace s ≠ "" → ¬ invalid_field (Some (JString s)).
Proof.
  intros Hs [?|[(j & [= <-] & Hj)|(s' & [= <-] & Hs')]]; try done.
  by destruct (Hj s).
Qed.

Lemma normalizeMap_normal now m p meta :
  now ≠ "" → normalizeMap now m = Ok (p, meta) → normal_payload p.
Proof.
  intros Hnow Hn.
  apply normalizeMap_Ok in Hn as (Hi & ? & Hna & ? & Ht & ? & Hc & _ & _ & ->).
  unfold normal_payload.
  rewrite !lookup_insert_ne, Hi, Hna, Ht, lookup_insert_eq by done.
  repeat split; try by apply valid_not_invalid.
  eexists. split; [done|]. rewrite Hc. unfold stamp.
  destruct (m !! "createdAt") as [[| | |c| |]|]; try done.
  by destruct (decide _).
Qed.

Lemma normalizeMap_succeeds now m :
  ¬ invalid_field (m !! "id") → ¬ invalid_field (m !! "name") →
  ¬ invalid_field (m !! "databaseType") →
  ∃ p meta, normalizeMap now m = Ok (p, meta).
Proof.
  intros H1 H2 H3.
  destruct (normalizeMap now m) as [[p meta]|e] eqn:E; [eauto|].
  assert (is_ok (normalizeMap now m) = false) as Hf by (by rewrite E).
  apply normalizeMap_fails in Hf. tauto.
Qed.

Lemma history_inv_append N now d n p a s :
  normal_payload p → TrimSpace d ≠ "" → history_inv s →
  history_inv (pruneVersions d N (insertVersion now d n p a s)).
Proof.
  intros Hp Hd Hs. unfold history_inv, pruneVersions.
  destruct (decide _); simpl; [|apply Forall_filter_2];
    (apply Forall_app; split; [done|by constructor]).
Qed.

Lemma history_inv_eq s s' :
  diagram_versions s' = diagram_versions s → history_inv s → history_inv s'.
Proof. unfold history_inv. by intros ->. Qed.

Lemma handle_history N r s :
  clock_ok r → history_inv s → history_inv (handleDiagrams N r s).2.
Proof.
  intros Hclk Hs. destruct r; simpl in *.
  - rewrite decodeAndNormalize_map.
    destruct (decodeBody b) as [o|]; [|done].
    destruct (normalizeMap _ _) as [[p m]|] eqn:En; [|done].
    unfold insertDiagramWithVersion.
    destruct (insertDiagram p m s) as [s1|e] eqn:Ei; simpl;
      [|by destruct (isUniqueConstraintError e)].
    apply insertDiagram_Some in Ei as (_ & _ & Ev).
    apply history_inv_append; [by eapply normalizeMap_normal| |by eapply history_inv_eq].
    by apply normalizeMap_Ok in En as (_ & ? & _).
  - destruct (getDiagramPayload _ _) as [|e]; [done|]. by destruct (isErrNoRows e).
  - rewrite decodeAndNormalize_map.
    destruct (decodeBody b) as [o|]; [|done].
    destruct (normalizeMap _ _) as [[p m]|] eqn:En; [|done].
    destruct (decide _) as [|Hid]; [done|]. unfold replaceDiagramWithVersion.
    destruct (updateDiagramRow diagramID p m s) as [s1|e] eqn:Eu; simpl;
      [|by destruct (isErrNoRows e)].
    apply updateDiagramRow_Some in Eu as (_ & _ & Ev & _).
    apply history_inv_append; [by eapply normalizeMap_normal| |by eapply history_inv_eq].
    apply normalizeMap_Ok in En as (_ & ? & _).
    destruct (decide (ID m = diagramID)) as [<-|]; [done|]. by destruct Hid.
  - destruct (decodeBody b) as [pd|]; [|done].
    destruct (patchDiagramWithVersion _ _ _ _ _) as [[p s']|e] eqn:Ep; simpl;
      [|destruct (isErrNoRows e); [done|];
        by destruct (isUniqueConstraintError e)].
    apply patch_Ok in Ep as (row & meta & s1 & Hrow & Hn & Hs1 & ->).
    simpl in Hs1.
    pose proof (normalizeMap_Ok _ _ _ _ Hn) as (_ & Hblank & _).
    assert (ID meta ≠ "") as Hne' by (intros E; by rewrite E in Hblank).
    destruct (decide (ID meta = "")) as [|_]; [done|].
    assert (history_inv s1) as Hs1'.
    { destruct Hs1 as [[Ht Hu]|(Ht & s0 & Hr & Hf)].
      - apply updateDiagramRow_Some in Hu as (_ & _ & Ev & _).
        by eapply history_inv_eq.
      - apply renameFilter_Ok in Hf as (_ & Ev & _).
        apply renameDiagramRow_Ok in Hr as (_ & _ & _ & _ & _ & Ev0 & _).
        unfold history_inv. rewrite Ev. simpl. rewrite Ev0.
        apply Forall_fmap. eapply Forall_impl; [exact Hs|].
        intros v [H1 H2]. simpl. unfold refiled.
        by destruct (decide _). }
    destruct (isOnlyUpdatedAtPatch _); [done|].
    apply history_inv_append;
      [exact (normalizeMap_normal _ _ _ _ (Hclk 1%nat) Hn)|done..].
  - unfold history_inv. simpl. by apply Forall_filter_2.
  - destruct (getDiagramFilter _ _) as [|e]; [done|]. by destruct (isErrNoRows e).
  - by destruct (decodeBody b).
  - done.
  - done.
  - destruct (getVersionPayload _ _ _) as [|e]; [done|]. by destruct (isErrNoRows e).
  - destruct (restoreVersion _ _ _ _ _) as [[p s']|e] eqn:Er; simpl;
      [|by destruct (isErrNoRows e)].
    apply restore_Ok in Er as (vp & np & m0 & meta & s1 & _ & _ & Hn & Hu & ->).
    apply updateDiagramRow_Some in Hu as (_ & _ & Ev & _).
    apply history_inv_append; [by eapply normalizeMap_normal| |by eapply history_inv_eq].
    apply normalizeMap_Ok in Hn as (Hid & Hblank & _).
    rewrite lookup_insert_ne, lookup_insert_eq in Hid by done.
    by injection Hid as ->.
Qed.

Lemma history_inv_init : history_inv initSchema.
Proof. constructor. Qed.

Lemma serve_history N rs s :
  Forall clock_ok rs → history_inv s → history_inv (serve N rs s).
Proof.
  intros Hrs Hs. induction rs as [|r rs IH] using rev_ind; [done|].
  rewrite Forall_app, Forall_singleton in Hrs. destruct Hrs as [Hrs Hr].
  rewrite serve_snoc. apply handle_history; auto.
Qed.

Lemma restore_payload clk vp np m0 p meta d :
  normal_payload vp → clk 1%nat ≠ "" →
  normalizeMap (clk 0%nat) vp = Ok (np, m0) →
  normalizeMap (clk 2%nat)
    (<["updatedAt" := JString (clk 1%nat)]> (<["id" := JString d]> np))
    = Ok (p, meta) →
  p !! "id" = Some (JString d) ∧
  p !! "updatedAt" = Some (JString (clk 1%nat)) ∧
  ∀ k, k ≠ "id" → k ≠ "updatedAt" → p !! k = vp !! k.
Proof.
  intros (_ & _ & _ & c & Hc & Hcne) Hclk H0 H2.
  apply normalizeMap_Ok in H0 as (_ & _ & _ & _ & _ & _ & Hc0 & _ & _ & ->).
  apply normalizeMap_Ok in H2 as (_ & _ & _ & _ & _ & _ & Hc2 & Hu2 & _ & ->).
  rewrite lookup_insert_eq in Hu2. rewrite lookup_insert_ne in Hc2 by done.
  rewrite lookup_insert_ne in Hc2 by done.
  rewrite lookup_insert_ne, lookup_insert_eq in Hc2 by done.
  rewrite Hc in Hc0. simpl in *.
  destruct (decide (c = "")); [done|].
  rewrite Hc0 in Hc2. simpl in Hc2.
  destruct (decide (c = "")); [done|].
  destruct (decide (clk 1%nat = "")); [done|].
  rewrite Hu2, Hc2, Hc0.
  split. { by rewrite !lookup_insert_ne, lookup_insert_eq by done. }
  split. { by rewrite lookup_insert_eq. }
  intros k H1 H2.
  destruct (decide (k = "createdAt")) as [->|Hk].
  - by rewrite lookup_insert_ne, lookup_insert_eq by done.
  - by rewrite !lookup_insert_ne by done.
Qed.

(** C6. Restoring version [v] of document [d] fails with NotFound when no
    version row matches, and when one matches but the document row is gone.
    When it commits, the document holds the version's payload with [id] set
    to [d] and [updatedAt] set to the time read, and the newest entry that
    [listVersions] returns for [d] has action "restore" and that payload,
    which equals the payload of [v] on every key but [id] and [updatedAt]. *)
Theorem restore_appends_snapshot (N : Z) (clk : nat → string) (d : string)
    (v : Z) (s : db) :
  history_inv s → clk 1%nat ≠ "" →
  (getVersionPayload d v s = Err ErrNoRows →
     restoreVersion N clk d v s = Err ErrNoRows ∧
     handleDiagrams N (PostRestore clk d v) s = (writeError StatusNotFound, s)) ∧
  (is_ok (getVersionPayload d v s) = true → diagrams s !! d = None →
     restoreVersion N clk d v s = Err ErrNoRows ∧
     handleDiagrams N (PostRestore clk d v) s = (writeError StatusNotFound, s)) ∧
  (∀ p s', store_inv s → restoreVersion N clk d v s = Ok (p, s') →
     ∃ vp name,
       getVersionPayload d v s = Ok vp ∧
       p !! "id" = Some (JString d) ∧
       p !! "updatedAt" = Some (JString (clk 1%nat)) ∧
       (∀ k, k ≠ "id" → k ≠ "updatedAt" → p !! k = vp !! k) ∧
       getDiagramPayload d s' = Ok p ∧
       head (listVersions d s')
         = Some {| VersionID := diagram_versions_seq s + 1;
                   VersionDiagramID := d; VersionName := name;
                   Action := "restore"; VersionCreatedAt := clk 3%nat |} ∧
       getVersionPayload d (diagram_versions_seq s + 1) s' = Ok p).
Proof.
  intros Hhist Hclk. split; [|split].
  - intros Hg. assert (restoreVersion N clk d v s = Err ErrNoRows) as Hr.
    { unfold restoreVersion. by rewrite Hg. }
    split; [done|]. simpl. by rewrite Hr.
  - intros Hok Hd.
    assert (restoreVersion N clk d v s = Err ErrNoRows) as Hr;
      [|split; [done|]; simpl; by rewrite Hr].
    unfold restoreVersion.
    destruct (getVersionPayload d v s) as [vp|] eqn:Hg; [|done]. simpl.
    apply getVersionPayload_Ok in Hg as (r & Hr & Hrd & _ & <-).
    unfold history_inv in Hhist. rewrite Forall_forall in Hhist.
    destruct (Hhist r Hr) as [(Hi & Hn & Ht & Hc) Hblank].
    rewrite normalize_Marshal.
    destruct (normalizeMap_succeeds (clk 0%nat) _ Hi Hn Ht)
      as (np & m0 & E0).
    rewrite E0. simpl. rewrite normalize_Marshal.
    apply normalizeMap_Ok in E0 as (_ & _ & Hna & ? & Hty & ? & _ & _ & _ & ->).
    edestruct (normalizeMap_succeeds (clk 2%nat)) as (rp & meta & E2);
      [| | |rewrite E2].
    + rewrite lookup_insert_ne, lookup_insert_eq by done.
      apply valid_not_invalid. by rewrite <- Hrd.
    + rewrite !lookup_insert_ne, Hna by done. by apply valid_not_invalid.
    + rewrite !lookup_insert_ne, Hty by done. by apply valid_not_invalid.
    + simpl. unfold updateDiagramRow. by rewrite Hd.
  - intros p s' Hinv Hr.
    apply restore_Ok in Hr as (vp & np & m0 & meta & s1 & Hg & H0 & H2 & Hu & ->).
    pose proof (getVersionPayload_Ok _ _ _ _ Hg) as (r & Hrin & _ & _ & <-).
    unfold history_inv in Hhist. rewrite Forall_forall in Hhist.
    destruct (Hhist r Hrin) as [Hnormal _].
    destruct (restore_payload clk _ _ _ _ _ d Hnormal Hclk H0 H2)
      as (Hpid & Hpu & Hpk).
    exists (v_payload r), (Name meta). repeat (split; [done|]).
    pose proof (updateDiagramRow_Some _ _ _ _ _ Hu) as (_ & Hsome & Ev & Es & _).
    pose proof (store_inv_updateDiagramRow _ _ _ _ _ Hu Hinv) as Hinv1.
    pose proof (appended_newest N (clk 3%nat) d (Name meta) p "restore" s1
                  Hinv1 Hsome) as Hnew.
    pose proof (appended_survives N (clk 3%nat) d (Name meta) p "restore" s1
                  Hinv1) as Hin.
    split.
    { unfold getDiagramPayload.
      destruct (pruneVersions_other_tables d N
        (insertVersion (clk 3%nat) d (Name meta) p "restore" s1))
        as (-> & _). simpl.
      revert Hu. unfold updateDiagramRow. destruct (diagrams s !! d); [|done].
      intros [= <-]. simpl. by rewrite lookup_insert_eq. }
    split.
    { unfold listVersions. apply head_Some in Hnew as [tl ->]. simpl.
      unfold scanVersion, appended. simpl. by rewrite Es. }
    rewrite <- Es.
    apply (getVersionPayload_elem (appended (clk 3%nat) d (Name meta) p "restore" s1));
      [|done].
    by apply store_inv_pruneVersions, store_inv_insertVersion.
Qed.

Lemma history_inv_created : history_inv created.
Proof. apply handle_history; [by intros i|apply history_inv_init]. Qed.

Lemma restore_appends_snapshot_witness :
  ∃ p s',
    restoreVersion 100 t0 "d1" 1 created = Ok (p, s') ∧
    p !! "id" = Some (JString "d1") ∧
    getDiagramPayload "d1" s' = Ok p ∧
    getVersionPayload "d1" (diagram_versions_seq created + 1) s' = Ok p.
Proof.
  destruct (is_ok_Ok (restoreVersion 100 t0 "d1" 1 created)) as [[p s'] E].
  { vm_compute. reflexivity. }
  exists p, s'. split; [exact E|].
  destruct (restore_appends_snapshot 100 t0 "d1" 1 created history_inv_created
              ltac:(discriminate)) as (_ & _ & H).
  destruct (H p s' store_inv_created E)
    as (vp & name & _ & Hid & _ & _ & Hget & _ & Hv).
  exact (conj Hid (conj Hget Hv)).
Defined.

Lemma db_eq s s' :
  diagrams s' = diagrams s → diagram_versions s' = diagram_versions s →
  diagram_versions_seq s' = diagram_versions_seq s →
  diagram_filters s' = diagram_filters s → s' = s.
Proof. destruct s, s'. simpl. by intros -> -> -> ->. Qed.

(** C7 (as amended). Deleting [d] always commits; afterwards there is no
    document, no version and no filter under [d], a get answers NotFound,
    the rows of every other document are as before, and deleting again
    changes nothing.  When no document is stored under [d] the documents
    and the versions are left as they were and at most a filter row filed
    under [d] is removed; with no such filter row the database is
    unchanged. *)
Theorem delete_cascades (N : Z) (d : string) (s : db) :
  ∃ s',
    deleteDiagram d s = Ok s' ∧
    handleDiagrams N (DeleteDiagram d) s = ((StatusNoContent, NoContent), s') ∧
    getDiagramPayload d s' = Err ErrNoRows ∧
    handleDiagrams N (GetDiagram d) s' = (writeError StatusNotFound, s') ∧
    getDiagramFilter d s' = Err ErrNoRows ∧
    listVersions d s' = [] ∧
    (∀ v, getVersionPayload d v s' = Err ErrNoRows) ∧
    deleteDiagram d s' = Ok s' ∧
    (∀ d', d' ≠ d →
       diagrams s' !! d' = diagrams s !! d' ∧
       diagram_filters s' !! d' = diagram_filters s !! d' ∧
       of_diagram d' (diagram_versions s') = of_diagram d' (diagram_versions s)) ∧
    (diagrams s !! d = None → store_inv s →
       diagrams s' = diagrams s ∧ diagram_versions s' = diagram_versions s ∧
       diagram_filters s' = delete d (diagram_filters s) ∧
       (diagram_filters s !! d = None → s' = s)).
Proof.
  set (s' := set_diagrams (delete d)
               (set_versions (filter (λ v, v_diagram_id v ≠ d))
                  (set_filters (delete d) s))).
  assert (∀ r, r ∈ diagram_versions s' → v_diagram_id r ≠ d) as Hnone.
  { intros r Hr. apply list_elem_of_filter in Hr. tauto. }
  assert (getDiagramPayload d s' = Err ErrNoRows) as Hget.
  { unfold getDiagramPayload. simpl. by rewrite lookup_delete_eq. }
  exists s'. split; [done|]. split; [done|]. split; [done|].
  split. { simpl. by rewrite Hget. }
  split. { unfold getDiagramFilter. simpl. by rewrite lookup_delete_eq. }
  split. { by apply versionRows_none. }
  split.
  { intros v. apply getVersionPayload_none. intros r Hr Hd.
    by destruct (Hnone r Hr). }
  split.
  { unfold deleteDiagram. f_equal. apply db_eq; simpl.
    - apply delete_id, lookup_delete_eq.
    - apply filter_all. intros r Hr. by apply Hnone.
    - done.
    - apply delete_id, lookup_delete_eq. }
  split.
  { intros d' Hd'. simpl. rewrite !lookup_delete_ne by done.
    split; [done|]. split; [done|].
    unfold of_diagram. rewrite filter_comm. apply filter_all.
    intros r Hr. apply list_elem_of_filter in Hr as [Hr _]. congruence. }
  intros Hd [_ _ Ho]. rewrite Forall_forall in Ho.
  assert (filter (λ v, v_diagram_id v ≠ d) (diagram_versions s)
          = diagram_versions s) as Hv.
  { apply filter_all. intros r Hr Heq.
    apply Ho in Hr. rewrite Heq, Hd in Hr. by destruct Hr. }
  simpl. split; [by apply delete_id|]. split; [done|]. split; [done|].
  intros Hf. apply db_eq; simpl; [by apply delete_id|done|done|].
  by apply delete_id.
Qed.

Lemma delete_cascades_witness :
  ∃ s', deleteDiagram "d2" created = Ok s' ∧ s' = created.
Proof.
  destruct (delete_cascades 100 "d2" created) as (s' & Hs' & H).
  exists s'. split; [exact Hs'|].
  apply H; [vm_compute; reflexivity|apply store_inv_created
           |vm_compute; reflexivity].
Defined.

(** C7, as stated, fails: deleting an id that has no stored document is not
    always a no-op, it removes a filter that was saved under that id. *)
Lemma delete_without_document_removes_filter :
  diagrams orphan_filter !! "ghost" = None ∧
  getDiagramFilter "ghost" orphan_filter = Ok (Some ∅) ∧
  match deleteDiagram "ghost" orphan_filter with
  | Ok s' => getDiagramFilter "ghost" s' = Err ErrNoRows ∧ s' ≠ orphan_filter
  | Err _ => False
  end.
Proof.
  split; [by vm_compute|]. split; [by vm_compute|].
  split; [by vm_compute|]. intros E.
  apply (f_equal (λ s, diagram_filters s !! "ghost")) in E.
  by vm_compute in E.
Qed.

End BackendFacts.

Module RequestFacts.
Import Backend BackendFacts.

Lemma isSome_Some {A} (o : option A) :
  match o with Some _ => true | None => false end = true → ∃ x, o = Some x.
Proof. destruct o; [eauto|discriminate]. Qed.

(** ** Listings *)

Lemma elem_of_diagramRows s r :
  r ∈ diagramRows s ↔ diagrams s !! r.1 = Some r.2.
Proof.
  unfold diagramRows. rewrite merge_sort_Permutation.
  apply elem_of_map_to_list'.
Qed.

#[global] Instance updated_desc_total : Total updated_desc.
Proof. intros a b. unfold updated_desc. destruct (String.leb_total (d_updated_at a.2) (d_updated_at b.2)); auto. Qed.

Lemma NoDup_diagramRows s : NoDup (diagramRows s).*1.
Proof.
  unfold diagramRows. rewrite merge_sort_Permutation.
  apply NoDup_fst_map_to_list.
Qed.

Lemma normalizeMap_agrees now m p meta c :
  normalizeMap now m = Ok (p, meta) →
  row_agrees (ID meta)
    {| d_name := Name meta; d_database_type := DatabaseType meta;
       d_database_edition := DatabaseEdition meta; d_payload := p;
       d_created_at := c; d_updated_at := UpdatedAt meta |}.
Proof.
  intros Hn.
  apply normalizeMap_Ok in Hn as (Hi & ? & Hna & ? & Ht & ? & _ & _ & He & ->).
  unfold row_agrees. simpl.
  rewrite !lookup_insert_ne, lookup_insert_eq by done.
  by rewrite Hi, Hna, Ht, He.
Qed.

Lemma doc_inv_eq s s' : diagrams s' = diagrams s → doc_inv s → doc_inv s'.
Proof. unfold doc_inv. by intros ->. Qed.

Lemma doc_inv_pruneVersions d N s : doc_inv s → doc_inv (pruneVersions d N s).
Proof. apply doc_inv_eq. apply pruneVersions_other_tables. Qed.

Lemma doc_inv_insertVersion now d n p a s :
  doc_inv s → doc_inv (insertVersion now d n p a s).
Proof. by apply doc_inv_eq. Qed.

Lemma doc_inv_update d p meta s s1 :
  ID meta = d → row_agrees d {| d_name := Name meta; d_database_type := DatabaseType meta;
       d_database_edition := DatabaseEdition meta; d_payload := p;
       d_created_at := ""; d_updated_at := UpdatedAt meta |} →
  updateDiagramRow d p meta s = Ok s1 → doc_inv s → doc_inv s1.
Proof.
  intros Hid Ha. unfold updateDiagramRow.
  destruct (diagrams s !! d) as [old|]; [|done]. intros [= <-] Hinv.
  unfold doc_inv. simpl. apply map_Forall_insert_2; [|done]. exact Ha.
Qed.

Lemma TrimSpace_empty : TrimSpace "" = "".
Proof. reflexivity. Qed.

Lemma doc_inv_patch N clk d patch s p s' :
  patchDiagramWithVersion N clk d patch s = Ok (p, s') →
  doc_inv s → doc_inv s'.
Proof.
  intros Hp Hinv.
  apply patch_Ok in Hp as (row & meta & s1 & Hrow & Hn & Hs1 & ->).
  simpl in Hs1.
  pose proof (normalizeMap_agrees _ _ _ _ "" Hn) as Ha.
  assert (ID meta ≠ "") as Hne.
  { intros E. destruct Ha as (_ & _ & _ & _ & _ & Ht & _). rewrite E in Ht. by apply Ht. }
  destruct (decide (ID meta = "")) as [|_]; [done|].
  assert (doc_inv s1) as Hinv1.
  { destruct Hs1 as [[Ht Hu]|(Ht & s0 & Hr & Hf)].
    - eapply doc_inv_update; [exact Ht| |exact Hu|done]. by rewrite <- Ht.
    - apply renameFilter_Ok in Hf as (Hf & _). eapply doc_inv_eq; [exact Hf|].
      simpl. revert Hr. unfold renameDiagramRow.
      destruct (diagrams s !! d) as [old|]; [|done].
      destruct (diagrams s !! ID meta); [done|]. intros [= <-]. simpl.
      apply map_Forall_insert_2; [exact Ha|]. by apply map_Forall_delete. }
  destruct (isOnlyUpdatedAtPatch patch); [done|].
  by apply doc_inv_pruneVersions, doc_inv_insertVersion.
Qed.

Lemma handle_doc_inv N r s : doc_inv s → doc_inv (handleDiagrams N r s).2.
Proof.
  intros Hinv. destruct r; simpl.
  - destruct (decodeAndNormalizeDiagramPayload _ _) as [[p m]|] eqn:En; [|done].
    unfold insertDiagramWithVersion.
    destruct (insertDiagram p m s) as [s1|e] eqn:Ei; simpl;
      [|by destruct (isUniqueConstraintError e)].
    apply doc_inv_pruneVersions, doc_inv_insertVersion.
    rewrite decodeAndNormalize_map in En.
    destruct (decodeBody b); [|done].
    revert Ei. unfold insertDiagram. destruct (diagrams s !! ID m); [done|].
    intros [= <-]. apply map_Forall_insert_2; [|done].
    by eapply normalizeMap_agrees.
  - destruct (getDiagramPayload _ _) as [|e]; [done|]. by destruct (isErrNoRows e).
  - destruct (decodeAndNormalizeDiagramPayload _ _) as [[p m]|] eqn:En; [|done].
    destruct (decide _) as [|Hid]; [done|]. apply dec_stable in Hid.
    unfold replaceDiagramWithVersion.
    destruct (updateDiagramRow diagramID p m s) as [s1|e] eqn:Eu; simpl;
      [|by destruct (isErrNoRows e)].
    apply doc_inv_pruneVersions, doc_inv_insertVersion.
    rewrite decodeAndNormalize_map in En.
    destruct (decodeBody b); [|done].
    eapply doc_inv_update; [exact Hid| |exact Eu|done].
    rewrite <- Hid. by eapply normalizeMap_agrees.
  - destruct (decodeBody b) as [pd|]; [|done].
    destruct (patchDiagramWithVersion _ _ _ _ _) as [[p s']|e] eqn:Ep; simpl.
    + by eapply doc_inv_patch.
    + destruct (isErrNoRows e); [done|]. by destruct (isUniqueConstraintError e).
  - unfold deleteDiagram, doc_inv. simpl. by apply map_Forall_delete.
  - destruct (getDiagramFilter _ _) as [|e]; [done|]. by destruct (isErrNoRows e).
  - by destruct (decodeBody b).
  - done.
  - done.
  - destruct (getVersionPayload _ _ _) as [|e]; [done|]. by destruct (isErrNoRows e).
  - destruct (restoreVersion _ _ _ _ _) as [[p s']|e] eqn:Er; simpl;
      [|by destruct (isErrNoRows e)].
    apply restore_Ok in Er as (vp & np & m0 & meta & s1 & _ & _ & Hn & Hu & ->).
    apply doc_inv_pruneVersions, doc_inv_insertVersion.
    pose proof (normalizeMap_agrees _ _ _ _ "" Hn) as Ha.
    apply normalizeMap_Ok in Hn as (Hi & _).
    rewrite lookup_insert_ne, lookup_insert_eq in Hi by done.
    injection Hi as Hi.
    eapply doc_inv_update; [symmetry; exact Hi| |exact Hu|done].
    by rewrite Hi.
Qed.

Lemma serve_doc_inv N rs s : doc_inv s → doc_inv (serve N rs s).
Proof.
  revert s. induction rs as [|r rs IH]; intros s Hs; [done|].
  simpl. apply IH. by apply handle_doc_inv.
Qed.


(** X1. After any sequence of requests on a fresh database, the meta
    listing names every stored document exactly once, in non-increasing
    order of [updated_at], the full listing holds the payloads in the same
    order, and every entry of the meta listing repeats what the payload of
    its document says for [id], [name], [databaseType], [databaseEdition]
    and [updatedAt]. *)
Theorem listing_agrees_with_documents (N : Z) (rs : list request) :
  let s := serve N rs initSchema in
  NoDup (ID <$> listDiagramMetas s) ∧
  (∀ d, d ∈ ID <$> listDiagramMetas s ↔ is_Some (diagrams s !! d)) ∧
  Sorted (λ a b, String.leb (UpdatedAt b) (UpdatedAt a) = true)
    (listDiagramMetas s) ∧
  Forall2
    (λ m p,
       getDiagramPayload (ID m) s = Ok p ∧
       p !! "id" = Some (JString (ID m)) ∧
       p !! "name" = Some (JString (Name m)) ∧
       p !! "databaseType" = Some (JString (DatabaseType m)) ∧
       asString (p !! "databaseEdition") = DatabaseEdition m ∧
       p !! "updatedAt" = Some (JString (UpdatedAt m)))
    (listDiagramMetas s) (listDiagramPayloads s).
Proof.
  intros s.
  assert (doc_inv s) as Hinv by (apply serve_doc_inv; apply map_Forall_empty).
  unfold listDiagramMetas, listDiagramPayloads.
  assert (ID <$> (scanMeta <$> diagramRows s) = (diagramRows s).*1) as Hids.
  { rewrite <- list_fmap_compose. by apply list_fmap_ext. }
  split; [rewrite Hids; apply NoDup_diagramRows|].
  split.
  { intros d. rewrite Hids, list_elem_of_fmap. split.
    - intros ([d' r] & -> & Hr). apply elem_of_diagramRows in Hr. simpl in *. eauto.
    - intros [r Hr]. exists (d, r). split; [done|]. by apply elem_of_diagramRows. }
  split.
  { apply Sorted_fmap with (R1 := updated_desc); [done|].
    apply Sorted_merge_sort, _. }
  apply Forall2_fmap, Forall_Forall2_diag, Forall_forall.
  intros [d r] Hr. apply elem_of_diagramRows in Hr. simpl in *.
  unfold getDiagramPayload. rewrite Hr.
  destruct (Hinv d r Hr) as (? & ? & ? & ? & ? & _). done.
Qed.

(** ** Version ids *)

Lemma extends_history_refl s : extends_history s s.
Proof.
  split; [done|]. intros v Hv. right. apply list_elem_of_fmap. eauto.
Qed.

Lemma extends_history_eq s s' :
  diagram_versions_seq s' = diagram_versions_seq s →
  diagram_versions s' = diagram_versions s → extends_history s s'.
Proof.
  intros Hq Hv. split; [lia|]. rewrite Hv. intros v ?. right.
  apply list_elem_of_fmap. eauto.
Qed.

Lemma extends_history_trans s1 s2 s3 :
  extends_history s1 s2 → extends_history s2 s3 → extends_history s1 s3.
Proof.
  intros [H1 H1'] [H2 H2']. split; [lia|]. intros v Hv.
  destruct (H2' v Hv) as [?|Hs]; [left; lia|].
  apply list_elem_of_fmap in Hs as (v2 & Hs & Hv2).
  destruct (H1' v2 Hv2) as [?|Hs1].
  - left. assert (v_id v = v_id v2) as -> by (by injection Hs). done.
  - right. by rewrite Hs.
Qed.

Lemma extends_history_append N now d n p a s s1 :
  diagram_versions_seq s1 = diagram_versions_seq s →
  snapshot <$> diagram_versions s1 = snapshot <$> diagram_versions s →
  extends_history s (pruneVersions d N (insertVersion now d n p a s1)).
Proof.
  intros Hq Hs. split.
  - destruct (pruneVersions_other_tables d N (insertVersion now d n p a s1))
      as (_ & _ & ->). simpl. lia.
  - intros v Hv. apply pruneVersions_subset in Hv. simpl in Hv.
    apply elem_of_app in Hv as [Hv|Hv].
    + right. rewrite <- Hs. apply list_elem_of_fmap. eauto.
    + apply list_elem_of_singleton in Hv as ->. left. simpl. lia.
Qed.

Lemma handle_extends N r s :
  store_inv s → extends_history s (handleDiagrams N r s).2.
Proof.
  intros Hinv. destruct r; simpl; try apply extends_history_refl.
  - destruct (decodeAndNormalizeDiagramPayload _ _) as [[p m]|];
      [|apply extends_history_refl].
    unfold insertDiagramWithVersion.
    destruct (insertDiagram p m s) as [s1|e] eqn:Ei; simpl;
      [|destruct (isUniqueConstraintError e); apply extends_history_refl].
    revert Ei. unfold insertDiagram. destruct (diagrams s !! ID m); [done|].
    intros [= <-]. by apply extends_history_append.
  - destruct (getDiagramPayload _ _) as [|e]; [apply extends_history_refl|].
    destruct (isErrNoRows e); apply extends_history_refl.
  - destruct (decodeAndNormalizeDiagramPayload _ _) as [[p m]|];
      [|apply extends_history_refl].
    destruct (decide _); [apply extends_history_refl|].
    unfold replaceDiagramWithVersion.
    destruct (updateDiagramRow diagramID p m s) as [s1|e] eqn:Eu; simpl;
      [|destruct (isErrNoRows e); apply extends_history_refl].
    apply updateDiagramRow_Some in Eu as (_ & _ & Hv & Hq & _).
    apply extends_history_append; [done|by rewrite Hv].
  - destruct (decodeBody b) as [pd|]; [|apply extends_history_refl].
    destruct (patchDiagramWithVersion _ _ _ _ _) as [[p s']|e] eqn:Ep; simpl.
    + apply patch_state in Ep as (meta & s1 & _ & _ & _ & _ & Hq & Hs & ->);
        [|done].
      destruct (isOnlyUpdatedAtPatch _).
      * split; [lia|]. intros v Hv. right. rewrite <- Hs.
        apply list_elem_of_fmap. eauto.
      * by apply extends_history_append.
    + destruct (isErrNoRows e); [apply extends_history_refl|].
      destruct (isUniqueConstraintError e); apply extends_history_refl.
  - split; [done|]. simpl. intros v Hv.
    apply list_elem_of_filter in Hv as [_ Hv]. right.
    apply list_elem_of_fmap. eauto.
  - destruct (getDiagramFilter _ _) as [|e]; [apply extends_history_refl|].
    destruct (isErrNoRows e); apply extends_history_refl.
  - destruct (decodeBody b); [|apply extends_history_refl].
    by apply extends_history_eq.
  - by apply extends_history_eq.
  - destruct (getVersionPayload _ _ _) as [|e]; [apply extends_history_refl|].
    destruct (isErrNoRows e); apply extends_history_refl.
  - destruct (restoreVersion _ _ _ _ _) as [[p s']|e] eqn:Er; simpl;
      [|destruct (isErrNoRows e); apply extends_history_refl].
    apply restore_Ok in Er as (vp & np & m0 & meta & s1 & _ & _ & _ & Hu & ->).
    apply updateDiagramRow_Some in Hu as (_ & _ & Hv & Hq & _).
    apply extends_history_append; [done|by rewrite Hv].
Qed.

Lemma serve_extends N rs s :
  store_inv s → extends_history s (serve N rs s).
Proof.
  revert s. induction rs as [|r rs IH]; intros s Hs;
    [apply extends_history_refl|].
  simpl. eapply extends_history_trans; [by apply handle_extends|].
  apply IH. by apply handle_inv.
Qed.

(** X2. Version ids are never reused and a version, once written, is never
    rewritten: whatever requests are served, the AUTOINCREMENT counter never
    goes back; every version row found afterwards either carries an id
    handed out in between, or is a row that was there before with the same
    id, name, payload, action and time (only the document it is filed under
    may have been renamed); and an id that was in use before still names
    the same snapshot wherever it is found, also after its document was
    deleted and created again. *)
Theorem version_ids_never_reused (N : Z) (rs : list request) (s : db) :
  store_inv s →
  let s' := serve N rs s in
  (diagram_versions_seq s ≤ diagram_versions_seq s')%Z ∧
  (∀ v, v ∈ diagram_versions s' →
     (diagram_versions_seq s < v_id v ≤ diagram_versions_seq s')%Z
     ∨ ∃ v0, v0 ∈ diagram_versions s ∧ snapshot v0 = snapshot v) ∧
  (∀ v0 v, v0 ∈ diagram_versions s → v ∈ diagram_versions s' →
     v_id v = v_id v0 → snapshot v = snapshot v0).
Proof.
  intros Hinv s'.
  destruct (serve_extends N rs s Hinv) as [Hq Hold]. fold s' in Hq, Hold.
  assert (store_inv s') as [_ Hseq' _] by (by apply serve_inv).
  rewrite Forall_forall in Hseq'.
  split; [done|]. split.
  - intros v Hv. destruct (Hold v Hv) as [?|Hs].
    + left. split; [done|]. by apply Hseq'.
    + right. apply list_elem_of_fmap in Hs as (v0 & ? & ?). eauto.
  - intros v0 v Hv0 Hv Hid. destruct Hinv as [Hnd Hseq _].
    rewrite Forall_forall in Hseq.
    destruct (Hold v Hv) as [Hlt|Hs].
    + specialize (Hseq v0 Hv0). simpl in Hseq. lia.
    + apply list_elem_of_fmap in Hs as (v1 & Hs & Hv1).
      assert (v_id v1 = v_id v0) as Hid1.
      { rewrite <- Hid. by injection Hs. }
      by rewrite (fmap_inj_on v_id _ _ _ Hnd Hv1 Hv0 Hid1) in Hs.
Qed.

Lemma version_ids_never_reused_witness :
  Forall (λ v, (1 < v_id v)%Z)
    (diagram_versions
       (serve 1 [DeleteDiagram "d1"; PostDiagram t0 docWithEdition] created)).
Proof.
  apply Forall_forall. intros v Hv.
  destruct (version_ids_never_reused 1
              [DeleteDiagram "d1"; PostDiagram t0 docWithEdition] created
              store_inv_created) as (_ & H & _).
  destruct (H v Hv) as [[Hlt _]|(v0 & Hv0 & Hs)].
  - exact Hlt.
  - exfalso. revert Hv Hs. vm_compute in Hv0.
    apply list_elem_of_singleton in Hv0 as ->.
    intros Hv Hs. vm_compute in Hv.
    apply list_elem_of_singleton in Hv as ->. discriminate Hs.
Defined.

(** ** Normalization *)

Lemma stamp_nonempty now v : now ≠ "" → stamp now v ≠ "".
Proof.
  intros Hnow. unfold stamp. destruct v as [[| | |c| |]|]; try done.
  by destruct (decide (c = "")).
Qed.

(** X3. Normalization is idempotent: a payload that came out of it (with a
    clock that read a non-empty time) is accepted again as it is, with the
    same summary, whatever the clock reads the second time. *)
Theorem normalization_is_idempotent (now now' : string) (m p : object)
    (meta : diagramMeta) :
  now ≠ "" →
  normalizeMap now m = Ok (p, meta) →
  normalizeMap now' p = Ok (p, meta) ∧
  normalizeDiagramPayload now' (Marshal p) = Ok (p, meta).
Proof.
  intros Hnow Hn. rewrite normalize_Marshal.
  apply normalizeMap_Ok in Hn
    as (Hi & Hi' & Hna & Hna' & Ht & Ht' & Hc & Hu & He & ->).
  assert (CreatedAt meta ≠ "") as Hc' by (rewrite Hc; by apply stamp_nonempty).
  assert (UpdatedAt meta ≠ "") as Hu' by (rewrite Hu; by apply stamp_nonempty).
  assert (normalizeMap now'
            (<["updatedAt":=JString (UpdatedAt meta)]>
               (<["createdAt":=JString (CreatedAt meta)]> m))
          = Ok (<["updatedAt":=JString (UpdatedAt meta)]>
                  (<["createdAt":=JString (CreatedAt meta)]> m), meta)) as H;
    [|by split].
  unfold normalizeMap.
  rewrite !lookup_insert_ne, Hi, Hna, Ht by done.
  unfold required. simpl.
  destruct (decide (TrimSpace (ID meta) = "")) as [|_]; [done|].
  destruct (decide (TrimSpace (Name meta) = "")) as [|_]; [done|].
  destruct (decide (TrimSpace (DatabaseType meta) = "")) as [|_]; [done|].
  rewrite lookup_insert_eq. simpl.
  destruct (decide (CreatedAt meta = "")) as [|_]; [done|].
  rewrite lookup_insert_eq. simpl.
  destruct (decide (UpdatedAt meta = "")) as [|_]; [done|].
  rewrite !lookup_insert_ne by done. rewrite <- He. by destruct meta.
Qed.

Lemma normalization_is_idempotent_witness :
  ∃ p meta, normalizeMap "t" {["id" := JString "d1"; "name" := JString "n";
                               "databaseType" := JString "g"]} = Ok (p, meta)
            ∧ normalizeMap "" p = Ok (p, meta).
Proof.
  destruct (is_ok_Ok (normalizeMap "t" {["id" := JString "d1";
              "name" := JString "n"; "databaseType" := JString "g"]}))
    as [[p meta] E]; [vm_compute; reflexivity|].
  exists p, meta. split; [exact E|].
  exact (proj1 (normalization_is_idempotent "t" "" _ p meta
                  ltac:(discriminate) E)).
Defined.


(** ** What a write appends *)

Lemma filter_filter_impl {A} (P Q : A → Prop) `{∀ x, Decision (P x)}
    `{∀ x, Decision (Q x)} (l : list A) :
  (∀ x, x ∈ l → P x → Q x) → filter P (filter Q l) = filter P l.
Proof.
  induction l as [|a l IH]; [done|]. intros Hl.
  rewrite !(filter_cons _ a).
  destruct (decide (Q a)) as [Ha|Ha].
  - rewrite filter_cons. destruct (decide (P a)).
    + f_equal. apply IH. intros x Hx. apply Hl. by right.
    + apply IH. intros x Hx. apply Hl. by right.
  - destruct (decide (P a)) as [Hp|Hp].
    + destruct Ha. apply Hl; [by left|done].
    + apply IH. intros x Hx. apply Hl. by right.
Qed.

Lemma pruneVersions_others d d' N s :
  NoDup (v_id <$> diagram_versions s) → d' ≠ d →
  of_diagram d' (diagram_versions (pruneVersions d N s))
  = of_diagram d' (diagram_versions s).
Proof.
  intros Hnd Hne. unfold pruneVersions. destruct (decide (N ≤ 0)%Z); [done|].
  simpl. unfold of_diagram. apply filter_filter_impl.
  intros v Hv Hd Hin.
  assert (v_id v ∈ ids_desc d (diagram_versions s)) as Hin'.
  { rewrite <- (take_drop (Z.to_nat N)). apply elem_of_app. by right. }
  apply elem_of_ids_desc in Hin' as (v' & Hv' & Hd' & Hid).
  assert (v' = v) as -> by (by eapply fmap_inj_on).
  congruence.
Qed.

Lemma count_append N now d n p a s d' :
  store_inv s →
  version_count d' (pruneVersions d N (insertVersion now d n p a s)) =
  if decide (d' = d)
  then if decide (0 < N)%Z
       then ((version_count d s + 1) `min` Z.to_nat N)%nat
       else (version_count d s + 1)%nat
  else version_count d' s.
Proof.
  intros [Hnd Hseq Ho].
  assert (NoDup (v_id <$> diagram_versions (insertVersion now d n p a s)))
    as Hnd'.
  { simpl. rewrite fmap_app. apply NoDup_app. split; [done|]. split.
    - intros x Hx Hx'. apply list_elem_of_singleton in Hx'. subst x.
      apply list_elem_of_fmap in Hx as (v & Hid & Hv).
      rewrite Forall_forall in Hseq. apply Hseq in Hv. simpl in Hid. lia.
    - apply NoDup_singleton. }
  destruct (decide (d' = d)) as [->|Hne].
  - destruct (decide (0 < N)%Z) as [HN|HN].
    + unfold version_count at 1. rewrite <- length_ids_desc.
      rewrite ids_desc_pruneVersions by done.
      rewrite length_take, length_ids_desc.
      fold (version_count d (insertVersion now d n p a s)).
      rewrite version_count_insertVersion.
      destruct (decide (d = d)); [lia|done].
    + rewrite pruneVersions_unlimited by lia.
      rewrite version_count_insertVersion.
      by destruct (decide (d = d)).
  - unfold version_count at 1. rewrite pruneVersions_others by done.
    fold (version_count d' (insertVersion now d n p a s)).
    rewrite version_count_insertVersion.
    destruct (decide (d = d')); [congruence|lia].
Qed.

Lemma append_facts N now d n p a s :
  store_inv s → is_Some (diagrams s !! d) →
  let s' := pruneVersions d N (insertVersion now d n p a s) in
  head (listVersions d s')
    = Some {| VersionID := diagram_versions_seq s + 1; VersionDiagramID := d;
              VersionName := n; Action := a; VersionCreatedAt := now |} ∧
  getVersionPayload d (diagram_versions_seq s + 1) s' = Ok p ∧
  diagrams s' = diagrams s ∧ diagram_filters s' = diagram_filters s.
Proof.
  intros Hinv Hd s'.
  pose proof (appended_newest N now d n p a s Hinv Hd) as Hnew.
  pose proof (appended_survives N now d n p a s Hinv) as Hin.
  fold s' in Hnew, Hin.
  assert (store_inv s') as [Hnd _ _].
  { by apply store_inv_pruneVersions, store_inv_insertVersion. }
  split; [|split].
  - unfold listVersions. apply head_Some in Hnew as [tl ->]. done.
  - apply (getVersionPayload_elem (appended now d n p a s)); done.
  - destruct (pruneVersions_other_tables d N (insertVersion now d n p a s))
      as (? & ? & _). done.
Qed.

(** X4. Replacing a document: a body whose [id] is not the route's id is
    refused with 400 and a document that is not stored with 404, the
    database staying as it was; otherwise the normalized body becomes the
    payload, the row keeps the [created_at] it was inserted with whatever
    the body says, every other document and all filters are untouched, and
    the newest version of the document is a "save" with that payload. *)
Theorem put_replaces_document (N : Z) (clk : nat → string) (d : string)
    (b : body) (s : db) (p : object) (meta : diagramMeta) :
  decodeAndNormalizeDiagramPayload (clk 0%nat) b = Ok (p, meta) →
  (ID meta ≠ d →
     handleDiagrams N (PutDiagram clk d b) s = (writeError StatusBadRequest, s)) ∧
  (ID meta = d → diagrams s !! d = None →
     handleDiagrams N (PutDiagram clk d b) s = (writeError StatusNotFound, s)) ∧
  (∀ row, ID meta = d → diagrams s !! d = Some row → store_inv s →
     ∃ s',
       handleDiagrams N (PutDiagram clk d b) s = ((StatusOK, Document p), s') ∧
       getDiagramPayload d s' = Ok p ∧
       d_created_at <$> diagrams s' !! d = Some (d_created_at row) ∧
       (∀ d', d' ≠ d → diagrams s' !! d' = diagrams s !! d') ∧
       diagram_filters s' = diagram_filters s ∧
       head (listVersions d s')
         = Some {| VersionID := diagram_versions_seq s + 1;
                   VersionDiagramID := d; VersionName := Name meta;
                   Action := "save"; VersionCreatedAt := clk 1%nat |} ∧
       getVersionPayload d (diagram_versions_seq s + 1) s' = Ok p).
Proof.
  intros Hn. simpl. rewrite Hn. split; [|split].
  - intros Hne. by destruct (decide (ID meta ≠ d)).
  - intros Hid Hd. destruct (decide (ID meta ≠ d)); [done|].
    unfold replaceDiagramWithVersion, updateDiagramRow. by rewrite Hd.
  - intros row Hid Hd Hinv. destruct (decide (ID meta ≠ d)); [done|].
    unfold replaceDiagramWithVersion.
    destruct (updateDiagramRow d p meta s) as [s1|e] eqn:Eu;
      [|unfold updateDiagramRow in Eu; by rewrite Hd in Eu].
    simpl. eexists. split; [done|].
    pose proof (updateDiagramRow_Some _ _ _ _ _ Eu)
      as (_ & Hd1 & Hv & Hq & Hf & Hother).
    pose proof (store_inv_updateDiagramRow _ _ _ _ _ Eu Hinv) as Hinv1.
    destruct (append_facts N (clk 1%nat) d (Name meta) p "save" s1 Hinv1 Hd1)
      as (Hhead & Hget & Hds & Hfs).
    rewrite Hq in Hhead, Hget.
    unfold getDiagramPayload. rewrite Hds, Hfs.
    revert Eu. unfold updateDiagramRow. rewrite Hd. intros [= <-]. simpl.
    rewrite lookup_insert_eq. simpl.
    repeat split; done.
Qed.

Lemma put_replaces_document_witness :
  ∃ p meta,
    decodeAndNormalizeDiagramPayload (t0 0%nat) (doc "d1" "M") = Ok (p, meta) ∧
    ∃ s',
      handleDiagrams 100 (PutDiagram t0 "d1" (doc "d1" "M")) created
        = ((StatusOK, Document p), s') ∧
      getDiagramPayload "d1" s' = Ok p.
Proof.
  destruct (is_ok_Ok (decodeAndNormalizeDiagramPayload (t0 0%nat) (doc "d1" "M")))
    as [[p meta] E]; [vm_compute; reflexivity|].
  exists p, meta. split; [exact E|].
  assert (ID meta = "d1") as Hid.
  { assert (match decodeAndNormalizeDiagramPayload (t0 0%nat) (doc "d1" "M")
            with Ok (_, m) => ID m = "d1" | Err _ => False end) as H
      by (vm_compute; reflexivity).
    by rewrite E in H. }
  destruct (isSome_Some (diagrams created !! "d1")) as [row Hrow];
    [vm_compute; reflexivity|].
  destruct (put_replaces_document 100 t0 "d1" (doc "d1" "M") created p meta E)
    as (_ & _ & H).
  destruct (H row Hid Hrow store_inv_created) as (s' & Hh & Hg & _).
  exists s'. split; [exact Hh|exact Hg].
Defined.

(** X5. Creating a document whose id is already stored is answered with
    409 and changes nothing; creating one whose id is free is answered with
    201, stores the normalized body, leaves every other document and all
    filters as they were, and starts the document's history with a single
    version, a "create" holding that payload, numbered after every version
    id handed out before (also when the id had been used and deleted). *)
Theorem create_starts_history (N : Z) (clk : nat → string) (b : body)
    (s : db) (p : object) (meta : diagramMeta) :
  decodeAndNormalizeDiagramPayload (clk 0%nat) b = Ok (p, meta) →
  (is_Some (diagrams s !! ID meta) →
     handleDiagrams N (PostDiagram clk b) s = (writeError StatusConflict, s)) ∧
  (diagrams s !! ID meta = None → store_inv s →
     ∃ s',
       handleDiagrams N (PostDiagram clk b) s
         = ((StatusCreated, Document p), s') ∧
       getDiagramPayload (ID meta) s' = Ok p ∧
       (∀ d', d' ≠ ID meta → diagrams s' !! d' = diagrams s !! d') ∧
       diagram_filters s' = diagram_filters s ∧
       listVersions (ID meta) s'
         = [ {| VersionID := diagram_versions_seq s + 1;
                VersionDiagramID := ID meta; VersionName := Name meta;
                Action := "create"; VersionCreatedAt := clk 1%nat |} ] ∧
       getVersionPayload (ID meta) (diagram_versions_seq s + 1) s' = Ok p).
Proof.
  intros Hn. simpl. rewrite Hn. unfold insertDiagramWithVersion. split.
  - intros [row Hrow]. unfold insertDiagram. by rewrite Hrow.
  - intros Hd Hinv.
    destruct (insertDiagram p meta s) as [s1|e] eqn:Ei;
      [|unfold insertDiagram in Ei; by rewrite Hd in Ei].
    simpl. eexists. split; [done|].
    pose proof (insertDiagram_Some _ _ _ _ Ei) as (_ & Hd1 & Hv).
    pose proof (store_inv_insertDiagram _ _ _ _ Ei Hinv) as Hinv1.
    assert (diagram_versions_seq s1 = diagram_versions_seq s
            ∧ diagram_filters s1 = diagram_filters s
            ∧ diagrams s1 !! ID meta
              = Some {| d_name := Name meta;
                        d_database_type := DatabaseType meta;
                        d_database_edition := DatabaseEdition meta;
                        d_payload := p; d_created_at := CreatedAt meta;
                        d_updated_at := UpdatedAt meta |}
            ∧ ∀ d', d' ≠ ID meta → diagrams s1 !! d' = diagrams s !! d')
      as (Hq & Hf & Hrow & Hother).
    { revert Ei. unfold insertDiagram. rewrite Hd. intros [= <-]. simpl.
      rewrite lookup_insert_eq. repeat split.
      intros d' Hd'. by rewrite lookup_insert_ne. }
    destruct (append_facts N (clk 1%nat) (ID meta) (Name meta) p "create" s1
                Hinv1 Hd1) as (Hhead & Hget & Hds & Hfs).
    rewrite Hq in Hhead, Hget.
    unfold getDiagramPayload. rewrite Hds, Hfs, Hrow. simpl.
    repeat split; try done.
    pose proof (count_append N (clk 1%nat) (ID meta) (Name meta) p "create" s1
                  (ID meta) Hinv1) as Hc.
    rewrite decide_True in Hc by done.
    assert (version_count (ID meta) s1 = 0%nat) as H0.
    { unfold version_count. rewrite Hv.
      by apply (no_rows_without_diagram (ID meta) s). }
    rewrite H0 in Hc.
    assert (length (listVersions (ID meta)
              (pruneVersions (ID meta) N
                 (insertVersion (clk 1%nat) (ID meta) (Name meta) p "create" s1)))
            ≤ 1)%nat as Hlen.
    { unfold listVersions, versionRows. rewrite length_fmap.
      rewrite merge_sort_Permutation. fold (version_count (ID meta)
        (pruneVersions (ID meta) N
           (insertVersion (clk 1%nat) (ID meta) (Name meta) p "create" s1))).
      rewrite Hc. destruct (decide (0 < N)%Z); lia. }
    destruct (listVersions _ _) as [|e [|e' tl]]; [done| |simpl in Hlen; lia].
    by injection Hhead as ->.
Qed.

Lemma create_starts_history_witness :
  ∃ p meta,
    decodeAndNormalizeDiagramPayload (t0 0%nat) docWithEdition = Ok (p, meta) ∧
    handleDiagrams 100 (PostDiagram t0 docWithEdition) created
      = (writeError StatusConflict, created).
Proof.
  destruct (is_ok_Ok (decodeAndNormalizeDiagramPayload (t0 0%nat) docWithEdition))
    as [[p meta] E]; [vm_compute; reflexivity|].
  exists p, meta. split; [exact E|].
  destruct (create_starts_history 100 t0 docWithEdition created p meta E)
    as (H & _).
  apply H.
  assert (match decodeAndNormalizeDiagramPayload (t0 0%nat) docWithEdition
          with Ok (_, m) => is_Some (diagrams created !! ID m) | Err _ => False
          end) as H' by (vm_compute; eauto).
  by rewrite E in H'.
Defined.


(** X6. After a write that commits on document [d] (a replace, a create
    or a restore), the number of versions kept for [d] is one more than
    before, cut down to the cap when the cap is positive, and the number
    kept for every other document is what it was. *)
Theorem write_counts_versions (N : Z) (clk : nat → string) (d d' : string)
    (p : object) (meta : diagramMeta) (v : Z) (s s' : db) :
  store_inv s →
  replaceDiagramWithVersion N (clk 1%nat) d p meta "save" s = Ok s'
  ∨ (ID meta = d ∧ insertDiagramWithVersion N (clk 1%nat) p meta "create" s = Ok s')
  ∨ restoreVersion N clk d v s = Ok (p, s') →
  version_count d' s' =
  if decide (d' = d)
  then if decide (0 < N)%Z
       then ((version_count d s + 1) `min` Z.to_nat N)%nat
       else (version_count d s + 1)%nat
  else version_count d' s.
Proof.
  intros Hinv [Hw|[[<- Hw]|Hw]].
  - unfold replaceDiagramWithVersion in Hw.
    destruct (updateDiagramRow d p meta s) as [s1|] eqn:Eu; [|done].
    injection Hw as <-. rewrite count_append
      by (by eapply store_inv_updateDiagramRow).
    apply updateDiagramRow_Some in Eu as (_ & _ & Hv & _).
    unfold version_count. by rewrite Hv.
  - unfold insertDiagramWithVersion in Hw.
    destruct (insertDiagram p meta s) as [s1|] eqn:Ei; [|done].
    injection Hw as <-. rewrite count_append
      by (by eapply store_inv_insertDiagram).
    apply insertDiagram_Some in Ei as (_ & _ & Hv).
    unfold version_count. by rewrite Hv.
  - apply restore_Ok in Hw as (vp & np & m0 & meta' & s1 & _ & _ & _ & Hu & ->).
    rewrite count_append by (by eapply store_inv_updateDiagramRow).
    apply updateDiagramRow_Some in Hu as (_ & _ & Hv & _).
    unfold version_count. by rewrite Hv.
Qed.

Lemma write_counts_versions_witness :
  ∃ p s', restoreVersion 1 t0 "d1" 1 created_cap1 = Ok (p, s') ∧
          version_count "d1" s' = 1%nat.
Proof.
  destruct (is_ok_Ok (restoreVersion 1 t0 "d1" 1 created_cap1))
    as [[p s'] E]; [vm_compute; reflexivity|].
  exists p, s'. split; [exact E|].
  assert (store_inv created_cap1) as Hinv
    by apply handle_inv, store_inv_init.
  rewrite (write_counts_versions 1 t0 "d1" "d1" p
             {| ID := ""; Name := ""; DatabaseType := "";
                DatabaseEdition := None; CreatedAt := ""; UpdatedAt := "" |}
             1 created_cap1 s' Hinv (or_intror (or_intror E))).
  vm_compute. reflexivity.
Defined.

(** ** Patches that are refused *)

Lemma normalizeMap_Err now m e :
  normalizeMap now m = Err e →
  isErrNoRows e = false ∧ isUniqueConstraintError e = false.
Proof.
  unfold normalizeMap.
  destruct (required (m !! "id")); [|by intros [= <-]].
  destruct (required (m !! "name")); [|by intros [= <-]].
  destruct (required (m !! "databaseType")); [|by intros [= <-]].
  by repeat case_match.
Qed.

(** X7. A patch that cannot be applied changes nothing: a body that is no
    JSON object or null is answered with 400, a document that is not stored
    with 404, and a patch after which [id], [name] or [databaseType] is
    missing, not a string or blank is answered with 500 (not with 400, which
    a create or a replace gives for the same defect). *)
Theorem patch_refusals (N : Z) (clk : nat → string) (d : string) (b : body)
    (s : db) :
  (decodeBody b = None →
     handleDiagrams N (PatchDiagram clk d b) s
       = (writeError StatusBadRequest, s)) ∧
  (is_Some (decodeBody b) → diagrams s !! d = None →
     handleDiagrams N (PatchDiagram clk d b) s
       = (writeError StatusNotFound, s)) ∧
  (∀ patch row,
     decodeBody b = Some patch → diagrams s !! d = Some row →
     let merged := mergePatch (default ∅ patch) (d_payload row) in
     invalid_field (merged !! "id") ∨ invalid_field (merged !! "name")
     ∨ invalid_field (merged !! "databaseType") →
     handleDiagrams N (PatchDiagram clk d b) s
       = (writeError StatusInternalServerError, s)).
Proof.
  simpl. split; [|split].
  - by intros ->.
  - intros [pd ->] Hd. unfold patchDiagramWithVersion, getDiagramPayload.
    by rewrite Hd.
  - intros patch row -> Hd Hbad.
    unfold patchDiagramWithVersion, getDiagramPayload. rewrite Hd. simpl.
    rewrite normalize_Marshal.
    set (merged := mergePatch (default ∅ patch) (d_payload row)) in *.
    set (current := match merged !! "updatedAt" with
                    | Some _ => merged
                    | None => <["updatedAt":=JString (clk 0%nat)]> merged
                    end).
    assert (∀ k, k ≠ "updatedAt" → current !! k = merged !! k) as Hk.
    { intros k Hne. unfold current. destruct (merged !! "updatedAt"); [done|].
      by rewrite lookup_insert_ne. }
    assert (is_ok (normalizeMap (clk 1%nat) current) = false) as Hf.
    { apply normalizeMap_fails. by rewrite !Hk. }
    destruct (normalizeMap (clk 1%nat) current) as [|e] eqn:En; [done|].
    simpl. apply normalizeMap_Err in En as [-> ->]. done.
Qed.

Lemma patch_refusals_witness :
  handleDiagrams 100
    (PatchDiagram t0 "d1" (Text (JObject [("name", JString " ")]))) created
  = (writeError StatusInternalServerError, created).
Proof.
  destruct (isSome_Some (diagrams created !! "d1")) as [row Hrow];
    [vm_compute; reflexivity|].
  destruct (patch_refusals 100 t0 "d1" (Text (JObject [("name", JString " ")]))
              created) as (_ & _ & H).
  apply (H _ row eq_refl Hrow).
  right. left. right. right. exists " ". split; [|vm_compute; reflexivity].
  rewrite lookup_mergePatch. reflexivity.
Defined.

(** X8. A patch that changes the id is refused with 409, and changes
    nothing, when a document is stored under the new id, and also when no
    document is stored there but both ids have a filter: a filter saved
    under an id that names no document blocks renaming a filtered document
    to that id. *)
Theorem rename_conflicts (N : Z) (clk : nat → string) (d newId : string)
    (b : body) (patch : object) (s : db) (row : diagramRow) :
  decodeBody b = Some (Some patch) →
  diagrams s !! d = Some row →
  patch !! "id" = Some (JString newId) → TrimSpace newId ≠ "" → newId ≠ d →
  ¬ invalid_field (mergePatch patch (d_payload row) !! "name") →
  ¬ invalid_field (mergePatch patch (d_payload row) !! "databaseType") →
  is_Some (diagrams s !! newId)
  ∨ (is_Some (diagram_filters s !! d) ∧ is_Some (diagram_filters s !! newId)) →
  patchDiagramWithVersion N clk d patch s = Err ErrUniqueConstraint ∧
  handleDiagrams N (PatchDiagram clk d b) s = (writeError StatusConflict, s).
Proof.
  intros Hb Hd Hid Hblank Hne Hname Htype Hconf.
  assert (patchDiagramWithVersion N clk d patch s = Err ErrUniqueConstraint)
    as Hp; [|split; [done|]; simpl; by rewrite Hb; simpl; rewrite Hp].
  unfold patchDiagramWithVersion, getDiagramPayload. rewrite Hd. simpl.
  rewrite normalize_Marshal.
  set (merged := mergePatch patch (d_payload row)) in *.
  set (current := match merged !! "updatedAt" with
                  | Some _ => merged
                  | None => <["updatedAt":=JString (clk 0%nat)]> merged
                  end).
  assert (∀ k, k ≠ "updatedAt" → current !! k = merged !! k) as Hk.
  { intros k Hk. unfold current. destruct (merged !! "updatedAt"); [done|].
    by rewrite lookup_insert_ne. }
  assert (merged !! "id" = Some (JString newId)) as Hmid.
  { unfold merged. by rewrite lookup_mergePatch, Hid. }
  destruct (normalizeMap_succeeds (clk 1%nat) current) as (p & meta & Hn).
  { rewrite Hk, Hmid by done. by apply valid_not_invalid. }
  { by rewrite Hk. }
  { by rewrite Hk. }
  rewrite Hn. simpl.
  apply normalizeMap_Ok in Hn as (Hi & _).
  rewrite Hk, Hmid in Hi by done. injection Hi as <-.
  assert (newId ≠ "") as Hne'.
  { intros ->. by apply Hblank. }
  destruct (decide (newId = "")); [done|].
  destruct (decide (newId = d)); [done|].
  unfold renameDiagramRow. rewrite Hd.
  destruct Hconf as [[r Hr]|[[f Hf] [g Hg]]].
  - by rewrite Hr.
  - destruct (diagrams s !! newId); [done|]. simpl.
    unfold renameFilter. simpl. by rewrite Hf, Hg.
Qed.

(** A stored document with a filter, and a filter saved under the free id
    [d2]. *)
Lemma rename_conflicts_witness :
  let s := serve 100 [PutFilter "d1" (Text (JObject []));
                      PutFilter "d2" (Text (JObject []))] created in
  diagrams s !! "d2" = None ∧
  handleDiagrams 100
    (PatchDiagram t0 "d1" (Text (JObject [("id", JString "d2")]))) s
  = (writeError StatusConflict, s).
Proof.
  intros s. split; [vm_compute; reflexivity|].
  destruct (isSome_Some (diagrams s !! "d1")) as [row Hrow];
    [vm_compute; reflexivity|].
  assert (d_payload row !! "name" = Some (JString "N")
          ∧ d_payload row !! "databaseType" = Some (JString "generic"))
    as [Hn Ht].
  { assert (match diagrams s !! "d1" with
            | Some r => d_payload r !! "name" = Some (JString "N")
                        ∧ d_payload r !! "databaseType" = Some (JString "generic")
            | None => False
            end) as H by (vm_compute; split; reflexivity).
    by rewrite Hrow in H. }
  refine (proj2 (rename_conflicts 100 t0 "d1" "d2"
                   (Text (JObject [("id", JString "d2")]))
                   {["id" := JString "d2"]} s row eq_refl Hrow eq_refl
                   _ _ _ _ _)).
  - vm_compute. discriminate.
  - discriminate.
  - rewrite lookup_mergePatch. simpl. rewrite Hn.
    apply valid_not_invalid. vm_compute. discriminate.
  - rewrite lookup_mergePatch. simpl. rewrite Ht.
    apply valid_not_invalid. vm_compute. discriminate.
  - right. split; vm_compute; eauto.
Defined.

(** ** Filters *)

(** X9. Saving a filter under any id, whether a document is stored there
    or not, answers with the decoded body and stores it, so that the next
    get returns it; it replaces a filter saved before, and touches no
    document, no version and no filter of another id.  Deleting it then
    makes the get answer 404, and takes a database that had no filter for
    the id back to where it was.  A body that is no JSON object or null is
    refused with 400. *)
Theorem filter_round_trip (N : Z) (d : string) (b : body) (s : db) :
  (decodeBody b = None →
     handleDiagrams N (PutFilter d b) s = (writeError StatusBadRequest, s)) ∧
  (∀ f, decodeBody b = Some f →
     ∃ s' s'',
       handleDiagrams N (PutFilter d b) s = ((StatusOK, Filter f), s') ∧
       handleDiagrams N (GetFilter d) s' = ((StatusOK, Filter f), s') ∧
       handleDiagrams N (PutFilter d b) s' = ((StatusOK, Filter f), s') ∧
       diagrams s' = diagrams s ∧
       diagram_versions s' = diagram_versions s ∧
       (∀ d', d' ≠ d → diagram_filters s' !! d' = diagram_filters s !! d') ∧
       handleDiagrams N (DeleteFilter d) s' = ((StatusNoContent, NoContent), s'') ∧
       handleDiagrams N (GetFilter d) s'' = (writeError StatusNotFound, s'') ∧
       (diagram_filters s !! d = None → s'' = s)).
Proof.
  split; [by intros Hb; simpl; rewrite Hb|]. intros f Hb.
  exists (set_filters (insert d f) s),
         (set_filters (delete d) (set_filters (insert d f) s)).
  assert (getDiagramFilter d (set_filters (insert d f) s) = Ok f) as Hg.
  { unfold getDiagramFilter. simpl. by rewrite lookup_insert_eq. }
  split; [by simpl; rewrite Hb|]. split; [by simpl; rewrite Hg|].
  split.
  { simpl. rewrite Hb. simpl. f_equal. apply db_eq; simpl; try done.
    apply insert_insert_eq. }
  split; [done|]. split; [done|]. split.
  { intros d' Hd'. simpl. by rewrite lookup_insert_ne. }
  split; [done|]. split.
  { simpl. unfold getDiagramFilter. simpl. by rewrite lookup_delete_eq. }
  intros Hnone. apply db_eq; simpl; try done.
  rewrite delete_insert_eq. by apply delete_id.
Qed.


(** ** The history listing *)

Lemma StronglySorted_strict {A B} (R : relation A) (f : A → B) (l : list A) :
  StronglySorted R l → NoDup (f <$> l) →
  StronglySorted (λ a b, R a b ∧ f a ≠ f b) l.
Proof.
  induction 1 as [|a l Hs IH Hall]; [constructor|].
  rewrite fmap_cons. intros [Hnotin Hnd]%NoDup_cons.
  constructor; [by apply IH|].
  rewrite Forall_forall in Hall |- *. intros x Hx. split; [by apply Hall|].
  intros Heq. apply Hnotin. rewrite Heq. apply list_elem_of_fmap. eauto.
Qed.

(** X10. The history listing of a document is in strictly decreasing
    order of version id, names only versions filed under that document,
    has as many entries as the document keeps versions, and lists exactly
    the version ids whose payload can be fetched for that document. *)
Theorem listed_versions_are_retrievable (d : string) (s : db) :
  store_inv s →
  StronglySorted (λ a b, (VersionID b < VersionID a)%Z) (listVersions d s) ∧
  Forall (λ e, VersionDiagramID e = d) (listVersions d s) ∧
  length (listVersions d s) = version_count d s ∧
  (∀ v, v ∈ VersionID <$> listVersions d s
        ↔ is_ok (getVersionPayload d v s) = true).
Proof.
  intros [Hnd _ _]. unfold listVersions.
  assert (NoDup (v_id <$> versionRows d s)) as Hnd'.
  { unfold versionRows. rewrite merge_sort_Permutation.
    by apply NoDup_fmap_filter. }
  split; [|split; [|split]].
  - eapply StronglySorted_fmap;
      [|exact (StronglySorted_strict _ v_id _ (versionRows_sorted d s) Hnd')].
    intros a b [Hab Hne]. unfold row_desc, desc in Hab. simpl. lia.
  - apply Forall_fmap, Forall_forall. intros r Hr.
    by apply elem_of_versionRows in Hr as [_ ?].
  - rewrite length_fmap. unfold versionRows.
    by rewrite merge_sort_Permutation.
  - intros v. rewrite <- list_fmap_compose. rewrite list_elem_of_fmap. split.
    + intros (r & -> & Hr). apply elem_of_versionRows in Hr as [Hr <-].
      simpl. by rewrite (getVersionPayload_elem r s Hnd Hr).
    + destruct (getVersionPayload d v s) as [p|] eqn:E; [|done]. intros _.
      apply getVersionPayload_Ok in E as (r & Hr & Hd & Hid & _).
      exists r. split; [done|]. by apply elem_of_versionRows.
Qed.

Lemma listed_versions_are_retrievable_witness :
  length (listVersions "d1" created) = version_count "d1" created.
Proof.
  destruct (listed_versions_are_retrievable "d1" created store_inv_created)
    as (_ & _ & H & _).
  exact H.
Defined.

(** ** The configuration *)

Definition config_inv (t : settings) : Prop :=
  ∀ raw, t !! "config" = Some raw → ∃ m : object, raw = Marshal m.

Lemma handleConfig_inv r t : config_inv t → config_inv (handleConfig r t).2.
Proof.
  intros Hinv. destruct r; simpl.
  - by destruct (getConfig t).
  - destruct (decodeBody b); [|done]. destruct (getConfig t); [|done].
    unfold setConfig, config_inv. simpl.
    intros raw. rewrite lookup_insert_eq. intros [= <-]. eauto.
  - done.
Qed.

Lemma serveConfig_inv rs t : config_inv t → config_inv (serveConfig rs t).
Proof.
  revert t. induction rs as [|r rs IH]; intros t Ht; [done|].
  simpl. apply IH. by apply handleConfig_inv.
Qed.

Lemma getConfig_inv t :
  config_inv t →
  ∃ current, getConfig t = Some current
             ∧ is_Some (current !! "defaultDiagramId").
Proof.
  intros Hinv. unfold getConfig. destruct (t !! "config") as [raw|] eqn:E.
  - destruct (Hinv raw E) as [m ->]. rewrite unmarshal_Marshal.
    destruct (m !! "defaultDiagramId") eqn:Ed; eexists; (split; [done|]).
    + by rewrite Ed.
    + by rewrite lookup_insert_eq.
  - eexists. split; [done|]. by rewrite lookup_singleton_eq.
Qed.

(** X11. The configuration: whatever requests were served since the
    schema was created, a get answers 200 with a configuration that has the
    key [defaultDiagramId] (alone, with the empty string, when nothing was
    ever put).  A put whose body is no JSON object or null is refused with
    400; any other put answers with the current configuration overwritten
    key by key with the body's members, which keeps every key it had, and
    the next get returns exactly that answer. *)
Theorem config_merges_and_persists (rs : list configRequest) (b : body) :
  let t := serveConfig rs ∅ in
  ∃ current,
    handleConfig GetConfig t = ((StatusOK, Some current), t) ∧
    is_Some (current !! "defaultDiagramId") ∧
    (rs = [] → current = {["defaultDiagramId" := JString ""]}) ∧
    (decodeBody b = None →
       handleConfig (PutConfig b) t = ((StatusBadRequest, None), t)) ∧
    (∀ payload, decodeBody b = Some payload →
       ∃ merged t',
         handleConfig (PutConfig b) t = ((StatusOK, Some merged), t') ∧
         handleConfig GetConfig t' = ((StatusOK, Some merged), t') ∧
         (∀ k, merged !! k = match default ∅ payload !! k with
                             | Some v => Some v
                             | None => current !! k
                             end) ∧
         (∀ k, is_Some (current !! k) → is_Some (merged !! k))).
Proof.
  intros t.
  assert (config_inv t) as Hinv by (by apply serveConfig_inv).
  destruct (getConfig_inv t Hinv) as (current & Hg & Hd).
  exists current. simpl. rewrite Hg.
  split; [done|]. split; [done|]. split.
  { intros ->. unfold t in Hg. simpl in Hg. by injection Hg. }
  split; [by intros ->|].
  intros payload ->. simpl.
  set (merged := mergePatch (default ∅ payload) current).
  assert (∀ k, merged !! k = match default ∅ payload !! k with
                             | Some v => Some v
                             | None => current !! k
                             end) as Hk by (intros k; apply lookup_mergePatch).
  exists merged, (<["config" := Marshal merged]> t).
  split; [done|]. split; [|split; [done|]].
  - unfold getConfig. rewrite lookup_insert_eq, unmarshal_Marshal.
    destruct (merged !! "defaultDiagramId") eqn:E; [done|].
    rewrite Hk in E. destruct Hd as [x Hx]. rewrite Hx in E.
    by destruct (default ∅ payload !! "defaultDiagramId").
  - intros k [x Hx]. rewrite Hk, Hx.
    by destruct (default ∅ payload !! k).
Qed.

End RequestFacts.

Module CoordinatorFacts.
Import Coordinator.
Import BackendFacts.

Lemma json_ind' (P : json → Prop) :
  P JNull → (∀ b, P (JBool b)) → (∀ n, P (JNumber n)) → (∀ s, P (JString s)) →
  (∀ items, Forall P items → P (JArray items)) →
  (∀ members, Forall (λ kv, P kv.2) members → P (JObject members)) →
  ∀ j, P j.
Proof.
  intros Hnull Hbool Hnum Hstr Harr Hobj.
  refine (fix F (j : json) : P j :=
    match j with
    | JNull => Hnull
    | JBool b => Hbool b
    | JNumber n => Hnum n
    | JString s => Hstr s
    | JArray items =>
        Harr items
          ((fix G (l : list json) : Forall P l :=
              match l with
              | [] => @Stdlib.Lists.List.Forall_nil _ _
              | x :: l' => @Stdlib.Lists.List.Forall_cons _ _ x l' (F x) (G l')
              end) items)
    | JObject members =>
        Hobj members
          ((fix G (l : list (string * json)) : Forall (λ kv, P kv.2) l :=
              match l with
              | [] => @Stdlib.Lists.List.Forall_nil _ _
              | x :: l' =>
                  @Stdlib.Lists.List.Forall_cons _ (λ kv, P kv.2) x l'
                    (F x.2) (G l')
              end) members)
    end).
Qed.

Lemma alloc_json_array items h :
  alloc_json (JArray items) h =
  let '(h', vs) := alloc_list items h in
  ((h' ++ [CArray vs])%list, VRef (length h')).
Proof. reflexivity. Qed.

Lemma alloc_json_object members h :
  alloc_json (JObject members) h =
  let '(h', props) := alloc_members members h in
  ((h' ++ [CObject (define_props [] props)])%list, VRef (length h')).
Proof. reflexivity. Qed.

Lemma json_ok_array items : json_ok (JArray items) ↔ Forall json_ok items.
Proof.
  simpl. induction items as [|j js IH]; [by split; [constructor|]|].
  rewrite Forall_cons, IH. done.
Qed.

Lemma json_ok_object members :
  json_ok (JObject members) ↔
  NoDup members.*1 ∧ Forall (λ kv, json_ok kv.2) members.
Proof.
  simpl. apply and_iff_compat_l.
  induction members as [|j js IH]; [by split; [constructor|]|].
  rewrite Forall_cons, IH. done.
Qed.

(** ** Property lists *)

Lemma get_prop_set_prop k k' v props :
  get_prop k (set_prop k' v props) =
  if decide (k = k') then Some v else get_prop k props.
Proof.
  unfold get_prop, set_prop.
  induction props as [|[k0 v0] props IH]; simpl.
  - by destruct (decide (k = k')).
  - destruct (decide (k' = k0)) as [->|Hne]; simpl.
    + destruct (decide (k = k0)); done.
    + destruct (decide (k = k0)) as [->|]; [|done].
      destruct (decide (k0 = k')); [congruence|done].
Qed.

Lemma set_prop_fresh k v props :
  k ∉ props.*1 → set_prop k v props = (props ++ [(k, v)])%list.
Proof.
  unfold set_prop.
  induction props as [|[k0 v0] props IH]; simpl; [done|].
  rewrite not_elem_of_cons. intros [Hne Hni].
  destruct (decide (k = k0)); [done|]. by rewrite IH.
Qed.

Lemma define_props_nodup target defs :
  NoDup (target ++ defs)%list.*1 →
  define_props target defs = (target ++ defs)%list.
Proof.
  unfold define_props. revert target.
  induction defs as [|[k v] defs IH]; intros target Hnd; simpl.
  - by rewrite app_nil_r.
  - rewrite set_prop_fresh.
    + rewrite IH; rewrite <- app_assoc; done.
    + rewrite fmap_app in Hnd. apply NoDup_app in Hnd as (_ & Hd & _).
      intros Hin. apply (Hd k Hin). simpl. by left.
Qed.

Lemma set_prop_values (P : val → Prop) k v props :
  P v → Forall P props.*2 → Forall P (set_prop k v props).*2.
Proof.
  intros Hv. unfold set_prop. induction props as [|[k0 v0] props IH]; simpl.
  - by repeat constructor.
  - rewrite Forall_cons. intros [H0 Hrest].
    destruct (decide (k = k0)); simpl; constructor; auto.
Qed.

Lemma define_props_values (P : val → Prop) target defs :
  Forall P target.*2 → Forall P defs.*2 → Forall P (define_props target defs).*2.
Proof.
  unfold define_props. revert target.
  induction defs as [|[k v] defs IH]; intros target Ht Hd; simpl; [done|].
  simpl in Hd. apply Forall_cons in Hd as [Hv Hd].
  apply IH; [|done]. by apply set_prop_values.
Qed.

Lemma own_props_subset props p : p ∈ own_props props → p ∈ props.
Proof.
  induction props as [|q props IH]; simpl; [done|].
  rewrite !elem_of_cons. intros [->|Hin]; [by left|].
  apply list_elem_of_filter in Hin as [_ Hin]. right. auto.
Qed.

Lemma NoDup_own_props props : NoDup (own_props props).*1.
Proof.
  induction props as [|q props IH]; simpl; [constructor|].
  apply NoDup_cons. split.
  - intros Hin. apply list_elem_of_fmap in Hin as (p & Hp & Hin).
    apply list_elem_of_filter in Hin as [Hne _]. congruence.
  - by apply NoDup_fmap_filter.
Qed.

Lemma own_props_nodup props : NoDup props.*1 → own_props props = props.
Proof.
  induction props as [|q props IH]; simpl; [done|].
  rewrite NoDup_cons. intros [Hni Hnd]. f_equal. rewrite IH by done.
  apply filter_all. intros p Hp Heq. apply Hni. rewrite <- Heq.
  by apply list_elem_of_fmap_2.
Qed.

Lemma own_props_values (P : val → Prop) props :
  Forall P props.*2 → Forall P (own_props props).*2.
Proof.
  rewrite !Forall_fmap, !Forall_forall. intros HP p Hp.
  apply HP. by apply own_props_subset.
Qed.

(** ** [JSON.parse] allocates a closed, fresh structure *)

Lemma val_within_mono lo hi lo' hi' v :
  (lo' ≤ lo)%nat → (hi ≤ hi')%nat → val_within lo hi v → val_within lo' hi' v.
Proof. destruct v; simpl; try done. lia. Qed.

Lemma cell_within_mono lo hi lo' hi' c :
  (lo' ≤ lo)%nat → (hi ≤ hi')%nat → cell_within lo hi c → cell_within lo' hi' c.
Proof.
  intros ?? Hc. unfold cell_within. eapply Forall_impl; [exact Hc|].
  intros v. by apply val_within_mono.
Qed.

(** What one call of the parser adds to the heap. *)
Definition allocated (h h' : heap) (new : list cell) : Prop :=
  h' = (h ++ new)%list ∧ Forall (cell_within (length h) (length h')) new.

Lemma allocated_refl h : allocated h h [].
Proof. split; [by rewrite app_nil_r|constructor]. Qed.

Lemma allocated_trans h1 h2 h3 n1 n2 :
  allocated h1 h2 n1 → allocated h2 h3 n2 → allocated h1 h3 (n1 ++ n2)%list.
Proof.
  intros [-> H1] [-> H2]. split; [by rewrite app_assoc|].
  rewrite !length_app in *. apply Forall_app. split.
  - eapply Forall_impl; [exact H1|]. intros c. apply cell_within_mono; lia.
  - eapply Forall_impl; [exact H2|]. intros c. apply cell_within_mono; lia.
Qed.

Lemma allocated_snoc h h1 new c :
  allocated h h1 new → cell_within (length h) (S (length h1)) c →
  allocated h (h1 ++ [c])%list (new ++ [c])%list.
Proof.
  intros [-> Hn] Hc. split; [by rewrite app_assoc|].
  rewrite !length_app in *. simpl. apply Forall_app. split.
  - eapply Forall_impl; [exact Hn|]. intros x. apply cell_within_mono; lia.
  - constructor; [|constructor]. eapply cell_within_mono; [| |exact Hc]; lia.
Qed.

Lemma depth_array_le items n :
  Forall (λ j, (depth j ≤ n)%nat) items → (depth (JArray items) ≤ S n)%nat.
Proof.
  intros Hf. simpl. apply le_n_S.
  induction Hf; simpl; [lia|]. by apply Nat.max_lub.
Qed.

Lemma depth_object_le members n :
  Forall (λ kv : string * json, (depth kv.2 ≤ n)%nat) members →
  (depth (JObject members) ≤ S n)%nat.
Proof.
  intros Hf. simpl. apply le_n_S.
  induction Hf; simpl; [lia|]. by apply Nat.max_lub.
Qed.

Lemma depth_array_inv items n :
  (depth (JArray items) ≤ S n)%nat → Forall (λ j, (depth j ≤ n)%nat) items.
Proof.
  simpl. intros Hd%le_S_n. revert Hd.
  induction items as [|j js IH]; simpl; [constructor|].
  intros Hm. constructor; [lia|]. apply IH. lia.
Qed.

Lemma depth_object_inv members n :
  (depth (JObject members) ≤ S n)%nat →
  Forall (λ kv : string * json, (depth kv.2 ≤ n)%nat) members.
Proof.
  simpl. intros Hd%le_S_n. revert Hd.
  induction members as [|j js IH]; simpl; [constructor|].
  intros Hm. constructor; [lia|]. apply IH. lia.
Qed.

Lemma alloc_json_shape j :
  ∀ h h' v, alloc_json j h = (h', v) →
    ∃ new, allocated h h' new ∧ val_within (length h) (length h') v
           ∧ (depth j ≤ length new)%nat ∧ v ≠ VUndefined.
Proof.
  induction j as [| | | |items IH|members IH] using json_ind'; intros h h' v.
  1-4: intros [= <- <-]; exists []; split; [apply allocated_refl|done].
  - rewrite alloc_json_array.
    destruct (alloc_list items h) as [h1 vs] eqn:El. intros [= <- <-].
    assert (∃ new, allocated h h1 new ∧ Forall (val_within (length h) (length h1)) vs
                   ∧ Forall (λ j, (depth j ≤ length new)%nat) items)
      as (new & Hal & Hvs & Hd).
    { clear -IH El. revert h h1 vs El.
      induction IH as [|j js Hj _ IHjs]; intros h h1 vs; simpl.
      - intros [= <- <-]. exists []. split; [apply allocated_refl|]. done.
      - destruct (alloc_json j h) as [h2 v] eqn:Ej.
        destruct (alloc_list js h2) as [h3 vs'] eqn:Ejs. intros [= <- <-].
        destruct (Hj _ _ _ Ej) as (n1 & Ha1 & Hv1 & Hd1 & _).
        destruct (IHjs _ _ _ Ejs) as (n2 & Ha2 & Hv2 & Hd2).
        exists (n1 ++ n2)%list. split; [by eapply allocated_trans|].
        pose proof Ha1 as [-> _]. pose proof Ha2 as [-> _].
        rewrite !length_app in *. split.
        + constructor; [eapply val_within_mono; [| |exact Hv1]; lia|].
          eapply Forall_impl; [exact Hv2|]. intros x.
          apply val_within_mono; lia.
        + constructor; [lia|]. eapply Forall_impl; [exact Hd2|].
          simpl. intros; lia. }
    exists (new ++ [CArray vs])%list. split; [|split; [|split]].
    + apply allocated_snoc; [done|].
      unfold cell_within. simpl.
      eapply Forall_impl; [exact Hvs|]. intros x.
      apply val_within_mono; lia.
    + destruct Hal as [-> _]. unfold val_within. rewrite !length_app.
      simpl. lia.
    + rewrite length_app. simpl length.
      pose proof (depth_array_le _ _ Hd). lia.
    + done.
  - rewrite alloc_json_object.
    destruct (alloc_members members h) as [h1 ps] eqn:El. intros [= <- <-].
    assert (∃ new, allocated h h1 new
                   ∧ Forall (val_within (length h) (length h1)) ps.*2
                   ∧ Forall (λ kv, (depth kv.2 ≤ length new)%nat) members)
      as (new & Hal & Hvs & Hd).
    { clear -IH El. revert h h1 ps El.
      induction IH as [|[k j] js Hj _ IHjs]; intros h h1 ps; simpl.
      - intros [= <- <-]. exists []. split; [apply allocated_refl|]. done.
      - destruct (alloc_json j h) as [h2 v] eqn:Ej.
        destruct (alloc_members js h2) as [h3 ps'] eqn:Ejs. intros [= <- <-].
        destruct (Hj _ _ _ Ej) as (n1 & Ha1 & Hv1 & Hd1 & _).
        destruct (IHjs _ _ _ Ejs) as (n2 & Ha2 & Hv2 & Hd2).
        exists (n1 ++ n2)%list. split; [by eapply allocated_trans|].
        pose proof Ha1 as [-> _]. pose proof Ha2 as [-> _].
        rewrite !length_app in *. split.
        + simpl. constructor; [eapply val_within_mono; [| |exact Hv1]; lia|].
          eapply Forall_impl; [exact Hv2|]. intros x.
          apply val_within_mono; lia.
        + constructor; [simpl in *; lia|]. eapply Forall_impl; [exact Hd2|].
          simpl. intros; lia. }
    exists (new ++ [CObject (define_props [] ps)])%list.
    split; [|split; [|split]].
    + apply allocated_snoc; [done|].
      unfold cell_within. simpl.
      apply define_props_values; [constructor|].
      eapply Forall_impl; [exact Hvs|]. intros x.
      apply val_within_mono; lia.
    + destruct Hal as [-> _]. unfold val_within. rewrite !length_app.
      simpl. lia.
    + rewrite length_app. simpl length.
      pose proof (depth_object_le _ _ Hd). lia.
    + done.
Qed.

Lemma alloc_json_prefix j h h' v :
  alloc_json j h = (h', v) → ∃ new, h' = (h ++ new)%list.
Proof.
  intros Ha. destruct (alloc_json_shape _ _ _ _ Ha) as (new & [-> _] & _).
  eauto.
Qed.

Lemma alloc_list_prefix js h h' vs :
  alloc_list js h = (h', vs) → ∃ new, h' = (h ++ new)%list.
Proof.
  revert h h' vs. induction js as [|j js IH]; intros h h' vs; simpl.
  - intros [= <- <-]. exists []. by rewrite app_nil_r.
  - destruct (alloc_json j h) as [h2 v] eqn:Ej.
    destruct (alloc_list js h2) as [h3 vs'] eqn:Ejs. intros [= <- <-].
    destruct (alloc_json_prefix _ _ _ _ Ej) as [n1 ->].
    destruct (IH _ _ _ Ejs) as [n2 ->].
    exists (n1 ++ n2)%list. by rewrite app_assoc.
Qed.

Lemma alloc_members_prefix kvs h h' ps :
  alloc_members kvs h = (h', ps) → ∃ new, h' = (h ++ new)%list.
Proof.
  revert h h' ps. induction kvs as [|[k j] js IH]; intros h h' ps; simpl.
  - intros [= <- <-]. exists []. by rewrite app_nil_r.
  - destruct (alloc_json j h) as [h2 v] eqn:Ej.
    destruct (alloc_members js h2) as [h3 ps'] eqn:Ejs. intros [= <- <-].
    destruct (alloc_json_prefix _ _ _ _ Ej) as [n1 ->].
    destruct (IH _ _ _ Ejs) as [n2 ->].
    exists (n1 ++ n2)%list. by rewrite app_assoc.
Qed.

(** ** [JSON.stringify] *)

(** Reduces a goal [g <$> mapM f l = Some (g k)] to the pointwise goal. *)
Ltac mapM_to_Forall2 k :=
  match goal with
  | |- _ <$> mapM ?f ?l = _ =>
      let E := fresh in
      assert (mapM f l = Some k) as E; [apply mapM_Some|by rewrite E]
  end.

Section Stringify.
Context `{Builtins}.

Lemma to_json_ref n h l :
  to_json (S n) h (VRef l) =
  match h !! l with
  | Some (CDate (Some t)) => Some (JString (toISOString t))
  | Some (CDate None) => Some JNull
  | Some (CArray items) => JArray <$> mapM (to_json n h) items
  | Some (CObject props) =>
      JObject <$>
        mapM (λ p, pair p.1 <$> to_json n h p.2)
          (filter (λ p, p.2 ≠ VUndefined) (own_props props))
  | None => None
  end.
Proof. reflexivity. Qed.

(** The result depends only on the cells that the walk reads: it is the
    same in any heap that agrees on them, here one that extends [h]. *)
Lemma to_json_extend n h h' v j :
  h `prefix_of` h' → to_json n h v = Some j → to_json n h' v = Some j.
Proof.
  intros Hpre. revert v j.
  induction n as [|n IH]; intros v j; destruct v as [| | | | |l]; try done.
  rewrite !to_json_ref.
  destruct (h !! l) as [c|] eqn:El; [|done].
  rewrite (prefix_lookup_Some _ _ _ _ El Hpre).
  destruct c as [props|items|[t|]]; try done.
  - destruct (mapM _ _) as [ms|] eqn:Em; [|done]. intros [= <-].
    apply mapM_Some in Em. mapM_to_Forall2 ms.
    eapply Forall2_impl; [exact Em|]. intros [k v] [k' j'] Hv. simpl in *.
    destruct (to_json n h v) as [jv|] eqn:Ev; [|done].
    by rewrite (IH _ _ Ev).
  - destruct (mapM _ _) as [js|] eqn:Em; [|done]. intros [= <-].
    apply mapM_Some in Em. mapM_to_Forall2 js.
    eapply Forall2_impl; [exact Em|]. intros v j' Hv. by apply IH.
Qed.

Lemma to_json_fuel n m h v j :
  (n ≤ m)%nat → to_json n h v = Some j → to_json m h v = Some j.
Proof.
  revert m v j.
  induction n as [|n IH]; intros m v j Hle; destruct v as [| | | | |l];
    try (by destruct m).
  destruct m as [|m]; [lia|]. rewrite !to_json_ref.
  destruct (h !! l) as [[props|items|[t|]]|]; try done.
  - destruct (mapM _ _) as [ms|] eqn:Em; [|done]. intros [= <-].
    apply mapM_Some in Em. mapM_to_Forall2 ms.
    eapply Forall2_impl; [exact Em|]. intros [k v] [k' j'] Hv. simpl in *.
    destruct (to_json n h v) as [jv|] eqn:Ev; [|done].
    by rewrite (IH m _ _ ltac:(lia) Ev).
  - destruct (mapM _ _) as [js|] eqn:Em; [|done]. intros [= <-].
    apply mapM_Some in Em. mapM_to_Forall2 js.
    eapply Forall2_impl; [exact Em|]. intros v j' Hv. apply IH; [lia|done].
Qed.

Lemma json_of_number_ok n : json_ok (json_of_number n).
Proof.
  unfold json_of_number. destruct (is_finite n) eqn:E; [|done]. simpl.
  destruct (decide (n = negative_zero)); [by vm_compute|done].
Qed.

Lemma to_json_ok n h v j : to_json n h v = Some j → json_ok j.
Proof.
  revert v j.
  induction n as [|n IH]; intros v j; destruct v as [| | |bits| |l];
    try (intros [= <-]; exact I);
    try (intros [= <-]; apply json_of_number_ok);
    try discriminate.
  rewrite to_json_ref.
  destruct (h !! l) as [[props|items|[t|]]|]; try done;
    try (by intros [= <-]).
  - destruct (mapM _ _) as [ms|] eqn:Em; [|done]. intros [= <-].
    apply mapM_Some in Em. apply json_ok_object.
    assert (ms.*1 = (filter (λ p, p.2 ≠ VUndefined) (own_props props)).*1
            ∧ Forall (λ kv, json_ok kv.2) ms) as [-> Hall].
    { induction Em as [|[k v] [k' j'] ps ms Hv _ [IH1 IH2]]; [done|].
      simpl in *. destruct (to_json n h v) as [jv|] eqn:Ev; [|done].
      injection Hv as <- <-. split; [by f_equal|].
      constructor; [by eapply IH|done]. }
    split; [|done]. apply NoDup_fmap_filter, NoDup_own_props.
  - destruct (mapM _ _) as [js|] eqn:Em; [|done]. intros [= <-].
    apply mapM_Some in Em. apply json_ok_array.
    induction Em as [|v j' vs js Hv _ IHf]; constructor; eauto.
Qed.

(** Parsing a text that [JSON.stringify] could have written gives a value
    that is written as this text again. *)
Lemma alloc_to_json j :
  ∀ h h' v n, json_ok j → alloc_json j h = (h', v) → (depth j ≤ n)%nat →
    to_json n h' v = Some j.
Proof.
  induction j as [| |bits| |items IH|members IH] using json_ind';
    intros h h' v n Hok.
  1-2,4: intros [= <- <-] _; by destruct n.
  - intros [= <- <-] _. destruct Hok as [Hfin Hnz].
    assert (json_of_number bits = JNumber bits) as Hj.
    { unfold json_of_number. rewrite Hfin. by destruct (decide _). }
    destruct n; simpl; by rewrite Hj.
  - rewrite alloc_json_array.
    destruct (alloc_list items h) as [h1 vs] eqn:El. intros [= <- <-] Hd.
    destruct n as [|n]; [simpl in Hd; lia|].
    rewrite to_json_ref, lookup_app_r, Nat.sub_diag by done. simpl.
    apply json_ok_array in Hok. apply depth_array_inv in Hd.
    assert (∀ h2, h1 `prefix_of` h2 →
              Forall2 (λ v j, to_json n h2 v = Some j) vs items) as Hall.
    { clear -IH El Hok Hd. revert h h1 vs El.
      induction IH as [|j js Hj _ IHjs]; intros h h1 vs; simpl.
      - intros [= <- <-] h2 _. constructor.
      - destruct (alloc_json j h) as [h3 v] eqn:Ej.
        destruct (alloc_list js h3) as [h4 vs'] eqn:Ejs. intros [= <- <-].
        apply Forall_cons in Hok as [Hok1 Hok2].
        apply Forall_cons in Hd as [Hd1 Hd2].
        intros h2 Hpre. constructor; [|by eapply IHjs].
        eapply to_json_extend; [|by eapply Hj].
        etrans; [|exact Hpre].
        destruct (alloc_list_prefix js h3 h4 vs' Ejs) as [new ->].
        by apply prefix_app_r. }
    mapM_to_Forall2 items. apply Hall. by apply prefix_app_r.
  - rewrite alloc_json_object.
    destruct (alloc_members members h) as [h1 ps] eqn:El. intros [= <- <-] Hd.
    destruct n as [|n]; [simpl in Hd; lia|].
    rewrite to_json_ref, lookup_app_r, Nat.sub_diag by done. simpl.
    apply json_ok_object in Hok as [Hnd Hok]. apply depth_object_inv in Hd.
    assert (ps.*1 = members.*1 ∧ Forall (λ p, p.2 ≠ VUndefined) ps ∧
            ∀ h2, h1 `prefix_of` h2 →
              Forall2 (λ p kv, pair p.1 <$> to_json n h2 p.2 = Some kv) ps members)
      as (Hkeys & Hdef & Hall).
    { clear -IH El Hok Hd. revert h h1 ps El.
      induction IH as [|[k j] js Hj _ IHjs]; intros h h1 ps; simpl.
      - intros [= <- <-]. split; [done|]. split; [constructor|].
        intros h2 _. constructor.
      - destruct (alloc_json j h) as [h3 v] eqn:Ej.
        destruct (alloc_members js h3) as [h4 ps'] eqn:Ejs. intros [= <- <-].
        apply Forall_cons in Hok as [Hok1 Hok2].
        apply Forall_cons in Hd as [Hd1 Hd2].
        destruct (IHjs Hok2 Hd2 _ _ _ Ejs) as (Hk & Hdf & Hall).
        split; [simpl; by f_equal|]. split.
        + constructor; [|done]. simpl.
          by destruct (alloc_json_shape _ _ _ _ Ej) as (_ & _ & _ & _ & ?).
        + intros h2 Hpre. constructor; [|by apply Hall]. simpl.
          erewrite to_json_extend; [done| |by eapply Hj].
          etrans; [|exact Hpre].
          destruct (alloc_members_prefix js h3 h4 ps' Ejs) as [new ->].
          by apply prefix_app_r. }
    rewrite define_props_nodup by (simpl; by rewrite Hkeys).
    simpl. rewrite own_props_nodup by (by rewrite Hkeys).
    rewrite filter_all by (by apply Forall_forall).
    mapM_to_Forall2 members. apply Hall. by apply prefix_app_r.
Qed.

End Stringify.

End CoordinatorFacts.

Module CoordinatorErrors.
Import Coordinator CoordinatorFacts.

Section Propagation.
Context `{Builtins}.

(** The calls to [request] made by a computation: none of them failed, or
    the last one failed and the computation ended with its exception. *)
Definition last_failed {A} (new : list (option exn)) (o : outcome A) : Prop :=
  Forall (λ c, c = None) new
  ∨ ∃ pre e, new = (pre ++ [Some e])%list ∧ Forall (λ c, c = None) pre
             ∧ o = Rejected e.

Definition faithful {A} (m : M A) : Prop :=
  ∀ s o s', m s = (o, s') →
    ∃ new, calls s' = (calls s ++ new)%list ∧ last_failed new o.

Lemma faithful_pure {A} (m : M A) :
  (∀ s, calls (m s).2 = calls s) → faithful m.
Proof.
  intros Hm s o s' E. exists []. rewrite app_nil_r.
  specialize (Hm s). rewrite E in Hm. split; [done|]. left. constructor.
Qed.

Lemma faithful_ret {A} (a : A) : faithful (ret a).
Proof. by apply faithful_pure. Qed.

Lemma faithful_mret {A} (a : A) : faithful (mret a : M A).
Proof. by apply faithful_pure. Qed.

Lemma faithful_throw {A} (e : exn) : faithful (throw e : M A).
Proof. by apply faithful_pure. Qed.

Lemma faithful_bind {A B} (m : M A) (f : A → M B) :
  faithful m → (∀ a, faithful (f a)) → faithful (bind m f).
Proof.
  intros Hm Hf s o s' E. unfold bind in E.
  destruct (m s) as [[a|e] s1] eqn:Em.
  - destruct (Hm _ _ _ Em) as (new1 & Hc1 & [Hq|(pre & e & _ & _ & ?)]);
      [|done].
    destruct (Hf a _ _ _ E) as (new2 & Hc2 & Hl).
    exists (new1 ++ new2)%list. split; [by rewrite Hc2, Hc1, app_assoc|].
    destruct Hl as [Hq2|(pre & e & -> & Hpre & ->)].
    + left. by apply Forall_app.
    + right. exists (new1 ++ pre)%list, e. split; [by rewrite app_assoc|].
      split; [by apply Forall_app|done].
  - injection E as <- <-. destruct (Hm _ _ _ Em) as (new1 & Hc1 & Hl).
    exists new1. split; [done|].
    destruct Hl as [?|(pre & e' & -> & ? & [= ->])]; [by left|].
    right. eauto.
Qed.

Lemma faithful_mbind {A B} (m : M A) (f : A → M B) :
  faithful m → (∀ a, faithful (f a)) → faithful (x ← m; f x).
Proof. apply faithful_bind. Qed.


Lemma faithful_gets {A} (f : state → A) : faithful (gets f).
Proof. by apply faithful_pure. Qed.

Lemma faithful_modify (f : state → state) :
  (∀ s, calls (f s) = calls s) → faithful (modify f).
Proof. intros Hf. by apply faithful_pure. Qed.

Lemma faithful_await {A} (p : outcome A) : faithful (await p).
Proof. destruct p; by apply faithful_pure. Qed.

Lemma faithful_or_throw {A} e (o : option A) : faithful (or_throw e o).
Proof. destruct o; by apply faithful_pure. Qed.

Lemma faithful_alloc c : faithful (alloc c).
Proof. by apply faithful_pure. Qed.

Lemma faithful_new_Date_now : faithful new_Date_now.
Proof. by apply faithful_pure. Qed.

Lemma faithful_parse j : faithful (parse j).
Proof.
  apply faithful_pure. intros s. unfold parse.
  by destruct (alloc_json j (st_heap s)).
Qed.

Lemma faithful_write_prop d k v : faithful (write_prop d k v).
Proof.
  apply faithful_pure. intros s. unfold write_prop.
  destruct d; try done. destruct (st_heap s !! l) as [[| |]|]; done.
Qed.

Lemma faithful_request m p b : faithful (request m p b).
Proof.
  intros s o s'. unfold request.
  destruct (fetch m p b (server s)) as [r srv].
  destruct (request_result r) as [e|[j|]]; simpl.
  - intros [= <- <-]. simpl. eexists. split; [done|]. right.
    exists [], e. by repeat split.
  - destruct (alloc_json j (st_heap s)). intros [= <- <-]. simpl.
    eexists. split; [done|]. left. by repeat constructor.
  - intros [= <- <-]. simpl. eexists. split; [done|]. left.
    by repeat constructor.
Qed.

Lemma faithful_for_each {A} (body : A → M unit) xs :
  (∀ x, faithful (body x)) → faithful (for_each body xs).
Proof.
  intros Hb. induction xs as [|x xs IH]; simpl; [apply faithful_ret|].
  apply faithful_bind; auto.
Qed.

Lemma faithful_map_each {A B} (f : A → M B) xs :
  (∀ x, faithful (f x)) → faithful (map_each f xs).
Proof.
  intros Hf. induction xs as [|x xs IH]; simpl; [apply faithful_ret|].
  apply faithful_bind; [done|]. intros y.
  apply faithful_bind; [done|]. intros ys. apply faithful_ret.
Qed.

Lemma faithful_find_first {A} (p : A → M bool) xs :
  (∀ x, faithful (p x)) → faithful (find_first p xs).
Proof.
  intros Hp. induction xs as [|x xs IH]; simpl; [apply faithful_ret|].
  apply faithful_bind; [done|]. intros [|]; [apply faithful_ret|done].
Qed.

Lemma faithful_first_owner {A} (body : A → M (option val)) xs :
  (∀ x, faithful (body x)) → faithful (first_owner body xs).
Proof.
  intros Hb. induction xs as [|x xs IH]; simpl; [apply faithful_ret|].
  apply faithful_bind; [done|]. intros [o|]; [apply faithful_ret|done].
Qed.

Lemma faithful_get_heap : faithful get_heap.
Proof. apply faithful_gets. Qed.

Create HintDb faithful discriminated.
#[local] Hint Resolve faithful_get_heap faithful_ret faithful_mret faithful_throw faithful_gets
  faithful_await faithful_or_throw faithful_alloc faithful_new_Date_now
  faithful_parse faithful_write_prop faithful_request : faithful.

(** Takes a computation apart along its binds and case distinctions. *)
Ltac faith :=
  repeat first
    [ match goal with |- ∀ _, _ => intro end
    | progress cbv zeta
    | solve [auto with faithful]
    | apply faithful_mbind
    | apply faithful_bind
    | apply faithful_modify; solve [done]
    | apply faithful_for_each
    | apply faithful_map_each
    | apply faithful_find_first
    | apply faithful_first_owner
    | match goal with
      | |- faithful (promise_then _ _) => unfold promise_then
      end
    | match goal with
      | |- faithful (match ?x with _ => _ end) => destruct x
      | |- faithful (if ?x then _ else _) => destruct x
      end ].

Lemma faithful_toDate v : faithful (toDate v).
Proof. unfold toDate. faith. Qed.
#[local] Hint Resolve faithful_toDate : faithful.

Lemma faithful_toDiagram v : faithful (toDiagram v).
Proof. unfold toDiagram. faith. Qed.
#[local] Hint Resolve faithful_toDiagram : faithful.

Lemma faithful_serializeDiagram v : faithful (serializeDiagram v).
Proof. unfold serializeDiagram. faith. Qed.
#[local] Hint Resolve faithful_serializeDiagram : faithful.

Lemma faithful_stringify v : faithful (stringify v).
Proof. unfold stringify. faith. Qed.
#[local] Hint Resolve faithful_stringify : faithful.

Lemma faithful_cloneDiagram v : faithful (cloneDiagram v).
Proof. unfold cloneDiagram. faith. Qed.
#[local] Hint Resolve faithful_cloneDiagram : faithful.

Lemma faithful_serializeAttributes v : faithful (serializeAttributes v).
Proof. unfold serializeAttributes. faith. Qed.
#[local] Hint Resolve faithful_serializeAttributes : faithful.

Lemma faithful_for_each_id d c body :
  (∀ id, faithful (body id)) → faithful (for_each_id d c body).
Proof. intros Hb. unfold for_each_id. faith. Qed.

Lemma faithful_clearOwnersForDiagram d : faithful (clearOwnersForDiagram d).
Proof.
  unfold clearOwnersForDiagram. apply faithful_for_each. intros c.
  apply faithful_for_each_id. faith.
Qed.
#[local] Hint Resolve faithful_clearOwnersForDiagram : faithful.

Lemma faithful_indexDiagramOwners d : faithful (indexDiagramOwners d).
Proof.
  unfold indexDiagramOwners. apply faithful_for_each. intros c.
  apply faithful_for_each_id. faith.
Qed.
#[local] Hint Resolve faithful_indexDiagramOwners : faithful.

Lemma faithful_cache_get k : faithful (cache_get k).
Proof. unfold cache_get. faith. Qed.
#[local] Hint Resolve faithful_cache_get : faithful.

Lemma faithful_as_loc v : faithful (as_loc v).
Proof. unfold as_loc. faith. Qed.
#[local] Hint Resolve faithful_as_loc : faithful.

Lemma faithful_setCachedDiagram d : faithful (setCachedDiagram d).
Proof. unfold setCachedDiagram. faith. Qed.
#[local] Hint Resolve faithful_setCachedDiagram : faithful.

Lemma faithful_removeCachedDiagram d : faithful (removeCachedDiagram d).
Proof. unfold removeCachedDiagram. faith. Qed.
#[local] Hint Resolve faithful_removeCachedDiagram : faithful.

Lemma faithful_enqueueMutation {T} id (op : M T) :
  faithful op → faithful (enqueueMutation id op).
Proof.
  intros Hop. unfold enqueueMutation. faith.
Qed.

Lemma faithful_fetchDiagram id : faithful (fetchDiagram id).
Proof. unfold fetchDiagram. faith. Qed.
#[local] Hint Resolve faithful_fetchDiagram : faithful.

Lemma faithful_saveDiagram d : faithful (saveDiagram d).
Proof. unfold saveDiagram. faith. Qed.
#[local] Hint Resolve faithful_saveDiagram : faithful.

Lemma faithful_mutateDiagram id mutator :
  (∀ d, faithful (mutator d)) → faithful (mutateDiagram id mutator).
Proof.
  intros Hm. unfold mutateDiagram. apply faithful_enqueueMutation. faith.
Qed.

Lemma faithful_has_entity h d c e : faithful (has_entity h d c e).
Proof. unfold has_entity. faith. Qed.
#[local] Hint Resolve faithful_has_entity : faithful.

Lemma faithful_scan_diagram c e d : faithful (scan_diagram c e d).
Proof. unfold scan_diagram. faith. Qed.
#[local] Hint Resolve faithful_scan_diagram : faithful.

Lemma faithful_resolveDiagramIdByEntity e c :
  faithful (resolveDiagramIdByEntity e c).
Proof. unfold resolveDiagramIdByEntity. faith. Qed.
#[local] Hint Resolve faithful_resolveDiagramIdByEntity : faithful.

Lemma faithful_body_of v : faithful (body_of v).
Proof. unfold body_of. faith. Qed.
#[local] Hint Resolve faithful_body_of : faithful.

Lemma faithful_collection_items d c : faithful (collection_items d c).
Proof. unfold collection_items. faith. Qed.
#[local] Hint Resolve faithful_collection_items : faithful.

Lemma faithful_store_collection d c items : faithful (store_collection d c items).
Proof. unfold store_collection. faith. Qed.
#[local] Hint Resolve faithful_store_collection : faithful.

Lemma faithful_id_is id item : faithful (id_is id item).
Proof. unfold id_is. faith. Qed.
#[local] Hint Resolve faithful_id_is : faithful.


Ltac faith_op :=
  repeat first
    [ apply faithful_mutateDiagram
    | apply faithful_enqueueMutation
    | progress faith ].

Lemma faithful_run op :
  (∀ id, op ≠ OpGetDiagramFilter id) → faithful (run op).
Proof.
  intros Hop. destruct op; simpl; try by destruct (Hop diagramId).
  - unfold getConfig. faith_op.
  - unfold updateConfig. faith_op.
  - unfold updateDiagramFilter. faith_op.
  - unfold deleteDiagramFilter. faith_op.
  - unfold addDiagram. faith_op.
  - unfold listDiagrams. faith_op.
  - unfold getDiagram. faith_op.
  - unfold updateDiagram. faith_op.
  - unfold deleteDiagram. faith_op.
  - unfold addEntity. faith_op.
  - unfold getEntity. faith_op.
  - unfold updateEntity. faith_op.
  - unfold putTable. faith_op.
  - unfold deleteEntity. faith_op.
  - unfold listEntities. faith_op.
  - unfold deleteDiagramEntities. faith_op.
Qed.



End Propagation.



End CoordinatorErrors.

Module CoordinatorCopy.
Import Coordinator CoordinatorFacts.

Section Steps.
Context `{Builtins}.

(** ** Taking a computation apart *)

Lemma bind_inv {A B} (m : M A) (f : A → M B) s o s' :
  (x ← m; f x) s = (o, s') →
  (∃ a s1, m s = (Fulfilled a, s1) ∧ f a s1 = (o, s'))
  ∨ (∃ e, m s = (Rejected e, s') ∧ o = Rejected e).
Proof.
  unfold mbind, M_bind, bind. destruct (m s) as [[a|e] s1].
  - intros E. left. eauto.
  - intros [= <- <-]. right. eauto.
Qed.

Lemma bind_Fulfilled {A B} (m : M A) (f : A → M B) s b s' :
  (x ← m; f x) s = (Fulfilled b, s') →
  ∃ a s1, m s = (Fulfilled a, s1) ∧ f a s1 = (Fulfilled b, s').
Proof. intros [?|(e & _ & ?)]%bind_inv; [done|discriminate]. Qed.

Lemma gets_inv {A} (f : state → A) s o s' :
  gets f s = (o, s') → o = Fulfilled (f s) ∧ s' = s.
Proof. by intros [= <- <-]. Qed.

Lemma ret_inv {A} (a : A) s o s' :
  ret a s = (o, s') → o = Fulfilled a ∧ s' = s.
Proof. by intros [= <- <-]. Qed.

Lemma alloc_inv c s o s' :
  alloc c s = (o, s') →
  o = Fulfilled (VRef (length (st_heap s)))
  ∧ s' = set_heap (λ h, (h ++ [c])%list) s.
Proof. by intros [= <- <-]. Qed.

Lemma modify_inv (f : state → state) s o s' :
  modify f s = (o, s') → o = Fulfilled tt ∧ s' = f s.
Proof. by intros [= <- <-]. Qed.

Lemma or_throw_Fulfilled {A} e (x : option A) s a s' :
  or_throw e x s = (Fulfilled a, s') → x = Some a ∧ s' = s.
Proof. destruct x; [by intros [= <- <-]|discriminate]. Qed.

Lemma await_Fulfilled {A} (p : outcome A) s a s' :
  await p s = (Fulfilled a, s') → p = Fulfilled a ∧ s' = s.
Proof. destruct p; [by intros [= <- <-]|discriminate]. Qed.

(** ** Computations that keep a relation between the states *)

Definition preserves {A} (R : relation state) (m : M A) : Prop :=
  ∀ s o s', m s = (o, s') → R s s'.

Section Preserves.
Context (R : relation state) `{!Reflexive R} `{!Transitive R}.

Lemma preserves_ret {A} (a : A) : preserves R (ret a).
Proof. by intros s o s' [= <- <-]. Qed.
Lemma preserves_mret {A} (a : A) : preserves R (mret a : M A).
Proof. by intros s o s' [= <- <-]. Qed.
Lemma preserves_throw {A} e : preserves R (throw e : M A).
Proof. by intros s o s' [= <- <-]. Qed.
Lemma preserves_gets {A} (f : state → A) : preserves R (gets f).
Proof. by intros s o s' [= <- <-]. Qed.
Lemma preserves_get_heap : preserves R get_heap.
Proof. apply preserves_gets. Qed.
Lemma preserves_await {A} (p : outcome A) : preserves R (await p).
Proof. destruct p; by intros s o s' [= <- <-]. Qed.
Lemma preserves_or_throw {A} e (x : option A) : preserves R (or_throw e x).
Proof. destruct x; by intros s o s' [= <- <-]. Qed.
Lemma preserves_modify f : (∀ s, R s (f s)) → preserves R (modify f).
Proof. intros Hf s o s' [= <- <-]. apply Hf. Qed.

Lemma preserves_bind {A B} (m : M A) (f : A → M B) :
  preserves R m → (∀ a, preserves R (f a)) → preserves R (bind m f).
Proof.
  intros Hm Hf s o s' E. unfold bind in E.
  destruct (m s) as [[a|e] s1] eqn:Em.
  - etrans; [by eapply Hm|by eapply Hf].
  - injection E as <- <-. by eapply Hm.
Qed.

Lemma preserves_mbind {A B} (m : M A) (f : A → M B) :
  preserves R m → (∀ a, preserves R (f a)) → preserves R (x ← m; f x).
Proof. apply preserves_bind. Qed.

Lemma preserves_for_each {A} (body : A → M unit) xs :
  (∀ x, preserves R (body x)) → preserves R (for_each body xs).
Proof.
  intros Hb. induction xs as [|x xs IH]; simpl; [apply preserves_ret|].
  by apply preserves_bind.
Qed.

Lemma preserves_map_each {A B} (f : A → M B) xs :
  (∀ x, preserves R (f x)) → preserves R (map_each f xs).
Proof.
  intros Hf. induction xs as [|x xs IH]; simpl; [apply preserves_ret|].
  apply preserves_bind; [done|]. intros y.
  apply preserves_bind; [done|]. intros ys. apply preserves_ret.
Qed.

Lemma preserves_find_first {A} (p : A → M bool) xs :
  (∀ x, preserves R (p x)) → preserves R (find_first p xs).
Proof.
  intros Hp. induction xs as [|x xs IH]; simpl; [apply preserves_ret|].
  apply preserves_bind; [done|]. intros [|]; [apply preserves_ret|done].
Qed.

Lemma preserves_first_owner {A} (body : A → M (option val)) xs :
  (∀ x, preserves R (body x)) → preserves R (first_owner body xs).
Proof.
  intros Hb. induction xs as [|x xs IH]; simpl; [apply preserves_ret|].
  apply preserves_bind; [done|]. intros [o|]; [apply preserves_ret|done].
Qed.

End Preserves.

Create HintDb preserves discriminated.
#[local] Hint Resolve preserves_ret preserves_mret preserves_throw
  preserves_gets preserves_get_heap preserves_await preserves_or_throw
  : preserves.

Ltac pres :=
  repeat first
    [ match goal with |- ∀ _, _ => intro end
    | progress cbv zeta
    | solve [auto with preserves]
    | apply preserves_get_heap
    | apply preserves_ret
    | apply preserves_mret
    | apply preserves_throw
    | apply preserves_gets
    | apply preserves_await
    | apply preserves_or_throw
    | match goal with
      | |- Reflexive _ => tc_solve
      | |- Transitive _ => tc_solve
      end
    | apply preserves_mbind
    | apply preserves_bind
    | apply preserves_modify; solve [done]
    | apply preserves_for_each
    | apply preserves_map_each
    | apply preserves_find_first
    | apply preserves_first_owner
    | match goal with
      | |- preserves _ (promise_then _ _) => unfold promise_then
      end
    | match goal with
      | |- preserves _ (match ?x with _ => _ end) => destruct x
      | |- preserves _ (if ?x then _ else _) => destruct x
      end ].

(** Everything but the owner indices stays as it is. *)
Definition owners_only (s s' : state) : Prop :=
  st_heap s' = st_heap s ∧ diagramsCache s' = diagramsCache s ∧
  mutationQueue s' = mutationQueue s ∧ server s' = server s ∧
  calls s' = calls s ∧ ticks s' = ticks s.

#[export] Instance owners_only_refl : Reflexive owners_only.
Proof. by intros s. Qed.
#[export] Instance owners_only_trans : Transitive owners_only.
Proof.
  intros s1 s2 s3 (?&?&?&?&?&?) (?&?&?&?&?&?). unfold owners_only.
  repeat split; congruence.
Qed.

Lemma preserves_for_each_id R `{!Reflexive R} `{!Transitive R} d c body :
  (∀ id, preserves R (body id)) → preserves R (for_each_id d c body).
Proof. intros Hb. unfold for_each_id. pres. Qed.

Lemma clearOwnersForDiagram_owners d :
  preserves owners_only (clearOwnersForDiagram d).
Proof.
  unfold clearOwnersForDiagram. apply preserves_for_each; [tc_solve..|].
  intros c. apply preserves_for_each_id; [tc_solve..|]. pres.
Qed.

Lemma indexDiagramOwners_owners d :
  preserves owners_only (indexDiagramOwners d).
Proof.
  unfold indexDiagramOwners. apply preserves_for_each; [tc_solve..|].
  intros c. apply preserves_for_each_id; [tc_solve..|]. pres.
Qed.


(** Only the heap and the clock change, and the heap only grows. *)
Definition allocates (s s' : state) : Prop :=
  st_heap s `prefix_of` st_heap s' ∧ diagramsCache s' = diagramsCache s ∧
  owners s' = owners s ∧ mutationQueue s' = mutationQueue s ∧
  server s' = server s ∧ calls s' = calls s.

#[export] Instance allocates_refl : Reflexive allocates.
Proof. by intros s. Qed.
#[export] Instance allocates_trans : Transitive allocates.
Proof.
  intros s1 s2 s3 (?&?&?&?&?&?) (?&?&?&?&?&?). unfold allocates.
  split; [by etrans|]. repeat split; congruence.
Qed.

Lemma alloc_allocates c : preserves allocates (alloc c).
Proof.
  intros s o s' [= <- <-]. split; [|done]. simpl. by apply prefix_app_r.
Qed.

Lemma new_Date_now_allocates : preserves allocates new_Date_now.
Proof.
  intros s o s' [= <- <-]. split; [|done]. simpl. by apply prefix_app_r.
Qed.

Lemma parse_allocates j : preserves allocates (parse j).
Proof.
  intros s o s'. unfold parse.
  destruct (alloc_json j (st_heap s)) as [h v] eqn:E. intros [= <- <-].
  split; [|done]. simpl. apply alloc_json_prefix in E as [new ->].
  by apply prefix_app_r.
Qed.

Ltac pres_alloc :=
  repeat first
    [ apply alloc_allocates | apply new_Date_now_allocates
    | apply parse_allocates | progress pres ].

Lemma toDate_allocates v : preserves allocates (toDate v).
Proof. unfold toDate. pres_alloc. Qed.

Lemma toDiagram_allocates v : preserves allocates (toDiagram v).
Proof. unfold toDiagram. pres_alloc; apply toDate_allocates. Qed.

Lemma serializeDiagram_allocates v : preserves allocates (serializeDiagram v).
Proof. unfold serializeDiagram. pres_alloc. Qed.

Lemma stringify_allocates v : preserves allocates (stringify v).
Proof. unfold stringify. pres_alloc. Qed.

Lemma cloneDiagram_allocates v : preserves allocates (cloneDiagram v).
Proof.
  unfold cloneDiagram. pres_alloc;
    auto using serializeDiagram_allocates, stringify_allocates,
      toDiagram_allocates.
Qed.

(** ** Where the new cells point *)

Lemma read_prop_within lo h v k :
  (lo ≤ length h)%nat →
  val_within lo (length h) v →
  (∀ l c, (lo ≤ l)%nat → h !! l = Some c → cell_within lo (length h) c) →
  val_within lo (length h) (read_prop h v k).
Proof.
  intros Hlo Hv Hcl. destruct v as [| | | | |l]; try done. simpl.
  destruct (h !! l) as [[props| |]|] eqn:E; try done.
  destruct (get_prop k props) as [x|] eqn:Ek; [|done]. simpl.
  simpl in Hv. specialize (Hcl l _ ltac:(lia) E).
  unfold cell_within in Hcl. simpl in Hcl. rewrite Forall_forall in Hcl.
  apply Hcl. clear -Ek. unfold get_prop in Ek.
  induction props as [|[k' v'] props IH]; [done|]. simpl in *.
  destruct (decide (k = k')); [injection Ek as ->; by left|].
  right. by apply IH.
Qed.

Lemma toDate_within lo v s o s' :
  toDate v s = (o, s') →
  val_within lo (length (st_heap s)) v → (lo ≤ length (st_heap s))%nat →
  ∃ r new,
    o = Fulfilled r ∧ st_heap s' = (st_heap s ++ new)%list ∧
    Forall (λ c, cell_vals c = []) new ∧
    val_within lo (length (st_heap s')) r.
Proof.
  unfold toDate. intros E Hv Hlo. apply bind_inv in E as [(h & s1 & E1 & E)|(e & E1 & _)];
    [|discriminate E1].
  apply gets_inv in E1 as [[= ->] ->].
  destruct (date_time (st_heap s) v).
  { apply ret_inv in E as [-> ->]. exists v, []. rewrite app_nil_r.
    by repeat split. }
  set (parsed := match v with
                 | VString s0 => Date_parse s0
                 | VNumber n => Date_of_number n
                 | _ => None
                 end) in E.
  destruct parsed as [t|].
  - apply alloc_inv in E as [-> ->]. simpl. eexists _, [_]. split; [done|].
    split; [done|]. split; [by repeat constructor|].
    simpl. rewrite length_app. simpl. lia.
  - injection E as <- <-. simpl. eexists _, [_]. split; [done|].
    split; [done|]. split; [by repeat constructor|].
    simpl. rewrite length_app. simpl. lia.
Qed.

Lemma toDiagram_within lo value s o s' :
  toDiagram value s = (o, s') →
  (lo ≤ length (st_heap s))%nat →
  (∀ k, val_within lo (length (st_heap s)) (read_prop (st_heap s) value k)) →
  ∃ l new,
    o = Fulfilled (VRef l) ∧ st_heap s' = (st_heap s ++ new)%list ∧
    Forall (cell_within lo (length (st_heap s'))) new ∧
    (lo ≤ l < length (st_heap s'))%nat ∧ (length (st_heap s) ≤ l)%nat.
Proof.
  unfold toDiagram. intros E Hlo Hraw.
  apply bind_inv in E as [(h & s0 & E0 & E)|(e & E0 & _)]; [|discriminate E0].
  apply gets_inv in E0 as [[= ->] ->].
  set (raw := λ k, match value with
                   | VUndefined | VNull => VUndefined
                   | _ => read_prop (st_heap s) value k
                   end) in *.
  assert (∀ k, val_within lo (length (st_heap s)) (raw k)) as Hraw'.
  { intros k. unfold raw. destruct value; try done; apply Hraw. }
  cbv zeta in E.
  apply bind_inv in E as [(c & s1 & E1 & E)|(e & E1 & ->)]; cycle 1.
  { by destruct (toDate_within lo _ _ _ _ E1 (Hraw' _) Hlo) as (? & ? & ? & _). }
  destruct (toDate_within lo _ _ _ _ E1 (Hraw' _) Hlo)
    as (c' & new1 & [= <-] & Hh1 & Hn1 & Hc).
  assert (lo ≤ length (st_heap s1))%nat as Hlo1
    by (rewrite Hh1, length_app; lia).
  assert (∀ k, val_within lo (length (st_heap s1)) (raw k)) as Hraw1.
  { intros k. eapply val_within_mono; [| |apply Hraw']; [lia|].
    rewrite Hh1, length_app. lia. }
  apply bind_inv in E as [(u & s2 & E2 & E)|(e & E2 & ->)]; cycle 1.
  { by destruct (toDate_within lo _ _ _ _ E2 (Hraw1 _) Hlo1) as (? & ? & ? & _). }
  destruct (toDate_within lo _ _ _ _ E2 (Hraw1 _) Hlo1)
    as (u' & new2 & [= <-] & Hh2 & Hn2 & Hu).
  apply alloc_inv in E as [-> ->]. simpl.
  eexists _, (new1 ++ new2 ++ [_])%list. split; [done|].
  split; [by rewrite Hh2, Hh1, <- !app_assoc|].
  rewrite !length_app. simpl.
  assert (∀ k, val_within lo (length (st_heap s2) + 1) (raw k)) as Hraw2.
  { intros k. eapply val_within_mono; [| |apply Hraw1]; [lia|].
    rewrite Hh2, length_app. lia. }
  split; [|rewrite Hh2, Hh1, !length_app; lia].
  apply Forall_app. split; [|apply Forall_app; split].
  - eapply Forall_impl; [exact Hn1|]. intros x Hx. unfold cell_within.
    by rewrite Hx.
  - eapply Forall_impl; [exact Hn2|]. intros x Hx. unfold cell_within.
    by rewrite Hx.
  - constructor; [|done]. unfold cell_within. simpl.
    repeat constructor; try done.
    + by destruct (is_string _); [apply Hraw2|].
    + destruct (array_items _ _); [apply Hraw2|done].
    + destruct (array_items _ _); [apply Hraw2|done].
    + destruct (array_items _ _); [apply Hraw2|done].
    + destruct (array_items _ _); [apply Hraw2|done].
    + destruct (array_items _ _); [apply Hraw2|done].
    + destruct (array_items _ _); [apply Hraw2|done].
    + eapply val_within_mono; [| |exact Hc]; [lia|].
      rewrite Hh2, length_app. lia.
    + eapply val_within_mono; [| |exact Hu]; lia.
Qed.


Lemma serializeDiagram_Fulfilled d s r s' :
  serializeDiagram d s = (Fulfilled r, s') →
  ∃ c, r = VRef (length (st_heap s)) ∧ st_heap s' = (st_heap s ++ [c])%list.
Proof.
  unfold serializeDiagram. intros E.
  apply bind_Fulfilled in E as (h & s0 & E0 & E).
  apply gets_inv in E0 as [[= ->] ->].
  apply bind_Fulfilled in E as (c & s1 & E1 & E).
  apply await_Fulfilled in E1 as [_ ->].
  apply bind_Fulfilled in E as (u & s2 & E2 & E).
  apply await_Fulfilled in E2 as [_ ->].
  apply alloc_inv in E as [[= ->] ->]. eauto.
Qed.

Lemma stringify_Fulfilled v s j s' :
  stringify v s = (Fulfilled j, s') →
  JSON_stringify (st_heap s) v = Some j ∧ s' = s.
Proof.
  unfold stringify. intros E.
  apply bind_Fulfilled in E as (h & s0 & E0 & E).
  apply gets_inv in E0 as [[= ->] ->].
  by apply or_throw_Fulfilled in E.
Qed.

Lemma parse_inv j s o s' :
  parse j s = (o, s') →
  ∃ v, o = Fulfilled v ∧ alloc_json j (st_heap s) = (st_heap s', v).
Proof.
  unfold parse. destruct (alloc_json j (st_heap s)) as [h v].
  intros [= <- <-]. eauto.
Qed.

(** The cells of a region that refers to nothing outside it. *)
Lemma allocated_closed h h' new l c :
  allocated h h' new → (length h ≤ l)%nat → h' !! l = Some c →
  cell_within (length h) (length h') c.
Proof.
  intros [-> Hall] Hl Hc. rewrite lookup_app_r in Hc by done.
  rewrite Forall_forall in Hall. apply Hall.
  by eapply list_elem_of_lookup_2.
Qed.

(** The copy that [cloneDiagram] returns lies in cells that are new and
    that refer to new cells only; one more new cell, the serialized form,
    comes before them. *)
Lemma cloneDiagram_region d s r s' :
  cloneDiagram d s = (Fulfilled r, s') →
  ∃ c new l,
    st_heap s' = (st_heap s ++ c :: new)%list ∧
    Forall (cell_within (S (length (st_heap s))) (length (st_heap s'))) new ∧
    r = VRef l ∧ (S (length (st_heap s)) ≤ l < length (st_heap s'))%nat.
Proof.
  unfold cloneDiagram. intros E.
  apply bind_Fulfilled in E as (ser & s1 & E1 & E).
  apply serializeDiagram_Fulfilled in E1 as (c & -> & Hh1).
  apply bind_Fulfilled in E as (text & s2 & E2 & E).
  apply stringify_Fulfilled in E2 as [_ ->].
  apply bind_Fulfilled in E as (raw & s3 & E3 & E).
  apply parse_inv in E3 as (raw' & [= <-] & E3).
  apply alloc_json_shape in E3 as (new & Hal & Hraw & _).
  assert (length (st_heap s1) = S (length (st_heap s))) as Hlen1
    by (rewrite Hh1, length_app; simpl; lia).
  rewrite Hlen1 in Hraw.
  pose proof Hal as [Hh3 Hnew].
  destruct (toDiagram_within (S (length (st_heap s))) _ _ _ _ E)
    as (l & new' & [= ->] & Hh' & Hnew' & Hl & _).
  { rewrite Hh3, length_app. lia. }
  { intros k. apply read_prop_within; [rewrite Hh3, length_app; lia|done|].
    intros l c' Hl Hc'. rewrite <- Hlen1.
    eapply (allocated_closed _ _ _ l); [done|lia|done]. }
  exists c, (new ++ new')%list, l.
  split; [by rewrite Hh', Hh3, Hh1, <- !app_assoc|].
  split; [|done]. apply Forall_app. split; [|done].
  rewrite Hlen1 in Hnew. eapply Forall_impl; [exact Hnew|].
  intros x. apply cell_within_mono; [lia|]. rewrite Hh', length_app. lia.
Qed.

(** ** What can be reached *)

Lemma reachable_within lo hi h v l :
  val_within lo hi v →
  (∀ i c, (lo ≤ i < hi)%nat → h !! i = Some c → cell_within lo hi c) →
  reachable h v l → (lo ≤ l < hi)%nat.
Proof.
  intros Hv Hcl Hr. induction Hr as [l|l c v l' Hc Hin _ IH]; [done|].
  apply IH. specialize (Hcl l c Hv Hc). unfold cell_within in Hcl.
  rewrite Forall_forall in Hcl. by apply Hcl.
Qed.

Lemma mapM_ext_in {A B} (f g : A → option B) (l : list A) :
  (∀ x, x ∈ l → f x = g x) → mapM f l = mapM g l.
Proof.
  induction l as [|a l IH]; [done|]. intros Hl. simpl.
  rewrite (Hl a) by (by left). destruct (g a); [|done]. simpl.
  rewrite IH; [done|]. intros x Hx. apply Hl. by right.
Qed.

(** [JSON.stringify] reads only what its argument leads to. *)
Lemma to_json_agree n h h2 v :
  (∀ l, reachable h v l → h2 !! l = h !! l) →
  to_json n h2 v = to_json n h v.
Proof.
  revert v. induction n as [|n IH]; intros v Hag; destruct v as [| | | | |l];
    try reflexivity.
  rewrite !to_json_ref. rewrite (Hag l) by constructor.
  destruct (h !! l) as [[props|items|t]|] eqn:El; try done.
  - f_equal. apply mapM_ext_in. intros [k v] Hin. simpl. f_equal.
    apply IH. intros l' Hr. apply Hag.
    apply (reachable_step h l _ v l' El); [|done]. simpl.
    apply list_elem_of_filter in Hin as [_ Hin].
    apply own_props_subset in Hin. apply list_elem_of_fmap.
    by exists (k, v).
  - f_equal. apply mapM_ext_in. intros v Hin. apply IH.
    intros l' Hr. apply Hag. by apply (reachable_step h l _ v l' El).
Qed.


(** ** The cache *)

Lemma assoc_get_elem {K V} `{EqDecision K} (k : K) (m : list (K * V)) v :
  assoc_get k m = Some v → (k, v) ∈ m.
Proof.
  induction m as [|[k' v'] m IH]; [done|]. simpl.
  destruct (decide (k = k')) as [->|]; [intros [= ->]; by left|].
  intros Hm. right. by apply IH.
Qed.

Lemma elem_of_assoc_set {K V} `{EqDecision K} (k : K) (v : V) m e :
  e ∈ assoc_set k v m → e = (k, v) ∨ e ∈ m.
Proof.
  induction m as [|[k' v'] m IH]; simpl.
  - intros ->%list_elem_of_singleton. by left.
  - destruct (decide (k = k')) as [->|].
    + intros [->|?]%elem_of_cons; [by left|]. right. by right.
    + intros [->|Hin]%elem_of_cons; [right; by left|].
      destruct (IH Hin); [by left|]. right. by right.
Qed.

Lemma assoc_get_set {K V} `{EqDecision K} (k k' : K) (v : V) m :
  assoc_get k (assoc_set k' v m) =
  if decide (k = k') then Some v else assoc_get k m.
Proof.
  induction m as [|[k0 v0] m IH]; simpl.
  - by destruct (decide (k = k')).
  - destruct (decide (k' = k0)) as [->|Hne]; simpl.
    + destruct (decide (k = k0)); done.
    + destruct (decide (k = k0)) as [->|].
      * by rewrite decide_False by done.
      * done.
Qed.

Lemma request_Fulfilled m p b s v s' :
  request m p b s = (Fulfilled v, s') →
  calls s' = (calls s ++ [None])%list ∧
  diagramsCache s' = diagramsCache s ∧ owners s' = owners s ∧
  mutationQueue s' = mutationQueue s ∧
  ((v = VUndefined ∧ st_heap s' = st_heap s)
   ∨ ∃ j, alloc_json j (st_heap s) = (st_heap s', v)).
Proof.
  unfold request. destruct (fetch m p b (server s)) as [r srv].
  destruct (request_result r) as [e|[j|]]; [done| |].
  - destruct (alloc_json j (st_heap s)) as [h x] eqn:E.
    intros [= <- <-]. simpl. repeat split. right. eauto.
  - intros [= <- <-]. simpl. repeat split. by left.
Qed.

Lemma setCachedDiagram_Fulfilled d s u s' :
  setCachedDiagram d s = (Fulfilled u, s') →
  ∃ l, d = VRef l ∧ st_heap s' = st_heap s ∧
    diagramsCache s'
      = map_set (read_prop (st_heap s) d "id") l (diagramsCache s) ∧
    mutationQueue s' = mutationQueue s ∧ server s' = server s ∧
    calls s' = calls s ∧ ticks s' = ticks s.
Proof.
  unfold setCachedDiagram. intros E.
  apply bind_Fulfilled in E as (h & s0 & E0 & E).
  apply gets_inv in E0 as [[= ->] ->]. cbv zeta in E.
  apply bind_Fulfilled in E as (previous & s0 & E0 & E).
  apply gets_inv in E0 as [_ ->].
  apply bind_Fulfilled in E as ([] & s1 & E1 & E).
  assert (owners_only s s1) as (Hh1 & Hc1 & Hq1 & Hs1 & Hcl1 & Ht1).
  { destruct previous; [by eapply clearOwnersForDiagram_owners|].
    by apply ret_inv in E1 as [_ ->]. }
  apply bind_Fulfilled in E as (l & s2 & E2 & E).
  destruct d as [| | | | |l']; try discriminate E2.
  apply ret_inv in E2 as [[= ->] ->].
  apply bind_Fulfilled in E as ([] & s3 & E3 & E).
  apply modify_inv in E3 as [_ ->].
  apply indexDiagramOwners_owners in E as (Hh & Hc & Hq & Hs & Hcl & Ht).
  exists l'. split; [done|]. simpl in *.
  rewrite Hh, Hc, Hq, Hs, Hcl, Ht, Hh1, Hc1, Hq1, Hs1, Hcl1, Ht1. done.
Qed.

Lemma spread_props_within lo hi h v :
  (∀ l c, h !! l = Some c → cell_within lo hi c) →
  Forall (val_within lo hi) (spread_props h v).*2.
Proof.
  intros Hh. destruct v as [| | | | |l]; try by constructor.
  simpl. destruct (h !! l) as [[props|items|]|] eqn:E; try by constructor.
  - apply own_props_values. apply (Hh _ _ E).
  - specialize (Hh _ _ E). unfold cell_within in Hh. simpl in Hh.
    rewrite Forall_forall in Hh |- *. intros x Hx.
    apply list_elem_of_fmap in Hx as ([k y] & -> & Hy).
    apply elem_of_lookup_imap in Hy as (i & z & [= -> ->] & Hz).
    apply Hh. by eapply list_elem_of_lookup_2.
Qed.

Lemma heap_wf_lookup h l c :
  heap_wf h → h !! l = Some c → cell_within 0 (length h) c.
Proof.
  intros Hwf Hc. unfold heap_wf in Hwf. rewrite Forall_forall in Hwf.
  apply Hwf. by eapply list_elem_of_lookup_2.
Qed.

Lemma heap_wf_app h new :
  heap_wf h → Forall (cell_within 0 (length h + length new)) new →
  heap_wf (h ++ new).
Proof.
  intros Hwf Hnew. unfold heap_wf. rewrite length_app.
  apply Forall_app. split; [|done].
  eapply Forall_impl; [exact Hwf|]. intros c.
  apply cell_within_mono; lia.
Qed.

Lemma serializeDiagram_wf d s r s' :
  heap_wf (st_heap s) →
  serializeDiagram d s = (Fulfilled r, s') →
  ∃ c, st_heap s' = (st_heap s ++ [c])%list
       ∧ cell_within 0 (length (st_heap s)) c.
Proof.
  intros Hwf. unfold serializeDiagram. intros E.
  apply bind_Fulfilled in E as (h & s0 & E0 & E).
  apply gets_inv in E0 as [[= ->] ->].
  apply bind_Fulfilled in E as (c & s1 & E1 & E).
  apply await_Fulfilled in E1 as [_ ->].
  apply bind_Fulfilled in E as (u & s2 & E2 & E).
  apply await_Fulfilled in E2 as [_ ->].
  apply alloc_inv in E as [_ ->]. simpl. eexists. split; [done|].
  unfold cell_within. simpl. do 2 (apply set_prop_values; [done|]).
  apply spread_props_within. intros l c'. by apply heap_wf_lookup.
Qed.

(** What [cloneDiagram] returns shares no cell with what was there before:
    every cell it leads to is new, and the heap stays well formed. *)
Lemma cloneDiagram_separates d s r s' :
  heap_wf (st_heap s) →
  cloneDiagram d s = (Fulfilled r, s') →
  st_heap s `prefix_of` st_heap s' ∧ heap_wf (st_heap s') ∧
  (∃ l, r = VRef l) ∧
  (∀ l, reachable (st_heap s') r l →
        (length (st_heap s) < l < length (st_heap s'))%nat) ∧
  (∀ v l, val_within 0 (length (st_heap s)) v →
          reachable (st_heap s') v l → (l < length (st_heap s))%nat).
Proof.
  intros Hwf E.
  pose proof (cloneDiagram_allocates d s _ _ E) as (Hpre & _).
  destruct (cloneDiagram_region d s r s' E) as (c & new & l & Hh & Hnew & -> & Hl).
  assert (cell_within 0 (length (st_heap s)) c) as Hc.
  { unfold cloneDiagram in E.
    apply bind_Fulfilled in E as (ser & s1 & E1 & E).
    destruct (serializeDiagram_wf _ _ _ _ Hwf E1) as (c' & Hh1 & Hc').
    assert (st_heap s1 `prefix_of` st_heap s') as [rest Hrest].
    { apply bind_Fulfilled in E as (t & s2 & E2 & E).
      apply stringify_Fulfilled in E2 as [_ ->].
      apply bind_Fulfilled in E as (raw & s3 & E3 & E).
      apply parse_allocates in E3 as [? _].
      apply toDiagram_allocates in E as [? _]. by etrans. }
    rewrite Hh1, Hh, <- app_assoc in Hrest. apply app_inv_head in Hrest.
    by injection Hrest as -> _. }
  split; [done|]. split; [|split; [eauto|split]].
  - rewrite Hh. apply heap_wf_app; [done|]. constructor.
    + eapply cell_within_mono; [| |exact Hc]; lia.
    + rewrite Hh in Hnew. rewrite length_app in Hnew. simpl in *.
      eapply Forall_impl; [exact Hnew|]. intros x.
      apply cell_within_mono; lia.
  - intros l' Hr.
    apply (reachable_within (S (length (st_heap s))) (length (st_heap s'))
             (st_heap s') (VRef l) l') in Hr; [lia|exact Hl|].
    intros i ci Hi Hci. rewrite Forall_forall in Hnew. apply Hnew.
    rewrite Hh in Hci. rewrite lookup_app_r in Hci by lia.
    destruct (i - length (st_heap s))%nat as [|i'] eqn:Ei; [lia|].
    simpl in Hci. by eapply list_elem_of_lookup_2.
  - intros v l' Hv Hr.
    apply (reachable_within 0 (length (st_heap s)) (st_heap s') v l') in Hr;
      [lia|done|].
    intros i ci Hi Hci. destruct Hpre as [rest Hrest].
    rewrite Hrest in Hci. rewrite lookup_app_l in Hci by lia.
    by eapply heap_wf_lookup.
Qed.


Lemma map_get_lt k c s :
  state_wf s → map_get k (diagramsCache s) = Some c →
  (c < length (st_heap s))%nat.
Proof.
  intros [_ Hc] Hk. apply assoc_get_elem in Hk.
  rewrite Forall_forall in Hc. by apply (Hc _ Hk).
Qed.

Lemma cloneDiagram_frame d s r s' :
  state_wf s → cloneDiagram d s = (Fulfilled r, s') →
  state_wf s' ∧
  (∀ k c l, map_get k (diagramsCache s') = Some c →
     reachable (st_heap s') (VRef c) l → ¬ reachable (st_heap s') r l) ∧
  (∀ h'',
     (∀ l, (l < length (st_heap s'))%nat → ¬ reachable (st_heap s') r l →
           h'' !! l = st_heap s' !! l) →
     ∀ k c n, map_get k (diagramsCache s') = Some c →
       to_json n h'' (VRef c) = to_json n (st_heap s') (VRef c)).
Proof.
  intros Hwf E.
  pose proof (cloneDiagram_allocates d s _ _ E) as (Hpre & Hcache & _).
  destruct (cloneDiagram_separates d s r s' (proj1 Hwf) E)
    as (_ & Hwf' & _ & Hnew & Hold).
  assert (∀ k c, map_get k (diagramsCache s') = Some c →
                 (c < length (st_heap s))%nat) as Hlt.
  { intros k c. rewrite Hcache. by apply map_get_lt. }
  assert (length (st_heap s) ≤ length (st_heap s'))%nat as Hlen
    by (by apply prefix_length).
  split; [|split].
  - split; [done|]. rewrite Hcache. destruct Hwf as [_ Hc].
    eapply Forall_impl; [exact Hc|]. simpl. intros; lia.
  - intros k c l Hk Hr Hr'. apply Hnew in Hr'.
    apply Hold in Hr; [lia|]. simpl. specialize (Hlt k c Hk). lia.
  - intros h'' Hsame k c n Hk. apply to_json_agree. intros l Hr.
    assert (l < length (st_heap s))%nat as Hl.
    { apply (Hold (VRef c)); [|done]. simpl. specialize (Hlt k c Hk). lia. }
    apply Hsame; [lia|]. intros Hr'. apply Hnew in Hr'. lia.
Qed.

(** ** What the copy holds *)

Lemma assoc_get_filter_ne {V} (k k' : string) (m : list (string * V)) :
  k ≠ k' → assoc_get k (filter (λ q, q.1 ≠ k') m) = assoc_get k m.
Proof.
  intros Hne. induction m as [|[k0 v0] m IH]; [done|].
  rewrite filter_cons. simpl. destruct (decide (k0 ≠ k')) as [Hk|Hk]; simpl.
  - destruct (decide (k = k0)); [done|apply IH].
  - apply dec_stable in Hk. subst k0.
    destruct (decide (k = k')); [done|apply IH].
Qed.

Lemma get_prop_own_props k props :
  get_prop k (own_props props) = get_prop k props.
Proof.
  unfold get_prop. induction props as [|[k0 v0] props IH]; [done|].
  simpl. destruct (decide (k = k0)) as [->|Hne]; [done|].
  by rewrite assoc_get_filter_ne.
Qed.

Lemma get_prop_elem k (props : list (string * val)) v :
  NoDup props.*1 → (k, v) ∈ props → get_prop k props = Some v.
Proof.
  unfold get_prop. induction props as [|[k0 v0] props IH]; [by intros _ ?%elem_of_nil|].
  rewrite fmap_cons. intros [Hnotin Hnd]%NoDup_cons [[= -> ->]|Hin]%elem_of_cons; simpl.
  - by rewrite decide_True.
  - destruct (decide (k = k0)) as [->|]; [|by apply IH].
    destruct Hnotin. apply list_elem_of_fmap. by exists (k0, v).
Qed.

Lemma set_prop_keys k v props :
  (set_prop k v props).*1 = props.*1 ∨
  ((k ∉ props.*1) ∧ (set_prop k v props).*1 = (props.*1 ++ [k])%list).
Proof.
  unfold set_prop. induction props as [|[k0 v0] props IH]; csimpl.
  - right. split; [apply not_elem_of_nil|done].
  - destruct (decide (k = k0)) as [->|Hne]; csimpl; [by left|].
    destruct IH as [IH|[Hnotin IH]]; rewrite IH; [by left|]. right.
    split; [|done]. by intros [?|?]%elem_of_cons.
Qed.

Lemma NoDup_set_prop k v props :
  NoDup props.*1 → NoDup (set_prop k v props).*1.
Proof.
  intros Hnd. destruct (set_prop_keys k v props) as [->|[Hnotin ->]]; [done|].
  apply NoDup_app. split; [done|]. split; [|apply NoDup_singleton].
  by intros x Hx ->%list_elem_of_singleton.
Qed.

Lemma Forall2_elem_l {A B} (R : A → B → Prop) l k x :
  Forall2 R l k → x ∈ l → ∃ y, y ∈ k ∧ R x y.
Proof.
  induction 1 as [|a b l k Hab _ IH]; [by intros ?%elem_of_nil|].
  intros [->|Hx]%elem_of_cons.
  - exists b. split; [by left|done].
  - destruct (IH Hx) as (y & ? & ?). exists y. split; [by right|done].
Qed.

(** A member of a parsed object is the parse of that member's text. *)
Lemma alloc_members_elem ms :
  ∀ h h' props k j,
    alloc_members ms h = (h', props) → (k, j) ∈ ms →
    props.*1 = ms.*1 ∧
    ∃ v h1 h2, (k, v) ∈ props ∧ alloc_json j h1 = (h2, v)
               ∧ h `prefix_of` h1 ∧ h2 `prefix_of` h'.
Proof.
  induction ms as [|[k0 j0] ms IH]; intros h h' props k j; simpl.
  { by intros _ ?%elem_of_nil. }
  destruct (alloc_json j0 h) as [h1 v0] eqn:E0.
  destruct (alloc_members ms h1) as [h2 ps] eqn:E1. intros [= <- <-] Hin.
  pose proof (alloc_json_prefix _ _ _ _ E0) as [n0 Hn0].
  pose proof (alloc_members_prefix _ _ _ _ E1) as [n1 Hn1].
  assert (ps.*1 = ms.*1) as Hkeys.
  { clear -E1. revert h1 h2 ps E1.
    induction ms as [|[k1 j1] ms IHm]; intros h1 h2 ps; simpl.
    - by intros [= <- <-].
    - destruct (alloc_json j1 h1) as [h3 v1].
      destruct (alloc_members ms h3) as [h4 ps'] eqn:E. intros [= <- <-].
      simpl. f_equal. by eapply IHm. }
  split; [simpl; by f_equal|].
  apply elem_of_cons in Hin as [[= -> ->]|Hin].
  - exists v0, h, h1. split; [by left|]. split; [done|]. split; [done|].
    rewrite Hn1. by apply prefix_app_r.
  - destruct (IH _ _ _ _ _ E1 Hin) as (_ & v & ha & hb & Hv & Ha & Hpa & Hpb).
    exists v, ha, hb. split; [by right|]. split; [done|]. split; [|done].
    etrans; [|exact Hpa]. rewrite Hn0. by apply prefix_app_r.
Qed.

Lemma array_items_prefix h h' v items :
  (h `prefix_of` h') → array_items h v = Some items →
  array_items h' v = Some items.
Proof.
  intros Hpre. destruct v as [| | | | |l]; try done. simpl.
  destruct (h !! l) as [c|] eqn:E; [|done].
  by rewrite (prefix_lookup_Some _ _ _ _ E Hpre).
Qed.

Lemma read_prop_prefix h h' l k :
  (h `prefix_of` h') → (l < length h)%nat →
  read_prop h' (VRef l) k = read_prop h (VRef l) k.
Proof.
  intros [rest ->] Hl. simpl. by rewrite lookup_app_l.
Qed.

(** The object that [toDiagram] makes. *)
Lemma toDiagram_Fulfilled value s r s' :
  toDiagram value s = (Fulfilled r, s') →
  let h := st_heap s in
  let raw := λ k, match value with
                  | VUndefined | VNull => VUndefined
                  | _ => read_prop h value k
                  end in
  h `prefix_of` st_heap s' ∧
  read_prop (st_heap s') r "id"
    = VString (String_ h (nullish (raw "id") (VString ""))) ∧
  read_prop (st_heap s') r "name"
    = VString (String_ h (nullish (raw "name") (VString ""))) ∧
  read_prop (st_heap s') r "databaseType"
    = VString (String_ h (nullish (raw "databaseType") (VString "generic"))) ∧
  read_prop (st_heap s') r "databaseEdition"
    = (if is_string (raw "databaseEdition") then raw "databaseEdition"
       else VUndefined) ∧
  (∀ c, read_prop (st_heap s') r (kind_key c)
        = match array_items h (raw (kind_key c)) with
          | Some _ => raw (kind_key c)
          | None => VUndefined
          end) ∧
  ∃ s1 s2,
    toDate (raw "createdAt") s
      = (Fulfilled (read_prop (st_heap s') r "createdAt"), s1) ∧
    toDate (raw "updatedAt") s1
      = (Fulfilled (read_prop (st_heap s') r "updatedAt"), s2) ∧
    st_heap s2 `prefix_of` st_heap s'.
Proof.
  intros E h raw.
  pose proof (toDiagram_allocates _ _ _ _ E) as [Hpre _].
  split; [done|].
  unfold toDiagram in E.
  apply bind_Fulfilled in E as (h0 & s0 & E0 & E).
  apply gets_inv in E0 as [[= ->] ->]. cbv zeta in E.
  apply bind_Fulfilled in E as (c & s1 & E1 & E).
  apply bind_Fulfilled in E as (u & s2 & E2 & E).
  apply alloc_inv in E as [[= ->] ->]. simpl.
  rewrite !lookup_app_r by done. rewrite Nat.sub_diag. simpl.
  fold h. fold raw. do 4 (split; [reflexivity|]).
  split; [intros []; reflexivity|].
  exists s1, s2. split; [exact E1|]. split; [exact E2|].
  by apply prefix_app_r.
Qed.

Lemma Date_toISOString_Fulfilled h v x :
  Date_toISOString h v = Fulfilled x →
  ∃ t, date_time h v = Some (Some t) ∧ x = toISOString t.
Proof.
  unfold Date_toISOString.
  destruct v as [| | | | |l]; try done; simpl;
    destruct (h !! l) as [[| |[t|]]|]; try done.
  intros [= <-]. by exists t.
Qed.

(** [new Date(text)] for a text that is read as the time [t]. *)
Lemma toDate_parsed x t s r s' :
  Date_parse x = Some t →
  toDate (VString x) s = (Fulfilled r, s') →
  date_time (st_heap s') r = Some (Some t) ∧
  st_heap s `prefix_of` st_heap s'.
Proof.
  intros Hx E. unfold toDate in E.
  apply bind_Fulfilled in E as (h & s0 & E0 & E).
  apply gets_inv in E0 as [[= ->] ->]. simpl in E. rewrite Hx in E.
  apply alloc_inv in E as [[= ->] ->]. simpl.
  rewrite lookup_app_r, Nat.sub_diag by done. split; [done|].
  by apply prefix_app_r.
Qed.

Lemma date_time_prefix h h' v t :
  (h `prefix_of` h') → date_time h v = Some t → date_time h' v = Some t.
Proof.
  intros Hpre. destruct v as [| | | | |l]; try done. simpl.
  destruct (h !! l) as [c|] eqn:E; [|done].
  by rewrite (prefix_lookup_Some _ _ _ _ E Hpre).
Qed.

Lemma array_items_within h h' v :
  (h `prefix_of` h') → val_within 0 (length h) v →
  array_items h' v = array_items h v.
Proof.
  intros [rest ->] Hv. destruct v as [| | | | |l]; try done. simpl in *.
  by rewrite lookup_app_l by lia.
Qed.

Lemma cloneDiagram_copy d s r s' :
  heap_wf (st_heap s) →
  val_within 0 (length (st_heap s)) d →
  cloneDiagram d s = (Fulfilled r, s') →
  copy_of (st_heap s') d r.
Proof.
  intros Hwf Hd E.
  pose proof (cloneDiagram_allocates _ _ _ _ E) as [Hpre _].
  unfold cloneDiagram in E.
  apply bind_Fulfilled in E as (ser & s1 & E1 & E).
  pose proof (serializeDiagram_allocates _ _ _ _ E1) as [Hpre1 _].
  unfold serializeDiagram in E1.
  apply bind_Fulfilled in E1 as (h0 & s0 & E0 & E1).
  apply gets_inv in E0 as [[= ->] ->].
  apply bind_Fulfilled in E1 as (ca & sa & Ea & E1).
  apply await_Fulfilled in Ea as [Hca ->].
  apply bind_Fulfilled in E1 as (ua & sb & Eb & E1).
  apply await_Fulfilled in Eb as [Hua ->].
  apply alloc_inv in E1 as [[= ->] ->].
  set (h := st_heap s) in *.
  set (P := define_props (spread_props h d)
              [("createdAt", VString ca); ("updatedAt", VString ua)]) in *.
  set (s1 := set_heap (λ h0, (h0 ++ [CObject P])%list) s) in *.
  assert (st_heap s1 = (h ++ [CObject P])%list) as Hh1 by done.
  apply bind_Fulfilled in E as (text & s2 & E2 & E).
  apply stringify_Fulfilled in E2 as [Htext ->].
  unfold JSON_stringify in Htext. rewrite Hh1 in Htext.
  rewrite length_app in Htext. simpl in Htext.
  replace (length h + 1)%nat with (S (length h)) in Htext by lia.
  rewrite to_json_ref, lookup_app_r, Nat.sub_diag in Htext by done.
  simpl in Htext.
  destruct (mapM _ _) as [ms|] eqn:Hms; [|done].
  injection Htext as <-. apply mapM_Some in Hms.
  apply bind_Fulfilled in E as (raw & s3 & E3 & E).
  pose proof (parse_allocates _ _ _ _ E3) as [Hpre3 _].
  apply parse_inv in E3 as (raw' & [= <-] & E3).
  rewrite alloc_json_object in E3.
  destruct (alloc_members ms (st_heap s1)) as [h3 props] eqn:Em.
  injection E3 as Hh3 <-. symmetry in Hh3.
  pose proof (toDiagram_Fulfilled _ _ _ _ E)
    as (Hpre' & Hid & Hname & Htype & Hed & Hcoll & Hdates).
  (* the keys of the serialized object are distinct *)
  assert (NoDup P.*1) as HP.
  { unfold P. simpl. do 2 apply NoDup_set_prop.
    destruct d as [| | | | |l]; try apply NoDup_nil_2. simpl.
    destruct (h !! l) as [[ps|items|]|]; try apply NoDup_nil_2.
    - apply NoDup_own_props.
    - clear. assert (∀ n, NoDup (imap (λ i x, (pretty (n + i)%nat, x)) items).*1) as Hn.
      { induction items as [|x items IH]; intros n; [apply NoDup_nil_2|].
        simpl. apply NoDup_cons. split.
        - intros Hin. apply list_elem_of_fmap in Hin as ([k y] & Hk & Hy).
          apply elem_of_lookup_imap in Hy as (i & z & [= -> ->] & _).
          simpl in Hk. apply (inj pretty) in Hk. lia.
        - erewrite imap_ext; [apply (IH (S n))|]. intros i y _. simpl.
          do 2 f_equal. lia. }
      exact (Hn 0%nat). }
  assert (NoDup ms.*1) as Hnd.
  { assert (ms.*1 = (filter (λ p, p.2 ≠ VUndefined) (own_props P)).*1) as ->.
    { clear -Hms. induction Hms as [|[k v] [k' j'] ps ms Hv _ IH]; [done|].
      simpl in *. destruct (to_json _ _ v); [|done]. injection Hv as <- _.
      by f_equal. }
    eapply sublist_NoDup; [apply NoDup_own_props|].
    apply fmap_sublist, sublist_filter. }
  (* a member that [d] has, and that is not undefined, comes out as its
     JSON and is read back from the parsed object *)
  assert (∀ k x, get_prop k P = Some x → x ≠ VUndefined →
            ∃ j v ha hb,
              to_json (length h) (st_heap s1) x = Some j ∧
              alloc_json j ha = (hb, v) ∧
              st_heap s1 `prefix_of` ha ∧ hb `prefix_of` h3 ∧
              read_prop (st_heap s3) (VRef (length h3)) k = v) as Hprop.
  { intros k x HPk Hne.
    assert ((k, x) ∈ filter (λ p, p.2 ≠ VUndefined) (own_props P)) as Hin.
    { apply list_elem_of_filter. split; [done|].
      rewrite own_props_nodup by done. by apply assoc_get_elem. }
    destruct (Forall2_elem_l _ _ _ _ Hms Hin) as ([k' j] & Hj & Hkj).
    simpl in Hkj. destruct (to_json _ _ x) as [jx|] eqn:Ejx; [|done].
    injection Hkj as <- <-.
    destruct (alloc_members_elem _ _ _ _ _ _ Em Hj)
      as (Hkeys & v & ha & hb & Hv & Ha & Hpa & Hpb).
    exists jx, v, ha, hb. repeat split; try done.
    rewrite Hh3. simpl. rewrite lookup_app_r, Nat.sub_diag by done. simpl.
    rewrite define_props_nodup by (simpl; by rewrite Hkeys).
    simpl. rewrite (get_prop_elem k props v); [done| |done].
    by rewrite Hkeys. }
  assert (∀ k x, k ≠ "createdAt" → k ≠ "updatedAt" →
            read_prop h d k = x → x ≠ VUndefined →
            ∃ j v ha hb,
              to_json (length h) (st_heap s1) x = Some j ∧
              alloc_json j ha = (hb, v) ∧
              st_heap s1 `prefix_of` ha ∧ hb `prefix_of` h3 ∧
              read_prop (st_heap s3) (VRef (length h3)) k = v) as Hmember.
  { intros k x Hk1 Hk2 Hx Hne. apply Hprop; [|done].
    unfold P. simpl. rewrite !get_prop_set_prop.
    rewrite !decide_False by done.
    destruct d as [| | | | |l]; try (by subst x). simpl in Hx |- *.
    destruct (h !! l) as [[ps|items|]|]; try (by subst x).
    rewrite get_prop_own_props.
    destruct (get_prop k ps); [by subst x|by subst x]. }
  assert (read_prop (st_heap s3) (VRef (length h3)) "createdAt" = VString ca
          ∧ read_prop (st_heap s3) (VRef (length h3)) "updatedAt" = VString ua)
    as [Hrca Hrua].
  { split.
    - destruct (Hprop "createdAt" (VString ca))
        as (j & v & ha & hb & Hj & Ha & _ & _ & Hread); [|done|].
      + unfold P. simpl. by rewrite !get_prop_set_prop.
      + destruct (length h); simpl in Hj; injection Hj as <-;
          simpl in Ha; injection Ha as _ <-; exact Hread.
    - destruct (Hprop "updatedAt" (VString ua))
        as (j & v & ha & hb & Hj & Ha & _ & _ & Hread); [|done|].
      + unfold P. simpl. by rewrite !get_prop_set_prop.
      + destruct (length h); simpl in Hj; injection Hj as <-;
          simpl in Ha; injection Ha as _ <-; exact Hread. }
  assert (h3 `prefix_of` st_heap s3) as Hp3
    by (rewrite Hh3; by apply prefix_app_r).
  assert (∀ k, read_prop (st_heap s') d k = read_prop h d k) as Hd'.
  { intros k. destruct d as [| | | | |l]; try done.
    apply read_prop_prefix; [done|]. simpl in Hd. lia. }
  split; [|split].
  - intros k x Hk Hx. rewrite Hd' in Hx.
    assert (k ≠ "createdAt" ∧ k ≠ "updatedAt") as [Hk1 Hk2].
    { split; intros ->;
        repeat (apply elem_of_cons in Hk as [?|Hk]; [done|]);
        by apply elem_of_nil in Hk. }
    destruct (Hmember k (VString x) Hk1 Hk2 Hx ltac:(done))
      as (j & v & ha & hb & Hj & Ha & _ & _ & Hread).
    destruct (length h); simpl in Hj; injection Hj as <-;
      simpl in Ha; injection Ha as _ <-.
    all: repeat (apply elem_of_cons in Hk as [->|Hk]);
      try (by apply elem_of_nil in Hk).
    all: try (rewrite Hid, Hread; reflexivity).
    all: try (rewrite Hname, Hread; reflexivity).
    all: try (rewrite Htype, Hread; reflexivity).
    all: rewrite Hed, Hread; reflexivity.
  - intros c Harr. rewrite Hd' in Harr |- *.
    rewrite (array_items_within h) in Harr; [|done|].
    2:{ apply read_prop_within; [lia|done|].
        intros l0 c0 _. by apply heap_wf_lookup. }
    destruct Harr as [items Hitems].
    assert (kind_key c ≠ "createdAt" ∧ kind_key c ≠ "updatedAt") as [Hc1 Hc2]
      by (by destruct c).
    assert (read_prop h d (kind_key c) ≠ VUndefined) as Hnu.
    { intros Hu. by rewrite Hu in Hitems. }
    destruct (Hmember _ _ Hc1 Hc2 eq_refl Hnu)
      as (j & v & ha & hb & Hj & Ha & Hpa & Hpb & Hread).
    assert (∃ js, j = JArray js) as [js ->].
    { destruct (read_prop h d (kind_key c)) as [| | | | |l]; try done.
      simpl in Hitems. destruct (length h) as [|n] eqn:Hn.
      - by destruct (h !! l) eqn:El; [apply lookup_lt_Some in El; lia|].
      - rewrite to_json_ref in Hj. rewrite Hh1 in Hj.
        destruct (h !! l) as [[| |]|] eqn:El; try done.
        rewrite (lookup_app_l_Some _ _ _ _ El) in Hj.
        destruct (mapM _ _); [|done]. injection Hj as <-. eauto. }
    assert (∃ vs, array_items hb v = Some vs) as [vs Hvs].
    { rewrite alloc_json_array in Ha.
      destruct (alloc_list js ha) as [hx xs]. injection Ha as <- <-.
      simpl. rewrite lookup_app_r, Nat.sub_diag by done. eauto. }
    assert (hb `prefix_of` st_heap s3) as Hpb3 by (by etrans).
    rewrite Hcoll, Hread.
    rewrite (array_items_prefix _ _ _ _ Hpb3 Hvs).
    assert (hb `prefix_of` st_heap s') as Hpb' by (by etrans).
    split; [rewrite (array_items_prefix _ _ _ _ Hpb' Hvs); eauto|].
    exists (JArray js). unfold JSON_stringify.
    assert (st_heap s1 `prefix_of` st_heap s') as Hp1' by (by etrans; [|exact Hpre']).
    split.
    + eapply to_json_extend; [exact Hp1'|].
      eapply to_json_fuel; [|exact Hj].
      apply prefix_length in Hpre. fold h in Hpre. lia.
    + eapply to_json_extend; [exact Hpb'|].
      pose proof (alloc_json_shape _ _ _ _ Ha) as (new & [Hhb _] & _ & Hdepth & _).
      apply (alloc_to_json _ _ _ _ _ (to_json_ok _ _ _ _ Hj) Ha).
      apply prefix_length in Hpb'. rewrite Hhb, length_app in Hpb'. lia.
  - intros k t Hk Ht Hparse. rewrite Hd' in Ht.
    destruct Hdates as (sa & sb & Eca & Eua & Hpb).
    cbv beta iota zeta in Eca, Eua.
    rewrite Hrca in Eca. rewrite Hrua in Eua.
    apply Date_toISOString_Fulfilled in Hca as (tc & Htc & ->).
    apply Date_toISOString_Fulfilled in Hua as (tu & Htu & ->).
    assert (∀ x o, date_time (st_heap s') x = Some o →
              val_within 0 (length h) x → date_time h x = Some o) as Hback.
    { intros x o Hx Hw. destruct x as [| | | | |l]; try done.
      simpl in Hx, Hw |- *. destruct Hpre as [rest Hrest].
      rewrite Hrest, lookup_app_l in Hx by lia. done. }
    apply Hback in Ht.
    2:{ apply read_prop_within; [lia|done|].
        intros l0 c0 _. by apply heap_wf_lookup. }
    repeat (apply elem_of_cons in Hk as [->|Hk]);
      [| |by apply elem_of_nil in Hk].
    + assert (tc = t) as -> by congruence.
      destruct (toDate_parsed _ _ _ _ _ Hparse Eca) as [Hd1 _].
      eapply date_time_prefix; [|exact Hd1].
      etrans; [|exact Hpb]. by eapply toDate_allocates.
    + assert (tu = t) as -> by congruence.
      destruct (toDate_parsed _ _ _ _ _ Hparse Eua) as [Hd2 _].
      eapply date_time_prefix; [exact Hpb|exact Hd2].
Qed.

(** ** The owner indices *)

Lemma index_items d c xs :
  ∀ s u s',
    for_each (λ item, id ← await (member (st_heap s) item "id");
                      h ← get_heap;
                      modify (set_owners c (map_set id (read_prop h d "id"))))
             xs s = (Fulfilled u, s') →
    st_heap s' = st_heap s ∧
    (∀ c', c' ≠ c → owners s' c' = owners s c') ∧
    (∀ x, map_get x (owners s c) = Some (read_prop (st_heap s) d "id") →
          map_get x (owners s' c) = Some (read_prop (st_heap s) d "id")) ∧
    (∀ item, item ∈ xs →
       ∃ x, member (st_heap s) item "id" = Fulfilled x
            ∧ map_get x (owners s' c) = Some (read_prop (st_heap s) d "id")).
Proof.
  induction xs as [|item xs IH]; intros s u s'; cbn [for_each].
  - intros [_ ->]%ret_inv. repeat split; try done.
    by intros item ?%elem_of_nil.
  - intros E. apply bind_Fulfilled in E as ([] & s1 & E1 & E).
    apply bind_Fulfilled in E1 as (x & sa & E0 & E1).
    apply await_Fulfilled in E0 as [Hx ->].
    apply bind_Fulfilled in E1 as (h & sb & E0 & E1).
    apply gets_inv in E0 as [[= ->] ->].
    apply modify_inv in E1 as [_ ->].
    set (s1 := set_owners c (map_set x (read_prop (st_heap s) d "id")) s) in *.
    assert (st_heap s1 = st_heap s) as Hh1 by done.
    assert (owners s1 c = map_set x (read_prop (st_heap s) d "id") (owners s c))
      as Ho1 by (simpl; by rewrite decide_True).
    rewrite <- Hh1 in E. apply IH in E as (Hh & Hother & Hkeep & Hall).
    rewrite Hh1 in Hh, Hkeep, Hall.
    split; [done|]. split.
    { intros c' Hc'. rewrite Hother by done. simpl. by rewrite decide_False. }
    split.
    { intros y Hy. apply Hkeep. rewrite Ho1. unfold map_get, map_set in *.
      rewrite assoc_get_set. by destruct (decide _). }
    intros it [->|Hit]%elem_of_cons; [|by apply Hall].
    exists x. split; [done|]. apply Hkeep. rewrite Ho1.
    unfold map_get, map_set. rewrite assoc_get_set. by rewrite decide_True.
Qed.

Lemma index_kind d c s u s' :
  for_each_id d c
    (λ id, h ← get_heap;
           modify (set_owners c (map_set id (read_prop h d "id")))) s
  = (Fulfilled u, s') →
  st_heap s' = st_heap s ∧
  (∀ c', c' ≠ c → owners s' c' = owners s c') ∧
  (∀ x, map_get x (owners s c) = Some (read_prop (st_heap s) d "id") →
        map_get x (owners s' c) = Some (read_prop (st_heap s) d "id")) ∧
  (∀ items item,
     array_items (st_heap s) (read_prop (st_heap s) d (kind_key c)) = Some items →
     item ∈ items →
     ∃ x, member (st_heap s) item "id" = Fulfilled x
          ∧ map_get x (owners s' c) = Some (read_prop (st_heap s) d "id")).
Proof.
  unfold for_each_id. intros E.
  apply bind_Fulfilled in E as (h & s0 & E0 & E).
  apply gets_inv in E0 as [[= ->] ->].
  destruct (read_prop (st_heap s) d (kind_key c)) as [| | | | |l] eqn:Hr;
    try (apply ret_inv in E as [_ ->]; by repeat split).
  all: apply bind_Fulfilled in E as (xs & s1 & E1 & E);
    apply or_throw_Fulfilled in E1 as [Hxs ->]; try discriminate Hxs.
  apply index_items in E as (Hh & Hother & Hkeep & Hall).
  repeat (split; [done|]). intros items item Hitems Hin.
  rewrite Hxs in Hitems. injection Hitems as <-. by apply Hall.
Qed.

Lemma index_kinds d ks :
  ∀ s u s',
    for_each
      (λ c, for_each_id d c
              (λ id, h ← get_heap;
                     modify (set_owners c (map_set id (read_prop h d "id")))))
      ks s = (Fulfilled u, s') →
    st_heap s' = st_heap s ∧
    (∀ c x, map_get x (owners s c) = Some (read_prop (st_heap s) d "id") →
            map_get x (owners s' c) = Some (read_prop (st_heap s) d "id")) ∧
    (∀ c items item, c ∈ ks →
       array_items (st_heap s) (read_prop (st_heap s) d (kind_key c)) = Some items →
       item ∈ items →
       ∃ x, member (st_heap s) item "id" = Fulfilled x
            ∧ map_get x (owners s' c) = Some (read_prop (st_heap s) d "id")).
Proof.
  induction ks as [|k ks IH]; intros s u s'; cbn [for_each].
  - intros [_ ->]%ret_inv. repeat split; try done.
    by intros c items item ?%elem_of_nil.
  - intros E. apply bind_Fulfilled in E as ([] & s1 & E1 & E).
    apply index_kind in E1 as (Hh1 & Hother1 & Hkeep1 & Hall1).
    apply IH in E as (Hh & Hkeep & Hall). rewrite Hh1 in Hh, Hkeep, Hall.
    assert (∀ c x, map_get x (owners s c) = Some (read_prop (st_heap s) d "id") →
              map_get x (owners s1 c) = Some (read_prop (st_heap s) d "id"))
      as Hstep.
    { intros c x Hx. destruct (decide (c = k)) as [->|Hne]; [by apply Hkeep1|].
      by rewrite Hother1. }
    split; [done|]. split; [intros c x Hx; by apply Hkeep, Hstep|].
    intros c items item [->|Hc]%elem_of_cons Hitems Hin.
    + destruct (Hall1 _ _ Hitems Hin) as (x & Hx & Hm).
      exists x. split; [done|]. by apply Hkeep.
    + by eapply Hall.
Qed.

Lemma setCachedDiagram_indexes d s u s' :
  setCachedDiagram d s = (Fulfilled u, s') →
  indexed (st_heap s) (owners s') d.
Proof.
  unfold setCachedDiagram. intros E.
  apply bind_Fulfilled in E as (h & s0 & E0 & E).
  apply gets_inv in E0 as [[= ->] ->]. cbv zeta in E.
  apply bind_Fulfilled in E as (previous & s0 & E0 & E).
  apply gets_inv in E0 as [_ ->].
  apply bind_Fulfilled in E as ([] & s1 & E1 & E).
  assert (owners_only s s1) as (Hh1 & _).
  { destruct previous; [by eapply clearOwnersForDiagram_owners|].
    by apply ret_inv in E1 as [_ ->]. }
  apply bind_Fulfilled in E as (l & s2 & E2 & E).
  destruct d as [| | | | |l']; try discriminate E2.
  apply ret_inv in E2 as [[= ->] ->].
  apply bind_Fulfilled in E as ([] & s3 & E3 & E).
  apply modify_inv in E3 as [_ ->].
  apply index_kinds in E as (_ & _ & Hall). simpl in Hall.
  rewrite Hh1 in Hall. intros c items item Hitems Hin.
  apply (Hall c items item); [|done..]. unfold kinds.
  destruct c; repeat constructor.
Qed.

Lemma indexed_prefix h h' owner l :
  heap_wf h → (l < length h)%nat → (h `prefix_of` h') →
  indexed h owner (VRef l) → indexed h' owner (VRef l).
Proof.
  intros Hwf Hl Hpre Hidx c items item Hitems Hin.
  assert (∀ k, read_prop h' (VRef l) k = read_prop h (VRef l) k) as Hread
    by (intros k; by apply read_prop_prefix).
  assert (∀ k, val_within 0 (length h) (read_prop h (VRef l) k)) as Hw.
  { intros k. apply read_prop_within; [lia|simpl; lia|].
    intros l0 c0 _. by apply heap_wf_lookup. }
  rewrite !Hread in *. rewrite (array_items_within h) in Hitems by done.
  destruct (Hidx c items item Hitems Hin) as (x & Hx & Hm).
  exists x. split; [|done]. rewrite <- Hx.
  assert (val_within 0 (length h) item) as Hitem.
  { destruct (read_prop h (VRef l) (kind_key c)) as [| | | | |a]; try done.
    simpl in Hitems. destruct (h !! a) as [[|xs|]|] eqn:Ea; try done.
    injection Hitems as ->. apply heap_wf_lookup in Ea; [|done].
    unfold cell_within in Ea. rewrite Forall_forall in Ea. by apply Ea. }
  destruct item as [| | | | |a]; try done. unfold member. f_equal.
  apply read_prop_prefix; [done|]. simpl in Hitem. lia.
Qed.


End Steps.

End CoordinatorCopy.

Module CoordinatorListing.
Import Coordinator CoordinatorFacts CoordinatorCopy.

Section Listing.
Context `{Builtins}.

Definition is_object (h : heap) (d : val) : Prop :=
  ∃ l props, d = VRef l ∧ h !! l = Some (CObject props).

Lemma is_object_prefix h h' d :
  (h `prefix_of` h') → is_object h d → is_object h' d.
Proof.
  intros Hpre (l & props & -> & Hl). exists l, props.
  split; [done|]. by eapply prefix_lookup_Some.
Qed.

Lemma read_prop_object h h' d k :
  (h `prefix_of` h') → is_object h d → read_prop h' d k = read_prop h d k.
Proof.
  intros Hpre (l & props & -> & Hl). apply read_prop_prefix; [done|].
  by eapply lookup_lt_Some.
Qed.

Lemma cached_objects_lookup s k e :
  cached_objects s → map_get k (diagramsCache s) = Some e →
  is_object (st_heap s) (VRef e).
Proof.
  intros Hc Hk. apply assoc_get_elem in Hk.
  unfold cached_objects in Hc. rewrite Forall_forall in Hc.
  destruct (Hc _ Hk) as [props Hp]. by exists e, props.
Qed.

Lemma toDiagram_object v s r s' :
  toDiagram v s = (Fulfilled r, s') →
  allocates s s' ∧ is_object (st_heap s') r.
Proof.
  intros E. split; [by eapply toDiagram_allocates|].
  unfold toDiagram in E.
  apply bind_Fulfilled in E as (h0 & s0 & E0 & E).
  apply gets_inv in E0 as [[= ->] ->]. cbv zeta in E.
  apply bind_Fulfilled in E as (c & s1 & E1 & E).
  apply bind_Fulfilled in E as (u & s2 & E2 & E).
  apply alloc_inv in E as [[= ->] ->]. eexists _, _. split; [done|].
  simpl. by rewrite lookup_app_r, Nat.sub_diag by done.
Qed.

Lemma map_each_toDiagram raws :
  ∀ s ds s', map_each toDiagram raws s = (Fulfilled ds, s') →
    allocates s s' ∧ Forall (is_object (st_heap s')) ds.
Proof.
  induction raws as [|raw raws IH]; intros s ds s'; simpl.
  - intros [[= ->] ->]%ret_inv. split; [reflexivity|constructor].
  - intros E. apply bind_Fulfilled in E as (d & s1 & E1 & E).
    apply bind_Fulfilled in E as (ds' & s2 & E2 & E).
    apply ret_inv in E as [[= ->] ->].
    apply toDiagram_object in E1 as [Ha1 Ho1].
    apply IH in E2 as [Ha2 Ho2]. split; [by etrans|].
    constructor; [|done]. eapply is_object_prefix; [|done]. apply Ha2.
Qed.

(** What [forEach] does with one listed diagram when nothing is included. *)
Definition merge_listed (diagram : val) : M unit :=
  h ← get_heap;
  existing ← cache_get (read_prop h diagram "id");
  match existing with
  | Some e =>
      merged ← alloc (CObject
        (define_props (spread_props h (VRef e)) (summary h diagram)));
      setCachedDiagram merged
  | None => setCachedDiagram diagram
  end.

Lemma get_prop_summary_other key t h d :
  key ∉ summary_keys →
  get_prop key (define_props t (summary h d)) = get_prop key t.
Proof.
  intros Hk. unfold define_props, summary. simpl.
  rewrite !get_prop_set_prop.
  repeat (destruct (decide _) as [->|_];
          [exfalso; apply Hk; unfold summary_keys; repeat constructor|]).
  done.
Qed.

Lemma get_prop_summary key t h d :
  key ∈ summary_keys →
  get_prop key (define_props t (summary h d)) = Some (read_prop h d key).
Proof.
  intros Hk. unfold define_props, summary. simpl.
  rewrite !get_prop_set_prop. unfold summary_keys in Hk.
  repeat (apply elem_of_cons in Hk as [->|Hk]; [reflexivity|]).
  by apply elem_of_nil in Hk.
Qed.

Lemma map_get_set {V} k k' (v : V) m :
  map_get k (map_set k' v m) =
  if decide (map_key k = map_key k') then Some v else map_get k m.
Proof. unfold map_get, map_set. apply assoc_get_set. Qed.

Lemma cached_objects_set s s' id l :
  (st_heap s `prefix_of` st_heap s') →
  diagramsCache s' = map_set id l (diagramsCache s) →
  is_object (st_heap s') (VRef l) →
  cached_objects s → cached_objects s'.
Proof.
  intros Hpre Hc (l' & props & [= <-] & Hl) Hco. unfold cached_objects.
  rewrite Hc. apply Forall_forall.
  intros e [->|He]%elem_of_assoc_set; [by exists props|].
  unfold cached_objects in Hco. rewrite Forall_forall in Hco.
  destruct (Hco _ He) as [ps Hps]. exists ps.
  by eapply prefix_lookup_Some.
Qed.

(** One listed diagram: the cached diagram of the same id is replaced by a
    new object with the cached members and the listed summary; every other
    cached diagram stays. *)
Lemma merge_listed_step d s u s' :
  is_object (st_heap s) d → cached_objects s →
  merge_listed d s = (Fulfilled u, s') →
  st_heap s `prefix_of` st_heap s' ∧ cached_objects s' ∧ calls s' = calls s ∧
  ∀ k e, map_get k (diagramsCache s) = Some e →
    ∃ e', map_get k (diagramsCache s') = Some e' ∧
      (∀ key, key ∉ summary_keys →
         read_prop (st_heap s') (VRef e') key
         = read_prop (st_heap s) (VRef e) key) ∧
      ((e' = e ∧ map_key (read_prop (st_heap s) d "id") ≠ map_key k)
       ∨ ((length (st_heap s) ≤ e')%nat ∧
          map_key (read_prop (st_heap s) d "id") = map_key k ∧
          ∀ key, key ∈ summary_keys →
            read_prop (st_heap s') (VRef e') key = read_prop (st_heap s) d key)).
Proof.
  intros Hd Hco E. unfold merge_listed in E.
  apply bind_Fulfilled in E as (h & s0 & E0 & E).
  apply gets_inv in E0 as [[= ->] ->].
  apply bind_Fulfilled in E as (existing & s0 & E0 & E).
  apply gets_inv in E0 as [[= ->] ->].
  set (id := read_prop (st_heap s) d "id") in *.
  destruct (map_get id (diagramsCache s)) as [e0|] eqn:Ee.
  - apply bind_Fulfilled in E as (merged & s1 & E1 & E).
    apply alloc_inv in E1 as [[= ->] ->].
    set (P := define_props (spread_props (st_heap s) (VRef e0))
                (summary (st_heap s) d)) in *.
    apply setCachedDiagram_Fulfilled in E
      as (l & [= <-] & Hh & Hc & _ & _ & Hcl & _).
    simpl in Hh, Hc, Hcl.
    assert (∀ key, read_prop (st_heap s') (VRef (length (st_heap s))) key
                   = default VUndefined (get_prop key P)) as Hread.
    { intros key. rewrite Hh. simpl.
      by rewrite lookup_app_r, Nat.sub_diag by done. }
    rewrite lookup_app_r, Nat.sub_diag in Hc by done. simpl in Hc.
    assert (default VUndefined (get_prop "id" P) = id) as Hid.
    { unfold P. rewrite get_prop_summary; [done|]. unfold summary_keys.
      repeat constructor. }
    rewrite Hid in Hc.
    assert (st_heap s `prefix_of` st_heap s') as Hpre
      by (rewrite Hh; by apply prefix_app_r).
    split; [done|]. split.
    { eapply (cached_objects_set s); [done|exact Hc| |done].
      exists (length (st_heap s)), P. split; [done|]. rewrite Hh.
      by rewrite lookup_app_r, Nat.sub_diag by done. }
    split; [done|]. intros k e Hk. rewrite Hc, map_get_set.
    destruct (decide (map_key k = map_key id)) as [Heq|Hne].
    + exists (length (st_heap s)). split; [done|].
      assert (e = e0) as -> by (unfold map_get in *; congruence).
      split.
      * intros key Hkey. rewrite Hread. unfold P.
        rewrite get_prop_summary_other by done.
        destruct (cached_objects_lookup _ _ _ Hco Hk)
          as (l' & ps & [= <-] & Hps).
        simpl. rewrite Hps. by rewrite get_prop_own_props.
      * right. split; [done|]. split; [done|]. intros key Hkey.
        rewrite Hread. unfold P. by rewrite get_prop_summary.
    + exists e. split; [done|]. split.
      * intros key _. apply read_prop_object; [done|].
        by eapply cached_objects_lookup.
      * left. split; [done|]. congruence.
  - apply setCachedDiagram_Fulfilled in E
      as (l & -> & Hh & Hc & _ & _ & Hcl & _).
    fold id in Hc.
    split; [by rewrite Hh|]. split.
    { eapply (cached_objects_set s); [by rewrite Hh|exact Hc| |done].
      by rewrite Hh. }
    split; [done|]. intros k e Hk. rewrite Hc, map_get_set.
    destruct (decide (map_key k = map_key id)) as [Heq|Hne].
    + unfold map_get in *. congruence.
    + exists e. split; [done|]. rewrite Hh. split; [done|].
      left. split; [done|]. congruence.
Qed.

Lemma merge_listed_loop ds :
  ∀ s u s',
    Forall (is_object (st_heap s)) ds → cached_objects s →
    for_each merge_listed ds s = (Fulfilled u, s') →
    st_heap s `prefix_of` st_heap s' ∧ cached_objects s' ∧
    calls s' = calls s ∧
    ∀ k e, map_get k (diagramsCache s) = Some e →
      ∃ e', map_get k (diagramsCache s') = Some e' ∧
        (∀ key, key ∉ summary_keys →
           read_prop (st_heap s') (VRef e') key
           = read_prop (st_heap s) (VRef e) key) ∧
        ((e' = e ∧
          Forall (λ d, map_key (read_prop (st_heap s) d "id") ≠ map_key k) ds)
         ∨ ((length (st_heap s) ≤ e')%nat ∧
            ∃ d, d ∈ ds ∧
              map_key (read_prop (st_heap s) d "id") = map_key k ∧
              ∀ key, key ∈ summary_keys →
                read_prop (st_heap s') (VRef e') key
                = read_prop (st_heap s) d key)).
Proof.
  induction ds as [|d ds IH]; intros s u s' Hds Hco; cbn [for_each].
  - intros [_ ->]%ret_inv. split; [done|]. split; [done|]. split; [done|].
    intros k e Hk. exists e. split; [done|]. split; [done|]. left.
    split; [done|constructor].
  - intros E. apply bind_Fulfilled in E as (u1 & s1 & E1 & E).
    apply Forall_cons in Hds as [Hd Hds].
    apply (merge_listed_step _ _ _ _ Hd Hco) in E1
      as (Hpre1 & Hco1 & Hcl1 & Hstep).
    assert (Forall (is_object (st_heap s1)) ds) as Hds1.
    { eapply Forall_impl; [exact Hds|]. intros x.
      by apply is_object_prefix. }
    apply (IH _ _ _ Hds1 Hco1) in E as (Hpre2 & Hco2 & Hcl2 & Hrest).
    split; [by etrans|]. split; [done|]. split; [congruence|].
    intros k e Hk.
    destruct (Hstep k e Hk) as (e1 & Hk1 & Hother1 & Hcase1).
    destruct (Hrest k e1 Hk1) as (e2 & Hk2 & Hother2 & Hcase2).
    exists e2. split; [done|]. split.
    { intros key Hkey. rewrite Hother2 by done. by apply Hother1. }
    assert (∀ x, x ∈ ds → read_prop (st_heap s1) x "id"
                          = read_prop (st_heap s) x "id") as Hids.
    { intros x Hx. apply read_prop_object; [done|].
      rewrite Forall_forall in Hds. by apply Hds. }
    destruct Hcase2 as [[-> Hnone]|(Hnew & d' & Hd' & Hid' & Hsum)].
    + destruct Hcase1 as [[-> Hne]|(Hnew & Hid & Hsum)].
      * left. split; [done|]. constructor; [done|].
        rewrite Forall_forall in Hnone |- *. intros x Hx.
        rewrite <- Hids by done. by apply Hnone.
      * right. split; [done|]. exists d. split; [by left|].
        split; [done|]. intros key Hkey. rewrite <- Hsum by done.
        pose proof (cached_objects_lookup _ _ _ Hco1 Hk1) as Hobj.
        by apply read_prop_object.
    + right. split; [apply prefix_length in Hpre1; lia|].
      exists d'. split; [by right|]. rewrite <- Hids by done.
      split; [done|]. intros key Hkey. rewrite Hsum by done.
      apply read_prop_object; [done|].
      rewrite Forall_forall in Hds. by apply Hds.
Qed.

Lemma kind_key_not_summary c : kind_key c ∉ summary_keys.
Proof.
  unfold summary_keys. intros Hin.
  destruct c; repeat (apply elem_of_cons in Hin as [?|Hin]; [discriminate|]);
    by apply elem_of_nil in Hin.
Qed.

(** C10. A listing without collections keeps the collections of what is
    cached.  When [listDiagrams] is called without include options and
    fulfils, one request has been made, the heap has only grown, and for
    every diagram that was cached before there is a cached diagram under the
    same key after, whose collections, and every other member that is not
    one of the six summary members, are the values that were cached.  It is
    the cached object itself when no listed diagram has its id; otherwise it
    is a new object, none of the listed ones, whose six summary members are
    those of a listed diagram of that id. *)
Theorem listDiagrams_keeps_collections (options : option DiagramListOptions)
    (s s' : state) (r : val) :
  hasIncludeOptions options = false →
  cached_objects s →
  listDiagrams options s = (Fulfilled r, s') →
  st_heap s `prefix_of` st_heap s' ∧ cached_objects s' ∧
  calls s' = (calls s ++ [None])%list ∧
  ∃ diagrams, array_items (st_heap s') r = Some diagrams ∧
    ∀ k e, map_get k (diagramsCache s) = Some e →
      ∃ e', map_get k (diagramsCache s') = Some e' ∧
        (∀ c, read_prop (st_heap s') (VRef e') (kind_key c)
              = read_prop (st_heap s) (VRef e) (kind_key c)) ∧
        (∀ key, key ∉ summary_keys →
           read_prop (st_heap s') (VRef e') key
           = read_prop (st_heap s) (VRef e) key) ∧
        ((e' = e ∧
          Forall (λ d, map_key (read_prop (st_heap s') d "id") ≠ map_key k)
                 diagrams)
         ∨ ((length (st_heap s) ≤ e')%nat ∧ (VRef e' ∉ diagrams) ∧
            ∃ d, d ∈ diagrams ∧
              map_key (read_prop (st_heap s') d "id") = map_key k ∧
              ∀ key, key ∈ summary_keys →
                read_prop (st_heap s') (VRef e') key
                = read_prop (st_heap s') d key)).
Proof.
  intros Hopt Hco E. unfold listDiagrams in E. rewrite Hopt in E.
  apply bind_Fulfilled in E as (raw & s1 & E1 & E).
  apply request_Fulfilled in E1 as (Hcl1 & Hc1 & _ & _ & Hraw).
  assert (st_heap s `prefix_of` st_heap s1) as Hpre1.
  { destruct Hraw as [[_ ->]|[j Hj]]; [done|].
    by apply alloc_json_prefix in Hj. }
  apply bind_Fulfilled in E as (h1 & s0 & E0 & E).
  apply gets_inv in E0 as [[= ->] ->].
  apply bind_Fulfilled in E as (raws & s0 & E0 & E).
  apply or_throw_Fulfilled in E0 as [Hraws ->].
  apply bind_Fulfilled in E as (diagrams & s2 & E2 & E).
  apply map_each_toDiagram in E2 as [(Hpre2 & Hc2 & _ & _ & _ & Hcl2) Hds].
  apply bind_Fulfilled in E as (result & s3 & E3 & E).
  apply alloc_inv in E3 as [[= ->] ->].
  apply bind_Fulfilled in E as ([] & s4 & E4 & E).
  apply ret_inv in E as [[= ->] <-].
  set (s3 := set_heap (λ h, (h ++ [CArray diagrams])%list) s2) in *.
  assert (st_heap s3 = (st_heap s2 ++ [CArray diagrams])%list) as Hh3 by done.
  assert (st_heap s2 `prefix_of` st_heap s3) as Hpre3
    by (rewrite Hh3; by apply prefix_app_r).
  assert (st_heap s `prefix_of` st_heap s3) as Hpre03
    by (etrans; [exact Hpre1|]; by etrans).
  assert (Forall (is_object (st_heap s3)) diagrams) as Hds3.
  { eapply Forall_impl; [exact Hds|]. intros x. by apply is_object_prefix. }
  assert (cached_objects s3) as Hco3.
  { unfold cached_objects in *. replace (diagramsCache s3) with (diagramsCache s)
      by (simpl; congruence).
    eapply Forall_impl; [exact Hco|]. intros e [ps Hps]. exists ps.
    by eapply prefix_lookup_Some. }
  apply (merge_listed_loop _ _ _ _ Hds3 Hco3) in E4
    as (Hpre4 & Hco4 & Hcl4 & Hloop).
  assert (∀ x, x ∈ diagrams → ∀ key,
            read_prop (st_heap s') x key = read_prop (st_heap s3) x key)
    as Hstable.
  { intros x Hx key. apply read_prop_object; [done|].
    rewrite Forall_forall in Hds3. by apply Hds3. }
  split; [by etrans|]. split; [done|].
  split; [rewrite Hcl4; simpl; congruence|].
  exists diagrams. split.
  { eapply array_items_prefix; [exact Hpre4|]. rewrite Hh3. simpl.
    by rewrite lookup_app_r, Nat.sub_diag by done. }
  intros k e Hk.
  assert (map_get k (diagramsCache s3) = Some e) as Hk3
    by (simpl; congruence).
  destruct (Hloop k e Hk3) as (e' & Hk' & Hother & Hcase).
  assert (∀ key, read_prop (st_heap s3) (VRef e) key
                 = read_prop (st_heap s) (VRef e) key) as Hold.
  { intros key. apply read_prop_object; [done|].
    by eapply cached_objects_lookup. }
  exists e'. split; [done|]. split.
  { intros c. rewrite Hother by apply kind_key_not_summary. apply Hold. }
  split.
  { intros key Hkey. rewrite Hother by done. apply Hold. }
  destruct Hcase as [[-> Hnone]|(Hnew & d & Hd & Hid & Hsum)].
  - left. split; [done|]. rewrite Forall_forall in Hnone |- *.
    intros x Hx. rewrite Hstable by done. by apply Hnone.
  - right. split; [apply prefix_length in Hpre03; lia|]. split.
    + intros Hin. rewrite Forall_forall in Hds3.
      destruct (Hds3 _ Hin) as (l & ps & [= <-] & Hl).
      apply lookup_lt_Some in Hl. lia.
    + exists d. split; [done|]. rewrite (Hstable d Hd). split; [done|].
      intros key Hkey. rewrite (Hstable d Hd). by apply Hsum.
Qed.

End Listing.

Lemma listDiagrams_keeps_collections_witness :
  let s0 := @mounted scripted
    [Response 200 (Some (JObject
       [("id", JString "d1"); ("name", JString "Shop");
        ("tables", JArray [JObject [("id", JString "t1");
                                    ("name", JString "users")]])]));
     Response 200 (Some (JArray
       [JObject [("id", JString "d1"); ("name", JString "Store")]]))] in
  let s := (@fetchDiagram scripted "d1" s0).2 in
  ∃ e r s' e',
    map_get (VString "d1") (@diagramsCache scripted s) = Some e ∧
    @listDiagrams scripted None s = (Fulfilled r, s') ∧
    map_get (VString "d1") (diagramsCache s') = Some e' ∧ e' ≠ e ∧
    ∀ c, read_prop (st_heap s') (VRef e') (kind_key c)
         = read_prop (st_heap s) (VRef e) (kind_key c).
Proof.
  intros s0 s.
  assert (match (@listDiagrams scripted None s).1 with
          | Fulfilled _ => True
          | Rejected _ => False
          end) as Hr by (vm_compute; exact I).
  assert (∃ e, map_get (VString "d1") (@diagramsCache scripted s) = Some e
               ∧ (e < length (st_heap s))%nat
               ∧ @cached_objects scripted s) as (e & He & Hlt & Hco).
  { vm_compute. eexists. split; [reflexivity|]. split; [lia|].
    repeat constructor. eexists. reflexivity. }
  destruct (@listDiagrams scripted None s) as [o s'] eqn:E.
  destruct o as [r|x]; [clear Hr|destruct Hr].
  destruct (@listDiagrams_keeps_collections scripted None s s' r eq_refl Hco E)
    as (_ & _ & _ & diagrams & Harr & Hkeep).
  destruct (Hkeep _ _ He) as (e' & He' & Hcoll & _ & Hcase).
  exists e, r, s', e'. split; [exact He|]. split; [reflexivity|].
  split; [exact He'|]. split; [|exact Hcoll].
  destruct Hcase as [[-> Hnone]|[Hnew _]]; [|lia].
  exfalso. clear -Hnone E Harr.
  assert (match (@listDiagrams scripted None s) with
          | (Fulfilled r, s') =>
              match array_items (st_heap s') r with
              | Some [d] => read_prop (st_heap s') d "id" = VString "d1"
              | _ => False
              end
          | _ => False
          end) as Hd by (vm_compute; reflexivity).
  rewrite E, Harr in Hd.
  destruct diagrams as [|d [|? ?]]; try contradiction.
  apply Forall_inv in Hnone. apply Hnone. by rewrite Hd.
Defined.

End CoordinatorListing.

Module CoordinatorFrame.
Import Coordinator CoordinatorFacts CoordinatorCopy.

Create HintDb frame discriminated.

Section Relations.
Context `{Builtins}.

(** ** Cells that exist are never written

    The heap only grows: every cell stays as it is. *)
Definition grows (s s' : state) : Prop :=
  st_heap s `prefix_of` st_heap s'.

#[export] Instance grows_refl : Reflexive grows.
Proof. intros s. unfold grows. done. Qed.
#[export] Instance grows_trans : Transitive grows.
Proof. intros s1 s2 s3 ? ?. unfold grows in *. by etrans. Qed.

Lemma preserves_weaken {A} (R R' : relation state) (m : M A) :
  (∀ s s', R s s' → R' s s') → preserves R m → preserves R' m.
Proof. intros HR Hm s o s' E. by eapply HR, Hm. Qed.

(** The cells of [h0] stay as they are. *)
Definition over (h0 : heap) (s s' : state) : Prop :=
  h0 `prefix_of` st_heap s → h0 `prefix_of` st_heap s'.

#[export] Instance over_refl h0 : Reflexive (over h0).
Proof. intros s Hpre. exact Hpre. Qed.
#[export] Instance over_trans h0 : Transitive (over h0).
Proof. intros s1 s2 s3 H12 H23 H1. by apply H23, H12. Qed.

Lemma grows_over h0 s s' : grows s s' → over h0 s s'.
Proof. intros Hg Hpre. by etrans. Qed.

Lemma preserves_over {A} h0 (m : M A) :
  preserves grows m → preserves (over h0) m.
Proof. apply preserves_weaken, grows_over. Qed.

End Relations.

(** Takes a computation apart along its binds and case distinctions. *)
Ltac frame_known := fail.

Ltac frame :=
  repeat first
    [ match goal with |- ∀ _, _ => intro end
    | progress cbv zeta
    | frame_known
    | solve [auto with frame]
    | apply preserves_over; solve [auto with frame]
    | apply preserves_get_heap
    | apply preserves_ret
    | apply preserves_mret
    | apply preserves_throw
    | apply preserves_gets
    | apply preserves_await
    | apply preserves_or_throw
    | match goal with
      | |- Reflexive _ => tc_solve
      | |- Transitive _ => tc_solve
      end
    | apply preserves_mbind
    | apply preserves_bind
    | apply preserves_modify; intros ?;
        solve [done | by unfold grows | intros Hp; exact Hp]
    | apply preserves_for_each
    | apply preserves_map_each
    | apply preserves_find_first
    | apply preserves_first_owner
    | match goal with
      | |- preserves _ (promise_then _ _) => unfold promise_then
      end
    | match goal with
      | |- preserves _ (match ?x with _ => _ end) => destruct x
      | |- preserves _ (if ?x then _ else _) => destruct x
      end ].


Section Frame.
Context `{Builtins}.

Lemma allocates_grows s s' : allocates s s' → grows s s'.
Proof. by intros [? _]. Qed.

Lemma owners_only_grows s s' : owners_only s s' → grows s s'.
Proof. intros [Hh _]. unfold grows. by rewrite Hh. Qed.

Lemma alloc_grows c : preserves grows (alloc c).
Proof. eapply preserves_weaken; [apply allocates_grows|apply alloc_allocates]. Qed.
Lemma new_Date_now_grows : preserves grows new_Date_now.
Proof.
  eapply preserves_weaken; [apply allocates_grows|apply new_Date_now_allocates].
Qed.
Lemma parse_grows j : preserves grows (parse j).
Proof. eapply preserves_weaken; [apply allocates_grows|apply parse_allocates]. Qed.
Lemma toDiagram_grows v : preserves grows (toDiagram v).
Proof. eapply preserves_weaken; [apply allocates_grows|apply toDiagram_allocates]. Qed.
Lemma serializeDiagram_grows v : preserves grows (serializeDiagram v).
Proof.
  eapply preserves_weaken; [apply allocates_grows|apply serializeDiagram_allocates].
Qed.
Lemma stringify_grows v : preserves grows (stringify v).
Proof. eapply preserves_weaken; [apply allocates_grows|apply stringify_allocates]. Qed.
Lemma cloneDiagram_grows v : preserves grows (cloneDiagram v).
Proof. eapply preserves_weaken; [apply allocates_grows|apply cloneDiagram_allocates]. Qed.
Lemma clearOwnersForDiagram_grows d : preserves grows (clearOwnersForDiagram d).
Proof.
  eapply preserves_weaken; [apply owners_only_grows|].
  apply clearOwnersForDiagram_owners.
Qed.
Lemma indexDiagramOwners_grows d : preserves grows (indexDiagramOwners d).
Proof.
  eapply preserves_weaken; [apply owners_only_grows|].
  apply indexDiagramOwners_owners.
Qed.

Lemma request_grows m p b : preserves grows (request m p b).
Proof.
  intros s o s'. unfold request. destruct (fetch m p b (server s)) as [r srv].
  destruct (request_result r) as [e|[j|]].
  - intros [= <- <-]. unfold grows. done.
  - destruct (alloc_json j (st_heap s)) as [h x] eqn:E.
    intros [= <- <-]. unfold grows. simpl. by eapply alloc_json_prefix.
  - intros [= <- <-]. unfold grows. done.
Qed.

#[local] Hint Resolve alloc_grows new_Date_now_grows parse_grows
  toDiagram_grows serializeDiagram_grows stringify_grows cloneDiagram_grows
  clearOwnersForDiagram_grows indexDiagramOwners_grows request_grows
  : frame.

Lemma setCachedDiagram_grows d : preserves grows (setCachedDiagram d).
Proof. unfold setCachedDiagram, as_loc. frame. Qed.
Lemma removeCachedDiagram_grows id : preserves grows (removeCachedDiagram id).
Proof. unfold removeCachedDiagram. frame. Qed.
#[local] Hint Resolve setCachedDiagram_grows removeCachedDiagram_grows
  : frame.

Lemma enqueueMutation_preserves {T} R `{!Reflexive R} `{!Transitive R}
    id (operation : M T) :
  (∀ f s, R s (set_queue f s)) →
  preserves R operation → preserves R (enqueueMutation id operation).
Proof.
  intros Hq Hop. unfold enqueueMutation, promise_then.
  apply preserves_mbind; try tc_solve; [by apply preserves_gets|].
  intros previous.
  apply preserves_mbind; try tc_solve;
    [apply preserves_modify; intros s; apply Hq|].
  intros _. destruct (promise_catch _ _); [done|by apply preserves_throw].
Qed.

Lemma fetchDiagram_grows id : preserves grows (fetchDiagram id).
Proof. unfold fetchDiagram, cache_get. frame. Qed.
Lemma saveDiagram_grows d : preserves grows (saveDiagram d).
Proof. unfold saveDiagram. frame. Qed.
Lemma serializeAttributes_grows v : preserves grows (serializeAttributes v).
Proof. unfold serializeAttributes. frame. Qed.
Lemma has_entity_grows h d c e : preserves grows (has_entity h d c e).
Proof. unfold has_entity. frame. Qed.
#[local] Hint Resolve fetchDiagram_grows saveDiagram_grows
  serializeAttributes_grows has_entity_grows : frame.
Lemma scan_diagram_grows c e d : preserves grows (scan_diagram c e d).
Proof. unfold scan_diagram. frame. Qed.
#[local] Hint Resolve scan_diagram_grows : frame.
Lemma resolveDiagramIdByEntity_grows e c :
  preserves grows (resolveDiagramIdByEntity e c).
Proof. unfold resolveDiagramIdByEntity. frame. Qed.
Lemma body_of_grows v : preserves grows (body_of v).
Proof. unfold body_of. frame. Qed.
Lemma collection_items_grows d c : preserves grows (collection_items d c).
Proof. unfold collection_items. frame. Qed.
Lemma id_is_grows id item : preserves grows (id_is id item).
Proof. unfold id_is. frame. Qed.
#[local] Hint Resolve resolveDiagramIdByEntity_grows body_of_grows
  collection_items_grows id_is_grows : frame.

(** Writing a member of an object that is none of [h0]. *)
Lemma write_prop_over h0 l k v :
  (length h0 ≤ l)%nat → preserves (over h0) (write_prop (VRef l) k v).
Proof.
  intros Hl s o s'. unfold write_prop.
  destruct (st_heap s !! l) as [[props| |]|] eqn:E;
    try (intros [= <- <-]; reflexivity).
  intros [= <- <-] [rest Hrest]. simpl. rewrite Hrest.
  rewrite insert_app_r_alt by done. by apply prefix_app_r.
Qed.

Lemma store_collection_over h0 l c items :
  (length h0 ≤ l)%nat →
  preserves (over h0) (store_collection (VRef l) c items).
Proof.
  intros Hl. unfold store_collection.
  apply preserves_mbind; [tc_solve..| |].
  - apply preserves_over, alloc_grows.
  - intros array. by apply write_prop_over.
Qed.

(** What [fetchDiagram] returns is a cell that did not exist. *)
Lemma fetchDiagram_new id s r s' :
  fetchDiagram id s = (Fulfilled r, s') →
  ∃ l, r = VRef l ∧ (length (st_heap s) < l < length (st_heap s'))%nat.
Proof.
  unfold fetchDiagram. intros E.
  apply bind_Fulfilled in E as (cached & s0 & E0 & E).
  apply gets_inv in E0 as [[= ->] ->].
  assert (∃ d s1, grows s s1 ∧ cloneDiagram d s1 = (Fulfilled r, s'))
    as (d & s1 & Hg & Ec).
  { destruct (map_get _ _) as [c|]; [by exists (VRef c), s|].
    apply bind_Fulfilled in E as (raw & s1 & E1 & E).
    apply bind_Fulfilled in E as (diagram & s2 & E2 & E).
    apply bind_Fulfilled in E as ([] & s3 & E3 & E).
    exists diagram, s3. split; [|done].
    etrans; [by eapply request_grows|].
    etrans; [by eapply toDiagram_grows|]. by eapply setCachedDiagram_grows. }
  apply cloneDiagram_region in Ec as (c & new & l & _ & _ & -> & Hl).
  exists l. split; [done|]. apply prefix_length in Hg. lia.
Qed.

Lemma mutateDiagram_over h0 id mutator :
  (∀ l, (length h0 ≤ l)%nat → preserves (over h0) (mutator (VRef l))) →
  preserves (over h0) (mutateDiagram id mutator).
Proof.
  intros Hm. unfold mutateDiagram.
  apply enqueueMutation_preserves; [tc_solve..|intros f s0 Hp; exact Hp|].
  intros s o s' E Hpre.
  apply bind_inv in E as [(d & s1 & E1 & E)|(e & E1 & _)].
  2:{ eapply preserves_over; [apply fetchDiagram_grows|done..]. }
  pose proof (fetchDiagram_grows _ _ _ _ E1) as Hg1.
  apply fetchDiagram_new in E1 as (l & -> & Hl).
  assert (h0 `prefix_of` st_heap s1) as Hpre1 by (by etrans).
  assert (length h0 ≤ l)%nat as Hl0 by (apply prefix_length in Hpre; lia).
  apply bind_inv in E as [([] & s2 & E2 & E)|(e & E2 & _)].
  2:{ by eapply (Hm l Hl0). }
  eapply preserves_over; [apply saveDiagram_grows|done|].
  by eapply (Hm l Hl0).
Qed.

Ltac frame_known ::=
  first
    [ apply store_collection_over; solve [done]
    | apply mutateDiagram_over ].

Lemma run_over h0 op : preserves (over h0) (run op).
Proof.
  destruct op; simpl.
  - unfold getConfig. frame.
  - unfold updateConfig. frame.
  - unfold getDiagramFilter, try_catch. apply preserves_over.
    intros s o s'. destruct (request _ _ _ s) as [[v|e] s1] eqn:E;
      intros [= <- <-]; by eapply request_grows.
  - unfold updateDiagramFilter. frame.
  - unfold deleteDiagramFilter. frame.
  - unfold addDiagram. frame.
  - unfold listDiagrams, cache_get. frame.
  - unfold getDiagram. frame.
  - unfold updateDiagram. frame.
  - unfold deleteDiagram. frame.
  - unfold addEntity. frame.
  - unfold getEntity. frame.
  - unfold updateEntity. frame.
  - unfold putTable. frame.
  - unfold deleteEntity. frame.
  - unfold listEntities. frame.
  - unfold deleteDiagramEntities. frame.
Qed.

(** X12. No operation of the storage context writes to an object that existed
    when it was called, be it cached or handed in by the caller: whatever
    the operation and however it ends, every cell of the heap is afterwards
    what it was.  The only writes, the assignments [diagram.tables = ...] of
    the entity operations, go to the copy that [fetchDiagram] has just made. *)
Theorem operations_keep_existing_cells (op : operation) (s : state) :
  st_heap s `prefix_of` st_heap (run op s).2 ∧
  ∀ l c, st_heap s !! l = Some c → st_heap (run op s).2 !! l = Some c.
Proof.
  assert (st_heap s `prefix_of` st_heap (run op s).2) as Hpre.
  { destruct (run op s) as [o s'] eqn:E.
    by apply (run_over (st_heap s) op s o s' E). }
  split; [done|]. intros l c Hl. by eapply prefix_lookup_Some.
Qed.

End Frame.

End CoordinatorFrame.

Module CoordinatorDiagrams.
Import Coordinator CoordinatorFacts CoordinatorCopy
  CoordinatorListing.

Section Diagrams.
Context `{Builtins}.

(** ** [toDate] and [toDiagram] *)

(** [toDate] never throws; it returns its argument when that is a date and
    a new date otherwise. *)
Lemma toDate_total v s :
  ∃ r s', toDate v s = (Fulfilled r, s') ∧
    st_heap s `prefix_of` st_heap s' ∧
    is_Some (date_time (st_heap s') r) ∧
    (is_Some (date_time (st_heap s) v) → r = v ∧ s' = s).
Proof.
  unfold toDate, mbind, M_bind, bind, get_heap, gets.
  destruct (date_time (st_heap s) v) as [t|] eqn:Ed.
  - exists v, s. split; [done|]. split; [done|]. by rewrite Ed.
  - set (parsed := match v with
                   | VString s0 => Date_parse s0
                   | VNumber n => Date_of_number n
                   | _ => None
                   end).
    destruct parsed as [t|]; eexists _, _; (split; [reflexivity|]); simpl;
      rewrite lookup_app_r, Nat.sub_diag by done; simpl;
      (split; [by apply prefix_app_r|]); (split; [done|]);
      by intros [? ?].
Qed.

(** The members of the object that [toDiagram] makes of the members [raw]
    of its argument and the two dates. *)
Definition diagram_props (h : heap) (raw : string → val) (createdAt updatedAt : val)
    : list (string * val) :=
  ([("id", VString (String_ h (nullish (raw "id") (VString ""))));
    ("name", VString (String_ h (nullish (raw "name") (VString ""))));
    ("databaseType",
     VString (String_ h (nullish (raw "databaseType") (VString "generic"))));
    ("databaseEdition",
     if is_string (raw "databaseEdition") then raw "databaseEdition"
     else VUndefined)]
   ++ ((λ c : kind,
          (kind_key c,
           match array_items h (raw (kind_key c)) with
           | Some _ => raw (kind_key c)
           | None => VUndefined
           end)) <$> kinds)
   ++ [("createdAt", createdAt); ("updatedAt", updatedAt)])%list.

Lemma diagram_props_ext h raw raw' ca ua :
  (∀ k, raw k = raw' k) →
  diagram_props h raw ca ua = diagram_props h raw' ca ua.
Proof.
  intros Hr. unfold diagram_props. rewrite !Hr. do 2 f_equal.
  apply list_fmap_ext. intros _ c _. by rewrite Hr.
Qed.

Definition raw_of (h : heap) (value : val) (k : string) : val :=
  match value with
  | VUndefined | VNull => VUndefined
  | _ => read_prop h value k
  end.

Lemma toDiagram_cell value s r s' :
  toDiagram value s = (Fulfilled r, s') →
  ∃ ca s1 ua s2,
    toDate (raw_of (st_heap s) value "createdAt") s = (Fulfilled ca, s1) ∧
    toDate (raw_of (st_heap s) value "updatedAt") s1 = (Fulfilled ua, s2) ∧
    r = VRef (length (st_heap s2)) ∧
    s' = set_heap
           (λ h, (h ++ [CObject (diagram_props (st_heap s)
                                   (raw_of (st_heap s) value) ca ua)])%list) s2.
Proof.
  unfold toDiagram. intros E.
  apply bind_Fulfilled in E as (h0 & s0 & E0 & E).
  apply gets_inv in E0 as [[= ->] ->]. cbv zeta in E.
  apply bind_Fulfilled in E as (ca & s1 & E1 & E).
  apply bind_Fulfilled in E as (ua & s2 & E2 & E).
  apply alloc_inv in E as [[= ->] ->]. by exists ca, s1, ua, s2.
Qed.

Lemma toDiagram_unfold value s :
  toDiagram value s =
  match toDate (raw_of (st_heap s) value "createdAt") s with
  | (Fulfilled ca, s1) =>
      match toDate (raw_of (st_heap s) value "updatedAt") s1 with
      | (Fulfilled ua, s2) =>
          (Fulfilled (VRef (length (st_heap s2))),
           set_heap
             (λ h, (h ++ [CObject (diagram_props (st_heap s)
                                     (raw_of (st_heap s) value) ca ua)])%list) s2)
      | (Rejected e, s2) => (Rejected e, s2)
      end
  | (Rejected e, s1) => (Rejected e, s1)
  end.
Proof. reflexivity. Qed.

Lemma toDiagram_total value s :
  ∃ r s', toDiagram value s = (Fulfilled r, s').
Proof.
  destruct (toDate_total (raw_of (st_heap s) value "createdAt") s)
    as (ca & s1 & E1 & _).
  destruct (toDate_total (raw_of (st_heap s) value "updatedAt") s1)
    as (ua & s2 & E2 & _).
  rewrite toDiagram_unfold, E1, E2. by eexists _, _.
Qed.


End Diagrams.

End CoordinatorDiagrams.

Module CoordinatorCache.
Import Coordinator CoordinatorFacts CoordinatorCopy
  CoordinatorListing CoordinatorFrame.

Section Cache.
Context `{Builtins}.

(** ** [getDiagram] *)

(** X14. [getDiagram] hands out the copy made by [fetchDiagram] when something is
    to be included, and otherwise a new object with the six summary members
    of that copy and nothing else: no collection is ever part of it. *)
Theorem getDiagram_returns_summary (id : string)
    (options : option DiagramListOptions) (s s' : state) (r : val) :
  getDiagram id options s = (Fulfilled r, s') →
  ∃ d s1,
    fetchDiagram id s = (Fulfilled d, s1) ∧
    if hasIncludeOptions options then r = d ∧ s' = s1
    else
      r = VRef (length (st_heap s1)) ∧ r ≠ d ∧
      (∃ props, st_heap s' = (st_heap s1 ++ [CObject props])%list) ∧
      diagramsCache s' = diagramsCache s1 ∧ owners s' = owners s1 ∧
      calls s' = calls s1 ∧
      (∀ key, key ∈ summary_keys →
         read_prop (st_heap s') r key = read_prop (st_heap s') d key) ∧
      (∀ key, key ∉ summary_keys → read_prop (st_heap s') r key = VUndefined) ∧
      (∀ c, read_prop (st_heap s') r (kind_key c) = VUndefined).
Proof.
  unfold getDiagram. intros E.
  apply bind_Fulfilled in E as (d & s1 & E1 & E). exists d, s1.
  split; [done|]. destruct (hasIncludeOptions options).
  { by apply ret_inv in E as [[= ->] ->]. }
  apply bind_Fulfilled in E as (h & s0 & E0 & E).
  apply gets_inv in E0 as [[= ->] ->].
  apply alloc_inv in E as [[= ->] Hs'].
  apply fetchDiagram_new in E1 as (l & -> & Hl).
  set (P := define_props [] (summary (st_heap s1) (VRef l))) in *.
  assert (st_heap s' = (st_heap s1 ++ [CObject P])%list) as Hh'
    by (by rewrite Hs').
  assert (∀ key, read_prop (st_heap s') (VRef (length (st_heap s1))) key
                 = default VUndefined (get_prop key P)) as Hread.
  { intros key. rewrite Hh'. simpl.
    by rewrite lookup_app_r, Nat.sub_diag by done. }
  split; [done|]. split; [intros [= <-]; lia|]. split; [by exists P|].
  do 3 (split; [by rewrite Hs'|]).
  assert (∀ key, key ∉ summary_keys →
            default VUndefined (get_prop key P) = VUndefined) as Hother.
  { intros key Hkey. unfold P. by rewrite get_prop_summary_other. }
  split; [|split].
  - intros key Hkey. rewrite Hread. unfold P.
    rewrite get_prop_summary by done. simpl. symmetry.
    apply (read_prop_prefix (st_heap s1)); [|lia].
    rewrite Hh'. by apply prefix_app_r.
  - intros key Hkey. rewrite Hread. by apply Hother.
  - intros c. rewrite Hread. apply Hother, kind_key_not_summary.
Qed.

(** ** [deleteDiagram] *)

Lemma assoc_get_delete {K V} `{EqDecision K} (k k' : K) (m : list (K * V)) :
  assoc_get k (assoc_delete k' m) =
  if decide (k = k') then None else assoc_get k m.
Proof.
  unfold assoc_delete. induction m as [|[k0 v0] m IH]; simpl.
  - by destruct (decide (k = k')).
  - rewrite filter_cons. simpl. destruct (decide (k0 ≠ k')) as [Hk|Hk]; simpl.
    + rewrite IH. destruct (decide (k = k0)) as [->|]; [|done].
      by rewrite decide_False.
    + apply dec_stable in Hk. subst k0. rewrite IH.
      by destruct (decide (k = k')).
Qed.

Lemma map_get_delete {V} k k' (m : list (val * V)) :
  map_get k (map_delete k' m) =
  if decide (map_key k = map_key k') then None else map_get k m.
Proof. apply assoc_get_delete. Qed.

Lemma clear_items c h xs :
  ∀ s u s',
    for_each (λ item, id ← await (member h item "id");
                      modify (set_owners c (map_delete id))) xs s
    = (Fulfilled u, s') →
    (∀ x, map_get x (owners s c) = None → map_get x (owners s' c) = None) ∧
    (∀ item x, item ∈ xs → member h item "id" = Fulfilled x →
       map_get x (owners s' c) = None).
Proof.
  induction xs as [|item xs IH]; intros s u s'; cbn [for_each].
  - intros [_ ->]%ret_inv. split; [done|]. by intros item x ?%elem_of_nil.
  - intros E. apply bind_Fulfilled in E as ([] & s1 & E1 & E).
    apply bind_Fulfilled in E1 as (x & sa & E0 & E1).
    apply await_Fulfilled in E0 as [Hx ->].
    apply modify_inv in E1 as [_ ->].
    apply IH in E as (Hkeep & Hall).
    assert (∀ y, map_get y (owners s c) = None ∨ map_key y = map_key x →
              map_get y (owners (set_owners c (map_delete x) s) c) = None)
      as Hstep.
    { intros y Hy. simpl. rewrite decide_True by done.
      rewrite map_get_delete. destruct (decide _); [done|]. by destruct Hy. }
    split; [intros y Hy; apply Hkeep, Hstep; by left|].
    intros it y [->|Hit]%elem_of_cons Hy; [|by eapply Hall].
    apply Hkeep, Hstep. right. congruence.
Qed.

Lemma clear_kinds d ks :
  ∀ s u s',
    for_each
      (λ c, for_each_id d c (λ id, modify (set_owners c (map_delete id))))
      ks s = (Fulfilled u, s') →
    (∀ c x, map_get x (owners s c) = None → map_get x (owners s' c) = None) ∧
    (∀ c items item x, c ∈ ks →
       array_items (st_heap s) (read_prop (st_heap s) d (kind_key c)) = Some items →
       item ∈ items → member (st_heap s) item "id" = Fulfilled x →
       map_get x (owners s' c) = None).
Proof.
  induction ks as [|k ks IH]; intros s u s'; cbn [for_each].
  - intros [_ ->]%ret_inv. split; [done|].
    by intros c items item x ?%elem_of_nil.
  - intros E. apply bind_Fulfilled in E as ([] & s1 & E1 & E).
    assert (owners_only s s1) as [Hh1 _].
    { assert (preserves owners_only
                (for_each_id d k
                   (λ id, modify (set_owners k (map_delete id))))) as Hp.
      { apply preserves_for_each_id; [tc_solve..|]. intros id.
        apply preserves_modify. by intros s0. }
      by eapply Hp. }
    apply IH in E as (Hkeep & Hall). rewrite Hh1 in Hall.
    unfold for_each_id in E1.
    apply bind_Fulfilled in E1 as (h & s0 & E0 & E1).
    apply gets_inv in E0 as [[= ->] ->].
    assert ((∀ x, map_get x (owners s k) = None → map_get x (owners s1 k) = None)
            ∧ (∀ c, c ≠ k → owners s1 c = owners s c)
            ∧ ∀ items item x,
                array_items (st_heap s) (read_prop (st_heap s) d (kind_key k))
                  = Some items →
                item ∈ items → member (st_heap s) item "id" = Fulfilled x →
                map_get x (owners s1 k) = None) as (Hk1 & Hother & Hk2).
    { assert (∀ xs s2 u2 s3,
                for_each (λ item, id ← await (member (st_heap s) item "id");
                                  modify (set_owners k (map_delete id))) xs s2
                = (Fulfilled u2, s3) → ∀ c, c ≠ k → owners s3 c = owners s2 c)
        as Hfr.
      { induction xs as [|y xs IHx]; intros s2 u2 s3; cbn [for_each].
        - by intros [_ ->]%ret_inv.
        - intros E2 c Hc. apply bind_Fulfilled in E2 as ([] & s4 & E4 & E2).
          apply bind_Fulfilled in E4 as (x & sa & E0 & E4).
          apply await_Fulfilled in E0 as [_ ->].
          apply modify_inv in E4 as [_ ->].
          rewrite (IHx _ _ _ E2 c Hc). simpl. by rewrite decide_False. }
      destruct (read_prop (st_heap s) d (kind_key k)) as [| | | | |l] eqn:Hr;
        try (apply ret_inv in E1 as [_ ->]; by repeat split).
      all: apply bind_Fulfilled in E1 as (xs & s2 & E2 & E1);
        apply or_throw_Fulfilled in E2 as [Hxs ->]; try discriminate Hxs.
      pose proof (Hfr _ _ _ _ E1) as Hother.
      apply clear_items in E1 as (Hk1 & Hk2).
      split; [done|]. split; [done|]. intros items item x Hitems Hin Hx.
      rewrite Hxs in Hitems. injection Hitems as <-. by eapply Hk2. }
    assert (∀ c x, map_get x (owners s c) = None → map_get x (owners s1 c) = None)
      as Hstep.
    { intros c x Hx. destruct (decide (c = k)) as [->|Hne]; [by apply Hk1|].
      by rewrite Hother. }
    split; [intros c x Hx; by apply Hkeep, Hstep|].
    intros c items item x [->|Hc]%elem_of_cons Hitems Hin Hx.
    + apply Hkeep. by eapply Hk2.
    + by eapply Hall.
Qed.

Lemma enqueueMutation_runs {T} id (operation : M T) s :
  enqueueMutation id operation s
  = operation (set_queue (map_set (VString id) (Fulfilled tt)) s).
Proof.
  unfold enqueueMutation, mbind, M_bind, bind, gets, modify. simpl.
  by destruct (default _ _).
Qed.

Lemma request_inv m p b s o s' :
  request m p b s = (o, s') →
  st_heap s `prefix_of` st_heap s' ∧
  diagramsCache s' = diagramsCache s ∧ owners s' = owners s ∧
  mutationQueue s' = mutationQueue s ∧
  ∃ result, calls s' = (calls s ++ [result])%list ∧
    match o with
    | Fulfilled _ => result = None
    | Rejected e => result = Some e
    end.
Proof.
  intros E. split; [by eapply request_grows|]. revert E.
  unfold request. destruct (fetch m p b (server s)) as [r srv].
  destruct (request_result r) as [e|[j|]].
  - intros [= <- <-]. simpl. repeat split. by eexists.
  - destruct (alloc_json j (st_heap s)) as [h x].
    intros [= <- <-]. simpl. repeat split. by eexists.
  - intros [= <- <-]. simpl. repeat split. by eexists.
Qed.

(** X15. [deleteDiagram] asks the store once.  When it fulfils, the request
    succeeded and the diagram is forgotten: nothing is cached or queued for
    the id any more, every other cache entry is as before, and no owner
    index knows an element of the collections that were cached for it.
    When it is rejected, the cache is as it was, also in the case that the
    store did delete the document and only the owner indices could not be
    cleared. *)
Theorem deleteDiagram_forgets (id : string) (s s' : state) (o : outcome val) :
  deleteDiagram id s = (o, s') →
  st_heap s `prefix_of` st_heap s' ∧
  ∃ result, calls s' = (calls s ++ [result])%list ∧
    match o with
    | Fulfilled v =>
        v = VUndefined ∧ result = None ∧
        map_get (VString id) (diagramsCache s') = None ∧
        map_get (VString id) (mutationQueue s') = None ∧
        (∀ k, map_key k ≠ VString id →
           map_get k (diagramsCache s') = map_get k (diagramsCache s)) ∧
        (∀ e c items item x,
           map_get (VString id) (diagramsCache s) = Some e →
           array_items (st_heap s') (read_prop (st_heap s') (VRef e) (kind_key c))
             = Some items →
           item ∈ items → member (st_heap s') item "id" = Fulfilled x →
           map_get x (owners s' c) = None)
    | Rejected e =>
        diagramsCache s' = diagramsCache s ∧
        (result = Some e ∨ result = None)
    end.
Proof.
  unfold deleteDiagram. intros E.
  assert (∃ o1 s1,
            (request DELETE (Diagram id) None;; removeCachedDiagram id)
              (set_queue (map_set (VString id) (Fulfilled tt)) s) = (o1, s1)
            ∧ s' = s1
            ∧ o = match o1 with
                  | Fulfilled _ => Fulfilled VUndefined
                  | Rejected e => Rejected e
                  end) as (o1 & s1 & E1 & -> & ->).
  { apply bind_inv in E as [(v & s1 & E1 & E)|(e & E1 & ->)];
      rewrite enqueueMutation_runs in E1.
    - apply ret_inv in E as [-> ->]. by exists (Fulfilled v), s1.
    - by exists (Rejected e), s'. }
  set (s0 := set_queue (map_set (VString id) (Fulfilled tt)) s) in *.
  apply bind_inv in E1 as [(v & sr & Er & E1)|(e & Er & ->)].
  2:{ apply request_inv in Er as (Hg & Hc & _ & _ & result & Hcalls & ->).
      split; [done|]. exists (Some e). split; [done|]. split; [done|by left]. }
  apply request_inv in Er as (Hg & Hc & Ho & Hq & result & Hcalls & ->).
  assert (st_heap s `prefix_of` st_heap s1 ∧ calls s1 = calls sr) as [Hg1 Hcl1].
  { split.
    - etrans; [exact Hg|]. by eapply removeCachedDiagram_grows.
    - revert E1. unfold removeCachedDiagram. intros E1.
      apply bind_inv in E1 as [(ex & sa & Ea & E1)|(e & Ea & _)];
        [|discriminate Ea].
      apply gets_inv in Ea as [[= ->] ->].
      apply bind_inv in E1 as [([] & sb & Eb & E1)|(e & Eb & _)].
      + assert (calls sb = calls sr) as <-.
        { destruct (map_get _ _);
            [by eapply clearOwnersForDiagram_owners|
             by apply ret_inv in Eb as [_ ->]]. }
        apply bind_inv in E1 as [([] & sc & Ec & E1)|(e & Ec & _)];
          [|discriminate Ec].
        apply modify_inv in Ec as [_ ->].
        by apply modify_inv in E1 as [_ ->].
      + destruct (map_get _ _);
          [by eapply clearOwnersForDiagram_owners|discriminate Eb]. }
  split; [done|]. exists None. split; [by rewrite Hcl1|].
  unfold removeCachedDiagram in E1.
  apply bind_inv in E1 as [(ex & sa & Ea & E1)|(e & Ea & _)];
    [|discriminate Ea].
  apply gets_inv in Ea as [[= ->] ->].
  apply bind_inv in E1 as [([] & sb & Eb & E1)|(e & Eb & ->)].
  2:{ split; [|by right].
      destruct (map_get _ _); [|discriminate Eb].
      apply clearOwnersForDiagram_owners in Eb as (_ & -> & _). done. }
  apply bind_inv in E1 as [([] & sc & Ec & E1)|(e & Ec & _)];
    [|discriminate Ec].
  apply modify_inv in Ec as [_ ->]. apply modify_inv in E1 as [-> ->].
  assert (st_heap sb = st_heap sr ∧ diagramsCache sb = diagramsCache s) as [Hhb Hcb].
  { destruct (map_get _ _).
    - apply clearOwnersForDiagram_owners in Eb as (-> & -> & _). by rewrite Hc.
    - apply ret_inv in Eb as [_ ->]. by rewrite Hc. }
  simpl. rewrite Hcb, Hhb. split; [done|]. split; [done|].
  split; [rewrite map_get_delete; by rewrite decide_True|].
  split; [rewrite map_get_delete; by rewrite decide_True|].
  split.
  { intros k Hk. rewrite map_get_delete. by rewrite decide_False. }
  intros e c items item x He Hitems Hin Hx.
  rewrite Hc in Eb. change (diagramsCache s0) with (diagramsCache s) in Eb.
  rewrite He in Eb. unfold clearOwnersForDiagram in Eb.
  apply clear_kinds in Eb as [_ Hall].
  apply (Hall c items item x); [|done..].
  unfold kinds. destruct c; repeat constructor.
Qed.

End Cache.

Lemma getDiagram_returns_summary_witness :
  let s := @mounted scripted
    [Response 200 (Some (JObject
       [("id", JString "d1"); ("name", JString "Shop");
        ("tables", JArray [JObject [("id", JString "t1");
                                    ("name", JString "users")]])]))] in
  ∃ r s',
    @getDiagram scripted "d1" None s = (Fulfilled r, s') ∧
    (∀ c, read_prop (st_heap s') r (kind_key c) = VUndefined) ∧
    ∃ e, map_get (VString "d1") (diagramsCache s') = Some e ∧
         is_Some (array_items (st_heap s') (read_prop (st_heap s') (VRef e) "tables")).
Proof.
  intros s.
  assert (match @getDiagram scripted "d1" None s with
          | (Fulfilled _, s') =>
              match map_get (VString "d1") (diagramsCache s') with
              | Some e =>
                  match array_items (st_heap s')
                          (read_prop (st_heap s') (VRef e) "tables") with
                  | Some _ => True
                  | None => False
                  end
              | None => False
              end
          | _ => False
          end) as Hr by (vm_compute; exact I).
  destruct (@getDiagram scripted "d1" None s) as [o s'] eqn:E.
  destruct o as [r|x]; [|destruct Hr].
  exists r, s'. split; [reflexivity|].
  destruct (@getDiagram_returns_summary scripted "d1" None s s' r E)
    as (d & s1 & _ & Hsum).
  cbv beta iota delta [hasIncludeOptions] in Hsum.
  destruct Hsum as (_ & _ & _ & _ & _ & _ & _ & _ & Hcoll).
  split; [exact Hcoll|].
  destruct (map_get (VString "d1") (diagramsCache s')) as [e|]; [|destruct Hr].
  exists e. split; [reflexivity|].
  destruct (array_items _ _) as [items|]; [by exists items|destruct Hr].
Defined.

Lemma deleteDiagram_forgets_witness :
  let s0 := @mounted scripted
    [Response 200 (Some (JObject
       [("id", JString "d1"); ("name", JString "Shop");
        ("tables", JArray [JObject [("id", JString "t1");
                                    ("name", JString "users")]])]));
     Response 204 None] in
  let s := (@fetchDiagram scripted "d1" s0).2 in
  is_Some (map_get (VString "d1") (@diagramsCache scripted s)) ∧
  ∃ s', @deleteDiagram scripted "d1" s = (Fulfilled VUndefined, s') ∧
        map_get (VString "d1") (diagramsCache s') = None ∧
        map_get (VString "d1") (mutationQueue s') = None.
Proof.
  intros s0 s.
  split; [vm_compute; by eexists|].
  assert (match (@deleteDiagram scripted "d1" s).1 with
          | Fulfilled _ => True
          | Rejected _ => False
          end) as Hr by (vm_compute; exact I).
  destruct (@deleteDiagram scripted "d1" s) as [o s'] eqn:E.
  destruct o as [v|x]; [|destruct Hr].
  destruct (@deleteDiagram_forgets scripted "d1" s s' (Fulfilled v) E)
    as (_ & result & _ & -> & _ & Hcache & Hqueue & _).
  exists s'. split; [reflexivity|]. split; [exact Hcache|exact Hqueue].
Defined.

End CoordinatorCache.

Module CoordinatorInvariant.
Import Coordinator CoordinatorFacts
  CoordinatorCopy CoordinatorListing CoordinatorFrame CoordinatorCache.

Section Relations.
Context `{Builtins}.

(** ** What the cache holds

    An object stays an object. *)
Definition objects_stay (s s' : state) : Prop :=
  ∀ d, is_object (st_heap s) d → is_object (st_heap s') d.

(** Whatever is cached afterwards was cached before or is an object. *)
Definition caches (s s' : state) : Prop :=
  objects_stay s s' ∧
  ∀ e, e ∈ diagramsCache s' →
    e ∈ diagramsCache s ∨ is_object (st_heap s') (VRef e.2).

#[export] Instance caches_refl : Reflexive caches.
Proof. intros s. split; [by intros d|]. intros e He. by left. Qed.
#[export] Instance caches_trans : Transitive caches.
Proof.
  intros s1 s2 s3 [Ho12 Hc12] [Ho23 Hc23]. split.
  - intros d Hd. by apply Ho23, Ho12.
  - intros e He. destruct (Hc23 e He) as [He2|?]; [|by right].
    destruct (Hc12 e He2) as [?|Hobj]; [by left|]. right. by apply Ho23.
Qed.

(** The heap grows and the cache stays as it is. *)
Definition quiet (s s' : state) : Prop :=
  st_heap s `prefix_of` st_heap s' ∧ diagramsCache s' = diagramsCache s.

#[export] Instance quiet_refl : Reflexive quiet.
Proof. by intros s. Qed.
#[export] Instance quiet_trans : Transitive quiet.
Proof.
  intros s1 s2 s3 [Hh12 Hc12] [Hh23 Hc23]. split; [by etrans|congruence].
Qed.

Lemma quiet_caches s s' : quiet s s' → caches s s'.
Proof.
  intros [Hh Hc]. split.
  - intros d. by apply is_object_prefix.
  - intros e He. left. by rewrite <- Hc.
Qed.

Lemma preserves_quiet_caches {A} (m : M A) :
  preserves quiet m → preserves caches m.
Proof. apply preserves_weaken, quiet_caches. Qed.

(** [m] keeps [R] when started where [P] holds. *)
Definition preserves_if {A} (P : state → Prop) (R : relation state) (m : M A)
    : Prop :=
  ∀ s o s', P s → m s = (o, s') → R s s'.

Lemma preserves_if_weaken {A} P R (m : M A) :
  preserves R m → preserves_if P R m.
Proof. intros Hm s o s' _ E. by eapply Hm. Qed.

Lemma preserves_if_bind {A B} P R `{!Transitive R} (m : M A) (k : A → M B) :
  preserves_if P R m → (∀ a, preserves R (k a)) →
  preserves_if P R (x ← m; k x).
Proof.
  intros Hm Hk s o s' HP E.
  apply bind_inv in E as [(a & s1 & E1 & E)|(e & E1 & _)].
  - etrans; [by eapply Hm|by eapply Hk].
  - by eapply Hm.
Qed.

Lemma preserves_if_keep {A B} (P : state → Prop) R `{!Transitive R}
    (m : M A) (k : A → M B) :
  (∀ s s', R s s' → P s → P s') →
  preserves R m → (∀ a, preserves_if P R (k a)) →
  preserves_if P R (x ← m; k x).
Proof.
  intros Hstable Hm Hk s o s' HP E.
  apply bind_inv in E as [(a & s1 & E1 & E)|(e & E1 & _)].
  - pose proof (Hm _ _ _ E1) as H1. etrans; [exact H1|].
    eapply Hk; [|exact E]. by eapply Hstable.
  - by eapply Hm.
Qed.

End Relations.

Section Invariant.
Context `{Builtins}.

Lemma allocates_quiet s s' : allocates s s' → quiet s s'.
Proof. by intros (? & ? & _). Qed.
Lemma owners_only_quiet s s' : owners_only s s' → quiet s s'.
Proof. intros (Hh & Hc & _). split; [by rewrite Hh|done]. Qed.

Lemma alloc_quiet c : preserves quiet (alloc c).
Proof. eapply preserves_weaken; [apply allocates_quiet|apply alloc_allocates]. Qed.
Lemma new_Date_now_quiet : preserves quiet new_Date_now.
Proof.
  eapply preserves_weaken; [apply allocates_quiet|apply new_Date_now_allocates].
Qed.
Lemma parse_quiet j : preserves quiet (parse j).
Proof. eapply preserves_weaken; [apply allocates_quiet|apply parse_allocates]. Qed.
Lemma toDiagram_quiet v : preserves quiet (toDiagram v).
Proof. eapply preserves_weaken; [apply allocates_quiet|apply toDiagram_allocates]. Qed.
Lemma serializeDiagram_quiet v : preserves quiet (serializeDiagram v).
Proof.
  eapply preserves_weaken; [apply allocates_quiet|apply serializeDiagram_allocates].
Qed.
Lemma stringify_quiet v : preserves quiet (stringify v).
Proof. eapply preserves_weaken; [apply allocates_quiet|apply stringify_allocates]. Qed.
Lemma cloneDiagram_quiet v : preserves quiet (cloneDiagram v).
Proof. eapply preserves_weaken; [apply allocates_quiet|apply cloneDiagram_allocates]. Qed.
Lemma clearOwnersForDiagram_quiet d : preserves quiet (clearOwnersForDiagram d).
Proof.
  eapply preserves_weaken; [apply owners_only_quiet|].
  apply clearOwnersForDiagram_owners.
Qed.
Lemma indexDiagramOwners_quiet d : preserves quiet (indexDiagramOwners d).
Proof.
  eapply preserves_weaken; [apply owners_only_quiet|].
  apply indexDiagramOwners_owners.
Qed.
Lemma request_quiet m p b : preserves quiet (request m p b).
Proof. intros s o s' E. by apply request_inv in E as (? & ? & _). Qed.
Lemma set_owners_quiet c f : preserves quiet (modify (set_owners c f)).
Proof. by intros s o s' [= <- <-]. Qed.
Lemma set_queue_quiet f : preserves quiet (modify (set_queue f)).
Proof. by intros s o s' [= <- <-]. Qed.

#[local] Hint Resolve alloc_quiet new_Date_now_quiet parse_quiet
  toDiagram_quiet serializeDiagram_quiet stringify_quiet cloneDiagram_quiet
  clearOwnersForDiagram_quiet indexDiagramOwners_quiet request_quiet
  set_owners_quiet set_queue_quiet : frame.

Lemma serializeAttributes_quiet v : preserves quiet (serializeAttributes v).
Proof. unfold serializeAttributes. frame. Qed.
Lemma has_entity_quiet h d c e : preserves quiet (has_entity h d c e).
Proof. unfold has_entity. frame. Qed.
#[local] Hint Resolve serializeAttributes_quiet has_entity_quiet : frame.
Lemma scan_diagram_quiet c e d : preserves quiet (scan_diagram c e d).
Proof. unfold scan_diagram. frame. Qed.
Lemma body_of_quiet v : preserves quiet (body_of v).
Proof. unfold body_of. frame. Qed.
Lemma collection_items_quiet d c : preserves quiet (collection_items d c).
Proof. unfold collection_items. frame. Qed.
Lemma id_is_quiet id item : preserves quiet (id_is id item).
Proof. unfold id_is. frame. Qed.
#[local] Hint Resolve scan_diagram_quiet body_of_quiet collection_items_quiet
  id_is_quiet : frame.

(** Writing a member of an object leaves it an object. *)
Lemma write_prop_caches d k v : preserves caches (write_prop d k v).
Proof.
  intros s o s'. unfold write_prop. destruct d as [| | | | |l];
    try (intros [= <- <-]; reflexivity).
  destruct (st_heap s !! l) as [[props| |]|] eqn:E;
    try (intros [= <- <-]; reflexivity).
  intros [= <- <-]. split; [|intros e He; by left].
  intros d (l' & ps & -> & Hl'). simpl.
  destruct (decide (l' = l)) as [->|Hne].
  - eexists l, _. split; [done|]. apply list_lookup_insert_eq.
    by eapply lookup_lt_Some.
  - exists l', ps. split; [done|]. by rewrite list_lookup_insert_ne.
Qed.

Lemma setCachedDiagram_caches d :
  preserves_if (λ s, is_object (st_heap s) d) caches (setCachedDiagram d).
Proof.
  intros s o s' Hd E. unfold setCachedDiagram in E.
  apply bind_inv in E as [(h & s0 & E0 & E)|(e & E0 & _)]; [|discriminate E0].
  apply gets_inv in E0 as [[= ->] ->]. cbv zeta in E.
  apply bind_inv in E as [(previous & s0 & E0 & E)|(e & E0 & _)];
    [|discriminate E0].
  apply gets_inv in E0 as [_ ->].
  assert (∀ o1 s1,
            match previous with
            | Some p => clearOwnersForDiagram (VRef p)
            | None => ret ()
            end s = (o1, s1) → owners_only s s1) as Hclear.
  { intros o1 s1 E1. destruct previous;
      [by eapply clearOwnersForDiagram_owners|].
    apply ret_inv in E1 as [_ ->]. reflexivity. }
  apply bind_inv in E as [([] & s1 & E1 & E)|(e & E1 & _)].
  2:{ apply quiet_caches, owners_only_quiet. by eapply Hclear. }
  apply Hclear in E1 as (Hh1 & Hc1 & _).
  destruct Hd as (l & props & -> & Hl).
  apply bind_inv in E as [(l' & s2 & E2 & E)|(e & E2 & _)];
    [|discriminate E2].
  apply ret_inv in E2 as [[= ->] ->].
  assert (∀ o3, (modify (set_cache (map_set (read_prop (st_heap s) (VRef l) "id") l));;
                 indexDiagramOwners (VRef l)) s1 = (o3, s') →
            st_heap s' = st_heap s ∧
            diagramsCache s'
            = map_set (read_prop (st_heap s) (VRef l) "id") l (diagramsCache s))
    as Hrest.
  { intros o3 E3.
    apply bind_inv in E3 as [([] & s3 & E3 & E4)|(e & E3 & _)];
      [|discriminate E3].
    apply modify_inv in E3 as [_ ->].
    apply indexDiagramOwners_owners in E4 as (Hh4 & Hc4 & _).
    simpl in Hh4, Hc4. by rewrite Hh4, Hc4, Hh1, Hc1. }
  apply Hrest in E as [Hh Hc]. split.
  - intros d. by rewrite Hh.
  - intros e. rewrite Hc, Hh.
    intros [->|He]%elem_of_assoc_set; [right; by exists l, props|by left].
Qed.

Lemma removeCachedDiagram_caches id : preserves caches (removeCachedDiagram id).
Proof.
  assert (preserves caches
            (modify (set_cache (map_delete (VString id))))) as Hdel.
  { intros s o s' [= <- <-]. split; [by intros d|]. intros e He. left.
    simpl in He. unfold map_delete, assoc_delete in He.
    by apply list_elem_of_filter in He as [_ He]. }
  unfold removeCachedDiagram, cache_get.
  apply preserves_mbind; [tc_solve| |]; [apply preserves_gets; tc_solve|].
  intros existing.
  apply preserves_mbind; [tc_solve| |].
  { destruct existing; [|apply preserves_ret; tc_solve].
    apply preserves_quiet_caches, clearOwnersForDiagram_quiet. }
  intros _. apply preserves_mbind; [tc_solve|exact Hdel|].
  intros _. apply preserves_quiet_caches, set_queue_quiet.
Qed.

Lemma is_object_stable d s s' :
  caches s s' → is_object (st_heap s) d → is_object (st_heap s') d.
Proof. intros [Ho _]. apply Ho. Qed.

(** What [toDiagram] returns may be cached. *)
Lemma bind_toDiagram_caches {B} raw (f : val → M B) :
  (∀ d, preserves_if (λ s, is_object (st_heap s) d) caches (f d)) →
  preserves caches (d ← toDiagram raw; f d).
Proof.
  intros Hf s o s' E.
  apply bind_inv in E as [(d & s1 & E1 & E)|(e & E1 & _)].
  - apply toDiagram_object in E1 as [Ha Hd].
    etrans; [apply quiet_caches, allocates_quiet, Ha|]. by eapply Hf.
  - apply quiet_caches. by eapply toDiagram_quiet.
Qed.

(** So may a new object. *)
Lemma bind_alloc_caches {B} props (f : val → M B) :
  (∀ d, preserves_if (λ s, is_object (st_heap s) d) caches (f d)) →
  preserves caches (d ← alloc (CObject props); f d).
Proof.
  intros Hf s o s' E.
  apply bind_inv in E as [(d & s1 & E1 & E)|(e & E1 & _)]; [|discriminate E1].
  pose proof (alloc_quiet _ _ _ _ E1) as Hq.
  apply alloc_inv in E1 as [[= ->] ->].
  etrans; [by apply quiet_caches|]. eapply Hf; [|exact E].
  eexists _, _. split; [done|]. simpl.
  by rewrite lookup_app_r, Nat.sub_diag by done.
Qed.

Lemma map_each_toDiagram_caches {B} raws (f : list val → M B) :
  (∀ ds, preserves_if (λ s, Forall (is_object (st_heap s)) ds) caches (f ds)) →
  preserves caches (ds ← map_each toDiagram raws; f ds).
Proof.
  intros Hf s o s' E.
  apply bind_inv in E as [(ds & s1 & E1 & E)|(e & E1 & _)].
  - apply map_each_toDiagram in E1 as [Ha Hds].
    etrans; [apply quiet_caches, allocates_quiet, Ha|]. by eapply Hf.
  - apply quiet_caches.
    eapply (preserves_map_each quiet); [|exact E1]. apply toDiagram_quiet.
Qed.

Lemma for_each_if {A} (P : A → state → Prop) (body : A → M unit) xs :
  (∀ x s s', caches s s' → P x s → P x s') →
  (∀ x, preserves_if (P x) caches (body x)) →
  preserves_if (λ s, Forall (λ x, P x s) xs) caches (for_each body xs).
Proof.
  intros Hstable Hbody. induction xs as [|x xs IH]; cbn [for_each].
  - intros s o s' _ [_ ->]%ret_inv. reflexivity.
  - intros s o s' [Hx Hxs]%Forall_cons E.
    apply bind_inv in E as [([] & s1 & E1 & E)|(e & E1 & _)].
    + pose proof (Hbody x _ _ _ Hx E1) as H1. etrans; [exact H1|].
      eapply IH; [|exact E]. eapply Forall_impl; [exact Hxs|].
      intros y. by apply Hstable.
    + by eapply Hbody.
Qed.

Ltac frame_known ::=
  first
    [ apply write_prop_caches
    | apply removeCachedDiagram_caches
    | apply setCachedDiagram_caches
    | match goal with
      | |- preserves caches (mbind _ (toDiagram _)) =>
          apply bind_toDiagram_caches
      | |- preserves caches (mbind _ (map_each toDiagram _)) =>
          apply map_each_toDiagram_caches
      | |- preserves_if _ caches (mbind _ (setCachedDiagram _)) =>
          apply preserves_if_bind; [tc_solve|apply setCachedDiagram_caches|]
      | |- preserves_if (λ s, is_object (st_heap s) _) caches (mbind _ _) =>
          apply preserves_if_keep;
            [tc_solve|intros ? ?; apply is_object_stable| |]
      end
    | apply preserves_quiet_caches; solve [auto with frame]
    | apply enqueueMutation_preserves;
        [tc_solve|tc_solve
        |intros ? ?; apply quiet_caches; reflexivity|] ].

Lemma fetchDiagram_caches id : preserves caches (fetchDiagram id).
Proof. unfold fetchDiagram, cache_get. frame. Qed.
Lemma saveDiagram_caches d : preserves caches (saveDiagram d).
Proof. unfold saveDiagram. frame. Qed.
#[local] Hint Resolve fetchDiagram_caches saveDiagram_caches : frame.

Lemma mutateDiagram_caches id mutator :
  (∀ d, preserves caches (mutator d)) →
  preserves caches (mutateDiagram id mutator).
Proof. intros Hm. unfold mutateDiagram. frame. Qed.

Lemma resolveDiagramIdByEntity_caches e c :
  preserves caches (resolveDiagramIdByEntity e c).
Proof. unfold resolveDiagramIdByEntity. frame. Qed.
#[local] Hint Resolve resolveDiagramIdByEntity_caches : frame.

Lemma listDiagrams_caches options : preserves caches (listDiagrams options).
Proof.
  unfold listDiagrams. destruct (hasIncludeOptions options).
  - apply preserves_mbind; [tc_solve|frame|]. intros raw.
    apply preserves_mbind; [tc_solve|frame|]. intros h.
    apply preserves_mbind; [tc_solve|frame|]. intros raws.
    apply map_each_toDiagram_caches. intros ds.
    apply preserves_if_keep; [tc_solve| |frame|].
    { intros s s' HR Hds. eapply Forall_impl; [exact Hds|].
      intros d. by apply is_object_stable. }
    intros result. apply preserves_if_bind; [tc_solve| |frame].
    apply (for_each_if (λ d s, is_object (st_heap s) d)).
    + intros d s s'. apply is_object_stable.
    + intros d. apply setCachedDiagram_caches.
  - apply preserves_mbind; [tc_solve|frame|]. intros raw.
    apply preserves_mbind; [tc_solve|frame|]. intros h.
    apply preserves_mbind; [tc_solve|frame|]. intros raws.
    apply map_each_toDiagram_caches. intros ds.
    apply preserves_if_keep; [tc_solve| |frame|].
    { intros s s' HR Hds. eapply Forall_impl; [exact Hds|].
      intros d. by apply is_object_stable. }
    intros result. apply preserves_if_bind; [tc_solve| |frame].
    apply (for_each_if (λ d s, is_object (st_heap s) d)).
    + intros d s s'. apply is_object_stable.
    + intros d s o s' Hd E.
      apply bind_inv in E as [(h1 & s0 & E0 & E)|(e & E0 & _)];
        [|discriminate E0].
      apply gets_inv in E0 as [[= ->] ->].
      apply bind_inv in E as [(existing & s0 & E0 & E)|(e & E0 & _)];
        [|discriminate E0].
      apply gets_inv in E0 as [[= ->] ->].
      destruct (map_get _ _) as [e|].
      * revert E. apply bind_alloc_caches. intros m.
        apply setCachedDiagram_caches.
      * by eapply setCachedDiagram_caches.
Qed.

Lemma run_caches op : preserves caches (run op).
Proof.
  destruct op; simpl.
  - unfold getConfig. frame.
  - unfold updateConfig. frame.
  - unfold getDiagramFilter, try_catch. apply preserves_quiet_caches.
    intros s o s'. destruct (request _ _ _ s) as [[v|e] s1] eqn:E;
      intros [= <- <-]; by eapply request_quiet.
  - unfold updateDiagramFilter. frame.
  - unfold deleteDiagramFilter. frame.
  - unfold addDiagram. frame.
  - apply listDiagrams_caches.
  - unfold getDiagram. frame.
  - unfold updateDiagram. frame.
  - unfold deleteDiagram. frame.
  - unfold addEntity. frame.
  - unfold getEntity. frame.
  - unfold updateEntity. frame.
  - unfold putTable. frame.
  - unfold deleteEntity. frame.
  - unfold listEntities. frame.
  - unfold deleteDiagramEntities. frame.
Qed.

Lemma cached_objects_caches s s' :
  caches s s' → cached_objects s → cached_objects s'.
Proof.
  intros [Hstay Hc] Hco. unfold cached_objects in *.
  rewrite Forall_forall in Hco |- *. intros e He.
  assert (is_object (st_heap s') (VRef e.2)) as (l & props & [= <-] & Hl);
    [|by exists props].
  destruct (Hc e He) as [He0|?]; [|done]. apply Hstay.
  destruct (Hco e He0) as [props Hp]. by exists e.2, props.
Qed.

(** X16. The cache only ever holds objects.  Whatever operations are run on the
    provider as mounted, with whatever arguments, whatever the store
    answers and however the operations end, every cached diagram is an
    object of the heap; and this is kept by every operation from any state
    of which it holds. *)
Theorem cache_holds_objects (ops : list operation) (srv : remote) :
  cached_objects (run_all ops (mounted srv)) ∧
  ∀ s, cached_objects s → cached_objects (run_all ops s).
Proof.
  assert (∀ s, cached_objects s → cached_objects (run_all ops s)) as Hall.
  { induction ops as [|op ops IH]; intros s Hs; [done|]. simpl.
    apply IH. destruct (run op s) as [o s'] eqn:E.
    eapply cached_objects_caches; [|exact Hs]. by eapply run_caches. }
  split; [|done]. apply Hall. constructor.
Qed.

End Invariant.

End CoordinatorInvariant.

Module CoordinatorUpdate.
Import Coordinator CoordinatorFacts
  CoordinatorCopy CoordinatorListing CoordinatorFrame CoordinatorDiagrams
  CoordinatorCache CoordinatorInvariant.

Section Update.
Context `{Builtins}.

Lemma removeCachedDiagram_Fulfilled id s u s' :
  removeCachedDiagram id s = (Fulfilled u, s') →
  st_heap s' = st_heap s ∧ calls s' = calls s ∧
  diagramsCache s' = map_delete (VString id) (diagramsCache s).
Proof.
  unfold removeCachedDiagram. intros E.
  apply bind_Fulfilled in E as (existing & s0 & E0 & E).
  apply gets_inv in E0 as [_ ->].
  apply bind_Fulfilled in E as ([] & s1 & E1 & E).
  assert (owners_only s s1) as (Hh & Hc & _ & _ & Hcl & _).
  { destruct existing; [by eapply clearOwnersForDiagram_owners|].
    by apply ret_inv in E1 as [_ ->]. }
  apply bind_Fulfilled in E as ([] & s2 & E2 & E).
  apply modify_inv in E2 as [_ ->]. apply modify_inv in E as [_ ->].
  simpl. by rewrite Hh, Hc, Hcl.
Qed.



End Update.



End CoordinatorUpdate.

Module CoordinatorOwners.
Import Coordinator CoordinatorFacts CoordinatorCopy CoordinatorListing CoordinatorFrame CoordinatorCache
  CoordinatorInvariant.

Section Owners.
Context `{Builtins}.

(** ** [resolveDiagramIdByEntity] *)

Lemma first_owner_Some {A} R `{!Reflexive R} `{!Transitive R}
    (body : A → M (option val)) xs :
  (∀ x, preserves R (body x)) →
  ∀ s o s',
    first_owner body xs s = (Fulfilled (Some o), s') →
    ∃ x sx, x ∈ xs ∧ R s sx ∧ body x sx = (Fulfilled (Some o), s').
Proof.
  intros Hbody. induction xs as [|x xs IH]; intros s o s'; cbn [first_owner].
  - intros [[=] _]%ret_inv.
  - intros E. apply bind_Fulfilled in E as ([o1|] & s1 & E1 & E).
    + apply ret_inv in E as [[= ->] ->]. exists x, s. by split; [left|].
    + pose proof (Hbody _ _ _ _ E1) as H1.
      apply IH in E as (y & sy & Hy & HR & E). exists y, sy.
      split; [by right|]. split; [by etrans|done].
Qed.

Lemma strict_eq_string v x : strict_eq v (VString x) = true → v = VString x.
Proof.
  destruct v; simpl; try discriminate; intros Hb;
    by apply bool_decide_eq_true in Hb.
Qed.

Lemma find_first_id h entityId xs :
  ∀ s item s',
    find_first (λ item, id ← await (member h item "id");
                        ret (strict_eq id (VString entityId))) xs s
    = (Fulfilled (Some item), s') →
    s' = s ∧ item ∈ xs ∧ member h item "id" = Fulfilled (VString entityId).
Proof.
  induction xs as [|x xs IH]; intros s item s'; cbn [find_first].
  - intros [[=] _]%ret_inv.
  - intros E. apply bind_Fulfilled in E as (b & s1 & E1 & E).
    apply bind_Fulfilled in E1 as (id & s0 & E0 & E1).
    apply await_Fulfilled in E0 as [Hid ->].
    apply ret_inv in E1 as [[= ->] ->].
    destruct (strict_eq id (VString entityId)) eqn:Hb.
    + apply ret_inv in E as [[= ->] ->]. split; [done|]. split; [by left|].
      by rewrite Hid, (strict_eq_string _ _ Hb).
    + apply IH in E as (-> & Hin & Hm). split; [done|]. split; [by right|done].
Qed.

Lemma has_entity_true h d c entityId s s' :
  has_entity h d c entityId s = (Fulfilled true, s') →
  s' = s ∧ holds_entity h d c entityId.
Proof.
  unfold has_entity.
  destruct (read_prop h d (kind_key c)) as [| | | | |l] eqn:Hr;
    try (by intros [[=] _]%ret_inv).
  all: intros E; apply bind_Fulfilled in E as (xs & s1 & E1 & E);
    apply or_throw_Fulfilled in E1 as [Hxs ->]; try discriminate Hxs.
  apply bind_Fulfilled in E as (found & s1 & E1 & E).
  apply ret_inv in E as [[= Hb] ->].
  destruct found as [item|]; [|by rewrite bool_decide_false in Hb by (by intros [??])].
  apply find_first_id in E1 as (-> & Hin & Hm). split; [done|].
  exists xs, item. by rewrite Hr.
Qed.

Lemma scan_diagram_Some c entityId d s o s' :
  scan_diagram c entityId d s = (Fulfilled (Some o), s') →
  o = read_prop (st_heap s) d "id" ∧
  holds_entity (st_heap s) d c entityId ∧
  st_heap s' = st_heap s ∧ diagramsCache s' = diagramsCache s ∧
  calls s' = calls s ∧
  map_get (VString entityId) (owners s' c) = Some o.
Proof.
  unfold scan_diagram. intros E.
  apply bind_Fulfilled in E as (h & s0 & E0 & E).
  apply gets_inv in E0 as [[= ->] ->].
  apply bind_Fulfilled in E as (found & s1 & E1 & E).
  destruct found; [|by apply ret_inv in E as [[=] _]].
  apply has_entity_true in E1 as [-> Hholds].
  apply bind_Fulfilled in E as ([] & s2 & E2 & E).
  apply modify_inv in E2 as [_ ->]. apply ret_inv in E as [[= <-] ->].
  repeat (split; [done|]). simpl. rewrite decide_True by done.
  rewrite map_get_set. by rewrite decide_True.
Qed.

Lemma elem_of_map_set {V} k (v : V) m : v ∈ (map_set k v m).*2.
Proof.
  unfold map_set. induction m as [|[k0 v0] m IH]; simpl.
  - by left.
  - destruct (decide (map_key k = k0)); simpl; [by left|by right].
Qed.

(** X19. [resolveDiagramIdByEntity] answers from the owner index or
    leaves its answer there.  When it fulfils with an owner, either the
    index of the collection held that owner for the entity, the owner is
    truthy and nothing has changed, no request made; or the index had
    nothing truthy for the entity and the owner is the [id] of a diagram
    that is cached afterwards, one of whose elements in the collection has
    the entity's id.  Either way the index holds the owner for the entity
    afterwards. *)
Theorem resolveDiagramIdByEntity_records_owner (entityId : string) (c : kind)
    (s s' : state) (o : val) :
  resolveDiagramIdByEntity entityId c s = (Fulfilled o, s') →
  map_get (VString entityId) (owners s' c) = Some o ∧
  ((map_get (VString entityId) (owners s c) = Some o ∧ truthy o = true ∧ s' = s)
   ∨ (truthy (default VUndefined (map_get (VString entityId) (owners s c)))
        = false ∧
      ∃ l, l ∈ (diagramsCache s').*2 ∧
           o = read_prop (st_heap s') (VRef l) "id" ∧
           holds_entity (st_heap s') (VRef l) c entityId)).
Proof.
  unfold resolveDiagramIdByEntity. intros E.
  apply bind_Fulfilled in E as (cachedOwner & s0 & E0 & E).
  apply gets_inv in E0 as [[= ->] ->].
  assert (∀ s1,
            first_owner (λ l, scan_diagram c entityId (VRef l))
              (diagramsCache s).*2 s = (Fulfilled (Some o), s1) →
            map_get (VString entityId) (owners s1 c) = Some o ∧
            ∃ l, l ∈ (diagramsCache s1).*2 ∧
                 o = read_prop (st_heap s1) (VRef l) "id" ∧
                 holds_entity (st_heap s1) (VRef l) c entityId) as Hcache.
  { intros s1 E1.
    apply (first_owner_Some quiet) in E1 as (l & sx & Hl & [_ Hcx] & E1).
    2:{ intros l. apply scan_diagram_quiet. }
    apply scan_diagram_Some in E1 as (-> & Hholds & Hh & Hc & _ & Hown).
    split; [done|]. exists l. rewrite Hh, Hc, Hcx. done. }
  assert (∀ sr raws s1,
            first_owner
              (λ raw, diagram ← toDiagram raw;
                      setCachedDiagram diagram;;
                      scan_diagram c entityId diagram) raws sr
            = (Fulfilled (Some o), s1) →
            map_get (VString entityId) (owners s1 c) = Some o ∧
            ∃ l, l ∈ (diagramsCache s1).*2 ∧
                 o = read_prop (st_heap s1) (VRef l) "id" ∧
                 holds_entity (st_heap s1) (VRef l) c entityId) as Hlist.
  { intros sr raws s1 E1.
    apply (first_owner_Some grows) in E1 as (raw & sx & _ & _ & E1).
    2:{ intros raw. apply preserves_mbind; [tc_solve|apply toDiagram_grows|].
        intros d. apply preserves_mbind; [tc_solve|apply setCachedDiagram_grows|].
        intros _. apply scan_diagram_grows. }
    apply bind_Fulfilled in E1 as (d & sa & Ea & E1).
    apply bind_Fulfilled in E1 as ([] & sb & Eb & E1).
    apply setCachedDiagram_Fulfilled in Eb as (l & -> & Hhb & Hcb & _).
    apply scan_diagram_Some in E1 as (-> & Hholds & Hh & Hc & _ & Hown).
    split; [done|]. exists l. rewrite Hh, Hc, Hcb.
    split; [apply elem_of_map_set|done]. }
  assert (truthy (default VUndefined
                    (map_get (VString entityId) (owners s c))) = false →
          map_get (VString entityId) (owners s' c) = Some o ∧
          ∃ l, l ∈ (diagramsCache s').*2 ∧
               o = read_prop (st_heap s') (VRef l) "id" ∧
               holds_entity (st_heap s') (VRef l) c entityId) as Hscan.
  { intros Ht. rewrite Ht in E.
    apply bind_Fulfilled in E as (cached & s0 & E0 & E).
    apply gets_inv in E0 as [[= ->] ->].
    apply bind_Fulfilled in E as ([hit|] & s1 & E1 & E).
    { apply ret_inv in E as [[= ->] ->]. by apply Hcache. }
    apply bind_Fulfilled in E as (rawList & s2 & E2 & E).
    apply bind_Fulfilled in E as (h & s0 & E0 & E).
    apply gets_inv in E0 as [[= ->] ->].
    apply bind_Fulfilled in E as (raws & s0 & E0 & E).
    apply or_throw_Fulfilled in E0 as [_ ->].
    apply bind_Fulfilled in E as ([hit|] & s3 & E3 & E); [|discriminate E].
    apply ret_inv in E as [[= ->] ->]. by eapply Hlist. }
  destruct (truthy (default VUndefined
                      (map_get (VString entityId) (owners s c)))) eqn:Ht.
  - apply ret_inv in E as [[= ->] ->]. clear Hscan Hcache Hlist.
    destruct (map_get (VString entityId) (owners s c)) as [v|]; [|done].
    split; [done|]. by left.
  - destruct (Hscan eq_refl) as [Hown Hl]. split; [done|]. by right.
Qed.

End Owners.

Lemma resolveDiagramIdByEntity_records_owner_witness :
  let s0 := @mounted scripted
    [Response 200 (Some (JArray [JObject
       [("id", JString "d1"); ("name", JString "Shop");
        ("tables", JArray [JObject [("id", JString "t1");
                                    ("name", JString "users")]])]]))] in
  ∃ s' l,
    @resolveDiagramIdByEntity scripted "t1" tables s0
    = (Fulfilled (VString "d1"), s') ∧
    map_get (VString "t1") (owners s' tables) = Some (VString "d1") ∧
    l ∈ (diagramsCache s').*2 ∧
    @holds_entity (st_heap s') (VRef l) tables "t1".
Proof.
  intros s0.
  assert ((@resolveDiagramIdByEntity scripted "t1" tables s0).1
          = Fulfilled (VString "d1")) as Hr by (vm_compute; reflexivity).
  destruct (@resolveDiagramIdByEntity scripted "t1" tables s0) as [o s'] eqn:E.
  simpl in Hr. subst o.
  destruct (@resolveDiagramIdByEntity_records_owner scripted "t1" tables
              s0 s' (VString "d1") E) as [Hown [(Hold & _)|(_ & l & Hl & _ & Hholds)]].
  - discriminate Hold.
  - exists s', l. split; [reflexivity|]. split; [exact Hown|].
    split; [exact Hl|exact Hholds].
Defined.

End CoordinatorOwners.
